(** * Data-Structure-Visualizer: the data structures of [data.cpp]

    A shallow embedding of [src/data.cpp] and the proofs of its specified
    properties.

    Conventions of the embedding:
    - a C++ [int] is a [Z]; where the source does arithmetic that can leave
      the 32-bit range the wrap-around is written out ([wrap32]) and the
      theorems have the hypotheses under which nothing wraps; in
      [intToString] and in the counters of [Queue] and [Stack], which have
      no such bound, the overflow of a signed operation is what it is in
      C++, undefined behaviour;
    - an array is a [list]; a read or write out of range, like a null
      pointer dereference, is undefined behaviour in C++ and is the result
      [Undefined] here;
    - a [while] loop or a recursion that is not structural runs on a fuel
      counter and ends in [OutOfFuel] when the
      counter is used up; the theorems show that this does not happen;
    - an object reached through a pointer the caller keeps ([Graph*]) lives
      in a store of objects indexed by addresses. *)

From stdpp Require Import base numbers list sorting gmap strings pretty.
From Stdlib Require Import ZArith Lia.

Local Open Scope Z_scope.

(** ** Results of partial computations *)

Inductive result (A : Type) : Type :=
| Ok (a : A)
| Undefined
| OutOfFuel.
Arguments Ok {A} a.
Arguments Undefined {A}.
Arguments OutOfFuel {A}.

#[global] Instance result_ret : MRet result := fun A a => Ok a.
#[global] Instance result_bind : MBind result := fun A B f m =>
  match m with
  | Ok a => f a
  | Undefined => Undefined
  | OutOfFuel => OutOfFuel
  end.

(** ** 32-bit integers *)

Definition INT_MIN : Z := - 2 ^ 31.
Definition INT_MAX : Z := 2 ^ 31 - 1.
Definition is_int (z : Z) : Prop := INT_MIN <= z <= INT_MAX.
Definition wrap32 (z : Z) : Z := (z + 2 ^ 31) mod 2 ^ 32 - 2 ^ 31.
Definition add32 (a b : Z) : Z := wrap32 (a + b).
Definition sub32 (a b : Z) : Z := wrap32 (a - b).
Definition mul32 (a b : Z) : Z := wrap32 (a * b).
Definition neg32 (a : Z) : Z := wrap32 (- a).

(** [-a], [a + 1] and [a - 1] where the overflow of the signed operation is
    kept as what it is in C++, undefined behaviour. *)
Definition neg_int (a : Z) : result Z :=
  if decide (is_int (- a)) then Ok (- a) else Undefined.
Definition incr_int (a : Z) : result Z :=
  if decide (is_int (a + 1)) then Ok (a + 1) else Undefined.
Definition decr_int (a : Z) : result Z :=
  if decide (is_int (a - 1)) then Ok (a - 1) else Undefined.

(** ** Arrays *)

(** [a[i]] as an r-value. *)
Definition rd {A} (a : list A) (i : Z) : result A :=
  if decide (0 <= i) then
    match a !! Z.to_nat i with
    | Some x => Ok x
    | None => Undefined
    end
  else Undefined.

(** [a[i] = x]. *)
Definition wr {A} (a : list A) (i : Z) (x : A) : result (list A) :=
  if decide (0 <= i < Z.of_nat (length a)) then Ok (<[Z.to_nat i := x]> a)
  else Undefined.

(** [m[i][j]] and [m[i][j] = x] on an array of row pointers. *)
Definition rd2 {A} (m : list (list A)) (i j : Z) : result A :=
  row ← rd m i; rd row j.
Definition wr2 {A} (m : list (list A)) (i j : Z) (x : A) : result (list (list A)) :=
  row ← rd m i; row' ← wr row j x; wr m i row'.

(** A [for] loop over the index values [l], threading the loop state. *)
Fixpoint for_each {S} (l : list Z) (body : Z -> S -> result S) (s : S) : result S :=
  match l with
  | [] => Ok s
  | i :: l' => s' ← body i s; for_each l' body s'
  end.

(** [for (int i = lo; i < hi; i++)] *)
Definition upto (lo hi : Z) : list Z := seqZ lo (hi - lo).
(** [for (int i = hi - 1; i >= lo; i--)] *)
Definition downto (hi lo : Z) : list Z := reverse (seqZ lo (hi - lo)).

(** ** intToString *)

Definition digit_char (d : Z) : Ascii.ascii :=
  Ascii.ascii_of_nat (48 + Z.to_nat d).

(** The [while (num > 0)] loop of [intToString]. *)
Fixpoint intToString_loop (fuel : nat) (num : Z) (res : string) : result string :=
  match fuel with
  | O => OutOfFuel
  | S fuel' =>
      if decide (num > 0) then
        intToString_loop fuel' (num ÷ 10) (String (digit_char (Z.rem num 10)) res)
      else Ok res
  end.

Definition intToString (num : Z) : result string :=
  if decide (num = 0) then Ok "0"%string
  else
    let negative := bool_decide (num < 0) in
    num ← (if negative then neg_int num else Ok num);
    (* a number has no more decimal digits than binary digits *)
    res ← intToString_loop (S (S (Z.to_nat (Z.log2 num)))) num ""%string;
    Ok (if negative then ("-" +:+ res)%string else res).

(** ** Graph on an adjacency matrix *)

Record Graph : Type := mkGraph {
  n : Z;
  adjMatrix : list (list Z);
  isDirected : bool
}.

(** [Graph(vertices, directed)]; [new int*[n]] with a negative [n] does not
    return an array. *)
Definition Graph_new (vertices : Z) (directed : bool) : result Graph :=
  if decide (vertices < 0) then Undefined
  else Ok (mkGraph vertices
             (replicate (Z.to_nat vertices) (replicate (Z.to_nat vertices) 0))
             directed).

Definition in_range (g : Graph) (u : Z) : bool :=
  bool_decide (u >= 0) && bool_decide (u < n g).

Definition addEdge (g : Graph) (u v w : Z) : result Graph :=
  if in_range g u && in_range g v then
    m ← wr2 (adjMatrix g) u v w;
    if negb (isDirected g) && negb (bool_decide (u = v)) then
      m ← wr2 m v u w;
      Ok (mkGraph (n g) m (isDirected g))
    else Ok (mkGraph (n g) m (isDirected g))
  else Ok g.

Definition removeEdge (g : Graph) (u v : Z) : result Graph :=
  if in_range g u && in_range g v then
    m ← wr2 (adjMatrix g) u v 0;
    if negb (isDirected g) then
      m ← wr2 m v u 0;
      Ok (mkGraph (n g) m (isDirected g))
    else Ok (mkGraph (n g) m (isDirected g))
  else Ok g.

(** The body of the inner loop of [setDirected] for the pair [i], [j]. *)
Definition setDirected_pair (i j : Z) (m : list (list Z)) : result (list (list Z)) :=
  a ← rd2 m i j;
  cond ← (if bool_decide (a ≠ 0) then Ok true
          else b ← rd2 m j i; Ok (bool_decide (b ≠ 0)));
  if cond : bool then
    a ← rd2 m i j;
    weight ← (if bool_decide (a ≠ 0) then rd2 m i j else rd2 m j i);
    m ← wr2 m i j weight;
    wr2 m j i weight
  else Ok m.

Definition setDirected (g : Graph) (directed : bool) : result Graph :=
  if negb directed then
    m ← for_each (upto 0 (n g)) (fun i m =>
          for_each (upto (i + 1) (n g)) (fun j m => setDirected_pair i j m) m)
        (adjMatrix g);
    Ok (mkGraph (n g) m directed)
  else Ok (mkGraph (n g) (adjMatrix g) directed).

Definition getIsDirected (g : Graph) : bool := isDirected g.
Definition getVertexCount (g : Graph) : Z := n g.

Definition clear (g : Graph) : result Graph :=
  m ← for_each (upto 0 (n g)) (fun i m =>
        for_each (upto 0 (n g)) (fun j m => wr2 m i j 0) m)
      (adjMatrix g);
  Ok (mkGraph (n g) m (isDirected g)).

(** *** The store of Graph objects *)

(** [removeVertex] hands out a [Graph*]: either [this] or the address of a
    new object.  A store maps the addresses of the live Graph objects to
    their contents. *)
Abbreviation addr := positive.
Abbreviation store := (gmap positive Graph).

(** State of the loops of [removeVertex]: the graph under construction and
    the counter [newI] (resp. [newJ]). *)
Definition removeVertex_row (g : Graph) (vertex i newI : Z) (newGraph : Graph)
  : result Graph :=
  '(newGraph, _) ← for_each (upto 0 (n g)) (fun j '(newGraph, newJ) =>
      if bool_decide (j = vertex) then Ok (newGraph, newJ)
      else
        a ← rd2 (adjMatrix g) i j;
        newGraph ← (if bool_decide (a ≠ 0) then addEdge newGraph newI newJ a
                    else Ok newGraph);
        Ok (newGraph, newJ + 1))
    (newGraph, 0);
  Ok newGraph.

Definition removeVertex (σ : store) (this : addr) (vertex : Z)
  : result (store * addr) :=
  match σ !! this with
  | None => Undefined
  | Some g =>
      if bool_decide (vertex < 0) || bool_decide (vertex >= n g) then Ok (σ, this)
      else
        newGraph ← Graph_new (n g - 1) (isDirected g);
        '(newGraph, _) ← for_each (upto 0 (n g)) (fun i '(newGraph, newI) =>
            if bool_decide (i = vertex) then Ok (newGraph, newI)
            else
              newGraph ← removeVertex_row g vertex i newI newGraph;
              Ok (newGraph, newI + 1))
          (newGraph, 0);
        let p := fresh (dom σ) in
        Ok (<[p := newGraph]> σ, p)
  end.

(** ** Queue and Stack *)

(** A [Queue] object: the values in its linked list, from [front] to
    [rear], and the counter [size], which is what [empty()] looks at. The
    nodes and the pointers of the list are modelled in [LinkedQueue]
    below. *)
Record Queue : Type := mkQueue { Queue_items : list Z; Queue_size : Z }.

Definition Queue_new : Queue := mkQueue [] 0.

Definition Queue_empty (q : Queue) : bool := bool_decide (Queue_size q = 0).

Definition enqueue (q : Queue) (data : Z) : result Queue :=
  size ← incr_int (Queue_size q);
  Ok (mkQueue (Queue_items q ++ [data]) size).

(** [front->next] and [front->data] on a null [front] are undefined. *)
Definition dequeue (q : Queue) : result Queue :=
  if Queue_empty q then Ok q
  else
    match Queue_items q with
    | [] => Undefined
    | _ :: items => size ← decr_int (Queue_size q); Ok (mkQueue items size)
    end.

Definition Front (q : Queue) : result Z :=
  if Queue_empty q then Ok (-1)
  else
    match Queue_items q with
    | [] => Undefined
    | x :: _ => Ok x
    end.

(** A [Stack] object: the values in its linked list, from [top] down, and
    the counter [size]. *)
Record Stack : Type := mkStack { Stack_items : list Z; Stack_size : Z }.

Definition Stack_new : Stack := mkStack [] 0.

Definition Stack_empty (s : Stack) : bool := bool_decide (Stack_size s = 0).

Definition Stack_push (s : Stack) (data : Z) : result Stack :=
  size ← incr_int (Stack_size s);
  Ok (mkStack (data :: Stack_items s) size).

Definition Stack_pop (s : Stack) : result Stack :=
  if Stack_empty s then Ok s
  else
    match Stack_items s with
    | [] => Undefined
    | _ :: items => size ← decr_int (Stack_size s); Ok (mkStack items size)
    end.

Definition Top (s : Stack) : result Z :=
  if Stack_empty s then Ok (-1)
  else
    match Stack_items s with
    | [] => Undefined
    | x :: _ => Ok x
    end.

(** ** MinHeap (for Prim and Dijkstra) *)

Record PQNode : Type := mkPQNode { vertex : Z; key : Z }.

(** [heap] is the array of [capacity + 1] cells; the entries are in the
    cells [1 .. size]. *)
Record MinHeap : Type := mkMinHeap {
  heap : list PQNode;
  size : Z;
  capacity : Z
}.

(** [swap(a[i], a[j])] *)
Definition swap {A} (a : list A) (i j : Z) : result (list A) :=
  x ← rd a i; y ← rd a j; a ← wr a i y; wr a j x.

(** An index below [2^31] halves at most 31 times before it reaches 1, and
    doubles at most 31 times before it passes [size]. *)
Definition heapify_fuel : nat := 32.

Fixpoint heapifyUp_loop (fuel : nat) (heap : list PQNode) (i : Z)
  : result (list PQNode) :=
  match fuel with
  | O => OutOfFuel
  | S fuel' =>
      if bool_decide (i > 1) then
        a ← rd heap i;
        b ← rd heap (i ÷ 2);
        if bool_decide (key a < key b) then
          heap ← swap heap i (i ÷ 2);
          heapifyUp_loop fuel' heap (i ÷ 2)
        else Ok heap
      else Ok heap
  end.

Definition heapifyUp (h : MinHeap) (i : Z) : result MinHeap :=
  heap' ← heapifyUp_loop heapify_fuel (heap h) i;
  Ok (mkMinHeap heap' (size h) (capacity h)).

Fixpoint heapifyDown_rec (fuel : nat) (heap : list PQNode) (size : Z) (i : Z)
  : result (list PQNode) :=
  match fuel with
  | O => OutOfFuel
  | S fuel' =>
      let smallest := i in
      let left := mul32 2 i in
      let right := add32 (mul32 2 i) 1 in
      smallest ← (if bool_decide (left <= size) then
                    a ← rd heap left; b ← rd heap smallest;
                    Ok (if bool_decide (key a < key b) then left else smallest)
                  else Ok smallest);
      smallest ← (if bool_decide (right <= size) then
                    a ← rd heap right; b ← rd heap smallest;
                    Ok (if bool_decide (key a < key b) then right else smallest)
                  else Ok smallest);
      if bool_decide (smallest ≠ i) then
        heap ← swap heap i smallest;
        heapifyDown_rec fuel' heap size smallest
      else Ok heap
  end.

Definition heapifyDown (h : MinHeap) (i : Z) : result MinHeap :=
  heap' ← heapifyDown_rec heapify_fuel (heap h) (size h) i;
  Ok (mkMinHeap heap' (size h) (capacity h)).

(** [MinHeap(cap)]: the cells of [new PQNode[capacity + 1]] hold no entry
    yet; no cell is read before [push] has written it. *)
Definition MinHeap_new (cap : Z) : result MinHeap :=
  if decide (add32 cap 1 < 0) then Undefined
  else Ok (mkMinHeap (replicate (Z.to_nat (add32 cap 1)) (mkPQNode 0 0)) 0 cap).

Definition push (h : MinHeap) (vertex key : Z) : result MinHeap :=
  if bool_decide (size h >= capacity h) then Ok h
  else
    let size' := add32 (size h) 1 in
    heap' ← wr (heap h) size' (mkPQNode vertex key);
    heapifyUp (mkMinHeap heap' size' (capacity h)) size'.

Definition pop (h : MinHeap) : result (PQNode * MinHeap) :=
  if bool_decide (size h = 0) then Ok (mkPQNode (-1) 999999, h)
  else
    top ← rd (heap h) 1;
    last ← rd (heap h) (size h);
    heap' ← wr (heap h) 1 last;
    let h := mkMinHeap heap' (sub32 (size h) 1) (capacity h) in
    h ← (if bool_decide (size h > 0) then heapifyDown h 1 else Ok h);
    Ok (top, h).

Definition MinHeap_empty (h : MinHeap) : bool := bool_decide (size h = 0).

(** ** Graph traversals *)

(** [for (int i = 0; i < n; i++) a[i] = x;] on the array [a]. *)
Definition fill {A} (a : list A) (k : Z) (x : A) : result (list A) :=
  for_each (upto 0 k) (fun i a => wr a i x) a.

(** [new T[k]]: the cells hold [x] until they are written. *)
Definition new_array {A} (k : Z) (x : A) : result (list A) :=
  if decide (k < 0) then Undefined else Ok (replicate (Z.to_nat k) x).

(** [if (!first) result += ","; first = false; result += item;] on the
    string [res] built by a traversal. *)
Definition emit (res : string) (first : bool) (item : string) : string * bool :=
  ((if negb first then res +:+ "," else res) +:+ item, false)%string.

(** The [for] loop of [bfs] over the neighbours of [node]. *)
Definition bfs_neighbors (g : Graph) (node : Z) (visited : list bool) (q : Queue)
  : result (list bool * Queue) :=
  for_each (upto 0 (n g)) (fun neighbor '(visited, q) =>
      a ← rd2 (adjMatrix g) node neighbor;
      if bool_decide (a ≠ 0) then
        seen ← rd visited neighbor;
        if negb seen then
          visited ← wr visited neighbor true;
          q ← enqueue q neighbor;
          Ok (visited, q)
        else Ok (visited, q)
      else Ok (visited, q))
    (visited, q).

Fixpoint bfs_loop (fuel : nat) (g : Graph) (visited : list bool) (q : Queue)
    (res : string) (first : bool) : result string :=
  match fuel with
  | O => OutOfFuel
  | S fuel' =>
      if negb (Queue_empty q) then
        node ← Front q;
        q ← dequeue q;
        text ← intToString node;
        let '(res, first) := emit res first text in
        '(visited, q) ← bfs_neighbors g node visited q;
        bfs_loop fuel' g visited q res first
      else Ok res
  end.

Definition bfs (g : Graph) (start : Z) : result string :=
  if bool_decide (start < 0) || bool_decide (start >= n g) then Ok "[]"%string
  else
    visited ← new_array (n g) false;
    visited ← fill visited (n g) false;
    let q := Queue_new in
    visited ← wr visited start true;
    q ← enqueue q start;
    (* every vertex is dequeued at most once *)
    res ← bfs_loop (S (Z.to_nat (n g))) g visited q "["%string true;
    Ok (res +:+ "]")%string.

(** The [for] loop of [dfs] over the neighbours of [node], downwards. *)
Definition dfs_neighbors (g : Graph) (node : Z) (visited : list bool) (s : Stack)
  : result Stack :=
  for_each (downto (n g) 0) (fun neighbor s =>
      a ← rd2 (adjMatrix g) node neighbor;
      if bool_decide (a ≠ 0) then
        seen ← rd visited neighbor;
        if negb seen then Stack_push s neighbor else Ok s
      else Ok s)
    s.

Fixpoint dfs_loop (fuel : nat) (g : Graph) (visited : list bool) (s : Stack)
    (res : string) (first : bool) : result string :=
  match fuel with
  | O => OutOfFuel
  | S fuel' =>
      if negb (Stack_empty s) then
        node ← Top s;
        s ← Stack_pop s;
        seen ← rd visited node;
        if negb seen then
          visited ← wr visited node true;
          text ← intToString node;
          let '(res, first) := emit res first text in
          s ← dfs_neighbors g node visited s;
          dfs_loop fuel' g visited s res first
        else dfs_loop fuel' g visited s res first
      else Ok res
  end.

Definition dfs (g : Graph) (start : Z) : result string :=
  if bool_decide (start < 0) || bool_decide (start >= n g) then Ok "[]"%string
  else
    visited ← new_array (n g) false;
    visited ← fill visited (n g) false;
    let s := Stack_new in
    s ← Stack_push s start;
    (* a vertex is pushed at most once per edge into it, and once as the start *)
    res ← dfs_loop (Z.to_nat (n g * n g + 2)) g visited s "["%string true;
    Ok (res +:+ "]")%string.

(** ** Dijkstra *)

(** The [for] loop of [dijkstra] that relaxes the edges out of [u]. *)
Definition dijkstra_relax (g : Graph) (u : Z) (visited : list bool)
    (dist : list Z) (pq : MinHeap) : result (list Z * MinHeap) :=
  for_each (upto 0 (n g)) (fun v '(dist, pq) =>
      a ← rd2 (adjMatrix g) u v;
      if bool_decide (a ≠ 0) then
        seen ← rd visited v;
        if negb seen then
          weight ← rd2 (adjMatrix g) u v;
          du ← rd dist u;
          dv ← rd dist v;
          if bool_decide (add32 du weight < dv) then
            dist ← wr dist v (add32 du weight);
            dv ← rd dist v;
            pq ← push pq v dv;
            Ok (dist, pq)
          else Ok (dist, pq)
        else Ok (dist, pq)
      else Ok (dist, pq))
    (dist, pq).

Fixpoint dijkstra_loop (fuel : nat) (g : Graph) (dist : list Z)
    (visited : list bool) (pq : MinHeap) : result (list Z) :=
  match fuel with
  | O => OutOfFuel
  | S fuel' =>
      if negb (MinHeap_empty pq) then
        '(current, pq) ← pop pq;
        let u := vertex current in
        seen ← rd visited u;
        if seen : bool then dijkstra_loop fuel' g dist visited pq
        else
          visited ← wr visited u true;
          '(dist, pq) ← dijkstra_relax g u visited dist pq;
          dijkstra_loop fuel' g dist visited pq
      else Ok dist
  end.

(** The loop of [dijkstra] that renders [dist]. *)
Definition dijkstra_render (g : Graph) (dist : list Z) : result string :=
  res ← for_each (upto 0 (n g)) (fun i res =>
      d ← rd dist i;
      text ← intToString d;
      let res := (res +:+ text)%string in
      Ok (if bool_decide (i < n g - 1) then (res +:+ ",")%string else res))
    "["%string;
  Ok (res +:+ "]")%string.

(** The body of [dijkstra] up to the main loop: the array [dist]. *)
Definition dijkstra_dist (g : Graph) (start : Z) : result (list Z) :=
  dist ← new_array (n g) 0;
  visited ← new_array (n g) false;
  '(dist, visited) ← for_each (upto 0 (n g)) (fun i '(dist, visited) =>
      dist ← wr dist i 999999;
      visited ← wr visited i false;
      Ok (dist, visited))
    (dist, visited);
  dist ← wr dist start 0;
  pq ← MinHeap_new (mul32 (n g) (n g));
  pq ← push pq start 0;
  (* every entry of the heap is popped at most once *)
  dijkstra_loop (Z.to_nat (n g * n g + 2)) g dist visited pq.

Definition dijkstra (g : Graph) (start : Z) : result string :=
  if bool_decide (start < 0) || bool_decide (start >= n g) then Ok "[]"%string
  else
    dist ← dijkstra_dist g start;
    dijkstra_render g dist.

(** ** Prim *)

(** The [for] loop of [primMST] over the neighbours of [u]. *)
Definition prim_relax (g : Graph) (u : Z) (inMST : list bool)
    (key : list Z) (parent : list Z) (pq : MinHeap)
  : result (list Z * list Z * MinHeap) :=
  for_each (upto 0 (n g)) (fun v '(key, parent, pq) =>
      a ← rd2 (adjMatrix g) u v;
      if bool_decide (a ≠ 0) then
        inside ← rd inMST v;
        if negb inside then
          a ← rd2 (adjMatrix g) u v;
          kv ← rd key v;
          if bool_decide (a < kv) then
            a ← rd2 (adjMatrix g) u v;
            key ← wr key v a;
            parent ← wr parent v u;
            kv ← rd key v;
            pq ← push pq v kv;
            Ok (key, parent, pq)
          else Ok (key, parent, pq)
        else Ok (key, parent, pq)
      else Ok (key, parent, pq))
    (key, parent, pq).

(** [intToString(p) + "-" + intToString(u) + ":" + intToString(w)] *)
Definition show_edge (p u w : Z) : result string :=
  a ← intToString p; b ← intToString u; c ← intToString w;
  Ok (a +:+ "-" +:+ b +:+ ":" +:+ c)%string.

Fixpoint prim_loop (fuel : nat) (g : Graph) (key parent : list Z)
    (inMST : list bool) (pq : MinHeap) (res : string) (first : bool)
  : result string :=
  match fuel with
  | O => OutOfFuel
  | S fuel' =>
      if negb (MinHeap_empty pq) then
        '(current, pq) ← pop pq;
        let u := vertex current in
        inside ← rd inMST u;
        if inside : bool then prim_loop fuel' g key parent inMST pq res first
        else
          inMST ← wr inMST u true;
          pu ← rd parent u;
          '(res, first) ←
            (if bool_decide (pu ≠ -1) then
               pu ← rd parent u;
               w ← rd2 (adjMatrix g) pu u;
               text ← show_edge pu u w;
               Ok (emit res first text)
             else Ok (res, first));
          '(key, parent, pq) ← prim_relax g u inMST key parent pq;
          prim_loop fuel' g key parent inMST pq res first
      else Ok res
  end.

(** The body of [primMST] from the declaration of the heap on. *)
Definition primMST_main (g : Graph) (key parent : list Z) (inMST : list bool)
  : result string :=
  pq ← MinHeap_new (mul32 (n g) (n g));
  pq ← push pq 0 0;
  (* every entry of the heap is popped at most once *)
  res ← prim_loop (Z.to_nat (n g * n g + 2)) g key parent inMST pq "["%string true;
  Ok (res +:+ "]")%string.

Definition primMST (g : Graph) : result string :=
  if isDirected g then Ok "[]"%string
  else
    key ← new_array (n g) 0;
    parent ← new_array (n g) 0;
    inMST ← new_array (n g) false;
    '(key, parent, inMST) ← for_each (upto 0 (n g))
      (fun i '(key, parent, inMST) =>
        key ← wr key i 999999;
        parent ← wr parent i (-1);
        inMST ← wr inMST i false;
        Ok (key, parent, inMST))
      (key, parent, inMST);
    key ← wr key 0 0;
    primMST_main g key parent inMST.

(** ** AVL tree *)

(** A [Node*]: null or a node with its key, its stored height and its
    children. *)
Inductive tree : Type :=
| null
| node (k : Z) (h : Z) (left right : tree).

Definition max (a b : Z) : Z := if bool_decide (a > b) then a else b.

Definition height (t : tree) : Z :=
  match t with
  | null => 0
  | node _ h _ _ => h
  end.

Definition getBalance (t : tree) : Z :=
  match t with
  | null => 0
  | node _ _ l r => sub32 (height l) (height r)
  end.

(** [1 + max(height(l), height(r))] *)
Definition new_height (l r : tree) : Z := add32 1 (max (height l) (height r)).

(** [t->key]; undefined on null. *)
Definition key_of (t : tree) : result Z :=
  match t with
  | null => Undefined
  | node k _ _ _ => Ok k
  end.

Definition rightRotate (y : tree) : result tree :=
  match y with
  | node yk _ (node xk _ xl T2) yr =>
      let y' := node yk (new_height T2 yr) T2 yr in
      Ok (node xk (new_height xl y') xl y')
  | _ => Undefined
  end.

Definition leftRotate (x : tree) : result tree :=
  match x with
  | node xk _ xl (node yk _ T2 yr) =>
      let x' := node xk (new_height xl T2) xl T2 in
      Ok (node yk (new_height x' yr) x' yr)
  | _ => Undefined
  end.

(** The end of the insert helper: the height update and the four cases,
    for the node with key [k] and children [l] and [r]. *)
Definition insert_rebalance (k : Z) (l r : tree) (key : Z) : result tree :=
  let nd := node k (new_height l r) l r in
  let balance := getBalance nd in
  ll ← (if bool_decide (balance > 1) then lk ← key_of l; Ok (bool_decide (key < lk))
        else Ok false);
  if ll : bool then rightRotate nd
  else
    rr ← (if bool_decide (balance < -1) then rk ← key_of r; Ok (bool_decide (key > rk))
          else Ok false);
    if rr : bool then leftRotate nd
    else
      lr ← (if bool_decide (balance > 1) then lk ← key_of l; Ok (bool_decide (key > lk))
            else Ok false);
      if lr : bool then
        l' ← leftRotate l;
        rightRotate (node k (new_height l r) l' r)
      else
        rl ← (if bool_decide (balance < -1) then rk ← key_of r; Ok (bool_decide (key < rk))
              else Ok false);
        if rl : bool then
          r' ← rightRotate r;
          leftRotate (node k (new_height l r) l r')
        else Ok nd.

Fixpoint insert (nd : tree) (key : Z) : result tree :=
  match nd with
  | null => Ok (node key 1 null null)
  | node k h l r =>
      if bool_decide (key < k) then
        l' ← insert l key; insert_rebalance k l' r key
      else if bool_decide (key > k) then
        r' ← insert r key; insert_rebalance k l r' key
      else Ok nd
  end.

Fixpoint minValueNode (nd : tree) : result tree :=
  match nd with
  | null => Undefined
  | node _ _ null _ => Ok nd
  | node _ _ l _ => minValueNode l
  end.

(** The end of the delete helper, for the node with key [k] and children
    [l] and [r]. *)
Definition remove_rebalance (k : Z) (l r : tree) : result tree :=
  let root := node k (new_height l r) l r in
  let balance := getBalance root in
  if bool_decide (balance > 1) && bool_decide (getBalance l >= 0) then
    rightRotate root
  else if bool_decide (balance > 1) && bool_decide (getBalance l < 0) then
    l' ← leftRotate l;
    rightRotate (node k (new_height l r) l' r)
  else if bool_decide (balance < -1) && bool_decide (getBalance r <= 0) then
    leftRotate root
  else if bool_decide (balance < -1) && bool_decide (getBalance r > 0) then
    r' ← rightRotate r;
    leftRotate (node k (new_height l r) l r')
  else Ok root.

Fixpoint remove (root : tree) (key : Z) : result tree :=
  match root with
  | null => Ok null
  | node k h l r =>
      if bool_decide (key < k) then
        l' ← remove l key; remove_rebalance k l' r
      else if bool_decide (key > k) then
        r' ← remove r key; remove_rebalance k l r'
      else
        match l, r with
        | null, null => Ok null
        | null, node tk th tl tr => remove_rebalance tk tl tr
        | node tk th tl tr, null => remove_rebalance tk tl tr
        | _, _ =>
            temp ← minValueNode r;
            tk ← key_of temp;
            r' ← remove r tk;
            remove_rebalance tk l r'
        end
  end.

Fixpoint inorder (t : tree) : list Z :=
  match t with
  | null => []
  | node k _ l r => inorder l ++ k :: inorder r
  end.

(** The public methods of [AVL] on the root pointer. *)
Inductive AVL_call : Type :=
| call_insert (key : Z)
| call_remove (key : Z).

Definition AVL_new : tree := null.

Definition AVL_step (root : tree) (c : AVL_call) : result tree :=
  match c with
  | call_insert key => insert root key
  | call_remove key => remove root key
  end.

Fixpoint AVL_run (root : tree) (calls : list AVL_call) : result tree :=
  match calls with
  | [] => Ok root
  | c :: calls' => root' ← AVL_step root c; AVL_run root' calls'
  end.

(** ** Graph: the rendering of the matrix and the public mutators *)

(** [getMatrix()]; [n - 1] is computed inside the loops only, where [n] is
    positive. *)
Definition getMatrix (g : Graph) : result string :=
  res ← for_each (upto 0 (n g)) (fun i res =>
      let res := (res +:+ "[")%string in
      res ← for_each (upto 0 (n g)) (fun j res =>
          a ← rd2 (adjMatrix g) i j;
          text ← intToString a;
          let res := (res +:+ text)%string in
          Ok (if bool_decide (j < n g - 1) then (res +:+ ",")%string else res))
        res;
      let res := (res +:+ "]")%string in
      Ok (if bool_decide (i < n g - 1) then (res +:+ ",")%string else res))
    "["%string;
  Ok (res +:+ "]")%string.

(** The calls that change a [Graph] object in place. *)
Inductive Graph_call : Type :=
| call_addEdge (u v w : Z)
| call_removeEdge (u v : Z)
| call_setDirected (directed : bool)
| call_clear.

Definition Graph_step (g : Graph) (c : Graph_call) : result Graph :=
  match c with
  | call_addEdge u v w => addEdge g u v w
  | call_removeEdge u v => removeEdge g u v
  | call_setDirected directed => setDirected g directed
  | call_clear => clear g
  end.

Fixpoint Graph_run (g : Graph) (calls : list Graph_call) : result Graph :=
  match calls with
  | [] => Ok g
  | c :: calls' => g' ← Graph_step g c; Graph_run g' calls'
  end.

(** ** MinHeap: popping until the heap is empty *)

(** [while (!pq.empty()) pq.pop()], collecting the popped entries: the way
    [dijkstra] and [primMST] use a [MinHeap]. *)
Fixpoint MinHeap_drain (fuel : nat) (h : MinHeap) : result (list PQNode) :=
  match fuel with
  | O => OutOfFuel
  | S fuel' =>
      if negb (MinHeap_empty h) then
        '(top, h) ← pop h;
        rest ← MinHeap_drain fuel' h;
        Ok (top :: rest)
      else Ok []
  end.

(** ** BinaryHeap *)

Module BinaryHeap.

(** [arr] is the array of [cap + 1] cells; the values are in the cells
    [1 .. size]; [isMin] tells a min-heap from a max-heap. *)
Record t : Type := mk {
  arr : list Z;
  size : Z;
  cap : Z;
  isMin : bool
}.

(** [if (isMin && arr[parent] > arr[i]) ... else if (!isMin &&
    arr[parent] < arr[i]) ...]: whether the cell [i] goes above the cell
    [parent]. *)
Definition out_of_order (isMin : bool) (arr : list Z) (parent i : Z) : result bool :=
  c ← (if isMin then p ← rd arr parent; x ← rd arr i; Ok (bool_decide (p > x))
       else Ok false);
  if c : bool then Ok true
  else if negb isMin then p ← rd arr parent; x ← rd arr i; Ok (bool_decide (p < x))
  else Ok false.

Fixpoint heapifyUp_loop (fuel : nat) (isMin : bool) (arr : list Z) (i : Z)
  : result (list Z) :=
  match fuel with
  | O => OutOfFuel
  | S fuel' =>
      if bool_decide (i > 1) then
        let parent := i ÷ 2 in
        c ← out_of_order isMin arr parent i;
        if c : bool then
          arr ← swap arr i parent;
          heapifyUp_loop fuel' isMin arr parent
        else Ok arr
      else Ok arr
  end.

Definition heapifyUp (h : t) (i : Z) : result t :=
  arr' ← heapifyUp_loop heapify_fuel (isMin h) (arr h) i;
  Ok (mk arr' (size h) (cap h) (isMin h)).

(** [if (isMin && arr[c] < arr[target]) target = c; else if (!isMin &&
    arr[c] > arr[target]) target = c;] *)
Definition choose (isMin : bool) (arr : list Z) (c target : Z) : result Z :=
  b ← (if isMin then x ← rd arr c; y ← rd arr target; Ok (bool_decide (x < y))
       else Ok false);
  if b : bool then Ok c
  else if negb isMin then
    x ← rd arr c; y ← rd arr target;
    Ok (if bool_decide (x > y) then c else target)
  else Ok target.

Fixpoint heapifyDown_rec (fuel : nat) (isMin : bool) (arr : list Z) (size : Z)
    (i : Z) : result (list Z) :=
  match fuel with
  | O => OutOfFuel
  | S fuel' =>
      let target := i in
      let left := mul32 2 i in
      let right := add32 (mul32 2 i) 1 in
      target ← (if bool_decide (left <= size) then choose isMin arr left target
                else Ok target);
      target ← (if bool_decide (right <= size) then choose isMin arr right target
                else Ok target);
      if bool_decide (target ≠ i) then
        arr ← swap arr i target;
        heapifyDown_rec fuel' isMin arr size target
      else Ok arr
  end.

Definition heapifyDown (h : t) (i : Z) : result t :=
  arr' ← heapifyDown_rec heapify_fuel (isMin h) (arr h) (size h) i;
  Ok (mk arr' (size h) (cap h) (isMin h)).

(** [for (int i = size / 2; i >= 1; i--) heapifyDown(i);] *)
Definition buildHeap (h : t) : result t :=
  for_each (downto (size h ÷ 2 + 1) 1) (fun i h => heapifyDown h i) h.

(** [BinaryHeap(minHeap)]: the cells of [new int[cap + 1]] hold no value
    yet; no cell is read before [insert] has written it. *)
Definition new (minHeap : bool) : t := mk (replicate 101 0) 0 100 minHeap.

Definition insert (h : t) (val : Z) : result t :=
  if bool_decide (size h = cap h) then Ok h
  else
    let size' := add32 (size h) 1 in
    arr' ← wr (arr h) size' val;
    heapifyUp (mk arr' size' (cap h) (isMin h)) size'.

Definition extractTop (h : t) : result (Z * t) :=
  if bool_decide (size h = 0) then Ok (-999999, h)
  else
    root ← rd (arr h) 1;
    last ← rd (arr h) (size h);
    arr' ← wr (arr h) 1 last;
    let h := mk arr' (sub32 (size h) 1) (cap h) (isMin h) in
    h ← (if bool_decide (size h > 0) then heapifyDown h 1 else Ok h);
    Ok (root, h).

Definition convertToMinHeap (h : t) : result t :=
  buildHeap (mk (arr h) (size h) (cap h) true).

Definition convertToMaxHeap (h : t) : result t :=
  buildHeap (mk (arr h) (size h) (cap h) false).

Definition getIsMinHeap (h : t) : bool := isMin h.

Definition getArray (h : t) : result string :=
  res ← for_each (upto 1 (size h + 1)) (fun i res =>
      x ← rd (arr h) i;
      text ← intToString x;
      let res := (res +:+ text)%string in
      Ok (if bool_decide (i < size h) then (res +:+ ",")%string else res))
    "["%string;
  Ok (res +:+ "]")%string.

Definition clear (h : t) : t := mk (arr h) 0 (cap h) (isMin h).

(** The calls on a [BinaryHeap] object, with what they return. *)
Inductive call : Type :=
| call_insert (val : Z)
| call_extractTop
| call_convertToMinHeap
| call_convertToMaxHeap
| call_clear.

Definition step (h : t) (c : call) : result t :=
  match c with
  | call_insert val => insert h val
  | call_extractTop => '(_, h') ← extractTop h; Ok h'
  | call_convertToMinHeap => convertToMinHeap h
  | call_convertToMaxHeap => convertToMaxHeap h
  | call_clear => Ok (clear h)
  end.

Fixpoint run (h : t) (calls : list call) : result t :=
  match calls with
  | [] => Ok h
  | c :: calls' => h' ← step h c; run h' calls'
  end.

(** [extractTop()] called [k] times in a row, collecting the values it
    returns. *)
Fixpoint extract (k : nat) (h : t) : result (list Z * t) :=
  match k with
  | O => Ok ([], h)
  | S k' =>
      '(top, h) ← extractTop h;
      '(rest, h) ← extract k' h;
      Ok (top :: rest, h)
  end.

End BinaryHeap.

(** ** HashTable (chaining) *)

Module HashTable.

Definition TABLE_SIZE : Z := 10.

(** A [HashNode]; the [next] pointers make the chain, which is the list
    of its nodes from the head on. *)
Record HashNode : Type := mkNode { key : Z; value : Z }.

(** [table]: the array of the [TABLE_SIZE] chains. *)
Abbreviation t := (list (list HashNode)).

Definition abs (x : Z) : Z := if bool_decide (x < 0) then neg32 x else x.

Definition hashFunction (key : Z) : Z := Z.rem (abs key) TABLE_SIZE.

(** [HashTable()] *)
Definition new : result t :=
  table ← new_array TABLE_SIZE [];
  for_each (upto 0 TABLE_SIZE) (fun i table => wr table i []) table.

(** The [while] loop of [insert] on the chain from [current] on: the
    chain with the value of the node of [key] replaced, or [None] when the
    loop runs off the end of the chain. *)
Fixpoint insert_loop (current : list HashNode) (key value : Z)
  : option (list HashNode) :=
  match current with
  | [] => None
  | nd :: rest =>
      if bool_decide (HashTable.key nd = key) then Some (mkNode key value :: rest)
      else rest' ← insert_loop rest key value; Some (nd :: rest')
  end.

Definition insert (table : t) (key value : Z) : result t :=
  let index := hashFunction key in
  current ← rd table index;
  match insert_loop current key value with
  | Some chain => wr table index chain
  | None =>
      head ← rd table index;
      wr table index (mkNode key value :: head)
  end.

(** The [while] loop of [search]. *)
Fixpoint search_loop (current : list HashNode) (key : Z) : Z :=
  match current with
  | [] => -1
  | nd :: rest =>
      if bool_decide (HashTable.key nd = key) then HashTable.value nd
      else search_loop rest key
  end.

Definition search (table : t) (key : Z) : result Z :=
  let index := hashFunction key in
  current ← rd table index;
  Ok (search_loop current key).

(** The [while] loop of [getTable] over one chain. *)
Fixpoint getTable_loop (current : list HashNode) (res : string) (first : bool)
  : result string :=
  match current with
  | [] => Ok res
  | nd :: rest =>
      k ← intToString (HashTable.key nd);
      v ← intToString (HashTable.value nd);
      let '(res, first) := emit res first (k +:+ ":" +:+ v) in
      getTable_loop rest res first
  end.

Definition getTable (table : t) : result string :=
  res ← for_each (upto 0 TABLE_SIZE) (fun i res =>
      let res := (res +:+ "[")%string in
      current ← rd table i;
      res ← getTable_loop current res true;
      let res := (res +:+ "]")%string in
      Ok (if bool_decide (i < TABLE_SIZE - 1) then (res +:+ ",")%string else res))
    "["%string;
  Ok (res +:+ "]")%string.

(** [clear()]: every chain is freed and its head set to [NULL]. *)
Definition clear (table : t) : result t :=
  for_each (upto 0 TABLE_SIZE) (fun i table =>
      _ ← rd table i;
      wr table i [])
    table.

(** The calls that change a [HashTable] object. *)
Inductive call : Type :=
| call_insert (key value : Z)
| call_clear.

Definition step (table : t) (c : call) : result t :=
  match c with
  | call_insert key value => insert table key value
  | call_clear => clear table
  end.

Fixpoint run (table : t) (calls : list call) : result t :=
  match calls with
  | [] => Ok table
  | c :: calls' => table' ← step table c; run table' calls'
  end.

End HashTable.

(** ** Queue and Stack as linked lists in memory *)

(** The nodes that [new Node(data)] allocates live in a memory indexed by
    addresses; [NULL] is [None]. The objects [Queue] and [Stack] above hold
    the values of these linked structures and their counters, as the
    properties below show. *)
Module LinkedList.

Record Node : Type := mkNode { data : Z; next : option addr }.

Abbreviation memory := (gmap positive Node).

(** [p->...] on a pointer that may be null or dangling. *)
Definition deref (mem : memory) (p : option addr) : result Node :=
  match p with
  | None => Undefined
  | Some a =>
      match mem !! a with
      | Some nd => Ok nd
      | None => Undefined
      end
  end.

(** [new Node(data)] *)
Definition alloc (mem : memory) (data : Z) : memory * addr :=
  let p := fresh (dom mem) in (<[p := mkNode data None]> mem, p).

End LinkedList.

Module LinkedQueue.
Import LinkedList.

Record t : Type := mk { front : option addr; rear : option addr; size : Z }.

Definition new : t := mk None None 0.

Definition empty (q : t) : bool := bool_decide (size q = 0).

Definition enqueue (mem : memory) (q : t) (data : Z) : result (memory * t) :=
  let '(mem, newNode) := alloc mem data in
  match rear q with
  | None => Ok (mem, mk (Some newNode) (Some newNode) (add32 (size q) 1))
  | Some r =>
      nd ← deref mem (Some r);
      let mem := <[r := mkNode (LinkedList.data nd) (Some newNode)]> mem in
      Ok (mem, mk (front q) (Some newNode) (add32 (size q) 1))
  end.

Definition dequeue (mem : memory) (q : t) : result (memory * t) :=
  if empty q then Ok (mem, q)
  else
    let temp := front q in
    nd ← deref mem temp;
    let front' := next nd in
    let rear' := if front' is None then None else rear q in
    match temp with
    | None => Undefined
    | Some a => Ok (delete a mem, mk front' rear' (sub32 (size q) 1))
    end.

Definition Front (mem : memory) (q : t) : result Z :=
  if empty q then Ok (-1)
  else nd ← deref mem (front q); Ok (data nd).

(** [~Queue()]: [while (!empty()) dequeue();] *)
Fixpoint destroy (fuel : nat) (mem : memory) (q : t) : result memory :=
  match fuel with
  | O => OutOfFuel
  | S fuel' =>
      if negb (empty q) then
        '(mem, q) ← dequeue mem q;
        destroy fuel' mem q
      else Ok mem
  end.

End LinkedQueue.

Module LinkedStack.
Import LinkedList.

Record t : Type := mk { top : option addr; size : Z }.

Definition new : t := mk None 0.

Definition empty (s : t) : bool := bool_decide (size s = 0).

Definition push (mem : memory) (s : t) (data : Z) : memory * t :=
  let '(mem, newNode) := alloc mem data in
  let mem := <[newNode := mkNode data (top s)]> mem in
  (mem, mk (Some newNode) (add32 (size s) 1)).

Definition pop (mem : memory) (s : t) : result (memory * t) :=
  if empty s then Ok (mem, s)
  else
    let temp := top s in
    nd ← deref mem temp;
    match temp with
    | None => Undefined
    | Some a => Ok (delete a mem, mk (next nd) (sub32 (size s) 1))
    end.

Definition Top (mem : memory) (s : t) : result Z :=
  if empty s then Ok (-1)
  else nd ← deref mem (top s); Ok (data nd).

(** [~Stack()]: [while (!empty()) pop();] *)
Fixpoint destroy (fuel : nat) (mem : memory) (s : t) : result memory :=
  match fuel with
  | O => OutOfFuel
  | S fuel' =>
      if negb (empty s) then
        '(mem, s) ← pop mem s;
        destroy fuel' mem s
      else Ok mem
  end.

End LinkedStack.

(** * Specification predicates *)

(** ** Renderings *)

(** The decimal numeral of an integer: [pretty] of stdpp, which writes a
    minus sign for a negative number and then the digits of the absolute
    value, most significant first. *)
Definition numeral (z : Z) : string := pretty z.

(** The values that [intToString] can print: the [int]s but [INT_MIN],
    whose negation overflows. *)
Definition printable (z : Z) : Prop := INT_MIN < z <= INT_MAX.

(** Items joined by commas. *)
Fixpoint join (l : list string) : string :=
  match l with
  | [] => ""%string
  | [x] => x
  | x :: l' => (x +:+ "," +:+ join l')%string
  end.

(** The rendering of a sequence of integers: the numerals, joined, in
    brackets. *)
Definition join_ints (l : list Z) : string := join (numeral <$> l).
Definition show_ints (l : list Z) : string := ("[" +:+ join_ints l +:+ "]")%string.

(** The rendering of a matrix: the renderings of its rows, joined. *)
Definition show_matrix (m : list (list Z)) : string :=
  ("[" +:+ join (show_ints <$> m) +:+ "]")%string.

(** ** Matrices and graphs *)

(** The matrix [m] has [k] rows of [k] cells. *)
Definition dims (m : list (list Z)) (k : Z) : Prop :=
  0 <= k /\ length m = Z.to_nat k /\ Forall (fun row => length row = Z.to_nat k) m.

(** Total versions of cell access, used to state invariants. *)
Definition mget (m : list (list Z)) (i j : Z) : Z :=
  default 0 (m !! Z.to_nat i ≫= fun row => row !! Z.to_nat j).

Definition mset (m : list (list Z)) (i j : Z) (x : Z) : list (list Z) :=
  alter (fun row => <[Z.to_nat j := x]> row) (Z.to_nat i) m.

(** The weight that [setDirected(false)] leaves in the cells [a][b] and
    [b][a] of the matrix [m0]: the cell above the diagonal wins when it is
    not zero. *)
Definition merged (m0 : list (list Z)) (a b : Z) : Z :=
  if decide (mget m0 (Z.min a b) (Z.max a b) ≠ 0)
  then mget m0 (Z.min a b) (Z.max a b)
  else mget m0 (Z.max a b) (Z.min a b).

(** The matrix is [n] by [n] and, while the graph is undirected, symmetric. *)
Definition Graph_inv (g : Graph) : Prop :=
  dims (adjMatrix g) (n g) /\
  (isDirected g = false ->
   forall i j, 0 <= i < n g -> 0 <= j < n g ->
     mget (adjMatrix g) i j = mget (adjMatrix g) j i).

(** The index in the receiver of the vertex that gets the index [a] in the
    graph returned by [removeVertex(vertex)]. *)
Definition skip (vertex a : Z) : Z := if decide (a < vertex) then a else a + 1.

(** The value of the counters [newI] and [newJ] when the loop variable is [i]. *)
Definition compacted (vertex i : Z) : Z := if decide (i <= vertex) then i else i - 1.

(** What the loops of [removeVertex] have built in [newGraph] once the
    cells [done] of the receiver [g] have been visited. *)
Definition removeVertex_built (g : Graph) (vertex : Z) (done : Z -> Z -> Prop)
    (newGraph : Graph) : Prop :=
  n newGraph = n g - 1 /\ isDirected newGraph = isDirected g /\
  dims (adjMatrix newGraph) (n g - 1) /\
  forall a b, 0 <= a < n g - 1 -> 0 <= b < n g - 1 ->
    (mget (adjMatrix newGraph) a b = mget (adjMatrix g) (skip vertex a) (skip vertex b) \/
     mget (adjMatrix newGraph) a b = 0) /\
    (done (skip vertex a) (skip vertex b) ->
     mget (adjMatrix newGraph) a b = mget (adjMatrix g) (skip vertex a) (skip vertex b)).

(** ** AVL trees *)

(** The AVL invariant: at every node the stored height is one more than the
    larger height of the children, and the heights of the children differ
    by at most one. *)
Fixpoint avl (t : tree) : Prop :=
  match t with
  | null => True
  | node _ h l r =>
      avl l /\ avl r /\
      h = 1 + Z.max (height l) (height r) /\
      -1 <= height l - height r <= 1
  end.

(** The height of a tree: an absent child has height 0, a leaf height 1,
    a node one more than its higher child. *)
Fixpoint depth (t : tree) : Z :=
  match t with
  | null => 0
  | node _ _ l r => 1 + Z.max (depth l) (depth r)
  end.

(** Balance: at every node the heights of the children differ by at most
    one, and the height that the node stores is its height. *)
Fixpoint balanced (t : tree) : Prop :=
  match t with
  | null => True
  | node _ h l r =>
      balanced l /\ balanced r /\
      h = 1 + Z.max (depth l) (depth r) /\
      -1 <= depth l - depth r <= 1
  end.

(** The ordering invariant: the keys of the left subtree are below the key
    of the node, those of the right subtree above, at every node. *)
Fixpoint bst (t : tree) : Prop :=
  match t with
  | null => True
  | node k _ l r =>
      bst l /\ bst r /\
      Forall (fun x => x < k) (inorder l) /\
      Forall (fun x => k < x) (inorder r)
  end.

(** A subtree of height at least two whose taller side is the one a key
    went to. *)
Definition leans (t : tree) (key : Z) : Prop :=
  match t with
  | null => False
  | node k _ l r => (key < k /\ height r < height l) \/ (k < key /\ height l < height r)
  end.

(** Insertion into and deletion from an ascending list without duplicates:
    what [insert] and [remove] do to the inorder sequence. *)
Fixpoint ins_list (x : Z) (l : list Z) : list Z :=
  match l with
  | [] => [x]
  | a :: l' =>
      if decide (x < a) then x :: l
      else if decide (x = a) then l
      else a :: ins_list x l'
  end.

Fixpoint del_list (x : Z) (l : list Z) : list Z :=
  match l with
  | [] => []
  | a :: l' => if decide (x = a) then l' else a :: del_list x l'
  end.

Abbreviation ascending := (StronglySorted Z.lt).

Definition call_key (c : AVL_call) : Z :=
  match c with
  | call_insert key => key
  | call_remove key => key
  end.

(** The keys that are present after a sequence of calls. *)
Definition present_step (s : gset Z) (c : AVL_call) : gset Z :=
  match c with
  | call_insert key => s ∪ {[key]}
  | call_remove key => s ∖ {[key]}
  end.

Definition present (calls : list AVL_call) : gset Z :=
  foldl present_step ∅ calls.

(** ** Edges and traversals *)

(** There is an edge from [u] to [v]: a cell of the matrix that is not zero. *)
Definition edge (g : Graph) (u v : Z) : Prop :=
  0 <= u < n g /\ 0 <= v < n g /\ mget (adjMatrix g) u v ≠ 0.

Definition reachable (g : Graph) (start v : Z) : Prop := rtc (edge g) start v.

(** The flag of [v] is set in the array [visited]. *)
Definition marked (visited : list bool) (v : Z) : Prop :=
  0 <= v /\ visited !! Z.to_nat v = Some true.

(** The [Queue] and the [Stack] that hold the values [xs]. *)
Definition queue_of (xs : list Z) : Queue := mkQueue xs (Z.of_nat (length xs)).
Definition stack_of (xs : list Z) : Stack := mkStack xs (Z.of_nat (length xs)).

(** The largest vertex count for which the stack of [dfs] holds no more
    than [INT_MAX] entries on every graph: on [k] vertices it grows to
    [1 + (k - 1) * (k - 2) / 2] entries at most. *)
Definition DFS_MAX_VERTICES : Z := 65537.

(** The graph with [k] vertices in which every cell of the matrix is 1. *)
Definition complete (k : Z) : Graph :=
  mkGraph k (replicate (Z.to_nat k) (replicate (Z.to_nat k) 1)) false.

(** The neighbours [v] of [node] that the loop of [dfs] pushes. *)
Definition dfs_wanted (g : Graph) (node : Z) (visited : list bool) (v : Z) : Prop :=
  mget (adjMatrix g) node v ≠ 0 /\ visited !! Z.to_nat v = Some false.

#[global] Instance dfs_wanted_dec g node visited v :
  Decision (dfs_wanted g node visited v).
Proof. unfold dfs_wanted. apply _. Defined.

(** The vertices of a traversal order: what C4 asks of [bfs] and [dfs]. *)
Definition traversal_of (g : Graph) (start : Z) (order : list Z) : Prop :=
  NoDup order /\ forall v, v ∈ order <-> reachable g start v.

(** ** Binary heap *)

#[global] Instance PQNode_inhabited : Inhabited PQNode := populate (mkPQNode 0 0).

(** The content of the cell [i] of the array [a]. *)
Definition cell (a : list PQNode) (i : Z) : PQNode := a !!! Z.to_nat i.

(** The array [a] with the cells [i] and [j] exchanged. *)
Definition swapped (a : list PQNode) (i j : Z) : list PQNode :=
  <[Z.to_nat j := cell a i]> (<[Z.to_nat i := cell a j]> a).

(** Heap order on the cells [1 .. sz], but for the cell [hole]: no cell is
    below its parent, where the comparisons of the cell [hole] with its
    parent ([up = true]) or with its children ([up = false]) are left out
    and the parent of [hole] is not above the children of [hole]. *)
Definition heap_but (up : bool) (a : list PQNode) (sz hole : Z) : Prop :=
  (forall j, 2 <= j <= sz -> (if up then j else j / 2) ≠ hole ->
     key (cell a (j / 2)) <= key (cell a j)) /\
  (forall j, 2 <= j <= sz -> j / 2 = hole -> 2 <= hole ->
     key (cell a (hole / 2)) <= key (cell a j)).

Definition heap_ordered (a : list PQNode) (sz : Z) : Prop :=
  forall j, 2 <= j <= sz -> key (cell a (j / 2)) <= key (cell a j).

(** The invariant of a [MinHeap]. *)
Definition heap_ok (h : MinHeap) : Prop :=
  0 <= size h <= capacity h /\ capacity h < 2 ^ 30 /\
  Z.of_nat (length (heap h)) = capacity h + 1 /\
  heap_ordered (heap h) (size h).

(** The entry [x] is in the heap. *)
Definition in_heap (h : MinHeap) (x : PQNode) : Prop :=
  exists i, 1 <= i <= size h /\ cell (heap h) i = x.

(** The entries of the heap, each as often as the heap holds it: the cells
    [1 .. size]. *)
Definition heap_entries (h : MinHeap) : list PQNode :=
  take (Z.to_nat (size h)) (drop 1 (heap h)).

(** ** Shortest paths *)

(** The sentinel for "unreachable". *)
Definition INF : Z := 999999.

(** The largest weight that can be added to a distance below the sentinel
    without leaving the 32-bit range. *)
Definition MAX_WEIGHT : Z := INT_MAX - INF.

(** The largest vertex count for which the heap indices [2 * i + 1] with
    [i <= n * n] stay in the 32-bit range. *)
Definition MAX_VERTICES : Z := 32767.

Definition weights_nonneg (g : Graph) : Prop :=
  forall u v, 0 <= u < n g -> 0 <= v < n g ->
    0 <= mget (adjMatrix g) u v <= MAX_WEIGHT.

(** [path g s v d]: there is a walk from [s] to [v] along edges, of total
    weight [d]. *)
Inductive path (g : Graph) (s : Z) : Z -> Z -> Prop :=
| path_start : 0 <= s < n g -> path g s s 0
| path_edge x v d :
    path g s x d -> edge g x v -> path g s v (d + mget (adjMatrix g) x v).

(** [d] is the least total weight of a walk from [s] to [v]. *)
Definition shortest (g : Graph) (s v d : Z) : Prop :=
  path g s v d /\ forall d', path g s v d' -> d <= d'.

(** The cell [v] of the array [dist]. *)
Definition dv (dist : list Z) (v : Z) : Z := dist !!! Z.to_nat v.

(** The number of flags that are set in [visited]. *)
Definition marked_count (visited : list bool) : Z :=
  Z.of_nat (length (filter (fun b => b = true) visited)).

(** The invariant of the main loop of [dijkstra]; [R u v] tells for which
    pairs the edge from [u] to [v] has been relaxed. *)
Record dijkstra_inv (g : Graph) (s : Z) (R : Z -> Z -> Prop)
    (dist : list Z) (visited : list bool) (pq : MinHeap) : Prop := {
  di_len_dist : length dist = Z.to_nat (n g);
  di_len_visited : length visited = Z.to_nat (n g);
  di_heap : heap_ok pq;
  di_start : dv dist s = 0;
  di_range : forall v, 0 <= v < n g -> 0 <= dv dist v <= INF;
  di_path : forall v, 0 <= v < n g -> dv dist v < INF -> path g s v (dv dist v);
  di_settled : forall v, marked visited v ->
      dv dist v < INF /\ forall d, path g s v d -> dv dist v <= d;
  di_relaxed : forall u v, R u v -> marked visited u -> edge g u v ->
      dv dist v <= dv dist u + mget (adjMatrix g) u v;
  di_queued : forall v, 0 <= v < n g -> ¬ marked visited v -> dv dist v < INF ->
      in_heap pq (mkPQNode v (dv dist v));
  di_entries : forall x, in_heap pq x ->
      0 <= vertex x < n g /\ dv dist (vertex x) <= key x /\ key x < INF
}.

(** The number of vertices below [j] other than [u]: a bound on the
    pushes of the relaxation loop of [u] before the index [j]. *)
Definition others_below (u j : Z) : Z := if decide (u < j) then j - 1 else j.

(** What the main loop leaves in [dist]. *)
Definition dijkstra_result (g : Graph) (s : Z) (dist : list Z) : Prop :=
  length dist = Z.to_nat (n g) /\ dv dist s = 0 /\
  forall v, 0 <= v < n g ->
    (shortest g s v (dv dist v) /\ dv dist v < INF) \/
    (dv dist v = INF /\ forall d, path g s v d -> INF <= d).

(** ** Spanning trees *)

(** Two vertices are joined by an edge of the list [E], in either
    direction. *)
Definition adj (E : list (Z * Z)) (a b : Z) : Prop := (a, b) ∈ E \/ (b, a) ∈ E.

(** Two vertices are connected by the edges of [E]. *)
Definition tconn (E : list (Z * Z)) : Z -> Z -> Prop := rtc (adj E).

(** [E] without the edge between [x] and [y]. *)
Definition without (E : list (Z * Z)) (x y : Z) : list (Z * Z) :=
  filter (fun e => e ≠ (x, y) /\ e ≠ (y, x)) E.

(** The total weight of the edges of [E] in the graph [g]. *)
Definition weight (g : Graph) (E : list (Z * Z)) : Z :=
  foldr (fun e acc => mget (adjMatrix g) e.1 e.2 + acc) 0 E.

(** [E] is made of edges of [g] and connects every vertex to vertex 0. *)
Definition spanning (g : Graph) (E : list (Z * Z)) : Prop :=
  (forall a b, (a, b) ∈ E -> edge g a b) /\
  (forall v, 0 <= v < n g -> tconn E 0 v).

(** No cell of the graph is negative: an edge has a positive weight. *)
Definition weights_not_negative (g : Graph) : Prop :=
  forall u v, 0 <= u < n g -> 0 <= v < n g -> 0 <= mget (adjMatrix g) u v.

(** An edge that is lighter than the sentinel. *)
Definition light (g : Graph) (u v : Z) : Prop :=
  edge g u v /\ mget (adjMatrix g) u v < INF.

(** Every vertex can be reached from vertex 0 along edges that are lighter
    than the sentinel. *)
Definition light_connected (g : Graph) : Prop :=
  forall v, 0 <= v < n g -> rtc (light g) 0 v.

(** Every vertex can be reached from vertex 0. *)
Definition connected (g : Graph) : Prop :=
  forall v, 0 <= v < n g -> reachable g 0 v.

(** The invariant of the main loop of [primMST] on the arrays and the
    heap; [R x v] tells for which pairs the edge from [x] to [v] has been
    looked at. *)
Record prim_inv (g : Graph) (R : Z -> Z -> Prop)
    (keyA parentA : list Z) (inMST : list bool) (pq : MinHeap) : Prop := {
  pi_len_key : length keyA = Z.to_nat (n g);
  pi_len_parent : length parentA = Z.to_nat (n g);
  pi_len_inMST : length inMST = Z.to_nat (n g);
  pi_heap : heap_ok pq;
  pi_key_max : forall v, 0 <= v < n g -> dv keyA v <= INF;
  pi_parent : forall v, 0 <= v < n g -> ¬ marked inMST v -> dv keyA v < INF ->
      marked inMST (dv parentA v) /\ edge g (dv parentA v) v /\
      dv keyA v = mget (adjMatrix g) (dv parentA v) v;
  pi_relaxed : forall x v, R x v -> marked inMST x -> ¬ marked inMST v ->
      edge g x v -> dv keyA v <= mget (adjMatrix g) x v;
  pi_queued : forall v, 0 <= v < n g -> ¬ marked inMST v -> dv keyA v < INF ->
      in_heap pq (mkPQNode v (dv keyA v));
  pi_entries : forall x, in_heap pq x ->
      0 <= vertex x < n g /\ dv keyA (vertex x) <= key x /\ key x < INF
}.

(** The matrix is symmetric. *)
Definition symmetric (g : Graph) : Prop :=
  forall a b, 0 <= a < n g -> 0 <= b < n g ->
    mget (adjMatrix g) a b = mget (adjMatrix g) b a.

(** The rendering of the record of the tree edge [e]. *)
Definition show_rec (g : Graph) (e : Z * Z) : string :=
  (numeral e.1 +:+ "-" +:+ numeral e.2 +:+ ":" +:+
   numeral (mget (adjMatrix g) e.1 e.2))%string.

(** The vertices that are finalized before the record [i] of [F] is
    emitted: vertex 0 and the children of the earlier records. *)
Definition finalized (F : list (Z * Z)) (i : nat) (v : Z) : Prop :=
  v = 0 \/ v ∈ (take i F).*2.

(** The tree edges [F] emitted so far, in the order of emission, for the
    flags [inMST]. *)
Record prim_tree (g : Graph) (inMST : list bool) (F : list (Z * Z)) : Prop := {
  pt_marked : forall v, marked inMST v <-> v = 0 \/ v ∈ F.*2;
  pt_nodup : NoDup (0 :: F.*2);
  pt_order : forall (i : nat) p u, F !! i = Some (p, u) ->
      finalized F i p /\ edge g p u /\
      forall x y, finalized F i x -> ¬ finalized F i y -> edge g x y ->
        mget (adjMatrix g) p u <= mget (adjMatrix g) x y;
  pt_conn : forall v, marked inMST v -> tconn F 0 v;
  pt_opt : forall T, spanning g T ->
      exists rest,
        (forall a b, (a, b) ∈ rest -> edge g a b) /\
        (forall v, 0 <= v < n g -> tconn (F ++ rest) 0 v) /\
        weight g F + weight g rest <= weight g T
}.

(** The rendering of the records of the tree edges [F], in order. *)
Definition show_edges (g : Graph) (F : list (Z * Z)) : string :=
  ("[" +:+ join (show_rec g <$> F) +:+ "]")%string.

(** ** Decimal numerals *)

(** The value of a decimal digit character. *)
Definition digit_value (c : Ascii.ascii) : Z := Z.of_nat (Ascii.nat_of_ascii c) - 48.

(** The value of a string of decimal digits, read after the digits of
    value [acc]. *)
Fixpoint digits_value (acc : Z) (s : string) : Z :=
  match s with
  | EmptyString => acc
  | String c s' => digits_value (10 * acc + digit_value c) s'
  end.

(** The minus sign. *)
Definition minus_char : Ascii.ascii := Ascii.ascii_of_nat 45.

(** [s] is a string of decimal digits. *)
Fixpoint all_digits (s : string) : Prop :=
  match s with
  | EmptyString => True
  | String c s' => 0 <= digit_value c <= 9 /\ all_digits s'
  end.

(** [s] is the decimal numeral of [z]: the digits of the absolute value of
    [z], most significant first and without a leading zero (the numeral of
    0 is the digit 0), after a minus sign when [z] is negative. *)
Definition decimal (s : string) (z : Z) : Prop :=
  exists ds,
    s = (if bool_decide (z < 0) then String minus_char ds else ds) /\
    ds ≠ ""%string /\ all_digits ds /\
    digits_value 0 ds = Z.abs z /\
    (forall c ds', ds = String c ds' -> digit_value c = 0 -> ds' = ""%string).

(** ** BinaryHeap *)

(** [a] comes before [b] in the order of the heap. *)
Definition before (isMin : bool) (a b : Z) : Prop :=
  if isMin then a <= b else b <= a.

#[global] Instance before_dec isMin a b : Decision (before isMin a b).
Proof. destruct isMin; simpl; apply _. Defined.

(** Heap order among the cells [1 .. sz] whose parent is [lo] or
    later: no cell comes before its parent. *)
Definition bh_ordered_from (isMin : bool) (a : list Z) (sz lo : Z) : Prop :=
  forall j, 2 <= j <= sz -> lo <= j / 2 -> before isMin (dv a (j / 2)) (dv a j).

(** Heap order from [lo] on, but for the cell [hole], which may come
    after its children; the parent of [hole] does not. *)
Definition bh_down (isMin : bool) (a : list Z) (sz lo hole : Z) : Prop :=
  (forall j, 2 <= j <= sz -> lo <= j / 2 -> j / 2 ≠ hole ->
     before isMin (dv a (j / 2)) (dv a j)) /\
  (forall j, 2 <= j <= sz -> j / 2 = hole -> 2 <= hole -> lo <= hole / 2 ->
     before isMin (dv a (hole / 2)) (dv a j)).

(** Heap order on the cells [1 .. sz], but for the cell [hole], which
    may come before its parent; its children do not come before its
    parent. *)
Definition bh_up (isMin : bool) (a : list Z) (sz hole : Z) : Prop :=
  (forall j, 2 <= j <= sz -> j ≠ hole -> before isMin (dv a (j / 2)) (dv a j)) /\
  (forall j, 2 <= j <= sz -> j / 2 = hole -> 2 <= hole ->
     before isMin (dv a (hole / 2)) (dv a j)).

(** The array [a] with the cells [i] and [j] exchanged. *)
Definition bh_swapped (a : list Z) (i j : Z) : list Z :=
  <[Z.to_nat j := dv a i]> (<[Z.to_nat i := dv a j]> a).

(** The values of the heap: the cells [1 .. size]. *)
Definition bh_elems (h : BinaryHeap.t) : list Z :=
  take (Z.to_nat (BinaryHeap.size h)) (drop 1 (BinaryHeap.arr h)).

(** The shape of a [BinaryHeap] object. *)
Definition bh_shape (h : BinaryHeap.t) : Prop :=
  0 <= BinaryHeap.size h <= BinaryHeap.cap h /\ BinaryHeap.cap h < 2 ^ 30 /\
  Z.of_nat (length (BinaryHeap.arr h)) = BinaryHeap.cap h + 1.

(** The invariant of a [BinaryHeap]: the shape and the heap order of its
    kind. *)
Definition bh_ok (h : BinaryHeap.t) : Prop :=
  bh_shape h /\
  bh_ordered_from (BinaryHeap.isMin h) (BinaryHeap.arr h) (BinaryHeap.size h) 1.

(** ** HashTable *)

(** The keys of a chain, from the head on. *)
Definition ht_keys (chain : list HashTable.HashNode) : list Z :=
  HashTable.key <$> chain.

(** The keys for which the hash function is defined: the 32-bit values
    but [INT_MIN], whose absolute value overflows. *)
Definition ht_key (k : Z) : Prop := INT_MIN < k <= INT_MAX.

(** The invariant of a [HashTable]: ten chains; no chain holds a key
    twice, and every node is in the chain of the hash value of its key. *)
Definition ht_ok (table : HashTable.t) : Prop :=
  length table = 10%nat /\
  forall (i : nat) chain, table !! i = Some chain ->
    NoDup (ht_keys chain) /\
    forall nd, nd ∈ chain ->
      ht_key (HashTable.key nd) /\
      HashTable.hashFunction (HashTable.key nd) = Z.of_nat i.

(** The finite map that a sequence of calls builds. *)
Definition ht_model_step (m : gmap Z Z) (c : HashTable.call) : gmap Z Z :=
  match c with
  | HashTable.call_insert k v => <[k := v]> m
  | HashTable.call_clear => ∅
  end.

Definition ht_model (calls : list HashTable.call) : gmap Z Z :=
  foldl ht_model_step ∅ calls.

(** The table holds the entries of the map [m]. *)
Definition ht_rep (table : HashTable.t) (m : gmap Z Z) : Prop :=
  ht_ok table /\
  forall k v, m !! k = Some v <->
    exists (i : nat) chain, table !! i = Some chain /\ HashTable.mkNode k v ∈ chain.

(** The nodes that [getTable] can print: neither the key nor the value is
    [INT_MIN]. *)
Definition ht_printable (nd : HashTable.HashNode) : Prop :=
  printable (HashTable.key nd) /\ printable (HashTable.value nd).

(** The rendering of a chain and of the table. *)
Definition show_node (nd : HashTable.HashNode) : string :=
  (numeral (HashTable.key nd) +:+ ":" +:+ numeral (HashTable.value nd))%string.

Definition show_chain (chain : list HashTable.HashNode) : string :=
  ("[" +:+ join (show_node <$> chain) +:+ "]")%string.

Definition show_table (table : HashTable.t) : string :=
  ("[" +:+ join (show_chain <$> table) +:+ "]")%string.

(** ** Linked lists in memory *)

(** The chain of nodes from the pointer [p] on lies at the addresses
    [addrs], holds the values [xs] and ends in [NULL]. *)
Fixpoint ll_chain (mem : LinkedList.memory) (p : option addr)
    (addrs : list addr) (xs : list Z) : Prop :=
  match addrs, xs with
  | [], [] => p = None
  | a :: addrs', x :: xs' =>
      p = Some a /\
      exists nxt, mem !! a = Some (LinkedList.mkNode x nxt) /\
                  ll_chain mem nxt addrs' xs'
  | _, _ => False
  end.

(** The queue object [q] holds the values [xs], from the front on, in the
    nodes at [addrs]. *)
Definition queue_at (mem : LinkedList.memory) (q : LinkedQueue.t)
    (addrs : list addr) (xs : list Z) : Prop :=
  ll_chain mem (LinkedQueue.front q) addrs xs /\ NoDup addrs /\
  LinkedQueue.rear q = last addrs /\
  LinkedQueue.size q = Z.of_nat (length xs) /\ Z.of_nat (length xs) <= INT_MAX.

(** The stack object [s] holds the values [xs], from the top down, in the
    nodes at [addrs]. *)
Definition stack_at (mem : LinkedList.memory) (s : LinkedStack.t)
    (addrs : list addr) (xs : list Z) : Prop :=
  ll_chain mem (LinkedStack.top s) addrs xs /\ NoDup addrs /\
  LinkedStack.size s = Z.of_nat (length xs) /\ Z.of_nat (length xs) <= INT_MAX.

(** ** Levels of a breadth-first traversal *)

(** [v] is [k] edges away from [s], and no walk from [s] to [v] is
    shorter. *)
Definition hops (g : Graph) (s v : Z) (k : nat) : Prop :=
  nsteps (edge g) k s v /\ forall k', nsteps (edge g) k' s v -> (k <= k')%nat.

(** The vertices of [l] come in the order of their distances from [s]. *)
Definition by_levels (g : Graph) (s : Z) (l : list Z) : Prop :=
  forall (i j : nat) u v a b,
    (i <= j)%nat -> l !! i = Some u -> l !! j = Some v ->
    hops g s u a -> hops g s v b -> (a <= b)%nat.

(** * Properties *)

(** ** Basic facts on the result monad, integers and arrays *)

Lemma bind_Ok {A B} (a : A) (f : A -> result B) : (Ok a ≫= f) = f a.
Proof. reflexivity. Qed.

Lemma bind_Ok_inv {A B} (m : result A) (f : A -> result B) (b : B) :
  m ≫= f = Ok b -> exists a, m = Ok a /\ f a = Ok b.
Proof. destruct m; simpl; intros H; try discriminate. eauto. Qed.

Lemma wrap32_id z : is_int z -> wrap32 z = z.
Proof.
  unfold is_int, INT_MIN, INT_MAX, wrap32. intros H.
  rewrite Z.mod_small by lia. lia.
Qed.

Lemma rd_Ok {A} (a : list A) (i : Z) (x : A) :
  0 <= i -> a !! Z.to_nat i = Some x -> rd a i = Ok x.
Proof. intros Hi Hx. unfold rd. rewrite decide_True by done. by rewrite Hx. Qed.

Lemma rd_Ok_inv {A} (a : list A) (i : Z) (x : A) :
  rd a i = Ok x -> 0 <= i /\ a !! Z.to_nat i = Some x.
Proof.
  unfold rd. case_decide; [|done].
  destruct (a !! Z.to_nat i) eqn:E; [|done]. intros [= ->]. done.
Qed.

Lemma rd_in_range {A} (a : list A) (i : Z) :
  0 <= i < Z.of_nat (length a) -> exists x, rd a i = Ok x /\ a !! Z.to_nat i = Some x.
Proof.
  intros Hi. destruct (lookup_lt_is_Some_2 a (Z.to_nat i)) as [x Hx]; [lia|].
  exists x. split; [|done]. apply rd_Ok; [lia|done].
Qed.

Lemma rd_out_of_range {A} (a : list A) (i : Z) :
  ¬ (0 <= i < Z.of_nat (length a)) -> rd a i = Undefined.
Proof.
  intros Hi. unfold rd. case_decide; [|done].
  rewrite lookup_ge_None_2; [done|lia].
Qed.

Lemma wr_Ok {A} (a : list A) (i : Z) (x : A) :
  0 <= i < Z.of_nat (length a) -> wr a i x = Ok (<[Z.to_nat i := x]> a).
Proof. intros Hi. unfold wr. by rewrite decide_True. Qed.

Lemma wr_out_of_range {A} (a : list A) (i : Z) (x : A) :
  ¬ (0 <= i < Z.of_nat (length a)) -> wr a i x = Undefined.
Proof. intros Hi. unfold wr. by rewrite decide_False. Qed.

(** A loop invariant rule for [for] loops over [lo .. hi-1]. *)
Lemma for_each_upto_inv {S} (P : Z -> S -> Prop) (lo hi : Z)
    (body : Z -> S -> result S) (s : S) :
  lo <= hi ->
  P lo s ->
  (forall i s, lo <= i < hi -> P i s -> exists s', body i s = Ok s' /\ P (i + 1) s') ->
  exists s', for_each (upto lo hi) body s = Ok s' /\ P hi s'.
Proof.
  unfold upto. intros Hle.
  assert (Hlen : exists k : nat, hi - lo = Z.of_nat k) by (exists (Z.to_nat (hi - lo)); lia).
  destruct Hlen as [k Hk]. rewrite Hk.
  assert (Hhi : hi = lo + Z.of_nat k) by lia. subst hi. clear Hk Hle.
  revert lo s. induction k as [|k IH]; intros lo s HP Hstep.
  - simpl. exists s. split; [done|]. by replace (lo + Z.of_nat 0) with lo by lia.
  - rewrite Nat2Z.inj_succ, seqZ_cons by lia. simpl.
    destruct (Hstep lo s) as (s1 & Hb & HP1); [lia|done|].
    rewrite Hb. simpl.
    replace (Z.pred (Z.succ (Z.of_nat k))) with (Z.of_nat k) by lia.
    destruct (IH (Z.succ lo) s1) as (s2 & Hf & HP2).
    + by replace (Z.succ lo) with (lo + 1) by lia.
    + intros i s' Hi. apply Hstep. lia.
    + exists s2. split; [done|].
      by replace (lo + Z.succ (Z.of_nat k)) with (Z.succ lo + Z.of_nat k) by lia.
Qed.

Lemma for_each_upto_empty {S} (lo hi : Z) (body : Z -> S -> result S) (s : S) :
  hi <= lo -> for_each (upto lo hi) body s = Ok s.
Proof.
  intros H. unfold upto. destruct (hi - lo) eqn:E; try lia; reflexivity.
Qed.

(** ** intToString writes decimal numerals *)

Lemma digit_char_pretty d :
  0 <= d <= 9 -> digit_char d = pretty_N_char (Z.to_N d).
Proof.
  intros Hd.
  assert (d = 0 \/ d = 1 \/ d = 2 \/ d = 3 \/ d = 4 \/ d = 5 \/ d = 6 \/ d = 7 \/
          d = 8 \/ d = 9) as Hc by lia.
  repeat destruct Hc as [->|Hc]; try subst d; reflexivity.
Qed.

(** With enough fuel the loop of [intToString] is the digit loop of
    [pretty]. *)
Lemma intToString_loop_pretty (fuel : nat) : forall num res,
  0 <= num < 10 ^ Z.of_nat fuel ->
  intToString_loop (S fuel) num res = Ok (pretty_N_go (Z.to_N num) res).
Proof.
  induction fuel as [|fuel IH]; intros num res Hnum.
  - change (10 ^ Z.of_nat 0) with 1 in Hnum.
    assert (num = 0) as -> by lia. reflexivity.
  - change (intToString_loop (S (S fuel)) num res)
      with (if decide (num > 0)
            then intToString_loop (S fuel) (num ÷ 10)
                   (String (digit_char (Z.rem num 10)) res)
            else Ok res).
    case_decide as Hpos.
    + rewrite Z.quot_div_nonneg, Z.rem_mod_nonneg by lia.
      rewrite IH.
      2:{ split; [apply Z.div_pos; lia|].
          apply Z.div_lt_upper_bound; [lia|].
          rewrite Nat2Z.inj_succ, Z.pow_succ_r in Hnum by lia. lia. }
      rewrite (pretty_N_go_step (Z.to_N num)) by lia.
      rewrite digit_char_pretty by (pose proof (Z.mod_pos_bound num 10); lia).
      do 2 f_equal.
      * rewrite Z2N.inj_div by lia. done.
      * rewrite Z2N.inj_mod by lia. done.
    + assert (num = 0) as -> by lia. reflexivity.
Qed.

Lemma log2_digits num :
  0 < num -> num < 10 ^ Z.of_nat (S (Z.to_nat (Z.log2 num))).
Proof.
  intros Hnum. pose proof (Z.log2_nonneg num) as Hl.
  destruct (Z.log2_spec num Hnum) as [_ Hup].
  rewrite Nat2Z.inj_succ, Z2Nat.id by done.
  eapply Z.lt_le_trans; [exact Hup|].
  apply Z.pow_le_mono_l. lia.
Qed.

Lemma intToString_pos num :
  0 < num -> intToString num = Ok (pretty_N_go (Z.to_N num) "").
Proof.
  intros Hnum. unfold intToString.
  rewrite decide_False by lia. rewrite bool_decide_eq_false_2 by lia.
  cbn [mbind result_bind].
  rewrite intToString_loop_pretty by (split; [lia|by apply log2_digits]).
  done.
Qed.

(** [intToString] writes the decimal numeral of every [int] but [INT_MIN],
    whose negation overflows. *)
Lemma intToString_numeral num :
  INT_MIN < num -> intToString num = Ok (numeral num).
Proof.
  intros Hmin. unfold numeral, pretty, pretty_Z.
  destruct num as [|p|p].
  - reflexivity.
  - rewrite intToString_pos by lia. unfold pretty, pretty_positive, pretty, pretty_N.
    rewrite decide_False by lia. done.
  - unfold intToString. rewrite decide_False by lia.
    rewrite bool_decide_eq_true_2 by lia. unfold neg_int.
    rewrite decide_True by (unfold is_int, INT_MIN, INT_MAX in *; lia).
    cbn [mbind result_bind].
    rewrite intToString_loop_pretty by (split; [lia|apply log2_digits; lia]).
    cbn [mbind result_bind].
    unfold pretty, pretty_positive, pretty, pretty_N.
    rewrite decide_False by lia. done.
Qed.

Lemma intToString_nonneg num : 0 <= num -> intToString num = Ok (numeral num).
Proof. intros H. apply intToString_numeral. unfold INT_MIN. lia. Qed.

Lemma intToString_INT_MIN : intToString INT_MIN = Undefined.
Proof. reflexivity. Qed.

(** ** Matrices *)

Lemma dims_row m k i row :
  dims m k -> m !! i = Some row -> length row = Z.to_nat k.
Proof.
  intros (_ & _ & Hrows) Hi. rewrite Forall_lookup in Hrows. by eapply Hrows.
Qed.

Lemma rd2_Ok m k i j :
  dims m k -> 0 <= i < k -> 0 <= j < k -> rd2 m i j = Ok (mget m i j).
Proof.
  intros Hd Hi Hj. unfold rd2, mget.
  destruct (lookup_lt_is_Some_2 m (Z.to_nat i)) as [row Hrow].
  { destruct Hd as (_ & -> & _). lia. }
  pose proof (dims_row _ _ _ _ Hd Hrow) as Hlen.
  destruct (lookup_lt_is_Some_2 row (Z.to_nat j)) as [x Hx]; [lia|].
  rewrite (rd_Ok m i row) by (done || lia). simpl.
  rewrite (rd_Ok row j x) by (done || lia).
  rewrite Hrow. simpl. by rewrite Hx.
Qed.

Lemma wr2_Ok m k i j x :
  dims m k -> 0 <= i < k -> 0 <= j < k -> wr2 m i j x = Ok (mset m i j x).
Proof.
  intros Hd Hi Hj. unfold wr2, mset.
  destruct (lookup_lt_is_Some_2 m (Z.to_nat i)) as [row Hrow].
  { destruct Hd as (_ & -> & _). lia. }
  pose proof (dims_row _ _ _ _ Hd Hrow) as Hlen.
  rewrite (rd_Ok m i row) by (done || lia). simpl.
  rewrite wr_Ok by lia. simpl.
  rewrite wr_Ok by (destruct Hd as (_ & -> & _); lia).
  f_equal. apply list_eq. intros a.
  destruct (decide (a = Z.to_nat i)) as [->|Hne].
  - rewrite list_lookup_insert_eq by (apply lookup_lt_Some in Hrow; lia).
    rewrite list_lookup_alter_eq, Hrow. done.
  - rewrite list_lookup_insert_ne by done. by rewrite list_lookup_alter_ne.
Qed.

Lemma dims_mset m k i j x : dims m k -> dims (mset m i j x) k.
Proof.
  intros (Hk & Hlen & Hrows). unfold mset. split; [done|]. split.
  - by rewrite length_alter.
  - rewrite Forall_lookup in Hrows. apply Forall_lookup. intros a row.
    destruct (decide (a = Z.to_nat i)) as [->|Hne].
    + rewrite list_lookup_alter_eq. destruct (m !! Z.to_nat i) eqn:E; [|done].
      simpl. intros [= <-]. rewrite length_insert. by eapply Hrows.
    + rewrite list_lookup_alter_ne by done. apply Hrows.
Qed.

Lemma mget_mset m k i j x a b :
  dims m k -> 0 <= i < k -> 0 <= j < k -> 0 <= a -> 0 <= b ->
  mget (mset m i j x) a b = if decide (a = i /\ b = j) then x else mget m a b.
Proof.
  intros Hd Hi Hj Ha Hb. unfold mget, mset.
  destruct (lookup_lt_is_Some_2 m (Z.to_nat i)) as [row Hrow].
  { destruct Hd as (_ & -> & _). lia. }
  pose proof (dims_row _ _ _ _ Hd Hrow) as Hlen.
  destruct (decide (a = i)) as [->|Hne].
  - rewrite list_lookup_alter_eq, Hrow. simpl.
    destruct (decide (b = j)) as [->|Hne'].
    + rewrite decide_True by done. rewrite list_lookup_insert_eq by lia. done.
    + rewrite decide_False by tauto. rewrite list_lookup_insert_ne by lia. done.
  - rewrite decide_False by tauto. rewrite list_lookup_alter_ne by lia. done.
Qed.

(** ** setDirected *)

Lemma merged_diag m0 a : merged m0 a a = mget m0 a a.
Proof.
  unfold merged. rewrite Z.min_id, Z.max_id. by case_decide.
Qed.

Lemma setDirected_pair_spec m k i j :
  dims m k -> 0 <= i -> i < j -> j < k ->
  exists m', setDirected_pair i j m = Ok m' /\ dims m' k /\
    forall a b, 0 <= a -> 0 <= b ->
      mget m' a b =
        if decide ((a = i /\ b = j) \/ (a = j /\ b = i)) then merged m i j
        else mget m a b.
Proof.
  intros Hd Hi Hij Hj. unfold setDirected_pair.
  rewrite !(rd2_Ok m k) by (done || lia). simpl.
  assert (Hm : merged m i j =
    if decide (mget m i j ≠ 0) then mget m i j else mget m j i).
  { unfold merged. by rewrite Z.min_l, Z.max_r by lia. }
  assert (Hwr : forall w, exists m',
    (wr2 m i j w ≫= fun m1 => wr2 m1 j i w) = Ok m' /\ dims m' k /\
    forall a b, 0 <= a -> 0 <= b ->
      mget m' a b =
        if decide ((a = i /\ b = j) \/ (a = j /\ b = i)) then w else mget m a b).
  { intros w. rewrite (wr2_Ok m k) by (done || lia). simpl.
    rewrite (wr2_Ok _ k) by (try apply dims_mset; done || lia).
    eexists. split; [done|]. split; [by do 2 apply dims_mset|].
    intros a b Ha Hb.
    rewrite (mget_mset _ k), (mget_mset _ k) by (try apply dims_mset; done || lia).
    repeat case_decide; try done; lia. }
  destruct (decide (mget m i j ≠ 0)) as [Hnz|Hz].
  - rewrite !bool_decide_eq_true_2 by done. simpl.
    rewrite Hm. apply Hwr.
  - rewrite !bool_decide_eq_false_2 by done. simpl.
    destruct (decide (mget m j i ≠ 0)) as [Hnz'|Hz'].
    + rewrite bool_decide_eq_true_2 by done. simpl.
      rewrite Hm. apply Hwr.
    + rewrite bool_decide_eq_false_2 by done. simpl.
      exists m. split; [done|]. split; [done|].
      intros a b Ha Hb. rewrite Hm.
      assert (mget m i j = 0) by lia. assert (mget m j i = 0) by lia.
      repeat case_decide; try done; destruct_and?; destruct_or?; destruct_and?;
        subst; lia.
Qed.

(** The inner loop for row [i]: the pairs [(i, j)] with [i < j < k]. *)
Lemma setDirected_row_spec m0 m k i :
  dims m k -> 0 <= i < k ->
  (forall a b, 0 <= a < k -> 0 <= b < k ->
     mget m a b = if decide (Z.min a b < i) then merged m0 a b else mget m0 a b) ->
  exists m',
    for_each (upto (i + 1) k) (fun j m => setDirected_pair i j m) m = Ok m' /\
    dims m' k /\
    forall a b, 0 <= a < k -> 0 <= b < k ->
      mget m' a b = if decide (Z.min a b < i + 1) then merged m0 a b else mget m0 a b.
Proof.
  intros Hd Hi Hm.
  destruct (for_each_upto_inv
    (fun j m' => dims m' k /\ forall a b, 0 <= a < k -> 0 <= b < k ->
       mget m' a b =
         if decide (Z.min a b < i \/ (Z.min a b = i /\ Z.max a b < j))
         then merged m0 a b else mget m0 a b)
    (i + 1) k (fun j m => setDirected_pair i j m) m) as (m' & Hrun & Hd' & Hm').
  - lia.
  - split; [done|]. intros a b Ha Hb. rewrite Hm by done.
    destruct (decide (a = b)) as [->|Hne].
    + rewrite merged_diag. by repeat case_decide.
    + repeat case_decide; try done; lia.
  - intros j m1 Hj (Hd1 & Hm1).
    destruct (setDirected_pair_spec m1 k i j) as (m2 & Hrun & Hd2 & Hm2);
      [done|lia|lia|lia|].
    exists m2. split; [done|]. split; [done|].
    intros a b Ha Hb. rewrite Hm2 by lia.
    case_decide as Hc.
    + assert (Hminmax : Z.min a b = i /\ Z.max a b = j) by lia.
      rewrite decide_True by lia.
      unfold merged at 1. rewrite Z.min_l, Z.max_r by lia.
      rewrite !Hm1 by lia.
      rewrite Z.min_l, Z.max_r, Z.min_r, Z.max_l by lia.
      destruct (decide (i < i \/ i = i /\ j < j)) as [?|_]; [lia|].
      unfold merged. destruct Hminmax as [-> ->]. done.
    + rewrite Hm1 by done. repeat case_decide; try done; lia.
  - exists m'. split; [done|]. split; [done|].
    intros a b Ha Hb. rewrite Hm' by lia.
    repeat case_decide; try done; lia.
Qed.

Lemma setDirected_false_spec g :
  dims (adjMatrix g) (n g) ->
  exists m',
    setDirected g false = Ok (mkGraph (n g) m' false) /\ dims m' (n g) /\
    forall a b, 0 <= a < n g -> 0 <= b < n g ->
      mget m' a b = merged (adjMatrix g) a b.
Proof.
  intros Hd. unfold setDirected. simpl.
  destruct (for_each_upto_inv
    (fun i m' => dims m' (n g) /\ forall a b, 0 <= a < n g -> 0 <= b < n g ->
       mget m' a b =
         if decide (Z.min a b < i) then merged (adjMatrix g) a b
         else mget (adjMatrix g) a b)
    0 (n g) (fun i m => for_each (upto (i + 1) (n g))
                          (fun j m => setDirected_pair i j m) m)
    (adjMatrix g)) as (m' & Hrun & Hd' & Hm').
  - by destruct Hd.
  - split; [done|]. intros a b Ha Hb. rewrite decide_False by lia. done.
  - intros i m1 Hi (Hd1 & Hm1).
    destruct (setDirected_row_spec (adjMatrix g) m1 (n g) i) as (m2 & Hrun & Hd2 & Hm2);
      [done..|].
    exists m2. done.
  - rewrite Hrun. simpl. exists m'. split; [done|]. split; [done|].
    intros a b Ha Hb. rewrite Hm' by lia. rewrite decide_True by lia. done.
Qed.

(** C7. [setDirected(false)] merges every pair of mirrored cells [i < j]:
    both cells get [weight[i][j]] when that is not zero and [weight[j][i]]
    otherwise, so a pair of two zero cells and the diagonal keep their
    values; [setDirected(true)] leaves the matrix as it is. *)
Theorem setDirected_merge (g : Graph) :
  dims (adjMatrix g) (n g) ->
  (exists g',
      setDirected g false = Ok g' /\
      n g' = n g /\ isDirected g' = false /\ dims (adjMatrix g') (n g) /\
      (forall i j x y,
          0 <= i -> i < j -> j < n g ->
          rd2 (adjMatrix g) i j = Ok x -> rd2 (adjMatrix g) j i = Ok y ->
          let w := if decide (x ≠ 0) then x else y in
          rd2 (adjMatrix g') i j = Ok w /\ rd2 (adjMatrix g') j i = Ok w /\
          (x = 0 -> y = 0 -> w = 0)) /\
      (forall i, 0 <= i < n g ->
          rd2 (adjMatrix g') i i = rd2 (adjMatrix g) i i)) /\
  setDirected g true = Ok (mkGraph (n g) (adjMatrix g) true).
Proof.
  intros Hd. split; [|reflexivity].
  destruct (setDirected_false_spec g Hd) as (m' & Hrun & Hd' & Hm').
  eexists. split; [exact Hrun|]. simpl. do 3 (split; [done|]). split.
  - intros i j x y Hi Hij Hj Hx Hy.
    rewrite (rd2_Ok _ (n g)) in Hx, Hy by (done || lia).
    injection Hx as Hx. injection Hy as Hy.
    rewrite !(rd2_Ok m' (n g)) by (done || lia).
    rewrite !Hm' by lia. unfold merged.
    rewrite Z.min_l, Z.max_r, Z.min_r, Z.max_l by lia.
    rewrite Hx, Hy. repeat split; try done.
    intros -> ->. by case_decide.
  - intros i Hi. rewrite !(rd2_Ok _ (n g)) by done.
    by rewrite Hm', merged_diag.
Qed.

Lemma setDirected_merge_witness :
  let g := mkGraph 2 [[0; 0]; [7; 0]] true in
  dims (adjMatrix g) (n g) /\
  exists g', setDirected g false = Ok g' /\
             rd2 (adjMatrix g') 0 1 = Ok 7 /\ rd2 (adjMatrix g') 1 0 = Ok 7.
Proof.
  intros g.
  assert (Hd : dims (adjMatrix g) (n g)).
  { split; [done|]. split; [done|]. by repeat constructor. }
  split; [exact Hd|].
  destruct (setDirected_merge g Hd) as [(g' & Hrun & _ & _ & _ & Hcells & _) _].
  exists g'. split; [exact Hrun|].
  destruct (Hcells 0 1 0 7) as (H01 & H10 & _); try done.
Defined.

(** ** The class invariant of Graph *)

Lemma dims_replicate k : 0 <= k ->
  dims (replicate (Z.to_nat k) (replicate (Z.to_nat k) 0)) k.
Proof.
  intros Hk. split; [done|]. split; [by rewrite length_replicate|].
  apply Forall_replicate. by rewrite length_replicate.
Qed.

Lemma mget_replicate k i j :
  mget (replicate (Z.to_nat k) (replicate (Z.to_nat k) 0)) i j = 0.
Proof.
  unfold mget.
  destruct (replicate _ _ !! Z.to_nat i) as [row|] eqn:E; [|done].
  apply lookup_replicate in E as [-> _]. simpl.
  destruct (replicate _ _ !! Z.to_nat j) as [x|] eqn:E'; [|done].
  by apply lookup_replicate in E' as [-> _].
Qed.

Lemma Graph_new_inv k directed :
  0 <= k -> exists g, Graph_new k directed = Ok g /\ Graph_inv g /\
                      n g = k /\ isDirected g = directed.
Proof.
  intros Hk. unfold Graph_new. rewrite decide_False by lia.
  eexists. split; [done|]. split; [|done]. split; simpl.
  - by apply dims_replicate.
  - intros _ i j _ _. by rewrite !mget_replicate.
Qed.

Lemma in_range_true g u : 0 <= u < n g -> in_range g u = true.
Proof.
  intros H. unfold in_range.
  rewrite !bool_decide_eq_true_2 by lia. done.
Qed.

Lemma addEdge_spec g u v w :
  dims (adjMatrix g) (n g) -> 0 <= u < n g -> 0 <= v < n g ->
  exists m',
    addEdge g u v w = Ok (mkGraph (n g) m' (isDirected g)) /\
    dims m' (n g) /\
    forall a b, 0 <= a -> 0 <= b ->
      mget m' a b =
        if decide ((a = u /\ b = v) \/ (isDirected g = false /\ a = v /\ b = u))
        then w else mget (adjMatrix g) a b.
Proof.
  intros Hd Hu Hv. unfold addEdge.
  rewrite !in_range_true by done. simpl.
  rewrite (wr2_Ok _ (n g)) by done. simpl.
  destruct (isDirected g) eqn:Hdir; simpl.
  - eexists. split; [done|]. split; [by apply dims_mset|].
    intros a b Ha Hb. rewrite (mget_mset _ (n g)) by done.
    repeat case_decide; try done; intuition (congruence || lia).
  - destruct (decide (u = v)) as [->|Hne].
    + rewrite bool_decide_eq_true_2 by done. simpl.
      eexists. split; [done|]. split; [by apply dims_mset|].
      intros a b Ha Hb. rewrite (mget_mset _ (n g)) by done.
      repeat case_decide; try done; intuition (congruence || lia).
    + rewrite bool_decide_eq_false_2 by done. simpl.
      rewrite (wr2_Ok _ (n g)) by (try apply dims_mset; done). simpl.
      eexists. split; [done|]. split; [by do 2 apply dims_mset|].
      intros a b Ha Hb.
      rewrite (mget_mset _ (n g)), (mget_mset _ (n g))
        by (try apply dims_mset; done || lia).
      repeat case_decide; try done; intuition (congruence || lia).
Qed.

(** ** removeVertex *)

Lemma removeVertex_cell g vertex (done : Z -> Z -> Prop) i j newGraph :
  Graph_inv g -> 0 <= vertex < n g ->
  0 <= i < n g -> i ≠ vertex -> 0 <= j < n g -> j ≠ vertex ->
  removeVertex_built g vertex done newGraph ->
  exists newGraph',
    (if bool_decide (mget (adjMatrix g) i j ≠ 0)
     then addEdge newGraph (compacted vertex i) (compacted vertex j)
            (mget (adjMatrix g) i j)
     else Ok newGraph) = Ok newGraph' /\
    removeVertex_built g vertex (fun a b => done a b \/ (a = i /\ b = j)) newGraph'.
Proof.
  intros [Hd Hsym] Hv Hi Hiv Hj Hjv (Hn & Hdir & Hdn & Hcells).
  assert (Hsi : skip vertex (compacted vertex i) = i)
    by (unfold skip, compacted; repeat case_decide; lia).
  assert (Hsj : skip vertex (compacted vertex j) = j)
    by (unfold skip, compacted; repeat case_decide; lia).
  assert (Hci : 0 <= compacted vertex i < n g - 1)
    by (unfold compacted; case_decide; lia).
  assert (Hcj : 0 <= compacted vertex j < n g - 1)
    by (unfold compacted; case_decide; lia).
  assert (Hinj : forall a b, skip vertex a = skip vertex b -> a = b)
    by (intros a b; unfold skip; repeat case_decide; lia).
  assert (Hrange : forall a, 0 <= a < n g - 1 -> 0 <= skip vertex a < n g)
    by (intros a; unfold skip; case_decide; lia).
  case_bool_decide as Hnz.
  - destruct (addEdge_spec newGraph (compacted vertex i) (compacted vertex j)
                (mget (adjMatrix g) i j)) as (m' & Hrun & Hd' & Hm');
      [by rewrite Hn..|].
    rewrite Hrun. eexists. split; [done|].
    rewrite Hn, Hdir in *. split; [done|]. split; [done|]. split; [done|]. simpl.
    intros a b Ha Hb. rewrite Hm' by lia.
    destruct (Hcells a b Ha Hb) as [Hor Hdone].
    destruct (decide (_ \/ _)) as [Hc|Hc].
    + assert (Heq : mget (adjMatrix g) i j =
                    mget (adjMatrix g) (skip vertex a) (skip vertex b)).
      { destruct Hc as [[-> ->]|(Hund & -> & ->)].
        - by rewrite Hsi, Hsj.
        - rewrite Hsi, Hsj. by apply Hsym. }
      split; [by left|done].
    + split; [done|]. intros [Hdn'|[Hai Hbj]]; [by apply Hdone|].
      exfalso. apply Hc. left. split; apply Hinj; congruence.
  - exists newGraph. split; [done|]. split; [done|]. split; [done|]. split; [done|].
    intros a b Ha Hb. destruct (Hcells a b Ha Hb) as [Hor Hdone].
    split; [done|]. intros [Hdn'|[Hai Hbj]]; [by apply Hdone|].
    rewrite Hai, Hbj. assert (mget (adjMatrix g) i j = 0) by lia.
    destruct Hor as [Hor|Hor]; rewrite Hor; congruence.
Qed.

Lemma removeVertex_built_ext g vertex (done done' : Z -> Z -> Prop) newGraph :
  (forall a b, 0 <= a < n g -> 0 <= b < n g -> a ≠ vertex -> b ≠ vertex ->
               done' a b -> done a b) ->
  removeVertex_built g vertex done newGraph ->
  removeVertex_built g vertex done' newGraph.
Proof.
  intros Himp (Hn & Hdir & Hdn & Hcells). do 3 (split; [done|]).
  intros a b Ha Hb. destruct (Hcells a b Ha Hb) as [Hor Hdone].
  split; [done|]. intros Hd'. apply Hdone, Himp; [| | | |done];
    unfold skip; case_decide; lia.
Qed.

Lemma removeVertex_row_spec g vertex i newGraph :
  Graph_inv g -> 0 <= vertex < n g -> 0 <= i < n g -> i ≠ vertex ->
  removeVertex_built g vertex (fun a b => a < i) newGraph ->
  exists newGraph',
    removeVertex_row g vertex i (compacted vertex i) newGraph = Ok newGraph' /\
    removeVertex_built g vertex (fun a b => a < i + 1) newGraph'.
Proof.
  intros Hinv Hv Hi Hiv Hb. unfold removeVertex_row.
  destruct (for_each_upto_inv
    (fun j (s : Graph * Z) =>
       s.2 = compacted vertex j /\
       removeVertex_built g vertex (fun a b => a < i \/ (a = i /\ b < j)) s.1)
    0 (n g)
    (fun j '(newGraph, newJ) =>
      if bool_decide (j = vertex) then Ok (newGraph, newJ)
      else
        a ← rd2 (adjMatrix g) i j;
        newGraph ← (if bool_decide (a ≠ 0)
                    then addEdge newGraph (compacted vertex i) newJ a
                    else Ok newGraph);
        Ok (newGraph, newJ + 1))
    (newGraph, 0)) as ([ng' newJ'] & Hrun & _ & Hb').
  - lia.
  - simpl. split; [unfold compacted; case_decide; lia|].
    eapply removeVertex_built_ext; [|exact Hb]. simpl. lia.
  - intros j [ng newJ] Hj [HnewJ Hng]. simpl in HnewJ, Hng. subst newJ.
    case_bool_decide as Hjv.
    + eexists. split; [done|]. simpl.
      split; [unfold compacted; repeat case_decide; lia|].
      eapply removeVertex_built_ext; [|exact Hng]. simpl. lia.
    + rewrite (rd2_Ok _ (n g)) by (done || apply Hinv). simpl.
      destruct (removeVertex_cell g vertex _ i j ng Hinv Hv Hi Hiv Hj Hjv Hng)
        as (ng' & Hrun & Hng').
      rewrite Hrun. simpl. eexists. split; [done|]. simpl.
      split; [unfold compacted; repeat case_decide; lia|].
      eapply removeVertex_built_ext; [|exact Hng']. simpl. lia.
  - rewrite Hrun. simpl. exists ng'. split; [done|].
    eapply removeVertex_built_ext; [|exact Hb']. simpl. lia.
Qed.

Lemma removeVertex_loops_spec g vertex newGraph :
  Graph_inv g -> 0 <= vertex < n g ->
  removeVertex_built g vertex (fun a b => False) newGraph ->
  exists newGraph' newI,
    for_each (upto 0 (n g)) (fun i '(newGraph, newI) =>
        if bool_decide (i = vertex) then Ok (newGraph, newI)
        else
          newGraph ← removeVertex_row g vertex i newI newGraph;
          Ok (newGraph, newI + 1))
      (newGraph, 0) = Ok (newGraph', newI) /\
    removeVertex_built g vertex (fun a b => True) newGraph'.
Proof.
  intros Hinv Hv Hb.
  destruct (for_each_upto_inv
    (fun i (s : Graph * Z) =>
       s.2 = compacted vertex i /\
       removeVertex_built g vertex (fun a b => a < i) s.1)
    0 (n g)
    (fun i '(newGraph, newI) =>
        if bool_decide (i = vertex) then Ok (newGraph, newI)
        else
          newGraph ← removeVertex_row g vertex i newI newGraph;
          Ok (newGraph, newI + 1))
    (newGraph, 0)) as ([ng' newI'] & Hrun & _ & Hb').
  - lia.
  - simpl. split; [unfold compacted; case_decide; lia|].
    eapply removeVertex_built_ext; [|exact Hb]. simpl. lia.
  - intros i [ng newI] Hi [HnewI Hng]. simpl in HnewI, Hng. subst newI.
    case_bool_decide as Hiv.
    + eexists. split; [done|]. simpl.
      split; [unfold compacted; repeat case_decide; lia|].
      eapply removeVertex_built_ext; [|exact Hng]. simpl. lia.
    + destruct (removeVertex_row_spec g vertex i ng Hinv Hv Hi Hiv Hng)
        as (ng' & Hrun & Hng').
      rewrite Hrun. simpl. eexists. split; [done|]. simpl.
      split; [unfold compacted; repeat case_decide; lia|done].
  - exists ng', newI'. split; [done|].
    eapply removeVertex_built_ext; [|exact Hb'].
    simpl. lia.
Qed.

(** C5. For a vertex of the graph, [removeVertex] allocates a graph at an
    address that was not in use, changes no object of the store (the
    receiver keeps its matrix, vertex count and directedness), and the new
    graph has one vertex less and the receiver's matrix without the row and
    the column of the vertex, the other indices compacted in order. *)
Theorem removeVertex_fresh_copy (σ : store) (this : addr) (g : Graph) (vertex : Z) :
  σ !! this = Some g ->
  Graph_inv g ->
  0 <= vertex < n g ->
  exists (p : addr) (g' : Graph),
    removeVertex σ this vertex = Ok (<[p := g']> σ, p) /\
    σ !! p = None /\
    <[p := g']> σ !! this = Some g /\
    n g' = n g - 1 /\
    isDirected g' = isDirected g /\
    Graph_inv g' /\
    forall a b, 0 <= a < n g - 1 -> 0 <= b < n g - 1 ->
      rd2 (adjMatrix g') a b = rd2 (adjMatrix g) (skip vertex a) (skip vertex b).
Proof.
  intros Hthis Hinv Hv. unfold removeVertex. rewrite Hthis.
  rewrite !bool_decide_eq_false_2 by lia. simpl.
  destruct (Graph_new_inv (n g - 1) (isDirected g)) as (g0 & Hnew & [Hd0 _] & Hn0 & Hdir0);
    [lia|].
  rewrite Hnew. simpl.
  destruct (removeVertex_loops_spec g vertex g0 Hinv Hv) as (g' & newI & Hrun & Hb).
  { split; [done|]. split; [done|]. split; [by rewrite <- Hn0|].
    intros a b Ha Hb. split; [|done]. right.
    unfold Graph_new in Hnew. case_decide; [done|].
    injection Hnew as <-. simpl. apply mget_replicate. }
  rewrite Hrun. simpl.
  destruct Hb as (Hn' & Hdir' & Hd' & Hcells).
  assert (Hfresh : σ !! fresh (dom σ) = None)
    by (apply not_elem_of_dom, is_fresh).
  assert (Hrange : forall a, 0 <= a < n g - 1 -> 0 <= skip vertex a < n g)
    by (intros a; unfold skip; case_decide; lia).
  exists (fresh (dom σ)), g'. split; [done|]. split; [done|]. split.
  { rewrite lookup_insert_ne; [done|]. intros Heq. congruence. }
  split; [done|]. split; [done|]. split.
  - split; [by rewrite Hn'|]. intros Hund i j Hi Hj. rewrite Hn' in Hi, Hj.
    rewrite (proj2 (Hcells i j Hi Hj) I), (proj2 (Hcells j i Hj Hi) I).
    apply Hinv; [congruence|auto..].
  - intros a b Ha Hb.
    rewrite (rd2_Ok _ (n g - 1)), (rd2_Ok _ (n g)) by (auto || apply Hinv).
    f_equal. by apply Hcells.
Qed.

Lemma removeVertex_fresh_copy_witness :
  let g := mkGraph 3 [[0; 4; 5]; [4; 0; 6]; [5; 6; 0]] false in
  let σ : store := {[ 1%positive := g ]} in
  (σ !! 1%positive = Some g /\ Graph_inv g /\ 0 <= 1 < n g) /\
  exists p g',
    removeVertex σ 1%positive 1 = Ok (<[p := g']> σ, p) /\
    σ !! p = None /\
    rd2 (adjMatrix g') 0 1 = Ok 5.
Proof.
  intros g σ.
  assert (Hthis : σ !! 1%positive = Some g) by reflexivity.
  assert (Hinv : Graph_inv g).
  { split.
    - split; [done|]. split; [done|]. by repeat constructor.
    - intros _ i j Hi Hj. simpl in Hi, Hj.
      assert (Hi' : i = 0 \/ i = 1 \/ i = 2) by lia.
      assert (Hj' : j = 0 \/ j = 1 \/ j = 2) by lia.
      destruct Hi' as [->|[->| ->]], Hj' as [->|[->| ->]]; reflexivity. }
  assert (Hv : 0 <= 1 < n g) by (simpl; lia).
  split; [done|].
  destruct (removeVertex_fresh_copy σ 1%positive g 1 Hthis Hinv Hv)
    as (p & g' & Hrun & Hp & _ & _ & _ & _ & Hcells).
  exists p, g'. split; [done|]. split; [done|].
  rewrite (Hcells 0 1) by (simpl; lia). reflexivity.
Defined.

(** C10. For an index that is not a vertex of the graph, [removeVertex]
    returns the address of the receiver and leaves the store as it is: no
    graph is allocated, and the receiver keeps its vertex count and matrix. *)
Theorem removeVertex_out_of_range (σ : store) (this : addr) (g : Graph) (vertex : Z) :
  σ !! this = Some g ->
  ¬ (0 <= vertex < n g) ->
  removeVertex σ this vertex = Ok (σ, this).
Proof.
  intros Hthis Hv. unfold removeVertex. rewrite Hthis.
  destruct (decide (vertex < 0)).
  - by rewrite bool_decide_eq_true_2.
  - rewrite bool_decide_eq_false_2 by done.
    rewrite bool_decide_eq_true_2 by lia. done.
Qed.

Lemma removeVertex_out_of_range_witness :
  let g := mkGraph 2 [[0; 1]; [1; 0]] false in
  let σ : store := {[ 1%positive := g ]} in
  (σ !! 1%positive = Some g /\ ¬ (0 <= 2 < n g)) /\
  removeVertex σ 1%positive 2 = Ok (σ, 1%positive).
Proof.
  intros g σ.
  assert (Hthis : σ !! 1%positive = Some g) by reflexivity.
  assert (Hv : ¬ (0 <= 2 < n g)) by (simpl; lia).
  split; [done|].
  exact (removeVertex_out_of_range σ 1%positive g 2 Hthis Hv).
Defined.

(** ** Start indices that are not vertices *)

Lemma start_guard g start :
  ¬ (0 <= start < n g) ->
  bool_decide (start < 0) || bool_decide (start >= n g) = true.
Proof.
  intros H. destruct (decide (start < 0)).
  - by rewrite bool_decide_eq_true_2.
  - rewrite bool_decide_eq_false_2 by done.
    rewrite bool_decide_eq_true_2 by lia. done.
Qed.

(** C6, as the code has it. For a start index that is not a vertex,
    [dijkstra] returns the rendering of the empty sequence; no distance
    array is built. *)
Theorem dijkstra_out_of_range (g : Graph) (start : Z) :
  ¬ (0 <= start < n g) ->
  dijkstra g start = Ok (show_ints []).
Proof.
  intros H. unfold dijkstra. by rewrite start_guard.
Qed.

Lemma dijkstra_out_of_range_witness :
  let g := mkGraph 2 [[0; 3]; [3; 0]] false in
  ¬ (0 <= 5 < n g) /\ dijkstra g 5 = Ok "[]"%string.
Proof.
  intros g.
  assert (H : ¬ (0 <= 5 < n g)) by (simpl; lia).
  split; [exact H|]. exact (dijkstra_out_of_range g 5 H).
Defined.

(** C6, as stated, fails: on a graph with one vertex and the start index 1
    the result is not the rendering of a sequence of [vertexCount] sentinel
    values. *)
Lemma dijkstra_out_of_range_not_sentinels :
  let g := mkGraph 1 [[0]] false in
  ¬ (0 <= 1 < n g) /\
  ¬ exists d : list Z,
      dijkstra g 1 = Ok (show_ints d) /\
      length d = Z.to_nat (n g) /\ Forall (fun x => x = 999999) d.
Proof.
  intros g. split; [simpl; lia|].
  intros (d & Hrun & Hlen & Hall).
  destruct d as [|x [|y d]]; try discriminate Hlen.
  apply Forall_cons in Hall as [-> _].
  vm_compute in Hrun. discriminate Hrun.
Qed.




(** ** AVL tree: balance *)

Lemma max_Zmax a b : max a b = Z.max a b.
Proof. unfold max. case_bool_decide; lia. Qed.

Lemma add32_small a b : -1000 <= a <= 1000 -> -1000 <= b <= 1000 -> add32 a b = a + b.
Proof.
  intros Ha Hb. unfold add32. apply wrap32_id.
  unfold is_int, INT_MIN, INT_MAX. lia.
Qed.

Lemma sub32_small a b : -1000 <= a <= 1000 -> -1000 <= b <= 1000 -> sub32 a b = a - b.
Proof.
  intros Ha Hb. unfold sub32. apply wrap32_id.
  unfold is_int, INT_MIN, INT_MAX. lia.
Qed.

Lemma avl_height_nonneg t : avl t -> 0 <= height t.
Proof.
  induction t as [|k h l IHl r IHr]; simpl; [lia|].
  intros (Hl & Hr & -> & _). specialize (IHl Hl). lia.
Qed.

(** In an AVL tree the stored heights are the heights. *)
Lemma avl_depth t : avl t -> height t = depth t.
Proof.
  induction t as [|k h l IHl r IHr]; [done|].
  simpl. intros (Hl & Hr & -> & _). rewrite IHl, IHr by done. done.
Qed.

Lemma avl_balanced t : avl t <-> balanced t.
Proof.
  induction t as [|k h l IHl r IHr]; [done|]. simpl. split.
  - intros (Hl & Hr & Hh & Hb).
    rewrite <- !avl_depth by done. by rewrite <- IHl, <- IHr.
  - intros (Hl & Hr & Hh & Hb). apply IHl in Hl. apply IHr in Hr.
    rewrite !avl_depth by done. done.
Qed.

Lemma avl_height_null t : avl t -> height t = 0 -> t = null.
Proof.
  destruct t as [|k h l r]; [done|]. simpl. intros (Hl & Hr & -> & _) H0.
  pose proof (avl_height_nonneg l Hl). lia.
Qed.

Lemma new_height_small l r :
  0 <= height l <= 200 -> 0 <= height r <= 200 ->
  new_height l r = 1 + Z.max (height l) (height r).
Proof.
  intros Hl Hr. unfold new_height. rewrite max_Zmax, add32_small; lia.
Qed.

Lemma getBalance_small k h l r :
  0 <= height l <= 200 -> 0 <= height r <= 200 ->
  getBalance (node k h l r) = height l - height r.
Proof. intros Hl Hr. simpl. rewrite sub32_small; lia. Qed.

Lemma rightRotate_small k h0 lk lh ll lr r :
  0 <= height ll <= 150 -> 0 <= height lr <= 150 -> 0 <= height r <= 150 ->
  rightRotate (node k h0 (node lk lh ll lr) r) =
  Ok (node lk (1 + Z.max (height ll) (1 + Z.max (height lr) (height r))) ll
        (node k (1 + Z.max (height lr) (height r)) lr r)).
Proof.
  intros Hll Hlr Hr. simpl.
  rewrite (new_height_small lr r) by lia.
  rewrite new_height_small by (simpl; lia). done.
Qed.

Lemma leftRotate_small k h0 l rk rh rl rr :
  0 <= height l <= 150 -> 0 <= height rl <= 150 -> 0 <= height rr <= 150 ->
  leftRotate (node k h0 l (node rk rh rl rr)) =
  Ok (node rk (1 + Z.max (1 + Z.max (height l) (height rl)) (height rr))
        (node k (1 + Z.max (height l) (height rl)) l rl) rr).
Proof.
  intros Hl Hrl Hrr. simpl.
  rewrite (new_height_small l rl) by lia.
  rewrite new_height_small by (simpl; lia). done.
Qed.

(** No rotation where the children are balanced. *)
Lemma insert_rebalance_balanced k l r key :
  0 <= height l <= 150 -> 0 <= height r <= 150 ->
  -1 <= height l - height r <= 1 ->
  insert_rebalance k l r key = Ok (node k (1 + Z.max (height l) (height r)) l r).
Proof.
  intros Hl Hr Hb. unfold insert_rebalance.
  rewrite getBalance_small by lia.
  rewrite !(bool_decide_eq_false_2 (height l - height r > 1)) by lia.
  rewrite !(bool_decide_eq_false_2 (height l - height r < -1)) by lia.
  simpl. by rewrite new_height_small by lia.
Qed.

Lemma remove_rebalance_balanced k l r :
  0 <= height l <= 150 -> 0 <= height r <= 150 ->
  -1 <= height l - height r <= 1 ->
  remove_rebalance k l r = Ok (node k (1 + Z.max (height l) (height r)) l r).
Proof.
  intros Hl Hr Hb. unfold remove_rebalance.
  rewrite getBalance_small by lia.
  rewrite !(bool_decide_eq_false_2 (height l - height r > 1)) by lia.
  rewrite !(bool_decide_eq_false_2 (height l - height r < -1)) by lia.
  simpl. by rewrite new_height_small by lia.
Qed.

(** The left subtree is two higher: one or two rotations. The result has
    the height of the left subtree, or one more when the left subtree had
    children of equal height. *)
Lemma rebalance_left k l r :
  avl l -> avl r -> height l <= 150 -> height l = height r + 2 ->
  exists lk lh ll lr, l = node lk lh ll lr /\
    (height lr <= height ll ->
     exists t', rightRotate (node k (new_height l r) l r) = Ok t' /\ avl t' /\
       inorder t' = inorder l ++ k :: inorder r /\
       height t' = (if decide (height ll = height lr) then height l + 1 else height l)) /\
    (height ll < height lr ->
     exists l' t', leftRotate l = Ok l' /\
       rightRotate (node k (new_height l r) l' r) = Ok t' /\ avl t' /\
       inorder t' = inorder l ++ k :: inorder r /\
       height t' = height l).
Proof.
  intros Hl Hr Hsm Hh.
  pose proof (avl_height_nonneg r Hr) as Hr0.
  destruct l as [|lk lh ll lr]; [simpl in Hh; lia|].
  exists lk, lh, ll, lr. split; [done|].
  simpl in Hl. destruct Hl as (Hll & Hlr & Hlh & Hlb). simpl in Hh, Hsm.
  pose proof (avl_height_nonneg ll Hll) as Hll0.
  pose proof (avl_height_nonneg lr Hlr) as Hlr0.
  split.
  - intros Hle. rewrite rightRotate_small by lia.
    eexists. split; [done|]. split; [simpl; repeat split; (done || lia)|]. split.
    + simpl. by repeat (rewrite <- app_assoc; simpl).
    + simpl. case_decide; lia.
  - intros Hlt. destruct lr as [|lrk lrh lrl lrr]; [simpl in Hlt; lia|].
    simpl in Hlr. destruct Hlr as (Hlrl & Hlrr & Hlrh & Hlrb). cbn [height] in *.
    pose proof (avl_height_nonneg lrl Hlrl) as Hlrl0.
    pose proof (avl_height_nonneg lrr Hlrr) as Hlrr0.
    rewrite leftRotate_small by lia.
    do 2 eexists. split; [done|].
    rewrite rightRotate_small by (simpl; lia).
    split; [done|]. split; [simpl; repeat split; (done || lia)|]. split.
    + simpl. by repeat (rewrite <- app_assoc; simpl).
    + simpl. lia.
Qed.

Lemma rebalance_right k l r :
  avl l -> avl r -> height r <= 150 -> height r = height l + 2 ->
  exists rk rh rl rr, r = node rk rh rl rr /\
    (height rl <= height rr ->
     exists t', leftRotate (node k (new_height l r) l r) = Ok t' /\ avl t' /\
       inorder t' = inorder l ++ k :: inorder r /\
       height t' = (if decide (height rl = height rr) then height r + 1 else height r)) /\
    (height rr < height rl ->
     exists r' t', rightRotate r = Ok r' /\
       leftRotate (node k (new_height l r) l r') = Ok t' /\ avl t' /\
       inorder t' = inorder l ++ k :: inorder r /\
       height t' = height r).
Proof.
  intros Hl Hr Hsm Hh.
  pose proof (avl_height_nonneg l Hl) as Hl0.
  destruct r as [|rk rh rl rr]; [simpl in Hh; lia|].
  exists rk, rh, rl, rr. split; [done|].
  simpl in Hr. destruct Hr as (Hrl & Hrr & Hrh & Hrb). simpl in Hh, Hsm.
  pose proof (avl_height_nonneg rl Hrl) as Hrl0.
  pose proof (avl_height_nonneg rr Hrr) as Hrr0.
  split.
  - intros Hle. rewrite leftRotate_small by lia.
    eexists. split; [done|]. split; [simpl; repeat split; (done || lia)|]. split.
    + simpl. by repeat (rewrite <- app_assoc; simpl).
    + simpl. case_decide; lia.
  - intros Hlt. destruct rl as [|rlk rlh rll rlr]; [simpl in Hlt; lia|].
    simpl in Hrl. destruct Hrl as (Hrll & Hrlr & Hrlh & Hrlb). cbn [height] in *.
    pose proof (avl_height_nonneg rll Hrll) as Hrll0.
    pose proof (avl_height_nonneg rlr Hrlr) as Hrlr0.
    rewrite rightRotate_small by lia.
    do 2 eexists. split; [done|].
    rewrite leftRotate_small by (simpl; lia).
    split; [done|]. split; [simpl; repeat split; (done || lia)|]. split.
    + simpl. by repeat (rewrite <- app_assoc; simpl).
    + simpl. lia.
Qed.

(** ** Sorted lists of keys *)

Lemma ascending_mid xs a ys :
  ascending (xs ++ a :: ys) ->
  ascending xs /\ ascending ys /\
  Forall (fun x => x < a) xs /\ Forall (fun x => a < x) ys.
Proof.
  rewrite StronglySorted_app, StronglySorted_cons.
  intros (Hlt & Hxs & Hys & Hsys). repeat split; try done.
  apply Forall_forall. intros x Hx. apply Hlt; [done|]. by left.
Qed.

Lemma ascending_mid_2 xs a ys :
  ascending xs -> ascending ys ->
  Forall (fun x => x < a) xs -> Forall (fun x => a < x) ys ->
  ascending (xs ++ a :: ys).
Proof.
  intros Hxs Hys Hlt Hgt.
  rewrite StronglySorted_app, StronglySorted_cons. repeat split; try done.
  intros x1 x2 H1 H2. rewrite Forall_forall in Hlt, Hgt.
  apply Hlt in H1. apply elem_of_cons in H2 as [->|H2]; [done|].
  apply Hgt in H2. lia.
Qed.

Lemma elem_of_ins_list x y l : y ∈ ins_list x l <-> y = x \/ y ∈ l.
Proof.
  induction l as [|a l IH]; simpl.
  - rewrite list_elem_of_singleton, elem_of_nil. tauto.
  - repeat case_decide; subst; rewrite ?elem_of_cons, ?IH; tauto.
Qed.

Lemma ins_list_ascending x l : ascending l -> ascending (ins_list x l).
Proof.
  induction l as [|a l IH]; simpl; intros Hl.
  - repeat constructor.
  - apply StronglySorted_cons in Hl as [Ha Hl].
    repeat case_decide; subst.
    + apply StronglySorted_cons. split; [|by apply StronglySorted_cons].
      constructor; [done|]. eapply Forall_impl; [exact Ha|]. simpl. lia.
    + by apply StronglySorted_cons.
    + apply StronglySorted_cons. split; [|by apply IH].
      apply Forall_forall. intros y Hy. apply elem_of_ins_list in Hy as [->|Hy]; [lia|].
      rewrite Forall_forall in Ha. by apply Ha.
Qed.

Lemma ins_list_app_lt x xs a ys :
  x < a -> ins_list x (xs ++ a :: ys) = ins_list x xs ++ a :: ys.
Proof.
  intros Hlt. induction xs as [|b xs IH]; simpl.
  - by rewrite decide_True.
  - repeat case_decide; try done. by rewrite IH.
Qed.

Lemma ins_list_app_gt x xs a ys :
  Forall (fun y => y < a) xs -> a < x ->
  ins_list x (xs ++ a :: ys) = xs ++ a :: ins_list x ys.
Proof.
  intros Hxs Hgt. induction xs as [|b xs IH]; simpl.
  - rewrite decide_False by lia. by rewrite decide_False by lia.
  - apply Forall_cons in Hxs as [Hb Hxs].
    rewrite decide_False by lia. rewrite decide_False by lia. by rewrite IH.
Qed.

Lemma ins_list_app_eq xs a ys :
  Forall (fun y => y < a) xs -> ins_list a (xs ++ a :: ys) = xs ++ a :: ys.
Proof.
  intros Hxs. induction xs as [|b xs IH]; simpl.
  - rewrite decide_False by lia. by rewrite decide_True.
  - apply Forall_cons in Hxs as [Hb Hxs].
    rewrite decide_False by lia. rewrite decide_False by lia. by rewrite IH.
Qed.

Lemma elem_of_del_list x y l :
  ascending l -> y ∈ del_list x l <-> y ≠ x /\ y ∈ l.
Proof.
  induction l as [|a l IH]; simpl; intros Hl.
  - rewrite elem_of_nil. tauto.
  - apply StronglySorted_cons in Hl as [Ha Hl]. rewrite Forall_forall in Ha.
    case_decide; subst.
    + rewrite elem_of_cons. split.
      * intros Hy. specialize (Ha _ Hy). split; [lia|by right].
      * intros [Hne [->|Hy]]; done.
    + rewrite !elem_of_cons, IH by done. intuition congruence.
Qed.

Lemma del_list_ascending x l : ascending l -> ascending (del_list x l).
Proof.
  induction l as [|a l IH]; simpl; intros Hl; [done|].
  apply StronglySorted_cons in Hl as [Ha Hl].
  case_decide; [done|]. apply StronglySorted_cons. split; [|by apply IH].
  apply Forall_forall. intros y Hy. apply elem_of_del_list in Hy as [_ Hy]; [|done].
  rewrite Forall_forall in Ha. by apply Ha.
Qed.

Lemma del_list_absent x l : x ∉ l -> del_list x l = l.
Proof.
  induction l as [|a l IH]; simpl; intros Hx; [done|].
  apply not_elem_of_cons in Hx as [Hne Hx].
  rewrite decide_False by done. by rewrite IH.
Qed.

Lemma del_list_app_lt x xs a ys :
  Forall (fun y => a < y) ys -> x < a ->
  del_list x (xs ++ a :: ys) = del_list x xs ++ a :: ys.
Proof.
  intros Hys Hlt. induction xs as [|b xs IH]; simpl.
  - rewrite decide_False by lia. rewrite del_list_absent; [done|].
    intros Hx. rewrite Forall_forall in Hys. apply Hys in Hx. lia.
  - case_decide; [done|]. by rewrite IH.
Qed.

Lemma del_list_app_gt x xs a ys :
  Forall (fun y => y < a) xs -> a < x ->
  del_list x (xs ++ a :: ys) = xs ++ a :: del_list x ys.
Proof.
  intros Hxs Hgt. induction xs as [|b xs IH]; simpl.
  - by rewrite decide_False by lia.
  - apply Forall_cons in Hxs as [Hb Hxs].
    rewrite decide_False by lia. by rewrite IH.
Qed.

Lemma del_list_app_eq xs a ys :
  Forall (fun y => y < a) xs -> del_list a (xs ++ a :: ys) = xs ++ ys.
Proof.
  intros Hxs. induction xs as [|b xs IH]; simpl.
  - by rewrite decide_True.
  - apply Forall_cons in Hxs as [Hb Hxs].
    rewrite decide_False by lia. by rewrite IH.
Qed.

Lemma bst_ascending t : bst t <-> ascending (inorder t).
Proof.
  induction t as [|k h l IHl r IHr]; simpl.
  - split; [constructor|done].
  - rewrite IHl, IHr. split.
    + intros (Hl & Hr & Hlt & Hgt). by apply ascending_mid_2.
    + intros H. apply ascending_mid in H. tauto.
Qed.

(** ** AVL tree: insert *)

Lemma insert_spec t key :
  avl t -> height t <= 100 -> ascending (inorder t) ->
  exists t',
    insert t key = Ok t' /\ avl t' /\
    inorder t' = ins_list key (inorder t) /\
    (height t' = height t \/
     (height t' = height t + 1 /\ (height t' = 1 \/ leans t' key))).
Proof.
  induction t as [|k h l IHl r IHr]; intros Havl Hsm Hasc.
  - simpl. eexists. split; [done|]. simpl. repeat split; try done. right. lia.
  - simpl in Havl. destruct Havl as (Hl & Hr & Hh & Hb). simpl in Hsm.
    pose proof (avl_height_nonneg l Hl) as Hl0.
    pose proof (avl_height_nonneg r Hr) as Hr0.
    simpl in Hasc. apply ascending_mid in Hasc as (Hal & Har & Hlt & Hgt).
    simpl. case_bool_decide as Hc1; [|case_bool_decide as Hc2].
    + (* into the left subtree *)
      destruct IHl as (l' & Hrun & Hl' & Hin & Hh'); [done|lia|done|].
      rewrite Hrun. simpl.
      pose proof (avl_height_nonneg l' Hl') as Hl0'.
      rewrite ins_list_app_lt by done. rewrite <- Hin.
      destruct (decide (height l' - height r <= 1)) as [Hbal|Hunb].
      * rewrite insert_rebalance_balanced by lia.
        eexists. split; [done|]. split; [simpl; repeat split; (done || lia)|].
        split; [done|]. simpl. lia.
      * destruct Hh' as [?|[Hgrow Hshape]]; [lia|].
        destruct Hshape as [?|Hlean]; [lia|].
        destruct (rebalance_left k l' r) as (lk & lh & ll & lr & -> & Hsingle & Hdouble);
          [done|done|lia|lia|].
        simpl in Hlean. unfold insert_rebalance.
        rewrite getBalance_small by lia.
        rewrite !(bool_decide_eq_true_2 (height (node lk lh ll lr) - height r > 1)) by lia.
        rewrite !(bool_decide_eq_false_2 (height (node lk lh ll lr) - height r < -1)) by lia.
        cbn [key_of mbind result_bind].
        destruct Hlean as [[Hk Hll]|[Hk Hll]].
        -- rewrite (bool_decide_eq_true_2 (key < lk)) by done.
           destruct Hsingle as (t' & Hrot & Ht' & Hin' & Hht'); [lia|].
           rewrite Hrot. exists t'. split; [done|]. split; [done|]. split; [done|].
           left. rewrite Hht'. rewrite decide_False by lia. lia.
        -- rewrite (bool_decide_eq_false_2 (key < lk)) by lia.
           rewrite (bool_decide_eq_true_2 (key > lk)) by lia.
           destruct Hdouble as (l' & t' & Hrot1 & Hrot2 & Ht' & Hin' & Hht'); [lia|].
           rewrite Hrot1. cbn [mbind result_bind]. rewrite Hrot2.
           exists t'. split; [done|]. split; [done|]. split; [done|].
           left. lia.
    + (* into the right subtree *)
      destruct IHr as (r' & Hrun & Hr' & Hin & Hh'); [done|lia|done|].
      rewrite Hrun. simpl.
      pose proof (avl_height_nonneg r' Hr') as Hr0'.
      rewrite ins_list_app_gt by (done || lia). rewrite <- Hin.
      destruct (decide (height r' - height l <= 1)) as [Hbal|Hunb].
      * rewrite insert_rebalance_balanced by lia.
        eexists. split; [done|]. split; [simpl; repeat split; (done || lia)|].
        split; [done|]. simpl. lia.
      * destruct Hh' as [?|[Hgrow Hshape]]; [lia|].
        destruct Hshape as [?|Hlean]; [lia|].
        destruct (rebalance_right k l r') as (rk & rh & rl & rr & -> & Hsingle & Hdouble);
          [done|done|lia|lia|].
        simpl in Hlean. unfold insert_rebalance.
        rewrite getBalance_small by lia.
        rewrite !(bool_decide_eq_false_2 (height l - height (node rk rh rl rr) > 1)) by lia.
        rewrite !(bool_decide_eq_true_2 (height l - height (node rk rh rl rr) < -1)) by lia.
        cbn [key_of mbind result_bind].
        destruct Hlean as [[Hk Hrr]|[Hk Hrr]].
        -- rewrite (bool_decide_eq_false_2 (key > rk)) by lia.
           rewrite (bool_decide_eq_true_2 (key < rk)) by lia.
           destruct Hdouble as (r' & t' & Hrot1 & Hrot2 & Ht' & Hin' & Hht'); [lia|].
           rewrite Hrot1. cbn [mbind result_bind]. rewrite Hrot2.
           exists t'. split; [done|]. split; [done|]. split; [done|].
           left. lia.
        -- rewrite (bool_decide_eq_true_2 (key > rk)) by lia.
           destruct Hsingle as (t' & Hrot & Ht' & Hin' & Hht'); [lia|].
           rewrite Hrot. exists t'. split; [done|]. split; [done|]. split; [done|].
           left. rewrite Hht'. rewrite decide_False by lia. lia.
    + (* the key of this node *)
      assert (key = k) as -> by lia.
      eexists. split; [done|]. split; [simpl; done|].
      split; [simpl; by rewrite ins_list_app_eq|]. by left.
Qed.

(** ** AVL tree: remove *)

Lemma remove_rebalance_spec k l r :
  avl l -> avl r -> height l <= 120 -> height r <= 120 ->
  -2 <= height l - height r <= 2 ->
  exists t',
    remove_rebalance k l r = Ok t' /\ avl t' /\
    inorder t' = inorder l ++ k :: inorder r /\
    (height t' = 1 + Z.max (height l) (height r) \/
     (¬ (-1 <= height l - height r <= 1) /\
      height t' = Z.max (height l) (height r))).
Proof.
  intros Hl Hr Hsl Hsr Hb.
  pose proof (avl_height_nonneg l Hl) as Hl0.
  pose proof (avl_height_nonneg r Hr) as Hr0.
  destruct (decide (-1 <= height l - height r <= 1)) as [Hbal|Hunb].
  { rewrite remove_rebalance_balanced by lia.
    eexists. split; [done|]. split; [simpl; repeat split; (done || lia)|].
    split; [done|]. left. done. }
  unfold remove_rebalance. rewrite getBalance_small by lia.
  destruct (decide (height l - height r = 2)) as [Hleft|Hright].
  - destruct (rebalance_left k l r) as (lk & lh & ll & lr & -> & Hsingle & Hdouble);
      [done|done|lia|lia|].
    simpl in Hl. destruct Hl as (Hll & Hlr & Hlh & Hlb).
    pose proof (avl_height_nonneg ll Hll) as Hll0.
    pose proof (avl_height_nonneg lr Hlr) as Hlr0.
    cbn [height] in *.
    rewrite !(bool_decide_eq_true_2 (lh - height r > 1)) by lia.
    rewrite getBalance_small by lia.
    destruct (decide (height lr <= height ll)) as [Hle|Hgt].
    + rewrite (bool_decide_eq_true_2 (height ll - height lr >= 0)) by lia.
      cbn [andb].
      destruct (Hsingle Hle) as (t' & Hrot & Ht' & Hin' & Hht').
      rewrite Hrot. exists t'. split; [done|]. split; [done|]. split; [done|].
      rewrite Hht'. case_decide; lia.
    + rewrite (bool_decide_eq_false_2 (height ll - height lr >= 0)) by lia.
      rewrite (bool_decide_eq_true_2 (height ll - height lr < 0)) by lia.
      cbn [andb].
      destruct Hdouble as (l' & t' & Hrot1 & Hrot2 & Ht' & Hin' & Hht'); [lia|].
      rewrite Hrot1. cbn [mbind result_bind]. rewrite Hrot2.
      exists t'. split; [done|]. split; [done|]. split; [done|]. lia.
  - destruct (rebalance_right k l r) as (rk & rh & rl & rr & -> & Hsingle & Hdouble);
      [done|done|lia|lia|].
    simpl in Hr. destruct Hr as (Hrl & Hrr & Hrh & Hrb).
    pose proof (avl_height_nonneg rl Hrl) as Hrl0.
    pose proof (avl_height_nonneg rr Hrr) as Hrr0.
    cbn [height] in *.
    rewrite !(bool_decide_eq_false_2 (height l - rh > 1)) by lia.
    rewrite !(bool_decide_eq_true_2 (height l - rh < -1)) by lia.
    rewrite getBalance_small by lia.
    cbn [andb].
    destruct (decide (height rl <= height rr)) as [Hle|Hgt].
    + rewrite (bool_decide_eq_true_2 (height rl - height rr <= 0)) by lia.
      destruct (Hsingle Hle) as (t' & Hrot & Ht' & Hin' & Hht').
      rewrite Hrot. exists t'. split; [done|]. split; [done|]. split; [done|].
      rewrite Hht'. case_decide; lia.
    + rewrite (bool_decide_eq_false_2 (height rl - height rr <= 0)) by lia.
      rewrite (bool_decide_eq_true_2 (height rl - height rr > 0)) by lia.
      destruct Hdouble as (r' & t' & Hrot1 & Hrot2 & Ht' & Hin' & Hht'); [lia|].
      rewrite Hrot1. cbn [mbind result_bind]. rewrite Hrot2.
      exists t'. split; [done|]. split; [done|]. split; [done|]. lia.
Qed.

Lemma minValueNode_spec t :
  t ≠ null ->
  exists m mh ml mr rest,
    minValueNode t = Ok (node m mh ml mr) /\ inorder t = m :: rest.
Proof.
  induction t as [|k h l IHl r _]; [done|]. intros _.
  destruct l as [|lk lh ll lr].
  - simpl. by exists k, h, null, r, (inorder r).
  - destruct IHl as (m & mh & ml & mr & rest & Hmin & Hin); [done|].
    exists m, mh, ml, mr, (rest ++ k :: inorder r). split; [exact Hmin|].
    change (inorder (node k h (node lk lh ll lr) r))
      with (inorder (node lk lh ll lr) ++ k :: inorder r).
    by rewrite Hin.
Qed.

Lemma remove_spec t key :
  avl t -> height t <= 100 -> ascending (inorder t) ->
  exists t',
    remove t key = Ok t' /\ avl t' /\
    inorder t' = del_list key (inorder t) /\
    (height t' = height t \/ height t' = height t - 1).
Proof.
  revert key.
  induction t as [|k h l IHl r IHr]; intros key Havl Hsm Hasc.
  - simpl. exists null. repeat split; try done. by left.
  - simpl in Havl. destruct Havl as (Hl & Hr & Hh & Hb). simpl in Hsm.
    pose proof (avl_height_nonneg l Hl) as Hl0.
    pose proof (avl_height_nonneg r Hr) as Hr0.
    simpl in Hasc. apply ascending_mid in Hasc as (Hal & Har & Hlt & Hgt).
    cbn [remove height inorder].
    case_bool_decide as Hc1; [|case_bool_decide as Hc2].
    + destruct (IHl key) as (l' & Hrun & Hl' & Hin & Hh'); [done|lia|done|].
      rewrite Hrun. cbn [mbind result_bind].
      pose proof (avl_height_nonneg l' Hl') as Hl0'.
      destruct (remove_rebalance_spec k l' r) as (t' & Hreb & Ht' & Hin' & Hht');
        [done|done|lia|lia|lia|].
      exists t'. split; [done|]. split; [done|]. split.
      * rewrite Hin', Hin. by rewrite del_list_app_lt.
      * lia.
    + destruct (IHr key) as (r' & Hrun & Hr' & Hin & Hh'); [done|lia|done|].
      rewrite Hrun. cbn [mbind result_bind].
      pose proof (avl_height_nonneg r' Hr') as Hr0'.
      destruct (remove_rebalance_spec k l r') as (t' & Hreb & Ht' & Hin' & Hht');
        [done|done|lia|lia|lia|].
      exists t'. split; [done|]. split; [done|]. split.
      * rewrite Hin', Hin. rewrite del_list_app_gt by (done || lia). done.
      * lia.
    + assert (key = k) as -> by lia.
      rewrite del_list_app_eq by done.
      destruct l as [|lk lh ll lr], r as [|rk rh rl rr].
      * exists null. repeat split; try done. right. simpl in *. lia.
      * simpl in Hr. destruct Hr as (Hrl & Hrr & Hrh & Hrb).
        pose proof (avl_height_nonneg rl Hrl). pose proof (avl_height_nonneg rr Hrr).
        cbn [height] in *.
        rewrite remove_rebalance_balanced by lia.
        eexists. split; [done|]. split; [simpl; repeat split; (done || lia)|].
        split; [done|]. simpl. lia.
      * simpl in Hl. destruct Hl as (Hll & Hlr & Hlh & Hlb).
        pose proof (avl_height_nonneg ll Hll). pose proof (avl_height_nonneg lr Hlr).
        cbn [height] in *.
        rewrite remove_rebalance_balanced by lia.
        eexists. split; [done|]. split; [simpl; repeat split; (done || lia)|].
        split; [simpl; by rewrite app_nil_r|]. simpl. lia.
      * destruct (minValueNode_spec (node rk rh rl rr)) as (m & mh & ml & mr & rest & Hmin & Hrest);
          [done|].
        rewrite Hmin. cbn [mbind result_bind key_of].
        destruct (IHr m) as (r' & Hrun & Hr' & Hin & Hh'); [done|lia|done|].
        rewrite Hrun. cbn [mbind result_bind].
        pose proof (avl_height_nonneg r' Hr') as Hr0'.
        destruct (remove_rebalance_spec m (node lk lh ll lr) r')
          as (t' & Hreb & Ht' & Hin' & Hht'); [done|done|lia|lia|lia|].
        exists t'. split; [done|]. split; [done|]. split.
        -- rewrite Hin', Hin, Hrest. simpl. by rewrite decide_True.
        -- lia.
Qed.

(** ** AVL tree: the height stays small *)

(** A balanced tree of height [2 k] has at least [2^k - 1] keys. *)
Lemma avl_size (k : nat) t :
  avl t -> 2 * Z.of_nat k <= height t ->
  2 ^ Z.of_nat k - 1 <= Z.of_nat (length (inorder t)).
Proof.
  revert t. induction k as [|k IH]; intros t Havl Hh.
  - simpl. lia.
  - destruct t as [|x h l r]; [simpl in Hh; lia|].
    simpl in Havl. destruct Havl as (Hl & Hr & -> & Hb). simpl in Hh.
    pose proof (IH l Hl) as IHl. pose proof (IH r Hr) as IHr.
    simpl. rewrite length_app. simpl.
    rewrite Nat2Z.inj_succ, Z.pow_succ_r by lia. lia.
Qed.

(** An ascending list of keys between [lo] and [hi] has at most
    [hi - lo + 1] elements. *)
Lemma ascending_length l lo hi :
  ascending l -> Forall (fun x => lo <= x <= hi) l -> lo <= hi + 1 ->
  Z.of_nat (length l) <= hi - lo + 1.
Proof.
  revert lo. induction l as [|x l IH]; intros lo Hasc Hrange Hlo; simpl; [lia|].
  apply StronglySorted_cons in Hasc as [Hx Hasc].
  apply Forall_cons in Hrange as [Hxr Hrange].
  specialize (IH (x + 1) Hasc).
  assert (Z.of_nat (length l) <= hi - (x + 1) + 1); [|lia].
  apply IH; [|lia].
  rewrite Forall_forall in Hx, Hrange. apply Forall_forall. intros y Hy.
  specialize (Hx y Hy). specialize (Hrange y Hy). lia.
Qed.

Lemma avl_height_bound t :
  avl t -> ascending (inorder t) -> Forall is_int (inorder t) ->
  height t <= 65.
Proof.
  intros Havl Hasc Hint.
  destruct (decide (height t <= 65)) as [|Hbig]; [done|exfalso].
  pose proof (avl_size 33 t Havl) as Hsize.
  pose proof (ascending_length (inorder t) INT_MIN INT_MAX Hasc) as Hlen.
  unfold is_int in Hint. unfold INT_MIN, INT_MAX in *.
  specialize (Hlen Hint). lia.
Qed.

(** ** AVL tree: calls that change nothing *)

Lemma insert_present t key :
  avl t -> height t <= 100 -> ascending (inorder t) ->
  key ∈ inorder t -> insert t key = Ok t.
Proof.
  induction t as [|k h l IHl r IHr]; intros Havl Hsm Hasc Hin.
  - by apply elem_of_nil in Hin.
  - simpl in Havl. destruct Havl as (Hl & Hr & Hh & Hb). simpl in Hsm.
    pose proof (avl_height_nonneg l Hl) as Hl0.
    pose proof (avl_height_nonneg r Hr) as Hr0.
    simpl in Hasc. apply ascending_mid in Hasc as (Hal & Har & Hlt & Hgt).
    rewrite Forall_forall in Hlt, Hgt.
    simpl in Hin. apply elem_of_app in Hin as [Hin|Hin].
    + specialize (Hlt _ Hin). simpl.
      rewrite bool_decide_eq_true_2 by done.
      rewrite IHl by (done || lia). simpl.
      rewrite insert_rebalance_balanced by lia. by rewrite <- Hh.
    + apply elem_of_cons in Hin as [->|Hin].
      * simpl. rewrite !bool_decide_eq_false_2 by lia. done.
      * specialize (Hgt _ Hin). simpl.
        rewrite bool_decide_eq_false_2 by lia.
        rewrite bool_decide_eq_true_2 by lia.
        rewrite IHr by (done || lia). simpl.
        rewrite insert_rebalance_balanced by lia. by rewrite <- Hh.
Qed.

Lemma remove_absent t key :
  avl t -> height t <= 100 -> key ∉ inorder t -> remove t key = Ok t.
Proof.
  induction t as [|k h l IHl r IHr]; intros Havl Hsm Hin; [done|].
  simpl in Havl. destruct Havl as (Hl & Hr & Hh & Hb). simpl in Hsm.
  pose proof (avl_height_nonneg l Hl) as Hl0.
  pose proof (avl_height_nonneg r Hr) as Hr0.
  simpl in Hin. rewrite elem_of_app, elem_of_cons in Hin.
  cbn [remove]. case_bool_decide as Hc1; [|case_bool_decide as Hc2].
  - rewrite IHl by (tauto || lia). simpl.
    rewrite remove_rebalance_balanced by lia. by rewrite <- Hh.
  - rewrite IHr by (tauto || lia). simpl.
    rewrite remove_rebalance_balanced by lia. by rewrite <- Hh.
  - exfalso. apply Hin. right. left. lia.
Qed.

(** C8. On an AVL tree (balanced, with the heights stored right, ordered,
    holding 32-bit keys) inserting a key that is in the tree returns the
    same tree, and so does removing a key that is not in the tree. *)
Theorem insert_present_remove_absent (t : tree) (key : Z) :
  avl t -> bst t -> Forall is_int (inorder t) ->
  (key ∈ inorder t -> insert t key = Ok t) /\
  (key ∉ inorder t -> remove t key = Ok t).
Proof.
  intros Havl Hbst Hint. apply bst_ascending in Hbst.
  pose proof (avl_height_bound t Havl Hbst Hint) as Hh.
  split; intros Hin.
  - apply insert_present; (done || lia).
  - apply remove_absent; (done || lia).
Qed.

Lemma insert_present_remove_absent_witness :
  let t := node 20 2 (node 10 1 null null) (node 30 1 null null) in
  (avl t /\ bst t /\ Forall is_int (inorder t)) /\
  insert t 30 = Ok t /\ remove t 25 = Ok t.
Proof.
  intros t.
  assert (Havl : avl t) by (simpl; repeat split; lia).
  assert (Hbst : bst t).
  { simpl. repeat split; try done; repeat constructor; lia. }
  assert (Hint : Forall is_int (inorder t)).
  { simpl. repeat constructor; unfold INT_MIN, INT_MAX; lia. }
  split; [done|].
  destruct (insert_present_remove_absent t 30 Havl Hbst Hint) as [Hins _].
  destruct (insert_present_remove_absent t 25 Havl Hbst Hint) as [_ Hrem].
  split.
  - apply Hins. simpl. rewrite !elem_of_cons. lia.
  - apply Hrem. simpl. rewrite !elem_of_cons, elem_of_nil. lia.
Defined.

(** ** AVL tree: sequences of calls *)

Lemma AVL_run_spec calls : forall (root : tree) (s : gset Z),
  avl root -> ascending (inorder root) -> Forall is_int (inorder root) ->
  (forall x, x ∈ inorder root <-> x ∈ s) ->
  Forall (fun c => is_int (call_key c)) calls ->
  exists root',
    AVL_run root calls = Ok root' /\
    avl root' /\ ascending (inorder root') /\ Forall is_int (inorder root') /\
    (forall x, x ∈ inorder root' <-> x ∈ foldl present_step s calls).
Proof.
  induction calls as [|c calls IH]; intros root s Havl Hasc Hint Hs Hcalls.
  - exists root. done.
  - apply Forall_cons in Hcalls as [Hc Hcalls].
    pose proof (avl_height_bound root Havl Hasc Hint) as Hh.
    cbn [AVL_run foldl]. destruct c as [key|key]; cbn [AVL_step present_step].
    + destruct (insert_spec root key) as (t' & Hrun & Ht' & Hin & _);
        [done|lia|done|].
      rewrite Hrun. cbn [mbind result_bind].
      apply IH; [done| | | |done].
      * rewrite Hin. by apply ins_list_ascending.
      * rewrite Hin. apply Forall_forall. intros x Hx.
        apply elem_of_ins_list in Hx as [->|Hx]; [done|].
        rewrite Forall_forall in Hint. by apply Hint.
      * intros x. rewrite Hin, elem_of_ins_list, elem_of_union, elem_of_singleton.
        rewrite Hs. tauto.
    + destruct (remove_spec root key) as (t' & Hrun & Ht' & Hin & _);
        [done|lia|done|].
      rewrite Hrun. cbn [mbind result_bind].
      apply IH; [done| | | |done].
      * rewrite Hin. by apply del_list_ascending.
      * rewrite Hin. apply Forall_forall. intros x Hx.
        apply elem_of_del_list in Hx as [_ Hx]; [|done].
        rewrite Forall_forall in Hint. by apply Hint.
      * intros x. rewrite Hin, elem_of_del_list by done.
        rewrite elem_of_difference, elem_of_singleton, Hs. tauto.
Qed.

(** C1. Every sequence of [insert] and [remove] calls with 32-bit keys on an
    empty tree runs to a tree in which, at every node, the heights of the
    children differ by at most one and the stored height is one more than
    the larger height of the children, where the height of a subtree is
    counted on the tree itself (an absent child has height 0, a leaf
    height 1) and is what [height] reads from the node; the keys are
    ordered at every node; and the inorder traversal is strictly ascending
    and holds exactly the keys that are present. *)
Theorem AVL_invariants (calls : list AVL_call) :
  Forall (fun c => is_int (call_key c)) calls ->
  exists root,
    AVL_run AVL_new calls = Ok root /\
    balanced root /\ avl root /\ height root = depth root /\
    bst root /\
    StronglySorted Z.lt (inorder root) /\
    (forall x, x ∈ inorder root <-> x ∈ present calls).
Proof.
  intros Hcalls.
  destruct (AVL_run_spec calls AVL_new ∅) as (root & Hrun & Havl & Hasc & _ & Hin);
    try done.
  - constructor.
  - intros x. simpl. rewrite elem_of_nil, elem_of_empty. tauto.
  - exists root. split; [done|]. split; [by apply avl_balanced|].
    split; [done|]. split; [by apply avl_depth|].
    split; [by apply bst_ascending|]. done.
Qed.

Lemma AVL_invariants_witness :
  let calls := [call_insert 10; call_insert 20; call_insert 30; call_remove 10] in
  Forall (fun c => is_int (call_key c)) calls /\
  (exists root, AVL_run AVL_new calls = Ok root /\ balanced root /\ bst root /\
     depth root = 2) /\
  AVL_run AVL_new calls = Ok (node 20 2 null (node 30 1 null null)).
Proof.
  intros calls.
  assert (Hcalls : Forall (fun c => is_int (call_key c)) calls).
  { repeat constructor; unfold INT_MIN, INT_MAX; simpl; lia. }
  split; [done|]. split; [|reflexivity].
  destruct (AVL_invariants calls Hcalls) as (root & Hrun & Hbal & _ & _ & Hbst & _).
  exists root. split; [exact Hrun|]. split; [exact Hbal|]. split; [exact Hbst|].
  assert (Hroot : Ok root = Ok (node 20 2 null (node 30 1 null null)))
    by (rewrite <- Hrun; reflexivity).
  injection Hroot as ->. reflexivity.
Defined.

(** ** Reachability and the traversals *)

Lemma string_app_assoc (s1 s2 s3 : string) :
  ((s1 +:+ s2) +:+ s3 = s1 +:+ (s2 +:+ s3))%string.
Proof.
  induction s1 as [|a s1 IH]; [done|].
  change (String a ((s1 +:+ s2) +:+ s3) = String a (s1 +:+ (s2 +:+ s3)))%string.
  by rewrite IH.
Qed.

Lemma join_snoc (l : list string) (x : string) :
  join (l ++ [x]) =
  match l with
  | [] => x
  | _ => (join l +:+ "," +:+ x)%string
  end.
Proof.
  induction l as [|a l IH]; [done|].
  destruct l as [|b l]; [done|].
  change (join ((a :: b :: l) ++ [x]))
    with (a +:+ "," +:+ join ((b :: l) ++ [x]))%string.
  rewrite IH.
  change (join (a :: b :: l)) with (a +:+ "," +:+ join (b :: l))%string.
  by rewrite !string_app_assoc.
Qed.

(** One more item on the string of a traversal. *)
Lemma emit_join (l : list string) (x : string) :
  emit ("[" +:+ join l) (bool_decide (l = [])) x =
  (("[" +:+ join (l ++ [x]))%string, bool_decide (l ++ [x] = [])).
Proof.
  unfold emit. rewrite join_snoc.
  rewrite (bool_decide_eq_false_2 (l ++ [x] = [])) by (by destruct l).
  destruct l as [|a l].
  - rewrite bool_decide_eq_true_2 by done. done.
  - rewrite bool_decide_eq_false_2 by done. cbn [negb].
    by rewrite !string_app_assoc.
Qed.

Lemma emit_snoc out x :
  emit ("[" +:+ join_ints out) (bool_decide (out = [])) (numeral x) =
  (("[" +:+ join_ints (out ++ [x]))%string, bool_decide (out ++ [x] = [])).
Proof.
  unfold join_ints. rewrite fmap_app.
  replace (bool_decide (out = [])) with (bool_decide (numeral <$> out = []))
    by (by destruct out).
  rewrite emit_join. f_equal. by destruct out.
Qed.

Lemma marked_lt visited v : marked visited v -> 0 <= v < Z.of_nat (length visited).
Proof. intros [Hv Hl]. apply lookup_lt_Some in Hl. lia. Qed.

Lemma marked_insert visited u v :
  0 <= u < Z.of_nat (length visited) ->
  marked (<[Z.to_nat u := true]> visited) v <-> marked visited v \/ v = u.
Proof.
  intros Hu. unfold marked. destruct (decide (v = u)) as [->|Hne].
  - rewrite list_lookup_insert_eq by lia. intuition lia.
  - split.
    + intros [Hv Hl]. destruct (decide (0 <= v)); [|lia].
      rewrite list_lookup_insert_ne in Hl by lia. by left.
    + intros [[Hv Hl]|?]; [|done]. split; [done|].
      rewrite list_lookup_insert_ne by lia. done.
Qed.

Lemma rd_visited visited v :
  0 <= v < Z.of_nat (length visited) ->
  exists b, rd visited v = Ok b /\ (b = true <-> marked visited v).
Proof.
  intros Hv. destruct (rd_in_range visited v Hv) as (b & Hrd & Hl).
  exists b. split; [done|]. unfold marked. rewrite Hl. split.
  - intros ->. split; [lia|done].
  - intros [_ [= ->]]. done.
Qed.

(** In-range vertices without repetition: at most [n] of them. *)
Lemma NoDup_vertices_length (l : list Z) (k : Z) :
  NoDup l -> (forall x, x ∈ l -> 0 <= x < k) -> (length l <= Z.to_nat k)%nat.
Proof.
  intros Hnd Hr.
  assert (Hsub : l ⊆+ seqZ 0 k).
  { apply NoDup_submseteq; [done|]. intros x Hx. apply elem_of_seqZ.
    specialize (Hr x Hx). lia. }
  apply submseteq_length in Hsub. by rewrite length_seqZ in Hsub.
Qed.

Lemma reachable_in_range g start v :
  0 <= start < n g -> reachable g start v -> 0 <= v < n g.
Proof.
  intros Hs Hr. induction Hr as [|x y z Hxy _ IH]; [done|].
  apply IH. destruct Hxy as (_ & ? & _). done.
Qed.

Lemma reachable_step g start u v :
  reachable g start u -> edge g u v -> reachable g start v.
Proof. intros Hr He. eapply rtc_r; done. Qed.

(** A set of vertices that holds [start] and is closed under edges holds
    every reachable vertex. *)
Lemma reachable_closed g start (l : list Z) v :
  start ∈ l -> (forall u w, u ∈ l -> edge g u w -> w ∈ l) ->
  reachable g start v -> v ∈ l.
Proof.
  intros Hs Hcl Hr. induction Hr as [|x y z Hxy _ IH]; [done|].
  apply IH. by eapply Hcl.
Qed.

(** *** The counters of Queue and Stack *)

Lemma incr_int_Ok a : INT_MIN <= a + 1 <= INT_MAX -> incr_int a = Ok (a + 1).
Proof. intros H. unfold incr_int. by rewrite decide_True. Qed.

Lemma incr_int_overflow a : INT_MAX < a + 1 -> incr_int a = Undefined.
Proof. intros H. unfold incr_int. rewrite decide_False; [done|]. unfold is_int. lia. Qed.

Lemma decr_int_Ok a : INT_MIN <= a - 1 <= INT_MAX -> decr_int a = Ok (a - 1).
Proof. intros H. unfold decr_int. by rewrite decide_True. Qed.

Lemma Queue_empty_of xs : Queue_empty (queue_of xs) = bool_decide (xs = []).
Proof. unfold Queue_empty, queue_of. cbn [Queue_size]. by destruct xs. Qed.

Lemma Front_of x xs : Front (queue_of (x :: xs)) = Ok x.
Proof. unfold Front. by rewrite Queue_empty_of. Qed.

Lemma dequeue_of x xs :
  Z.of_nat (length (x :: xs)) <= INT_MAX -> dequeue (queue_of (x :: xs)) = Ok (queue_of xs).
Proof.
  intros H. unfold dequeue. rewrite Queue_empty_of.
  rewrite bool_decide_eq_false_2 by done. cbn [queue_of Queue_items Queue_size].
  rewrite decr_int_Ok by (unfold INT_MIN, INT_MAX in *; cbn [length] in *; lia).
  cbn [mbind result_bind]. unfold queue_of. do 2 f_equal. cbn [length]. lia.
Qed.

Lemma enqueue_of xs x :
  Z.of_nat (length xs) < INT_MAX -> enqueue (queue_of xs) x = Ok (queue_of (xs ++ [x])).
Proof.
  intros H. unfold enqueue. cbn [queue_of Queue_items Queue_size].
  rewrite incr_int_Ok by (unfold INT_MIN, INT_MAX in *; lia).
  cbn [mbind result_bind]. unfold queue_of. do 2 f_equal.
  rewrite length_app. cbn [length]. lia.
Qed.

Lemma Stack_empty_of xs : Stack_empty (stack_of xs) = bool_decide (xs = []).
Proof. unfold Stack_empty, stack_of. cbn [Stack_size]. by destruct xs. Qed.

Lemma Top_of x xs : Top (stack_of (x :: xs)) = Ok x.
Proof. unfold Top. by rewrite Stack_empty_of. Qed.

Lemma Stack_pop_of x xs :
  Z.of_nat (length (x :: xs)) <= INT_MAX -> Stack_pop (stack_of (x :: xs)) = Ok (stack_of xs).
Proof.
  intros H. unfold Stack_pop. rewrite Stack_empty_of.
  rewrite bool_decide_eq_false_2 by done. cbn [stack_of Stack_items Stack_size].
  rewrite decr_int_Ok by (unfold INT_MIN, INT_MAX in *; cbn [length] in *; lia).
  cbn [mbind result_bind]. unfold stack_of. do 2 f_equal. cbn [length]. lia.
Qed.

Lemma Stack_push_of xs x :
  Z.of_nat (length xs) < INT_MAX -> Stack_push (stack_of xs) x = Ok (stack_of (x :: xs)).
Proof.
  intros H. unfold Stack_push. cbn [stack_of Stack_items Stack_size].
  rewrite incr_int_Ok by (unfold INT_MIN, INT_MAX in *; lia).
  cbn [mbind result_bind]. unfold stack_of. do 2 f_equal. cbn [length]. lia.
Qed.

(** *** bfs *)

Lemma bfs_neighbors_spec g node visited q :
  dims (adjMatrix g) (n g) -> 0 <= node < n g ->
  length visited = Z.to_nat (n g) ->
  (forall added, NoDup added ->
     (forall v, v ∈ added -> ¬ marked visited v /\ edge g node v) ->
     Z.of_nat (length (q ++ added)) <= INT_MAX) ->
  exists visited' added,
    bfs_neighbors g node visited (queue_of q) = Ok (visited', queue_of (q ++ added)) /\
    length visited' = Z.to_nat (n g) /\
    (forall v, marked visited' v <-> marked visited v \/ v ∈ added) /\
    NoDup added /\
    (forall v, v ∈ added -> ¬ marked visited v /\ edge g node v) /\
    (forall v, edge g node v -> marked visited' v).
Proof.
  intros Hd Hnode Hlen Hroom. unfold bfs_neighbors.
  destruct (for_each_upto_inv
    (fun j (s : list bool * Queue) =>
       exists added, s.2 = queue_of (q ++ added) /\
         length s.1 = Z.to_nat (n g) /\
         (forall v, marked s.1 v <-> marked visited v \/ v ∈ added) /\
         NoDup added /\
         (forall v, v ∈ added -> ¬ marked visited v /\ edge g node v) /\
         (forall v, v < j -> edge g node v -> marked s.1 v))
    0 (n g)
    (fun neighbor '(visited, q) =>
      a ← rd2 (adjMatrix g) node neighbor;
      if bool_decide (a ≠ 0) then
        seen ← rd visited neighbor;
        if negb seen then
          visited ← wr visited neighbor true;
          q ← enqueue q neighbor;
          Ok (visited, q)
        else Ok (visited, q)
      else Ok (visited, q))
    (visited, queue_of q)) as ([visited' q'] & Hrun & added & Hq & Hlen' & Hm & Hnd & Hadd & Hcl).
  - lia.
  - exists []. simpl. rewrite app_nil_r. split_and!; try done.
    + intros v. rewrite elem_of_nil. tauto.
    + constructor.
    + by intros v ?%elem_of_nil.
    + intros v Hv (_ & ? & _). lia.
  - intros j [vis q1] Hj (added & Hq & Hlen1 & Hm & Hnd & Hadd & Hcl).
    simpl in Hq, Hlen1, Hm, Hcl. subst q1.
    rewrite (rd2_Ok _ (n g)) by done. cbn [mbind result_bind].
    case_bool_decide as Hnz.
    + destruct (rd_visited vis j) as (b & Hrd & Hb); [lia|].
      rewrite Hrd. cbn [mbind result_bind]. destruct b; cbn [negb].
      * eexists. split; [done|]. exists added. simpl.
        split_and!; try done.
        intros v Hv He. destruct (decide (v = j)) as [->|]; [by apply Hb|].
        apply Hcl; [lia|done].
      * assert (Hnm : ¬ marked vis j) by (intros ?%Hb; done).
        assert (Hnd' : NoDup (added ++ [j])).
        { apply NoDup_app. split; [done|]. split; [|apply NoDup_singleton].
          intros x Hx ->%list_elem_of_singleton. apply Hnm, Hm. by right. }
        assert (Hadd' : forall v, v ∈ added ++ [j] -> ¬ marked visited v /\ edge g node v).
        { intros v [Hv| ->%list_elem_of_singleton]%elem_of_app; [by apply Hadd|].
          split; [|split; [done|split; [lia|done]]].
          intros Hmv. apply Hnm, Hm. by left. }
        rewrite wr_Ok by lia. cbn [mbind result_bind].
        rewrite enqueue_of.
        2:{ pose proof (Hroom _ Hnd' Hadd') as Hr.
            rewrite !length_app in Hr. cbn [length] in Hr.
            rewrite length_app. lia. }
        cbn [mbind result_bind].
        eexists. split; [done|]. exists (added ++ [j]). simpl.
        split; [by rewrite app_assoc|].
        split; [by rewrite length_insert|].
        split; [|split; [done|split; [done|]]].
        -- intros v. rewrite marked_insert by lia.
           rewrite Hm, elem_of_app, list_elem_of_singleton. tauto.
        -- intros v Hv He. apply marked_insert; [lia|].
           destruct (decide (v = j)) as [->|]; [by right|].
           left. apply Hcl; [lia|done].
    + eexists. split; [done|]. exists added. simpl.
      split_and!; try done.
      intros v Hv He. destruct (decide (v = j)) as [->|].
      * destruct He as (_ & _ & He). done.
      * apply Hcl; [lia|done].
  - simpl in *. subst q'. exists visited', added. split; [done|].
    split_and!; try done.
    intros v He. apply Hcl; [|done]. destruct He as (_ & ? & _). lia.
Qed.

Lemma fill_spec {A} (a : list A) (k : Z) (x : A) :
  length a = Z.to_nat k -> fill a k x = Ok (replicate (Z.to_nat k) x).
Proof.
  intros Hlen. unfold fill.
  destruct (decide (0 <= k)) as [Hk|Hk].
  2:{ rewrite for_each_upto_empty by lia.
      replace (Z.to_nat k) with 0%nat in * by lia.
      by destruct a. }
  destruct (for_each_upto_inv
    (fun i (a' : list A) =>
       length a' = Z.to_nat k /\
       forall j : nat, (j < Z.to_nat i)%nat -> a' !! j = Some x)
    0 k (fun i a => wr a i x) a) as (a' & Hrun & Hlen' & Hall).
  - done.
  - split; [done|]. intros j Hj. lia.
  - intros i a1 Hi [Hlen1 Hall]. rewrite wr_Ok by lia.
    eexists. split; [done|]. split; [by rewrite length_insert|].
    intros j Hj. destruct (decide (j = Z.to_nat i)) as [->|].
    + rewrite list_lookup_insert_eq by lia. done.
    + rewrite list_lookup_insert_ne by done. apply Hall. lia.
  - rewrite Hrun. f_equal. apply list_eq. intros j.
    destruct (decide (j < Z.to_nat k)%nat).
    + rewrite Hall by done. symmetry. by apply lookup_replicate_2.
    + rewrite !lookup_ge_None_2; [done|rewrite length_replicate; lia|lia].
Qed.

Lemma new_array_spec {A} (k : Z) (x : A) :
  0 <= k -> new_array k x = Ok (replicate (Z.to_nat k) x).
Proof. intros Hk. unfold new_array. by rewrite decide_False by lia. Qed.

Lemma marked_replicate_false k v : ¬ marked (replicate k false) v.
Proof. intros [_ Hl]. by apply lookup_replicate in Hl as [? _]. Qed.

(** Reachable vertices without repetition: at most [n] of them. *)
Lemma reachable_length g start (l : list Z) :
  0 <= start < n g -> NoDup l -> (forall v, v ∈ l -> reachable g start v) ->
  Z.of_nat (length l) <= n g.
Proof.
  intros Hs Hnd Hr.
  assert (length l <= Z.to_nat (n g))%nat; [|lia].
  apply NoDup_vertices_length; [done|]. intros x Hx.
  apply (reachable_in_range g start); [done|]. by apply Hr.
Qed.

Lemma bfs_loop_spec g start fuel : forall visited q out,
  dims (adjMatrix g) (n g) -> 0 <= start < n g -> n g <= INT_MAX ->
  length visited = Z.to_nat (n g) ->
  (forall v, marked visited v <-> v ∈ out ++ q) ->
  NoDup (out ++ q) ->
  (forall v, v ∈ out ++ q -> reachable g start v) ->
  (forall u v, u ∈ out -> edge g u v -> v ∈ out ++ q) ->
  start ∈ out ++ q ->
  (Z.to_nat (n g) - length out < fuel)%nat ->
  exists out',
    bfs_loop fuel g visited (queue_of q) ("[" +:+ join_ints out) (bool_decide (out = []))
      = Ok ("[" +:+ join_ints out')%string /\
    NoDup out' /\ forall v, v ∈ out' <-> reachable g start v.
Proof.
  induction fuel as [|fuel IH];
    intros visited q out Hd Hstart Hmax Hlen Hm Hnd Hreach Hcl Hs Hfuel; [lia|].
  cbn [bfs_loop]. rewrite Queue_empty_of.
  destruct q as [|node q].
  - (* the queue is empty *)
    rewrite bool_decide_eq_true_2 by done. cbn [negb].
    rewrite app_nil_r in *. exists out. split; [done|]. split; [done|].
    intros v. split; [by apply Hreach|].
    apply reachable_closed; [done|]. intros u w Hu He. by eapply Hcl.
  - rewrite bool_decide_eq_false_2 by done. cbn [negb].
    assert (Hnode : 0 <= node < n g).
    { apply (reachable_in_range g start); [done|]. apply Hreach.
      apply elem_of_app. right. by left. }
    pose proof (reachable_length g start _ Hstart Hnd Hreach) as Hall.
    rewrite length_app in Hall.
    rewrite Front_of. cbn [mbind result_bind].
    rewrite dequeue_of by lia. cbn [mbind result_bind].
    rewrite intToString_nonneg by lia. cbn [mbind result_bind].
    rewrite emit_snoc.
    assert (Hin : forall added v, v ∈ (out ++ [node]) ++ q ++ added <->
                            v ∈ out ++ node :: q \/ v ∈ added).
    { intros added v. rewrite !elem_of_app, !elem_of_cons, elem_of_nil. tauto. }
    assert (Hnd' : forall added, NoDup added ->
              (forall v, v ∈ added -> ¬ marked visited v /\ edge g node v) ->
              NoDup ((out ++ [node]) ++ q ++ added)).
    { intros added Hnda Hadd.
      replace ((out ++ [node]) ++ q ++ added) with ((out ++ node :: q) ++ added)
        by (by rewrite <- !app_assoc).
      apply NoDup_app. split; [done|]. split; [|done].
      intros v Hv Hv'. apply Hadd in Hv' as [Hnm _]. by apply Hnm, Hm. }
    assert (Hreach' : forall added,
              (forall v, v ∈ added -> ¬ marked visited v /\ edge g node v) ->
              forall v, v ∈ (out ++ [node]) ++ q ++ added -> reachable g start v).
    { intros added Hadd v [Hv|Hv]%Hin; [by apply Hreach|].
      apply Hadd in Hv as [_ He]. eapply reachable_step; [|exact He].
      apply Hreach. apply elem_of_app. right. by left. }
    destruct (bfs_neighbors_spec g node visited q Hd Hnode Hlen)
      as (visited' & added & Hrun & Hlen' & Hm' & Hnda & Hadd & Hcl').
    { intros added Hnda Hadd.
      pose proof (reachable_length g start _ Hstart (Hnd' added Hnda Hadd)
                    (Hreach' added Hadd)) as Hl.
      rewrite !length_app in *. lia. }
    rewrite Hrun. cbn [mbind result_bind].
    apply IH; try done.
    + intros v. rewrite Hm', Hm, Hin. done.
    + by apply Hnd'.
    + by apply Hreach'.
    + intros u v [Hu| ->%list_elem_of_singleton]%elem_of_app He.
      * apply Hin. left. by eapply Hcl.
      * apply Hin. apply Hcl', Hm' in He as [He|He]; [left; by apply Hm|by right].
    + apply Hin. by left.
    + pose proof (reachable_length g start _ Hstart (Hnd' added Hnda Hadd)
                    (Hreach' added Hadd)) as Hl.
      rewrite !length_app in *. cbn [length] in *. lia.
Qed.

Lemma bfs_spec g start :
  dims (adjMatrix g) (n g) -> 0 <= start < n g -> n g <= INT_MAX ->
  exists order, bfs g start = Ok (show_ints order) /\ traversal_of g start order.
Proof.
  intros Hd Hstart Hmax. unfold bfs.
  rewrite !bool_decide_eq_false_2 by lia. cbn [orb].
  rewrite new_array_spec by lia. cbn [mbind result_bind].
  rewrite fill_spec by (by rewrite length_replicate). cbn [mbind result_bind].
  rewrite wr_Ok by (rewrite length_replicate; lia). cbn [mbind result_bind].
  change Queue_new with (queue_of []).
  rewrite enqueue_of by (by vm_compute). cbn [mbind result_bind app].
  destruct (bfs_loop_spec g start (S (Z.to_nat (n g)))
    (<[Z.to_nat start := true]> (replicate (Z.to_nat (n g)) false))
    [start] []) as (order & Hrun & Hnd & Hr); try done.
  - by rewrite length_insert, length_replicate.
  - intros v. rewrite marked_insert by (rewrite length_replicate; lia).
    simpl. rewrite list_elem_of_singleton.
    pose proof (marked_replicate_false (Z.to_nat (n g)) v). tauto.
  - simpl. apply NoDup_singleton.
  - simpl. intros v ->%list_elem_of_singleton. apply rtc_refl.
  - intros u v ?%elem_of_nil. done.
  - simpl. by apply list_elem_of_singleton.
  - simpl. lia.
  - change (bfs_loop (S (Z.to_nat (n g))) g
              (<[Z.to_nat start := true]> (replicate (Z.to_nat (n g)) false))
              (queue_of [start]) "[" true = Ok ("[" +:+ join_ints order)%string) in Hrun.
    rewrite Hrun. cbn [mbind result_bind].
    exists order. split; [|done]. unfold show_ints.
    by rewrite string_app_assoc.
Qed.

(** A start vertex without outgoing edges is the whole traversal, whatever
    the size of the graph. *)
Lemma bfs_alone g start :
  dims (adjMatrix g) (n g) -> 0 <= start < n g ->
  (forall v, ¬ edge g start v) ->
  bfs g start = Ok (show_ints [start]).
Proof.
  intros Hd Hstart Hno. unfold bfs.
  rewrite !bool_decide_eq_false_2 by lia. cbn [orb].
  rewrite new_array_spec by lia. cbn [mbind result_bind].
  rewrite fill_spec by (by rewrite length_replicate). cbn [mbind result_bind].
  rewrite wr_Ok by (rewrite length_replicate; lia). cbn [mbind result_bind].
  change Queue_new with (queue_of []).
  rewrite enqueue_of by (by vm_compute). cbn [mbind result_bind app].
  set (visited := <[Z.to_nat start := true]> (replicate (Z.to_nat (n g)) false)).
  assert (Hnone : forall added : list Z,
            (forall v, v ∈ added -> ¬ marked visited v /\ edge g start v) -> added = []).
  { intros [|a added] Ha; [done|]. exfalso.
    destruct (Ha a) as [_ He]; [by left|]. by apply Hno in He. }
  destruct (bfs_neighbors_spec g start visited [] Hd Hstart)
    as (visited' & added & Hrun & Hlen' & _ & _ & Hadd & _).
  { unfold visited. by rewrite length_insert, length_replicate. }
  { intros added _ Ha. rewrite (Hnone added Ha). by vm_compute. }
  rewrite (Hnone added Hadd) in Hrun. cbn [app] in Hrun.
  change (S (Z.to_nat (n g))) with (1 + Z.to_nat (n g))%nat.
  destruct (Z.to_nat (n g)) as [|k] eqn:Ek; [lia|].
  cbn [Nat.add bfs_loop].
  rewrite Queue_empty_of, bool_decide_eq_false_2 by done. cbn [negb].
  rewrite Front_of. cbn [mbind result_bind].
  rewrite dequeue_of by (by vm_compute). cbn [mbind result_bind].
  rewrite intToString_nonneg by lia. cbn [mbind result_bind emit negb].
  rewrite Hrun. cbn [mbind result_bind].
  rewrite Queue_empty_of, bool_decide_eq_true_2 by done. cbn [negb].
  cbn [mbind result_bind]. done.
Qed.

(** *** dfs *)

(** A loop invariant rule for a [for] loop over any list of indices: the
    invariant speaks of the indices already visited. *)
Lemma for_each_inv {S} (P : list Z -> S -> Prop) (l : list Z)
    (body : Z -> S -> result S) (s : S) :
  P [] s ->
  (forall pre i s, i ∈ l -> P pre s -> exists s', body i s = Ok s' /\ P (pre ++ [i]) s') ->
  exists s', for_each l body s = Ok s' /\ P l s'.
Proof.
  intros H0 Hstep.
  assert (Hgen : forall l' pre s,
    (forall i, i ∈ l' -> i ∈ l) -> P pre s ->
    exists s', for_each l' body s = Ok s' /\ P (pre ++ l') s').
  { induction l' as [|i l' IH]; intros pre s0 Hsub HP.
    - exists s0. by rewrite app_nil_r.
    - destruct (Hstep pre i s0) as (s1 & Hb & HP1); [apply Hsub; by left|done|].
      destruct (IH (pre ++ [i]) s1) as (s2 & Hf & HP2).
      + intros j Hj. apply Hsub. by right.
      + done.
      + exists s2. simpl. rewrite Hb. simpl. split; [done|].
        by rewrite <- app_assoc in HP2. }
  apply (Hgen l [] s); done.
Qed.

Lemma elem_of_downto hi i : i ∈ downto hi 0 <-> 0 <= i < hi.
Proof. unfold downto. rewrite elem_of_reverse, elem_of_seqZ. lia. Qed.

(** What the loop over the neighbours of [node] does to the stack: it
    pushes the wanted neighbours, or overflows the counter. *)
Lemma dfs_push_run g node visited (l : list Z) : forall items c,
  dims (adjMatrix g) (n g) -> 0 <= node < n g ->
  length visited = Z.to_nat (n g) ->
  (forall v, v ∈ l -> 0 <= v < n g) -> INT_MIN <= c <= INT_MAX ->
  for_each l (fun neighbor s =>
      a ← rd2 (adjMatrix g) node neighbor;
      if bool_decide (a ≠ 0) then
        seen ← rd visited neighbor;
        if negb seen then Stack_push s neighbor else Ok s
      else Ok s)
    (mkStack items c) =
  let pushed := filter (dfs_wanted g node visited) l in
  if decide (c + Z.of_nat (length pushed) <= INT_MAX)
  then Ok (mkStack (reverse pushed ++ items) (c + Z.of_nat (length pushed)))
  else Undefined.
Proof.
  induction l as [|i l IH]; intros items c Hd Hnode Hlen Hl Hc; cbv zeta.
  - cbn [for_each filter list_filter length reverse app].
    rewrite decide_True by lia. by rewrite Z.add_0_r.
  - assert (Hi : 0 <= i < n g) by (apply Hl; by left).
    assert (Hl' : forall v, v ∈ l -> 0 <= v < n g) by (intros v Hv; apply Hl; by right).
    cbn [for_each].
    rewrite (rd2_Ok _ (n g)) by done. cbn [mbind result_bind].
    destruct (rd_in_range visited i) as (b & Hrd & Hb); [lia|].
    destruct (decide (dfs_wanted g node visited i)) as [Hw|Hw].
    + destruct Hw as [Hnz Hf]. rewrite Hb in Hf. injection Hf as ->.
      rewrite bool_decide_eq_true_2 by done. rewrite Hrd.
      cbn [mbind result_bind negb].
      rewrite filter_cons_True by (split; done).
      cbn [length]. rewrite reverse_cons, <- app_assoc. cbn [app].
      unfold Stack_push. cbn [Stack_size Stack_items].
      destruct (decide (c + 1 <= INT_MAX)) as [Hle|Hgt].
      * rewrite incr_int_Ok by lia. cbn [mbind result_bind].
        rewrite IH by (done || lia). cbv zeta.
        replace (c + 1 + Z.of_nat (length (filter (dfs_wanted g node visited) l)))
          with (c + Z.of_nat (S (length (filter (dfs_wanted g node visited) l)))) by lia.
        done.
      * rewrite incr_int_overflow by lia. cbn [mbind result_bind].
        rewrite decide_False by lia. done.
    + rewrite filter_cons_False by done.
      assert (Hskip :
        (if bool_decide (mget (adjMatrix g) node i ≠ 0)
         then seen ← rd visited i;
              (if negb seen then Stack_push (mkStack items c) i
               else Ok (mkStack items c))
         else Ok (mkStack items c)) = Ok (mkStack items c)).
      { case_bool_decide as Hnz; [|done]. rewrite Hrd. cbn [mbind result_bind].
        destruct b; [done|]. exfalso. apply Hw. split; done. }
      rewrite Hskip. cbn [mbind result_bind]. by apply IH.
Qed.

Lemma dfs_neighbors_spec g node visited s :
  dims (adjMatrix g) (n g) -> 0 <= node < n g ->
  length visited = Z.to_nat (n g) ->
  Z.of_nat (length s) <= INT_MAX ->
  exists pushed,
    NoDup pushed /\
    (forall v, v ∈ pushed <-> edge g node v /\ ¬ marked visited v) /\
    (Z.of_nat (length (pushed ++ s)) <= INT_MAX ->
     dfs_neighbors g node visited (stack_of s) = Ok (stack_of (pushed ++ s))) /\
    (INT_MAX < Z.of_nat (length (pushed ++ s)) ->
     dfs_neighbors g node visited (stack_of s) = Undefined).
Proof.
  intros Hd Hnode Hlen Hs. unfold dfs_neighbors, stack_of at 1 3.
  rewrite dfs_push_run; [|done|done|done|by intros v ?%elem_of_downto|].
  2:{ unfold INT_MIN. lia. }
  cbv zeta.
  set (pushed := filter (dfs_wanted g node visited) (downto (n g) 0)).
  exists (reverse pushed).
  split; [|split; [|split]].
  - rewrite reverse_Permutation. apply NoDup_filter. unfold downto.
    rewrite reverse_Permutation. apply NoDup_seqZ.
  - intros v. unfold pushed.
    rewrite elem_of_reverse, list_elem_of_filter, elem_of_downto.
    unfold dfs_wanted, edge, marked. split.
    + intros [[Hnz Hf] Hv]. split; [done|]. intros [_ Hm]. congruence.
    + intros [(_ & Hv & Hnz) Hnm]. split; [|done]. split; [done|].
      destruct (lookup_lt_is_Some_2 visited (Z.to_nat v)) as [b Hb]; [lia|].
      destruct b; [|done]. exfalso. apply Hnm. split; [lia|done].
  - rewrite length_app, length_reverse. intros Hle.
    rewrite decide_True by lia. unfold stack_of. do 2 f_equal.
    rewrite length_app, length_reverse. lia.
  - rewrite length_app, length_reverse. intros Hgt.
    rewrite decide_False by lia. done.
Qed.

(** The entries of the stack of [dfs] once [m] of the [k] vertices have
    been visited: twice their number is at most [2 + m * (2 * k - 3 - m)],
    which is largest for [m = k - 1]. *)
Lemma dfs_stack_bound k m len :
  0 <= m <= k -> k <= DFS_MAX_VERTICES ->
  2 * len <= 2 + m * (2 * k - 3 - m) -> len <= INT_MAX.
Proof.
  unfold DFS_MAX_VERTICES, INT_MAX. intros Hm Hk Hlen.
  assert (H1 : 0 <= (m - (k - 1)) * (m - (k - 2))).
  { destruct (decide (m <= k - 2));
      [apply Z.mul_nonpos_nonpos|apply Z.mul_nonneg_nonneg]; lia. }
  assert (H2 : (k - 1) * (k - 2) <= 65536 * 65535).
  { destruct (decide (k <= 1)); [nia|]. apply Z.mul_le_mono_nonneg; lia. }
  nia.
Qed.

Lemma dfs_loop_spec g start fuel : forall visited s out,
  dims (adjMatrix g) (n g) -> 0 <= start < n g -> n g <= DFS_MAX_VERTICES ->
  length visited = Z.to_nat (n g) ->
  (forall v, marked visited v <-> v ∈ out) ->
  NoDup out ->
  (forall v, v ∈ out ++ s -> reachable g start v) ->
  (forall u v, u ∈ out -> edge g u v -> v ∈ out ++ s) ->
  start ∈ out ++ s ->
  2 * Z.of_nat (length s) <=
    2 + Z.of_nat (length out) * (2 * n g - 3 - Z.of_nat (length out)) ->
  (length s + (Z.to_nat (n g) - length out) * Z.to_nat (n g) < fuel)%nat ->
  exists out',
    dfs_loop fuel g visited (stack_of s) ("[" +:+ join_ints out) (bool_decide (out = []))
      = Ok ("[" +:+ join_ints out')%string /\
    NoDup out' /\ forall v, v ∈ out' <-> reachable g start v.
Proof.
  induction fuel as [|fuel IH];
    intros visited s out Hd Hstart Hmax Hlen Hm Hnd Hreach Hcl Hs Hsize Hfuel;
    [by apply Nat.nlt_0_r in Hfuel|].
  cbn [dfs_loop]. rewrite Stack_empty_of.
  assert (Hout : Z.of_nat (length out) <= n g).
  { apply (reachable_length g start); [done|done|].
    intros v Hv. apply Hreach, elem_of_app. by left. }
  destruct s as [|node s].
  - rewrite bool_decide_eq_true_2 by done. cbn [negb].
    rewrite app_nil_r in *. exists out. split; [done|]. split; [done|].
    intros v. split; [by apply Hreach|].
    apply reachable_closed; [done|]. intros u w Hu He. by eapply Hcl.
  - rewrite bool_decide_eq_false_2 by done. cbn [negb].
    assert (Hnode : 0 <= node < n g).
    { apply (reachable_in_range g start); [done|]. apply Hreach.
      apply elem_of_app. right. by left. }
    pose proof (dfs_stack_bound (n g) (Z.of_nat (length out))
                  (Z.of_nat (length (node :: s))) ltac:(lia) Hmax Hsize) as Hfit.
    rewrite Top_of. cbn [mbind result_bind].
    rewrite Stack_pop_of by done. cbn [mbind result_bind].
    destruct (rd_visited visited node) as (b & Hrd & Hb); [lia|].
    rewrite Hrd. cbn [mbind result_bind]. destruct b; cbn [negb].
    + (* already visited: the entry is dropped *)
      assert (Hin : node ∈ out) by (by apply Hm, Hb).
      apply IH; try done.
      * intros v Hv. apply Hreach.
        rewrite elem_of_app in *. rewrite elem_of_cons. tauto.
      * intros u v Hu He. specialize (Hcl u v Hu He).
        rewrite elem_of_app in *. rewrite elem_of_cons in Hcl.
        destruct Hcl as [?|[->|?]]; tauto.
      * rewrite elem_of_app in *. rewrite elem_of_cons in Hs.
        destruct Hs as [?|[->|?]]; tauto.
      * cbn [length] in Hsize. lia.
      * simpl in Hfuel. lia.
    + assert (Hnin : node ∉ out) by (intros ?%Hm%Hb; done).
      rewrite wr_Ok by lia. cbn [mbind result_bind].
      rewrite intToString_nonneg by lia. cbn [mbind result_bind].
      rewrite emit_snoc.
      assert (Hm' : forall v, marked (<[Z.to_nat node := true]> visited) v
                              <-> v ∈ out ++ [node]).
      { intros v. rewrite marked_insert by lia.
        rewrite Hm, elem_of_app, list_elem_of_singleton. done. }
      assert (Hnd' : NoDup (out ++ [node])).
      { apply NoDup_app. split; [done|]. split; [|apply NoDup_singleton].
        intros x Hx ->%list_elem_of_singleton. done. }
      destruct (dfs_neighbors_spec g node (<[Z.to_nat node := true]> visited) s)
        as (pushed & Hndp & Hp & Hrun & _);
        [done|done|by rewrite length_insert|cbn [length] in Hfit; lia|].
      (* the pushed vertices are among those not visited yet *)
      assert (Hcount : Z.of_nat (length pushed) + Z.of_nat (length out) + 1 <= n g).
      { assert (Hall : Z.of_nat (length (pushed ++ out ++ [node])) <= n g).
        { apply (reachable_length g start); [done| |].
          - apply NoDup_app. split; [done|]. split; [|done].
            intros v Hv Hv'. apply Hp in Hv as [_ Hv]. by apply Hv, Hm'.
          - intros v [Hv|Hv]%elem_of_app.
            + apply Hp in Hv as [He _]. eapply reachable_step; [|exact He].
              apply Hreach, elem_of_app. right. by left.
            + apply Hreach. rewrite elem_of_app in *.
              rewrite list_elem_of_singleton in Hv. rewrite elem_of_cons. tauto. }
        rewrite !length_app in Hall. cbn [length] in Hall. lia. }
      assert (Hsize' : 2 * Z.of_nat (length (pushed ++ s)) <=
                 2 + Z.of_nat (length (out ++ [node])) *
                       (2 * n g - 3 - Z.of_nat (length (out ++ [node])))).
      { rewrite !length_app. cbn [length] in *. nia. }
      rewrite Hrun.
      2:{ eapply (dfs_stack_bound (n g) (Z.of_nat (length (out ++ [node]))));
            [|done|exact Hsize'].
          rewrite length_app. cbn [length]. lia. }
      cbn [mbind result_bind].
      apply IH; try done.
      * by rewrite length_insert.
      * intros v. rewrite !elem_of_app, list_elem_of_singleton.
        intros [[Hv| ->]|[Hv|Hv]].
        -- apply Hreach, elem_of_app. by left.
        -- apply Hreach, elem_of_app. right. by left.
        -- apply Hp in Hv as [He _]. eapply reachable_step; [|exact He].
           apply Hreach, elem_of_app. right. by left.
        -- apply Hreach, elem_of_app. right. by right.
      * intros u v [Hu| ->%list_elem_of_singleton]%elem_of_app He.
        -- specialize (Hcl u v Hu He).
           rewrite !elem_of_app, list_elem_of_singleton.
           rewrite elem_of_app, elem_of_cons in Hcl. tauto.
        -- destruct (decide (v ∈ out ++ [node])) as [?|Hnv].
           ++ apply elem_of_app. by left.
           ++ apply elem_of_app. right. apply elem_of_app. left.
              apply Hp. split; [done|]. by rewrite Hm'.
      * rewrite !elem_of_app, list_elem_of_singleton.
        rewrite elem_of_app, elem_of_cons in Hs. tauto.
      * rewrite !length_app in *. cbn [length] in *.
        assert (length pushed <= Z.to_nat (n g))%nat by lia.
        destruct (Z.to_nat (n g) - length out)%nat as [|m] eqn:Em; [lia|].
        replace (Z.to_nat (n g) - (length out + 1))%nat with m by lia.
        simpl in Hfuel. lia.
Qed.

Lemma dfs_spec g start :
  dims (adjMatrix g) (n g) -> 0 <= start < n g -> n g <= DFS_MAX_VERTICES ->
  exists order, dfs g start = Ok (show_ints order) /\ traversal_of g start order.
Proof.
  intros Hd Hstart Hmax. unfold dfs.
  rewrite !bool_decide_eq_false_2 by lia. cbn [orb].
  rewrite new_array_spec by lia. cbn [mbind result_bind].
  rewrite fill_spec by (by rewrite length_replicate). cbn [mbind result_bind].
  change Stack_new with (stack_of []).
  rewrite Stack_push_of by (by vm_compute). cbn [mbind result_bind].
  destruct (dfs_loop_spec g start (Z.to_nat (n g * n g + 2))
    (replicate (Z.to_nat (n g)) false) [start] [])
    as (order & Hrun & Hnd & Hr); try done.
  - by rewrite length_replicate.
  - intros v. rewrite elem_of_nil.
    pose proof (marked_replicate_false (Z.to_nat (n g)) v). tauto.
  - constructor.
  - simpl. intros v ->%list_elem_of_singleton. apply rtc_refl.
  - intros u v ?%elem_of_nil. done.
  - simpl. by apply list_elem_of_singleton.
  - cbn [length]. nia.
  - change (dfs_loop (Z.to_nat (n g * n g + 2)) g
              (replicate (Z.to_nat (n g)) false)
              (stack_of [start]) "[" true = Ok ("[" +:+ join_ints order)%string) in Hrun.
    rewrite Hrun. cbn [mbind result_bind].
    exists order. split; [|done]. unfold show_ints.
    by rewrite string_app_assoc.
Qed.

Lemma dfs_alone g start :
  dims (adjMatrix g) (n g) -> 0 <= start < n g ->
  (forall v, ¬ edge g start v) ->
  dfs g start = Ok (show_ints [start]).
Proof.
  intros Hd Hstart Hno. unfold dfs.
  rewrite !bool_decide_eq_false_2 by lia. cbn [orb].
  rewrite new_array_spec by lia. cbn [mbind result_bind].
  rewrite fill_spec by (by rewrite length_replicate). cbn [mbind result_bind].
  change Stack_new with (stack_of []).
  rewrite Stack_push_of by (by vm_compute). cbn [mbind result_bind].
  set (visited := replicate (Z.to_nat (n g)) false).
  destruct (dfs_neighbors_spec g start (<[Z.to_nat start := true]> visited) [])
    as (pushed & _ & Hp & Hrun & _); [done|done| |by vm_compute|].
  { unfold visited. by rewrite length_insert, length_replicate. }
  assert (pushed = []) as ->.
  { destruct pushed as [|a pushed]; [done|]. exfalso.
    destruct (proj1 (Hp a)) as [He _]; [by left|]. by apply Hno in He. }
  specialize (Hrun ltac:(by vm_compute)). cbn [app] in Hrun.
  destruct (Z.to_nat (n g * n g + 2)) as [|[|k]] eqn:Ek; [nia|nia|].
  cbn [dfs_loop].
  rewrite Stack_empty_of, bool_decide_eq_false_2 by done. cbn [negb].
  rewrite Top_of. cbn [mbind result_bind].
  rewrite Stack_pop_of by (by vm_compute). cbn [mbind result_bind].
  destruct (rd_visited visited start) as (b & Hrd & Hb).
  { unfold visited. rewrite length_replicate. lia. }
  rewrite Hrd. cbn [mbind result_bind].
  destruct b.
  { exfalso. by apply (marked_replicate_false (Z.to_nat (n g)) start), Hb. }
  cbn [negb].
  rewrite wr_Ok by (unfold visited; rewrite length_replicate; lia).
  cbn [mbind result_bind].
  rewrite intToString_nonneg by lia. cbn [mbind result_bind emit negb].
  rewrite Hrun. cbn [mbind result_bind].
  rewrite Stack_empty_of, bool_decide_eq_true_2 by done. cbn [negb].
  cbn [mbind result_bind]. done.
Qed.

(** *** dfs on a complete graph with too many vertices *)

Lemma dims_complete k : 0 <= k -> dims (adjMatrix (complete k)) (n (complete k)).
Proof.
  intros Hk. unfold complete. cbn [adjMatrix n]. split; [done|].
  split; [by rewrite length_replicate|].
  apply Forall_replicate. by rewrite length_replicate.
Qed.

Lemma edge_complete k u v : edge (complete k) u v <-> 0 <= u < k /\ 0 <= v < k.
Proof.
  unfold edge, complete, mget. cbn [adjMatrix n]. split; [tauto|].
  intros [Hu Hv]. split; [done|]. split; [done|].
  rewrite lookup_replicate_2 by lia. cbn [mbind option_bind].
  rewrite lookup_replicate_2 by lia. done.
Qed.

(** While unvisited vertices are on top, every visit pushes all the
    vertices not visited yet: the counter overflows before the last
    vertex is visited if the graph is large enough. *)
Lemma dfs_loop_overflow k fuel : forall visited out top rest res first,
  length visited = Z.to_nat k ->
  (forall v, marked visited v <-> v ∈ out) ->
  NoDup out -> (forall v, v ∈ out -> 0 <= v < k) ->
  0 <= top < k -> top ∉ out ->
  Z.of_nat (length (top :: rest)) <= INT_MAX ->
  2 * INT_MAX < 2 * Z.of_nat (length (top :: rest)) +
                (k - 1 - Z.of_nat (length out)) * (k - 2 - Z.of_nat (length out)) ->
  (Z.to_nat k - length out < fuel)%nat ->
  dfs_loop fuel (complete k) visited (stack_of (top :: rest)) res first = Undefined.
Proof.
  induction fuel as [|fuel IH];
    intros visited out top rest res first Hlen Hm Hnd Hout Htop Hnin Hfit Hbig Hfuel;
    [lia|].
  assert (Hk : 0 <= k) by lia.
  pose proof (dims_complete k Hk) as Hd.
  cbn [dfs_loop]. rewrite Stack_empty_of, bool_decide_eq_false_2 by done.
  cbn [negb]. rewrite Top_of. cbn [mbind result_bind].
  rewrite Stack_pop_of by done. cbn [mbind result_bind].
  destruct (rd_visited visited top) as (b & Hrd & Hb); [lia|].
  rewrite Hrd. cbn [mbind result_bind].
  destruct b; [exfalso; by apply Hnin, Hm, Hb|]. cbn [negb].
  rewrite wr_Ok by lia. cbn [mbind result_bind].
  rewrite intToString_nonneg by lia. cbn [mbind result_bind].
  destruct (emit res first (numeral top)) as [res' first'].
  assert (Hm' : forall v, marked (<[Z.to_nat top := true]> visited) v
                          <-> v ∈ out ++ [top]).
  { intros v. rewrite marked_insert by lia.
    rewrite Hm, elem_of_app, list_elem_of_singleton. done. }
  assert (Hnd' : NoDup (out ++ [top])).
  { apply NoDup_app. split; [done|]. split; [|apply NoDup_singleton].
    intros x Hx ->%list_elem_of_singleton. done. }
  destruct (dfs_neighbors_spec (complete k) top (<[Z.to_nat top := true]> visited) rest)
    as (pushed & Hndp & Hp & Hrun & Hover);
    [done|done|by rewrite length_insert|cbn [length] in Hfit; lia|].
  (* all the vertices not visited yet are pushed *)
  assert (Hall : pushed ++ out ++ [top] ≡ₚ seqZ 0 k).
  { apply NoDup_Permutation.
    - apply NoDup_app. split; [done|]. split; [|done].
      intros v Hv Hv'. apply Hp in Hv as [_ Hv]. by apply Hv, Hm'.
    - apply NoDup_seqZ.
    - intros v. rewrite elem_of_seqZ, elem_of_app, Hp, edge_complete, Hm'.
      split.
      + intros [[[_ ?] _]|Hv]; [lia|].
        apply elem_of_app in Hv as [Hv| ->%list_elem_of_singleton]; [|lia].
        apply Hout in Hv. lia.
      + intros Hv. destruct (decide (v ∈ out ++ [top])); [by right|].
        left. split; [lia|done]. }
  apply Permutation_length in Hall.
  rewrite !length_app, length_seqZ in Hall. cbn [length] in Hall.
  destruct (decide (Z.of_nat (length (pushed ++ rest)) <= INT_MAX)) as [Hle|Hgt].
  2:{ rewrite Hover by lia. done. }
  rewrite Hrun by done. cbn [mbind result_bind].
  destruct pushed as [|top' pushed].
  { (* nothing left to push: the bound was passed before *)
    exfalso. cbn [length app] in *. unfold INT_MAX in *. nia. }
  cbn [app].
  apply (IH _ (out ++ [top])); try done.
  - by rewrite length_insert.
  - intros v [Hv| ->%list_elem_of_singleton]%elem_of_app; [by apply Hout|done].
  - destruct (proj1 (Hp top')) as [He _]; [by left|].
    apply edge_complete in He. lia.
  - destruct (proj1 (Hp top')) as [_ Hv]; [by left|]. by rewrite <- Hm'.
  - rewrite !length_app in *. cbn [length] in *.
    assert (Hk' : k = Z.of_nat (length pushed) + Z.of_nat (length out) + 2) by lia.
    rewrite Hk' in Hbig |- *.
    rewrite !Nat2Z.inj_succ, !Nat2Z.inj_add in *.
    remember (Z.of_nat (length pushed)) as p.
    remember (Z.of_nat (length out)) as o.
    remember (Z.of_nat (length rest)) as r.
    replace (p + o + 2 - 1 - (o + Z.of_nat 1)) with p by lia.
    replace (p + o + 2 - 2 - (o + Z.of_nat 1)) with (p - 1) by lia.
    replace (p + o + 2 - 1 - o) with (p + 1) in Hbig by lia.
    replace (p + o + 2 - 2 - o) with p in Hbig by lia.
    rewrite length_app, Nat2Z.inj_add, <- Heqp, <- Heqr. lia.
  - rewrite length_app. cbn [length]. lia.
Qed.

Lemma dfs_complete_overflow k :
  DFS_MAX_VERTICES < k -> dfs (complete k) 0 = Undefined.
Proof.
  unfold DFS_MAX_VERTICES. intros Hk. unfold dfs.
  change (n (complete k)) with k.
  rewrite !bool_decide_eq_false_2 by lia. cbn [orb].
  rewrite new_array_spec by lia. cbn [mbind result_bind].
  rewrite fill_spec by (by rewrite length_replicate). cbn [mbind result_bind].
  change Stack_new with (stack_of []).
  rewrite Stack_push_of by (by vm_compute). cbn [mbind result_bind].
  rewrite (dfs_loop_overflow k _ _ []); [done|..].
  - by rewrite length_replicate.
  - intros v. rewrite elem_of_nil.
    pose proof (marked_replicate_false (Z.to_nat k) v). tauto.
  - constructor.
  - by intros v ?%elem_of_nil.
  - lia.
  - by intros ?%elem_of_nil.
  - by vm_compute.
  - cbn [length]. unfold INT_MAX. nia.
  - cbn [length]. nia.
Qed.

(** C4. On every graph and for every start vertex, [bfs] returns, and on
    every graph with at most 65537 vertices [dfs] returns as well, the
    rendering of a sequence that holds every vertex reachable from the
    start along directed edges of nonzero weight exactly once, and no other
    vertex. The vertex count is an [int]. *)
Theorem traversals_reachable (g : Graph) (start : Z) :
  dims (adjMatrix g) (n g) -> 0 <= start < n g ->
  (n g <= INT_MAX ->
   exists order,
     bfs g start = Ok (show_ints order) /\
     NoDup order /\ forall v, v ∈ order <-> reachable g start v) /\
  (n g <= DFS_MAX_VERTICES ->
   exists order,
     dfs g start = Ok (show_ints order) /\
     NoDup order /\ forall v, v ∈ order <-> reachable g start v).
Proof.
  intros Hd Hstart. split; intros Hmax.
  - destruct (bfs_spec g start Hd Hstart Hmax) as (order & Hrun & Hnd & Hr). eauto.
  - destruct (dfs_spec g start Hd Hstart Hmax) as (order & Hrun & Hnd & Hr). eauto.
Qed.

Lemma traversals_reachable_witness :
  let g := mkGraph 3 [[0; 1; 0]; [0; 0; 0]; [1; 0; 0]] true in
  (dims (adjMatrix g) (n g) /\ 0 <= 2 < n g /\
   n g <= INT_MAX /\ n g <= DFS_MAX_VERTICES) /\
  (exists order, bfs g 2 = Ok (show_ints order) /\ NoDup order /\
     forall v, v ∈ order <-> reachable g 2 v) /\
  (exists order, dfs g 2 = Ok (show_ints order) /\ NoDup order /\
     forall v, v ∈ order <-> reachable g 2 v) /\
  bfs g 2 = Ok "[2,0,1]"%string /\ dfs g 2 = Ok "[2,0,1]"%string.
Proof.
  intros g.
  assert (Hd : dims (adjMatrix g) (n g)).
  { split; [done|]. split; [done|]. by repeat constructor. }
  assert (Hs : 0 <= 2 < n g) by (simpl; lia).
  assert (Hb : n g <= INT_MAX) by (by vm_compute).
  assert (Hm : n g <= DFS_MAX_VERTICES) by (by vm_compute).
  split; [done|].
  destruct (traversals_reachable g 2 Hd Hs) as [Hbfs Hdfs].
  split; [exact (Hbfs Hb)|]. split; [exact (Hdfs Hm)|].
  split; reflexivity.
Defined.

(** C4, as stated, fails on large graphs: on the graph with 65538 vertices
    in which every cell is 1, the stack of [dfs] comes to hold more than
    [INT_MAX] entries, the counter [size] overflows, and [dfs(0)] returns no
    sequence. *)
Lemma dfs_stack_overflow :
  let g := complete 65538 in
  dims (adjMatrix g) (n g) /\ 0 <= 0 < n g /\ dfs g 0 = Undefined.
Proof.
  intros g. split; [|split].
  - apply dims_complete. lia.
  - unfold g, complete. cbn [n]. lia.
  - apply dfs_complete_overflow. unfold DFS_MAX_VERTICES. lia.
Qed.

(** ** MinHeap *)

Lemma rd_cell (a : list PQNode) i :
  0 <= i < Z.of_nat (length a) -> rd a i = Ok (cell a i).
Proof.
  intros Hi. destruct (rd_in_range a i Hi) as (x & -> & Hx).
  unfold cell. by rewrite (list_lookup_total_correct _ _ _ Hx).
Qed.

Lemma swap_Ok (a : list PQNode) i j :
  0 <= i < Z.of_nat (length a) -> 0 <= j < Z.of_nat (length a) ->
  swap a i j = Ok (swapped a i j).
Proof.
  intros Hi Hj. unfold swap. rewrite !rd_cell by done. cbn [mbind result_bind].
  rewrite wr_Ok by done. cbn [mbind result_bind].
  rewrite wr_Ok by (by rewrite length_insert). done.
Qed.

Lemma length_swapped a i j : length (swapped a i j) = length a.
Proof. unfold swapped. by rewrite !length_insert. Qed.

Lemma cell_insert (a : list PQNode) i x k :
  0 <= i < Z.of_nat (length a) -> 0 <= k ->
  cell (<[Z.to_nat i := x]> a) k = if decide (k = i) then x else cell a k.
Proof.
  intros Hi Hk. unfold cell. case_decide as Hc.
  - subst. rewrite list_lookup_total_insert_eq by lia. done.
  - rewrite list_lookup_total_insert_ne by lia. done.
Qed.

Lemma cell_swapped a i j k :
  0 <= i < Z.of_nat (length a) -> 0 <= j < Z.of_nat (length a) -> 0 <= k ->
  cell (swapped a i j) k =
    if decide (k = j) then cell a i
    else if decide (k = i) then cell a j
    else cell a k.
Proof.
  intros Hi Hj Hk. unfold swapped.
  rewrite cell_insert by (rewrite ?length_insert; lia).
  case_decide; [done|]. by rewrite cell_insert by lia.
Qed.

Lemma mul32_2 i : 0 <= i < 2 ^ 30 -> mul32 2 i = 2 * i.
Proof.
  intros Hi. unfold mul32. apply wrap32_id. unfold is_int, INT_MIN, INT_MAX. lia.
Qed.

Lemma add32_exact a b : is_int (a + b) -> add32 a b = a + b.
Proof. apply wrap32_id. Qed.

Lemma sub32_exact a b : is_int (a - b) -> sub32 a b = a - b.
Proof. apply wrap32_id. Qed.

(** *** heapifyUp *)

Lemma heap_but_up_step a sz i :
  Z.of_nat (length a) > sz -> 2 <= i <= sz ->
  heap_but true a sz i ->
  key (cell a i) < key (cell a (i / 2)) ->
  heap_but true (swapped a i (i / 2)) sz (i / 2).
Proof.
  intros Hlen Hi [Hord Hgp] Hlt.
  assert (Hp : 1 <= i / 2 < i) by (split; [apply Z.div_le_lower_bound|apply Z.div_lt_upper_bound]; lia).
  assert (Hcell : forall k, 0 <= k ->
    cell (swapped a i (i / 2)) k =
      if decide (k = i / 2) then cell a i
      else if decide (k = i) then cell a (i / 2) else cell a k).
  { intros k Hk. apply cell_swapped; lia. }
  split.
  - intros j Hj Hne.
    assert (Hjp : 1 <= j / 2 < j)
      by (split; [apply Z.div_le_lower_bound|apply Z.div_lt_upper_bound]; lia).
    rewrite !Hcell by lia.
    destruct (decide (j = i)) as [->|Hji].
    + repeat case_decide; lia.
    + destruct (decide (j / 2 = i / 2)) as [Heq|Hneq].
      * specialize (Hord j Hj Hji). rewrite Heq in Hord.
        repeat case_decide; lia.
      * destruct (decide (j / 2 = i)) as [Heq'|Hneq'].
        -- specialize (Hgp j Hj Heq' ltac:(lia)). repeat case_decide; lia.
        -- specialize (Hord j Hj Hji). repeat case_decide; lia.
  - intros j Hj Hjp Hp2.
    assert (Hpp : 1 <= i / 2 / 2 < i / 2)
      by (split; [apply Z.div_le_lower_bound|apply Z.div_lt_upper_bound]; lia).
    rewrite !Hcell by lia.
    pose proof (Hord (i / 2) ltac:(lia) ltac:(lia)) as Hpar.
    destruct (decide (j = i)) as [->|Hji]; [repeat case_decide; lia|].
    specialize (Hord j Hj Hji). rewrite Hjp in Hord.
    assert (Hjlt : j / 2 < j) by (apply Z.div_lt_upper_bound; lia).
    repeat case_decide; lia.
Qed.

Lemma heap_but_up_done a sz i :
  1 <= i <= sz -> heap_but true a sz i ->
  (i > 1 -> key (cell a (i / 2)) <= key (cell a i)) ->
  heap_ordered a sz.
Proof.
  intros Hi [Hord _] Hdone j Hj.
  destruct (decide (j = i)) as [->|Hne]; [apply Hdone; lia|by apply Hord].
Qed.

Lemma in_cells_swapped a sz i j x :
  Z.of_nat (length a) > sz -> 1 <= i <= sz -> 1 <= j <= sz ->
  (exists k, 1 <= k <= sz /\ cell (swapped a i j) k = x) <->
  (exists k, 1 <= k <= sz /\ cell a k = x).
Proof.
  intros Hlen Hi Hj. split; intros (k & Hk & Hx).
  - rewrite cell_swapped in Hx by lia. repeat case_decide; subst; eauto.
  - destruct (decide (k = i)) as [->|Hki]; [|destruct (decide (k = j)) as [->|Hkj]].
    + exists j. split; [done|]. rewrite cell_swapped by lia. by rewrite decide_True.
    + exists i. split; [done|]. rewrite cell_swapped by lia.
      case_decide; [by subst|]. by rewrite decide_True.
    + exists k. split; [done|]. rewrite cell_swapped by lia.
      by rewrite !decide_False.
Qed.

Lemma heapifyUp_loop_spec fuel : forall a sz i,
  Z.of_nat (length a) > sz -> 1 <= i <= sz -> i < 2 ^ Z.of_nat fuel ->
  heap_but true a sz i ->
  exists a',
    heapifyUp_loop fuel a i = Ok a' /\ length a' = length a /\
    heap_ordered a' sz /\
    forall x, (exists k, 1 <= k <= sz /\ cell a' k = x) <->
              (exists k, 1 <= k <= sz /\ cell a k = x).
Proof.
  induction fuel as [|fuel IH]; intros a sz i Hlen Hi Hfuel Hbut.
  - simpl in Hfuel. lia.
  - cbn [heapifyUp_loop]. case_bool_decide as Hi1.
    + assert (Hq : i ÷ 2 = i / 2) by (apply Z.quot_div_nonneg; lia).
      rewrite Hq.
      assert (Hp : 1 <= i / 2 < i)
        by (split; [apply Z.div_le_lower_bound|apply Z.div_lt_upper_bound]; lia).
      rewrite !rd_cell by lia. cbn [mbind result_bind].
      case_bool_decide as Hlt.
      * rewrite swap_Ok by lia. cbn [mbind result_bind].
        destruct (IH (swapped a i (i / 2)) sz (i / 2)) as (a' & Hrun & Hlen' & Hord & Hin).
        -- by rewrite length_swapped.
        -- lia.
        -- rewrite Nat2Z.inj_succ, Z.pow_succ_r in Hfuel by lia.
           apply Z.div_lt_upper_bound; lia.
        -- apply heap_but_up_step; (done || lia).
        -- exists a'. split; [done|]. split; [by rewrite Hlen', length_swapped|].
           split; [done|]. intros x. rewrite Hin.
           apply in_cells_swapped; lia.
      * exists a. split; [done|]. split; [done|]. split; [|done].
        eapply heap_but_up_done; [done|done|]. lia.
    + exists a. split; [done|]. split; [done|]. split; [|done].
      eapply heap_but_up_done; [done|done|]. lia.
Qed.

(** *** heapifyDown *)

Lemma heap_but_down_step a sz i c :
  Z.of_nat (length a) > sz -> 1 <= i -> 2 <= c <= sz -> c / 2 = i ->
  heap_but false a sz i ->
  key (cell a c) < key (cell a i) ->
  (forall j, 2 <= j <= sz -> j / 2 = i -> key (cell a c) <= key (cell a j)) ->
  heap_but false (swapped a i c) sz c.
Proof.
  intros Hlen Hi Hc Hci [Hord Hgp] Hlt Hmin.
  assert (Hic : i < c) by (Z.div_mod_to_equations; lia).
  assert (Hcell : forall k, 0 <= k ->
    cell (swapped a i c) k =
      if decide (k = c) then cell a i
      else if decide (k = i) then cell a c else cell a k).
  { intros k Hk. apply cell_swapped; lia. }
  split.
  - intros j Hj Hne.
    assert (Hjp : 1 <= j / 2 < j)
      by (split; [apply Z.div_le_lower_bound|apply Z.div_lt_upper_bound]; lia).
    rewrite !Hcell by lia.
    destruct (decide (j / 2 = i)) as [Heq|Hneq].
    + specialize (Hmin j Hj Heq). rewrite Heq.
      repeat case_decide; lia.
    + specialize (Hord j Hj Hneq).
      destruct (decide (j = i)) as [->|Hji].
      * assert (Hi2 : 2 <= i) by lia.
        specialize (Hgp c Hc Hci Hi2). repeat case_decide; lia.
      * repeat case_decide; subst; (lia || congruence).
  - intros j Hj Hjc Hc2.
    assert (Hjp : j / 2 < j) by (apply Z.div_lt_upper_bound; lia).
    rewrite !Hcell by lia. rewrite Hci.
    assert (Hji : j / 2 ≠ i) by lia.
    pose proof (Hord j Hj Hji) as Hj'. rewrite Hjc in Hj'.
    repeat case_decide; lia.
Qed.

Lemma heap_but_down_done a sz i :
  heap_but false a sz i ->
  (forall j, 2 <= j <= sz -> j / 2 = i -> key (cell a i) <= key (cell a j)) ->
  heap_ordered a sz.
Proof.
  intros [Hord _] Hdone j Hj.
  destruct (decide (j / 2 = i)) as [Heq|Hne].
  - rewrite Heq. by apply Hdone.
  - by apply Hord.
Qed.

Lemma heapifyDown_rec_spec fuel : forall a sz i,
  Z.of_nat (length a) > sz -> sz < 2 ^ 30 -> 1 <= i <= sz ->
  sz < i * 2 ^ Z.of_nat fuel ->
  heap_but false a sz i ->
  exists a',
    heapifyDown_rec fuel a sz i = Ok a' /\ length a' = length a /\
    heap_ordered a' sz /\
    forall x, (exists k, 1 <= k <= sz /\ cell a' k = x) <->
              (exists k, 1 <= k <= sz /\ cell a k = x).
Proof.
  induction fuel as [|fuel IH]; intros a sz i Hlen Hsz Hi Hfuel Hbut.
  - simpl in Hfuel. lia.
  - cbn [heapifyDown_rec].
    rewrite mul32_2 by lia.
    rewrite add32_exact by (unfold is_int, INT_MIN, INT_MAX; lia).
    (* the smaller of the node and its left child *)
    set (s1 := if decide (2 * i <= sz /\ key (cell a (2 * i)) < key (cell a i))
               then 2 * i else i).
    assert (Hs1 : (if bool_decide (2 * i <= sz) then
                     a0 ← rd a (2 * i); b ← rd a i;
                     Ok (if bool_decide (key a0 < key b) then 2 * i else i)
                   else Ok i) = Ok s1).
    { subst s1. case_bool_decide.
      - rewrite !rd_cell by lia. cbn [mbind result_bind].
        case_bool_decide; [by rewrite decide_True|by rewrite decide_False by tauto].
      - by rewrite decide_False by tauto. }
    rewrite Hs1. cbn [mbind result_bind]. clear Hs1.
    assert (Hs1r : 1 <= s1 <= sz) by (subst s1; case_decide; lia).
    set (s2 := if decide (2 * i + 1 <= sz /\ key (cell a (2 * i + 1)) < key (cell a s1))
               then 2 * i + 1 else s1).
    assert (Hs2 : (if bool_decide (2 * i + 1 <= sz) then
                     a0 ← rd a (2 * i + 1); b ← rd a s1;
                     Ok (if bool_decide (key a0 < key b) then 2 * i + 1 else s1)
                   else Ok s1) = Ok s2).
    { subst s2. case_bool_decide.
      - rewrite !rd_cell by lia. cbn [mbind result_bind].
        case_bool_decide; [by rewrite decide_True|by rewrite decide_False by tauto].
      - by rewrite decide_False by tauto. }
    rewrite Hs2. cbn [mbind result_bind]. clear Hs2.
    assert (Hchild : forall j, j / 2 = i <-> j = 2 * i \/ j = 2 * i + 1)
      by (intros j; Z.div_mod_to_equations; lia).
    assert (Hmin : key (cell a s2) <= key (cell a i) /\
                   forall j, 2 <= j <= sz -> j / 2 = i -> key (cell a s2) <= key (cell a j)).
    { subst s2 s1. split.
      - repeat case_decide; lia.
      - intros j Hj [->| ->]%Hchild; repeat case_decide; lia. }
    destruct Hmin as [Hmin_i Hmin].
    case_bool_decide as Hne.
    + assert (Hs2c : 2 <= s2 <= sz /\ s2 / 2 = i /\ key (cell a s2) < key (cell a i)).
      { subst s2 s1. repeat case_decide; split_and!;
          first [lia | Z.div_mod_to_equations; lia]. }
      destruct Hs2c as (Hs2r & Hs2p & Hs2lt).
      rewrite swap_Ok by lia. cbn [mbind result_bind].
      destruct (IH (swapped a i s2) sz s2) as (a' & Hrun & Hlen' & Hord & Hin).
      * by rewrite length_swapped.
      * done.
      * lia.
      * rewrite Nat2Z.inj_succ, Z.pow_succ_r in Hfuel by lia.
        assert (2 * i <= s2) by (clearbody s2; Z.div_mod_to_equations; lia).
        assert (0 < 2 ^ Z.of_nat fuel) by (apply Z.pow_pos_nonneg; lia).
        nia.
      * apply heap_but_down_step; (done || lia).
      * exists a'. split; [done|]. split; [by rewrite Hlen', length_swapped|].
        split; [done|]. intros x. rewrite Hin.
        apply in_cells_swapped; lia.
    + assert (s2 = i) as Heq by (by destruct (decide (s2 = i))).
      exists a. split; [done|]. split; [done|]. split; [|done].
      eapply heap_but_down_done; [done|]. intros j Hj Hji.
      rewrite Heq in Hmin_i, Hmin. by apply Hmin.
Qed.

(** *** push and pop *)

Lemma heap_root_min a sz i :
  heap_ordered a sz -> 1 <= i <= sz -> key (cell a 1) <= key (cell a i).
Proof.
  intros Hord Hi.
  assert (Hgen : forall k : nat, forall j, 1 <= j <= sz -> j <= Z.of_nat k ->
                   key (cell a 1) <= key (cell a j)).
  { induction k as [|k IH]; intros j Hj Hk; [lia|].
    destruct (decide (j = 1)) as [->|Hne]; [lia|].
    pose proof (Hord j ltac:(lia)) as Hp.
    assert (Hjp : 1 <= j / 2 < j)
      by (split; [apply Z.div_le_lower_bound|apply Z.div_lt_upper_bound]; lia).
    specialize (IH (j / 2) ltac:(lia) ltac:(lia)). lia. }
  apply (Hgen (Z.to_nat i)); lia.
Qed.

Lemma MinHeap_new_spec cap :
  0 <= cap < 2 ^ 30 ->
  exists h, MinHeap_new cap = Ok h /\ heap_ok h /\ size h = 0 /\ capacity h = cap.
Proof.
  intros Hcap. unfold MinHeap_new.
  rewrite add32_exact by (unfold is_int, INT_MIN, INT_MAX; lia).
  rewrite decide_False by lia. eexists. split; [done|]. split; [|done].
  split; [simpl; lia|]. split; [simpl; lia|]. split.
  - simpl. rewrite length_replicate. lia.
  - intros j Hj. simpl in Hj. lia.
Qed.

Lemma push_spec h v k :
  heap_ok h -> size h < capacity h ->
  exists h',
    push h v k = Ok h' /\ heap_ok h' /\
    size h' = size h + 1 /\ capacity h' = capacity h /\
    forall x, in_heap h' x <-> x = mkPQNode v k \/ in_heap h x.
Proof.
  intros (Hsz & Hcap & Hlen & Hord) Hfree. unfold push.
  rewrite bool_decide_eq_false_2 by lia.
  rewrite add32_exact by (unfold is_int, INT_MIN, INT_MAX; lia).
  rewrite wr_Ok by lia. cbn [mbind result_bind].
  unfold heapifyUp. cbn [heap size capacity].
  set (a := <[Z.to_nat (size h + 1) := mkPQNode v k]> (heap h)).
  assert (Hcell : forall i, 0 <= i ->
    cell a i = if decide (i = size h + 1) then mkPQNode v k else cell (heap h) i).
  { intros i Hi. subst a. apply cell_insert; lia. }
  destruct (heapifyUp_loop_spec heapify_fuel a (size h + 1) (size h + 1))
    as (a' & Hrun & Hlen' & Hord' & Hin).
  - subst a. rewrite length_insert. lia.
  - lia.
  - unfold heapify_fuel. change (2 ^ Z.of_nat 32) with 4294967296. lia.
  - split.
    + intros j Hj Hne.
      assert (Hjp : 1 <= j / 2 < j)
        by (split; [apply Z.div_le_lower_bound|apply Z.div_lt_upper_bound]; lia).
      rewrite !Hcell by lia. rewrite !decide_False by lia. apply Hord. lia.
    + intros j Hj Hjp. assert (j / 2 < j) by (apply Z.div_lt_upper_bound; lia). lia.
  - rewrite Hrun. cbn [mbind result_bind]. eexists. split; [done|].
    split; [|split; [done|split; [done|]]].
    + split; [simpl; lia|]. split; [done|]. split; [|done].
      simpl. rewrite Hlen'. subst a. rewrite length_insert. lia.
    + intros x. unfold in_heap. cbn [heap size]. rewrite Hin. split.
      * intros (i & Hi & Hx). rewrite Hcell in Hx by lia.
        case_decide; [by left|]. right. exists i. split; [lia|done].
      * intros [->|(i & Hi & Hx)].
        -- exists (size h + 1). split; [lia|]. rewrite Hcell by lia.
           by rewrite decide_True.
        -- exists i. split; [lia|]. rewrite Hcell by lia.
           by rewrite decide_False by lia.
Qed.

Lemma push_full h v k : size h >= capacity h -> push h v k = Ok h.
Proof. intros H. unfold push. by rewrite bool_decide_eq_true_2. Qed.

Lemma pop_spec h :
  heap_ok h -> 0 < size h ->
  exists top h',
    pop h = Ok (top, h') /\ heap_ok h' /\
    size h' = size h - 1 /\ capacity h' = capacity h /\
    in_heap h top /\
    (forall x, in_heap h x -> key top <= key x) /\
    (forall x, in_heap h' x -> in_heap h x) /\
    (forall x, in_heap h x -> x = top \/ in_heap h' x).
Proof.
  intros (Hsz & Hcap & Hlen & Hord) Hpos. unfold pop.
  rewrite bool_decide_eq_false_2 by lia.
  rewrite !rd_cell by lia. cbn [mbind result_bind].
  rewrite wr_Ok by lia. cbn [mbind result_bind].
  rewrite sub32_exact by (unfold is_int, INT_MIN, INT_MAX; lia).
  cbn [size heap capacity].
  set (a := <[Z.to_nat 1 := cell (heap h) (size h)]> (heap h)).
  assert (Hcell : forall i, 0 <= i ->
    cell a i = if decide (i = 1) then cell (heap h) (size h) else cell (heap h) i).
  { intros i Hi. subst a. apply cell_insert; lia. }
  assert (Hlena : length a = length (heap h)) by (subst a; by rewrite length_insert).
  assert (Hsets : forall a', 
    length a' = length a -> heap_ordered a' (size h - 1) ->
    (forall x, (exists k, 1 <= k <= size h - 1 /\ cell a' k = x) <->
               (exists k, 1 <= k <= size h - 1 /\ cell a k = x)) ->
    exists top h',
      Ok (cell (heap h) 1, mkMinHeap a' (size h - 1) (capacity h)) = Ok (top, h') /\
      heap_ok h' /\ size h' = size h - 1 /\ capacity h' = capacity h /\
      in_heap h top /\
      (forall x, in_heap h x -> key top <= key x) /\
      (forall x, in_heap h' x -> in_heap h x) /\
      (forall x, in_heap h x -> x = top \/ in_heap h' x)).
  { intros a' Hlen' Hord' Hin. do 2 eexists. split; [done|].
    split; [|split; [done|split; [done|]]].
    - split; [simpl; lia|]. split; [done|]. split; [|done].
      simpl. rewrite Hlen', Hlena. lia.
    - split; [exists 1; split; [lia|done]|]. split; [|split].
      + intros x (i & Hi & <-). by apply (heap_root_min _ (size h)).
      + intros x (i & Hi & Hx). cbn [heap size] in *.
        destruct (proj1 (Hin x)) as (j & Hj & Hxj); [by exists i|].
        rewrite Hcell in Hxj by lia. case_decide.
        * exists (size h). split; [lia|done].
        * exists j. split; [lia|done].
      + intros x (i & Hi & Hx). destruct (decide (i = 1)) as [->|Hne]; [by left|].
        right. unfold in_heap. cbn [heap size]. apply Hin.
        destruct (decide (i = size h)) as [->|Hne'].
        * exists 1. split; [lia|]. rewrite Hcell by lia. by rewrite decide_True.
        * exists i. split; [lia|]. rewrite Hcell by lia. by rewrite decide_False. }
  case_bool_decide as Hrest.
  - unfold heapifyDown. cbn [heap size capacity].
    destruct (heapifyDown_rec_spec heapify_fuel a (size h - 1) 1)
      as (a' & Hrun & Hlen' & Hord' & Hin).
    + rewrite Hlena. lia.
    + lia.
    + lia.
    + unfold heapify_fuel. change (2 ^ Z.of_nat 32) with 4294967296. lia.
    + split.
      * intros j Hj Hne.
        assert (Hjp : 1 <= j / 2 < j)
          by (split; [apply Z.div_le_lower_bound|apply Z.div_lt_upper_bound]; lia).
        rewrite !Hcell by lia. rewrite !decide_False by lia. apply Hord. lia.
      * intros j Hj Hjp Hc. lia.
    + rewrite Hrun. cbn [mbind result_bind]. by apply Hsets.
  - apply Hsets; [done| |done]. intros j Hj. lia.
Qed.

(** ** Dijkstra *)

Lemma path_in_range g s v d : path g s v d -> 0 <= v < n g.
Proof. intros Hp. destruct Hp as [?|x v d _ (_ & ? & _)]; done. Qed.

Lemma path_nonneg g s v d : weights_nonneg g -> path g s v d -> 0 <= d.
Proof.
  intros Hw Hp. induction Hp as [?|x v d Hp IH (Hx & Hv & _)]; [lia|].
  specialize (Hw x v Hx Hv). lia.
Qed.

Lemma path_reachable g s v d : path g s v d -> reachable g s v.
Proof.
  intros Hp. induction Hp as [?|x v d Hp IH He]; [apply rtc_refl|].
  by eapply reachable_step.
Qed.

Lemma reachable_path g s v :
  0 <= s < n g -> reachable g s v -> exists d, path g s v d.
Proof.
  intros Hs Hr. apply rtc_nsteps in Hr as [k Hr]. revert v Hr.
  induction k as [|k IH]; intros v Hr.
  - inv Hr. exists 0. by constructor.
  - apply nsteps_inv_r in Hr as (x & Hr & He).
    destruct (IH x Hr) as [d Hp]. eexists. by econstructor.
Qed.

Lemma rd_dv dist v :
  0 <= v < Z.of_nat (length dist) -> rd dist v = Ok (dv dist v).
Proof.
  intros Hv. destruct (rd_in_range dist v Hv) as (x & -> & Hx).
  unfold dv. by rewrite (list_lookup_total_correct _ _ _ Hx).
Qed.

Lemma dv_insert dist i x v :
  0 <= i < Z.of_nat (length dist) -> 0 <= v ->
  dv (<[Z.to_nat i := x]> dist) v = if decide (v = i) then x else dv dist v.
Proof.
  intros Hi Hv. unfold dv. case_decide as Hc.
  - subst. rewrite list_lookup_total_insert_eq by lia. done.
  - rewrite list_lookup_total_insert_ne by lia. done.
Qed.

(** A walk either ends in a visited vertex or passes an unvisited vertex
    whose [dist] is at most the weight of the walk. *)
Lemma dijkstra_frontier g s dist visited pq v d :
  weights_nonneg g ->
  dijkstra_inv g s (fun _ _ => True) dist visited pq ->
  path g s v d ->
  marked visited v \/
  exists y, 0 <= y < n g /\ ¬ marked visited y /\ dv dist y <= d.
Proof.
  intros Hw Hinv Hp. induction Hp as [Hs|x v d Hp IH He].
  - destruct (decide (marked visited s)) as [?|Hns]; [by left|].
    right. exists s. split; [done|]. split; [done|]. by rewrite (di_start _ _ _ _ _ _ Hinv).
  - assert (Hwx : 0 <= mget (adjMatrix g) x v).
    { destruct He as (Hx & Hv & _). apply Hw; done. }
    destruct IH as [Hmx|(y & Hy & Hny & Hdy)].
    + destruct (di_settled _ _ _ _ _ _ Hinv x Hmx) as [_ Hmin].
      specialize (Hmin d Hp).
      pose proof (di_relaxed _ _ _ _ _ _ Hinv x v I Hmx He) as Hrel.
      destruct (decide (marked visited v)) as [?|Hnv]; [by left|].
      right. exists v. split; [by destruct He as (_ & ? & _)|]. split; [done|]. lia.
    + right. exists y. split; [done|]. split; [done|]. lia.
Qed.

Lemma dijkstra_inv_weaken g s (R R' : Z -> Z -> Prop) dist visited pq :
  (forall u v, R' u v -> edge g u v -> R u v) ->
  dijkstra_inv g s R dist visited pq -> dijkstra_inv g s R' dist visited pq.
Proof.
  intros Himp Hinv. destruct Hinv. split; try done.
  intros u v HR Hm He. apply di_relaxed0; auto.
Qed.

Lemma dijkstra_relax_step g s u visited dist pq (R : Z -> Z -> Prop) j :
  dims (adjMatrix g) (n g) -> weights_nonneg g -> 0 <= s < n g ->
  0 <= u < n g -> 0 <= j < n g -> marked visited u ->
  dijkstra_inv g s (fun u' v => R u' v \/ (u' = u /\ v < j)) dist visited pq ->
  size pq < capacity pq ->
  exists dist' pq',
    (a ← rd2 (adjMatrix g) u j;
     if bool_decide (a ≠ 0) then
       seen ← rd visited j;
       if negb seen then
         weight ← rd2 (adjMatrix g) u j;
         du ← rd dist u;
         dv ← rd dist j;
         if bool_decide (add32 du weight < dv) then
           dist ← wr dist j (add32 du weight);
           dv ← rd dist j;
           pq ← push pq j dv;
           Ok (dist, pq)
         else Ok (dist, pq)
       else Ok (dist, pq)
     else Ok (dist, pq)) = Ok (dist', pq') /\
    dijkstra_inv g s (fun u' v => R u' v \/ (u' = u /\ v < j + 1)) dist' visited pq' /\
    capacity pq' = capacity pq /\
    size pq' <= size pq + (if decide (j = u) then 0 else 1).
Proof.
  intros Hd Hw Hs Hu Hj Hmu Hinv Hroom.
  pose proof (di_len_dist _ _ _ _ _ _ Hinv) as Hld.
  pose proof (di_len_visited _ _ _ _ _ _ Hinv) as Hlv.
  rewrite !(rd2_Ok _ (n g)) by done. cbn [mbind result_bind].
  (* nothing changes, but the pair (u, j) counts as relaxed *)
  assert (Hkeep : dv dist j <= dv dist u + mget (adjMatrix g) u j \/
                  mget (adjMatrix g) u j = 0 ->
    exists dist' pq',
      Ok (dist, pq) = Ok (dist', pq') /\
      dijkstra_inv g s (fun u' v => R u' v \/ (u' = u /\ v < j + 1)) dist' visited pq' /\
      capacity pq' = capacity pq /\
      size pq' <= size pq + (if decide (j = u) then 0 else 1)).
  { intros Hle. exists dist, pq. split; [done|]. split; [|split; [done|case_decide; lia]].
    destruct Hinv. split; try done.
    intros u' v [HR|[-> Hv]] Hm He.
    - apply di_relaxed0; auto.
    - destruct (decide (v = j)) as [->|Hne].
      + destruct Hle as [?|Hz]; [done|]. by destruct He as (_ & _ & ?).
      + apply di_relaxed0; [right; split; [done|lia]|done|done]. }
  case_bool_decide as Hnz; [|apply Hkeep; right; lia].
  assert (He : edge g u j) by (by unfold edge).
  destruct (rd_visited visited j) as (b & Hrd & Hb); [lia|].
  rewrite Hrd. cbn [mbind result_bind]. destruct b; cbn [negb].
  { (* j is settled: its distance is minimal *)
    apply Hkeep. left.
    destruct (di_settled _ _ _ _ _ _ Hinv j) as [_ Hmin]; [by apply Hb|].
    destruct (di_settled _ _ _ _ _ _ Hinv u Hmu) as [Hdu _].
    apply Hmin. apply path_edge; [|done].
    apply (di_path _ _ _ _ _ _ Hinv); done. }
  assert (Hnm : ¬ marked visited j) by (intros ?%Hb; done).
  assert (Hju : j ≠ u) by (intros ->; done).
  rewrite !rd_dv by lia. cbn [mbind result_bind].
  destruct (di_settled _ _ _ _ _ _ Hinv u Hmu) as [Hdu Hminu].
  pose proof (di_range _ _ _ _ _ _ Hinv u Hu) as Hru.
  pose proof (di_range _ _ _ _ _ _ Hinv j Hj) as Hrj.
  pose proof (Hw u j Hu Hj) as Hwj.
  rewrite add32_exact
    by (unfold is_int, INT_MIN, INT_MAX, MAX_WEIGHT, INF, INT_MAX in *; lia).
  case_bool_decide as Hlt; [|apply Hkeep; left; lia].
  rewrite wr_Ok by lia. cbn [mbind result_bind].
  rewrite rd_dv by (rewrite length_insert; lia). cbn [mbind result_bind].
  rewrite dv_insert by lia. rewrite decide_True by done.
  set (d := dv dist u + mget (adjMatrix g) u j) in *.
  destruct (push_spec pq j d (di_heap _ _ _ _ _ _ Hinv) Hroom)
    as (pq' & Hpush & Hok' & Hsz' & Hcap' & Hin').
  rewrite Hpush. cbn [mbind result_bind].
  exists (<[Z.to_nat j := d]> dist), pq'. split; [done|].
  split; [|split; [done|rewrite decide_False by done; lia]].
  assert (Hdv : forall v, 0 <= v ->
    dv (<[Z.to_nat j := d]> dist) v = if decide (v = j) then d else dv dist v).
  { intros v Hv. apply dv_insert; lia. }
  assert (Hjs : j ≠ s).
  { intros ->. rewrite (di_start _ _ _ _ _ _ Hinv) in Hlt. lia. }
  destruct Hinv. split.
  - by rewrite length_insert.
  - done.
  - done.
  - rewrite Hdv by lia. by rewrite decide_False.
  - intros v Hv. rewrite Hdv by lia.
    destruct (decide (v = j)); [subst d; lia|by apply di_range0].
  - intros v Hv. rewrite Hdv by lia. destruct (decide (v = j)) as [->|Hc].
    + intros _. apply path_edge; [|done]. by apply di_path0.
    + by apply di_path0.
  - intros v Hm. rewrite Hdv by (by destruct Hm).
    rewrite decide_False; [by apply di_settled0|]. intros ->. done.
  - intros u' v HR Hm He0.
    assert (Hu' : 0 <= u') by (by destruct Hm).
    assert (Hv' : 0 <= v) by (destruct He0 as (_ & ? & _); lia).
    rewrite !Hdv by done.
    rewrite (decide_False (P := u' = j)) by (intros ->; done).
    destruct (decide (v = j)) as [->|Hc].
    + destruct HR as [HR|[-> _]]; [|subst d; lia].
      pose proof (di_relaxed0 u' j (or_introl HR) Hm He0). lia.
    + destruct HR as [HR|[-> Hv]].
      * apply di_relaxed0; auto.
      * apply di_relaxed0; [right; split; [done|lia]|done|done].
  - intros v Hv Hnv. rewrite Hdv by lia. intros Hfin. apply Hin'.
    destruct (decide (v = j)) as [->|Hc]; [by left|].
    right. by apply di_queued0.
  - intros x [->|Hx]%Hin'.
    + cbn [vertex key]. rewrite Hdv by lia. rewrite decide_True by done.
      split; [done|]. split; [lia|]. subst d. lia.
    + destruct (di_entries0 x Hx) as (Hvx & Hkx & Hfx).
      split; [done|]. split; [|done]. rewrite Hdv by lia.
      destruct (decide (vertex x = j)) as [Hc|Hc]; [|done].
      rewrite Hc in Hkx. lia.
Qed.

Lemma dijkstra_relax_spec g s u visited dist pq :
  dims (adjMatrix g) (n g) -> weights_nonneg g -> 0 <= s < n g ->
  0 <= u < n g -> marked visited u ->
  dijkstra_inv g s (fun u' _ => u' ≠ u) dist visited pq ->
  size pq + n g <= capacity pq ->
  exists dist' pq',
    dijkstra_relax g u visited dist pq = Ok (dist', pq') /\
    dijkstra_inv g s (fun _ _ => True) dist' visited pq' /\
    capacity pq' = capacity pq /\
    size pq' <= size pq + (n g - 1).
Proof.
  intros Hd Hw Hs Hu Hmu Hinv Hroom. unfold dijkstra_relax.
  destruct (for_each_upto_inv
    (fun j (st : list Z * MinHeap) =>
       dijkstra_inv g s (fun u' v => u' ≠ u \/ (u' = u /\ v < j)) st.1 visited st.2 /\
       capacity st.2 = capacity pq /\
       size st.2 <= size pq + others_below u j)
    0 (n g)
    (fun v '(dist, pq) =>
      a ← rd2 (adjMatrix g) u v;
      if bool_decide (a ≠ 0) then
        seen ← rd visited v;
        if negb seen then
          weight ← rd2 (adjMatrix g) u v;
          du ← rd dist u;
          dv ← rd dist v;
          if bool_decide (add32 du weight < dv) then
            dist ← wr dist v (add32 du weight);
            dv ← rd dist v;
            pq ← push pq v dv;
            Ok (dist, pq)
          else Ok (dist, pq)
        else Ok (dist, pq)
      else Ok (dist, pq))
    (dist, pq)) as ([dist' pq'] & Hrun & Hinv' & Hcap' & Hsz').
  - lia.
  - cbn [fst snd]. split; [|split; [done|unfold others_below; case_decide; lia]].
    eapply dijkstra_inv_weaken; [|exact Hinv].
    intros u' v [?|[_ Hv]] (_ & ? & _); [done|lia].
  - intros j [dist1 pq1] Hj (Hinv1 & Hcap1 & Hsz1). cbn [fst snd] in *.
    destruct (dijkstra_relax_step g s u visited dist1 pq1 (fun u' _ => u' ≠ u) j)
      as (dist2 & pq2 & Hstep & Hinv2 & Hcap2 & Hsz2); try done.
    { unfold others_below in Hsz1. case_decide; lia. }
    exists (dist2, pq2). split; [done|]. cbn [fst snd].
    split; [done|]. split; [congruence|].
    unfold others_below in *. repeat case_decide; lia.
  - cbn [fst snd] in *. exists dist', pq'. split; [done|].
    split; [|split; [done|unfold others_below in Hsz'; case_decide; lia]].
    eapply dijkstra_inv_weaken; [|exact Hinv'].
    intros u' v _ (_ & ? & _).
    destruct (decide (u' = u)); [right; split; [done|lia]|by left].
Qed.

Lemma marked_count_le visited : marked_count visited <= Z.of_nat (length visited).
Proof. unfold marked_count. pose proof (length_filter (fun b => b = true) visited). lia. Qed.

Lemma marked_count_nonneg visited : 0 <= marked_count visited.
Proof. unfold marked_count. lia. Qed.

Lemma marked_count_insert visited (i : nat) :
  visited !! i = Some false ->
  marked_count (<[i := true]> visited) = marked_count visited + 1.
Proof.
  unfold marked_count. revert i.
  induction visited as [|b visited IH]; intros i Hi; [done|].
  destruct i as [|i].
  - simpl in Hi. injection Hi as ->.
    change (<[0%nat := true]> (false :: visited)) with (true :: visited).
    rewrite filter_cons_True by done. rewrite filter_cons_False by done.
    simpl. lia.
  - simpl in Hi. specialize (IH i Hi).
    change (<[S i := true]> (b :: visited)) with (b :: <[i := true]> visited).
    destruct b.
    + rewrite !filter_cons_True by done. simpl length. lia.
    + rewrite !filter_cons_False by done. lia.
Qed.

Lemma not_marked_lookup visited v :
  0 <= v < Z.of_nat (length visited) -> ¬ marked visited v ->
  visited !! Z.to_nat v = Some false.
Proof.
  intros Hv Hnm. destruct (lookup_lt_is_Some_2 visited (Z.to_nat v)) as [b Hb]; [lia|].
  destruct b; [|done]. exfalso. apply Hnm. split; [lia|done].
Qed.

Lemma in_heap_empty pq x : size pq = 0 -> ¬ in_heap pq x.
Proof. intros Hsz (i & Hi & _). lia. Qed.

Lemma dijkstra_loop_spec g s fuel : forall dist visited pq,
  dims (adjMatrix g) (n g) -> weights_nonneg g -> 0 <= s < n g ->
  dijkstra_inv g s (fun _ _ => True) dist visited pq ->
  capacity pq = n g * n g ->
  size pq <= 1 + marked_count visited * (n g - 1) ->
  size pq + (n g - marked_count visited) * n g < Z.of_nat fuel ->
  exists dist',
    dijkstra_loop fuel g dist visited pq = Ok dist' /\ dijkstra_result g s dist'.
Proof.
  induction fuel as [|fuel IH];
    intros dist visited pq Hd Hw Hs Hinv Hcap Hroom Hfuel.
  { pose proof (marked_count_le visited) as Hle.
    rewrite (di_len_visited _ _ _ _ _ _ Hinv) in Hle.
    destruct (di_heap _ _ _ _ _ _ Hinv) as (Hsz & _). nia. }
  pose proof (di_len_dist _ _ _ _ _ _ Hinv) as Hld.
  pose proof (di_len_visited _ _ _ _ _ _ Hinv) as Hlv.
  pose proof (di_heap _ _ _ _ _ _ Hinv) as Hok.
  cbn [dijkstra_loop]. unfold MinHeap_empty. case_bool_decide as Hempty; cbn [negb].
  - (* the heap is empty *)
    exists dist. split; [done|]. split; [done|]. split; [by apply (di_start _ _ _ _ _ _ Hinv)|].
    assert (Hunm : forall y, 0 <= y < n g -> ¬ marked visited y -> dv dist y = INF).
    { intros y Hy Hny. pose proof (di_range _ _ _ _ _ _ Hinv y Hy) as Hr.
      destruct (decide (dv dist y < INF)) as [Hlt|]; [|lia].
      exfalso. eapply in_heap_empty; [exact Hempty|].
      by apply (di_queued _ _ _ _ _ _ Hinv y). }
    intros v Hv. destruct (decide (marked visited v)) as [Hm|Hnm].
    + left. destruct (di_settled _ _ _ _ _ _ Hinv v Hm) as [Hlt Hmin].
      split; [|done]. split; [|done]. by apply (di_path _ _ _ _ _ _ Hinv).
    + right. split; [by apply Hunm|]. intros d Hp.
      destruct (dijkstra_frontier g s dist visited pq v d Hw Hinv Hp)
        as [?|(y & Hy & Hny & Hdy)]; [done|].
      rewrite (Hunm y Hy Hny) in Hdy. done.
  - destruct (pop_spec pq Hok) as
      (top & pq1 & Hpop & Hok1 & Hsz1 & Hcap1 & Htop & Hmin & Hsub & Hrest).
    { destruct Hok as (? & _). lia. }
    rewrite Hpop. cbn [mbind result_bind].
    destruct (di_entries _ _ _ _ _ _ Hinv top Htop) as (Hu & Hku & Hkf).
    set (u := vertex top) in *.
    destruct (rd_visited visited u) as (b & Hrd & Hb); [lia|].
    rewrite Hrd. cbn [mbind result_bind].
    pose proof (marked_count_le visited) as HMle. rewrite Hlv in HMle.
    pose proof (marked_count_nonneg visited) as HM0.
    destruct b.
    + (* a stale entry *)
      assert (Hmu : marked visited u) by (by apply Hb).
      apply IH; try done; try lia.
      destruct Hinv. split; try done.
      * intros v Hv Hnv Hfin. destruct (Hrest _ (di_queued0 v Hv Hnv Hfin)) as [Heq|?]; [|done].
        exfalso. apply Hnv. subst u. rewrite <- Heq in Hmu. done.
      * intros x Hx. apply di_entries0. by apply Hsub.
    + assert (Hnmu : ¬ marked visited u) by (intros ?%Hb; done).
      rewrite wr_Ok by lia. cbn [mbind result_bind].
      set (visited' := <[Z.to_nat u := true]> visited).
      assert (Hm' : forall v, marked visited' v <-> marked visited v \/ v = u).
      { intros v. subst visited'. apply marked_insert. lia. }
      assert (HM' : marked_count visited' = marked_count visited + 1).
      { subst visited'. apply marked_count_insert. apply not_marked_lookup; [lia|done]. }
      assert (HMle' : marked_count visited' <= n g).
      { pose proof (marked_count_le visited') as Hle. subst visited'.
        rewrite length_insert, Hlv in Hle. lia. }
      (* the popped key is dist[u], and it is minimal *)
      assert (Hkey : key top = dv dist u).
      { assert (Hq : in_heap pq (mkPQNode u (dv dist u))).
        { apply (di_queued _ _ _ _ _ _ Hinv); [done|done|lia]. }
        specialize (Hmin _ Hq). simpl in Hmin. lia. }
      assert (Hsettle : forall d, path g s u d -> dv dist u <= d).
      { intros d Hp.
        destruct (dijkstra_frontier g s dist visited pq u d Hw Hinv Hp)
          as [?|(y & Hy & Hny & Hdy)]; [done|].
        destruct (decide (dv dist u <= d)) as [|Hgt]; [done|exfalso].
        assert (Hq : in_heap pq (mkPQNode y (dv dist y))).
        { apply (di_queued _ _ _ _ _ _ Hinv); [done|done|lia]. }
        specialize (Hmin _ Hq). simpl in Hmin. lia. }
      assert (Hinv1 : dijkstra_inv g s (fun u' _ => u' ≠ u) dist visited' pq1).
      { destruct Hinv. split; try done.
        - subst visited'. by rewrite length_insert.
        - intros v [Hm| ->]%Hm'; [by apply di_settled0|]. split; [lia|done].
        - intros u' v Hne [Hm|?]%Hm' He; [|done]. by apply di_relaxed0.
        - intros v Hv Hnv Hfin.
          assert (Hnv0 : ¬ marked visited v) by (intros ?; apply Hnv, Hm'; by left).
          destruct (Hrest _ (di_queued0 v Hv Hnv0 Hfin)) as [Heq|?]; [|done].
          exfalso. apply Hnv, Hm'. right. subst u. by rewrite <- Heq.
        - intros x Hx. apply di_entries0. by apply Hsub. }
      destruct (dijkstra_relax_spec g s u visited' dist pq1)
        as (dist2 & pq2 & Hrelax & Hinv2 & Hcap2 & Hsz2); try done.
      { apply Hm'. by right. }
      { rewrite Hsz1, Hcap1, Hcap. nia. }
      rewrite Hrelax. cbn [mbind result_bind].
      apply IH; try done.
      * congruence.
      * rewrite HM'. nia.
      * rewrite HM'. nia.
Qed.

(** *** The initialisation and the rendering *)

Lemma replicate_all {A} (l : list A) (k : nat) (x : A) :
  length l = k -> (forall j : nat, (j < k)%nat -> l !! j = Some x) -> l = replicate k x.
Proof.
  intros Hlen Hall. apply list_eq. intros j.
  destruct (decide (j < k)%nat).
  - rewrite Hall by done. symmetry. by apply lookup_replicate_2.
  - rewrite !lookup_ge_None_2; [done|rewrite length_replicate; lia|lia].
Qed.

Lemma dijkstra_init_spec (k : Z) (dist : list Z) (visited : list bool) :
  length dist = Z.to_nat k -> length visited = Z.to_nat k ->
  for_each (upto 0 k) (fun i '(dist, visited) =>
      dist ← wr dist i 999999;
      visited ← wr visited i false;
      Ok (dist, visited))
    (dist, visited)
  = Ok (replicate (Z.to_nat k) 999999, replicate (Z.to_nat k) false).
Proof.
  intros Hld Hlv.
  destruct (decide (0 <= k)) as [Hk|Hk].
  2:{ rewrite for_each_upto_empty by lia.
      replace (Z.to_nat k) with 0%nat in * by lia.
      destruct dist, visited; done. }
  destruct (for_each_upto_inv
    (fun i (st : list Z * list bool) =>
       length st.1 = Z.to_nat k /\ length st.2 = Z.to_nat k /\
       forall j : nat, (j < Z.to_nat i)%nat ->
         st.1 !! j = Some 999999 /\ st.2 !! j = Some false)
    0 k
    (fun i '(dist, visited) =>
      dist ← wr dist i 999999;
      visited ← wr visited i false;
      Ok (dist, visited))
    (dist, visited)) as ([dist' visited'] & Hrun & Hld' & Hlv' & Hall).
  - done.
  - cbn [fst snd]. split; [done|]. split; [done|]. intros j Hj. lia.
  - intros i [d1 v1] Hi (Hl1 & Hl2 & Hall). cbn [fst snd] in *.
    rewrite wr_Ok by lia. cbn [mbind result_bind].
    rewrite wr_Ok by lia. cbn [mbind result_bind].
    eexists. split; [done|]. cbn [fst snd]. rewrite !length_insert.
    split; [done|]. split; [done|]. intros j Hj.
    destruct (decide (j = Z.to_nat i)) as [->|Hne].
    + rewrite !list_lookup_insert_eq by lia. done.
    + rewrite !list_lookup_insert_ne by done. apply Hall. lia.
  - cbn [fst snd] in *. rewrite Hrun. f_equal. f_equal.
    + apply replicate_all; [done|]. intros j Hj. by apply Hall.
    + apply replicate_all; [done|]. intros j Hj. by apply Hall.
Qed.

Lemma string_app_nil_r (s : string) : (s +:+ "")%string = s.
Proof.
  induction s as [|a s IH]; [done|].
  change (String a (s +:+ "") = String a s)%string. by rewrite IH.
Qed.

Lemma join_ints_cons x l :
  join_ints (x :: l) =
  (numeral x +:+ (if decide (l = []) then "" else "," +:+ join_ints l))%string.
Proof.
  destruct l as [|y l].
  - rewrite decide_True by done. unfold join_ints. simpl.
    by rewrite string_app_nil_r.
  - by rewrite decide_False by done.
Qed.

Lemma dijkstra_render_spec g dist :
  length dist = Z.to_nat (n g) ->
  (forall i, 0 <= i < n g -> 0 <= dv dist i) ->
  dijkstra_render g dist = Ok (show_ints dist).
Proof.
  intros Hlen Hpos. unfold dijkstra_render.
  destruct (decide (0 <= n g)) as [Hn|Hn].
  2:{ rewrite for_each_upto_empty by lia.
      replace (Z.to_nat (n g)) with 0%nat in * by lia. by destruct dist. }
  destruct (for_each_upto_inv
    (fun i (res : string) =>
       (res +:+ join_ints (drop (Z.to_nat i) dist) = "[" +:+ join_ints dist)%string)
    0 (n g)
    (fun i res =>
      d ← rd dist i;
      text ← intToString d;
      let res := (res +:+ text)%string in
      Ok (if bool_decide (i < n g - 1) then (res +:+ ",")%string else res))
    "["%string) as (res & Hrun & Hres).
  - done.
  - done.
  - intros i res Hi Hres.
    destruct (rd_in_range dist i) as (x & Hrd & Hx); [lia|].
    rewrite Hrd. cbn [mbind result_bind].
    rewrite intToString_nonneg.
    2:{ specialize (Hpos i Hi). unfold dv in Hpos.
        by rewrite (list_lookup_total_correct _ _ _ Hx) in Hpos. }
    cbn [mbind result_bind]. eexists. split; [done|].
    rewrite <- Hres. rewrite (drop_S _ x (Z.to_nat i)) by done.
    replace (Z.to_nat (i + 1)) with (S (Z.to_nat i)) by lia.
    rewrite join_ints_cons.
    case_bool_decide as Hlast.
    + rewrite decide_False.
      * by rewrite !string_app_assoc.
      * intros Hnil. apply (f_equal length) in Hnil.
        rewrite length_drop in Hnil. simpl in Hnil. lia.
    + assert (Hdrop : drop (S (Z.to_nat i)) dist = []) by (apply drop_ge; lia).
      rewrite Hdrop. rewrite decide_True by done.
      change (join_ints []) with ""%string.
      by rewrite !string_app_assoc, !string_app_nil_r.
  - cbv zeta in Hrun. rewrite Hrun. cbn [mbind result_bind]. unfold show_ints.
    rewrite drop_ge in Hres by lia. simpl in Hres.
    rewrite string_app_nil_r in Hres. rewrite Hres.
    by rewrite string_app_assoc.
Qed.

Lemma marked_count_replicate k : marked_count (replicate k false) = 0.
Proof.
  unfold marked_count. induction k as [|k IH]; [done|].
  simpl. rewrite filter_cons_False by done. done.
Qed.

Lemma dijkstra_dist_spec g start :
  dims (adjMatrix g) (n g) -> n g <= MAX_VERTICES -> weights_nonneg g ->
  0 <= start < n g ->
  exists dist, dijkstra_dist g start = Ok dist /\ dijkstra_result g start dist.
Proof.
  intros Hd Hn Hw Hs. unfold dijkstra_dist, MAX_VERTICES in *.
  rewrite !new_array_spec by lia. cbn [mbind result_bind].
  rewrite dijkstra_init_spec by (by rewrite length_replicate).
  cbn [mbind result_bind].
  rewrite wr_Ok by (rewrite length_replicate; lia). cbn [mbind result_bind].
  assert (Hsq : 0 <= n g * n g < 2 ^ 30) by (change (2 ^ 30) with 1073741824; nia).
  unfold mul32. rewrite wrap32_id
    by (unfold is_int, INT_MIN, INT_MAX; change (2 ^ 30) with 1073741824 in Hsq; lia).
  destruct (MinHeap_new_spec (n g * n g) Hsq) as (pq0 & Hnew & Hok0 & Hsz0 & Hcap0).
  rewrite Hnew. cbn [mbind result_bind].
  destruct (push_spec pq0 start 0 Hok0) as (pq & Hpush & Hok & Hsz & Hcap & Hin).
  { rewrite Hsz0, Hcap0. nia. }
  rewrite Hpush. cbn [mbind result_bind].
  set (dist := <[Z.to_nat start := 0]> (replicate (Z.to_nat (n g)) 999999)).
  assert (Hdv : forall v, 0 <= v < n g ->
            dv dist v = if decide (v = start) then 0 else INF).
  { intros v Hv. subst dist. rewrite dv_insert by (rewrite ?length_replicate; lia).
    case_decide; [done|]. unfold dv.
    rewrite list_lookup_total_alt, lookup_replicate_2 by lia. done. }
  apply dijkstra_loop_spec; try done.
  - split.
    + subst dist. by rewrite length_insert, length_replicate.
    + by rewrite length_replicate.
    + done.
    + rewrite Hdv by done. by rewrite decide_True.
    + intros v Hv. rewrite Hdv by done. unfold INF. case_decide; lia.
    + intros v Hv. rewrite Hdv by done. case_decide as Hc; [|unfold INF; lia].
      intros _. subst v. by constructor.
    + intros v Hm. by apply marked_replicate_false in Hm.
    + intros u v _ Hm. by apply marked_replicate_false in Hm.
    + intros v Hv _. rewrite Hdv by done. case_decide as Hc; [|unfold INF; lia].
      intros _. apply Hin. left. by subst.
    + intros x [->|Hx]%Hin.
      * cbn [vertex key]. rewrite Hdv by done. rewrite decide_True by done.
        unfold INF. lia.
      * exfalso. by eapply in_heap_empty.
  - congruence.
  - rewrite marked_count_replicate. lia.
  - rewrite marked_count_replicate. nia.
Qed.

(** C2, as the code has it. On a graph of at most [MAX_VERTICES] vertices
    whose weights are not negative and can be added to a distance without
    overflow, and for a start vertex, [dijkstra] returns the rendering of a
    sequence of [vertexCount] entries in which the entry of the start is 0,
    the entry of every vertex whose least path weight is below the sentinel
    999999 is that least path weight, and the entry of every other vertex
    (unreachable, or reachable only by paths of weight 999999 or more) is
    the sentinel. *)
Theorem dijkstra_shortest_below_sentinel (g : Graph) (start : Z) :
  dims (adjMatrix g) (n g) -> n g <= MAX_VERTICES -> weights_nonneg g ->
  0 <= start < n g ->
  exists dist,
    dijkstra_dist g start = Ok dist /\
    dijkstra g start = Ok (show_ints dist) /\
    length dist = Z.to_nat (n g) /\
    rd dist start = Ok 0 /\
    forall v, 0 <= v < n g ->
      exists x, rd dist v = Ok x /\
        ((exists d, path g start v d /\ d < 999999) -> shortest g start v x) /\
        ((forall d, path g start v d -> 999999 <= d) -> x = 999999) /\
        (¬ reachable g start v -> x = 999999).
Proof.
  intros Hd Hn Hw Hs.
  destruct (dijkstra_dist_spec g start Hd Hn Hw Hs) as (dist & Hrun & Hlen & Hs0 & Hall).
  exists dist. split; [done|]. split.
  { unfold dijkstra. rewrite !bool_decide_eq_false_2 by lia. cbn [orb].
    rewrite Hrun. cbn [mbind result_bind]. apply dijkstra_render_spec; [done|].
    intros v Hv. destruct (Hall v Hv) as [[[Hp _] _]|[-> _]]; [|by vm_compute].
    by eapply path_nonneg. }
  split; [done|]. split; [rewrite rd_dv by lia; by rewrite Hs0|].
  intros v Hv. exists (dv dist v). split; [apply rd_dv; lia|].
  assert (Hfar : (forall d, path g start v d -> 999999 <= d) -> dv dist v = 999999).
  { intros Hno. destruct (Hall v Hv) as [[[Hp _] Hlt]|[Heq _]]; [|done].
    specialize (Hno _ Hp). unfold INF in Hlt. lia. }
  split; [|split; [done|]].
  - intros (d & Hp & Hlt).
    destruct (Hall v Hv) as [[Hsh _]|[_ Hno]]; [done|].
    specialize (Hno d Hp). unfold INF in Hno. lia.
  - intros Hnr. apply Hfar. intros d Hp. exfalso.
    apply Hnr. by eapply path_reachable.
Qed.

Lemma dijkstra_shortest_below_sentinel_witness :
  let g := mkGraph 3 [[0; 4; 1]; [0; 0; 0]; [0; 2; 0]] true in
  (dims (adjMatrix g) (n g) /\ n g <= MAX_VERTICES /\ weights_nonneg g /\
   0 <= 0 < n g) /\
  exists dist, dijkstra g 0 = Ok (show_ints dist) /\ rd dist 0 = Ok 0.
Proof.
  intros g.
  assert (Hd : dims (adjMatrix g) (n g)).
  { split; [done|]. split; [done|]. by repeat constructor. }
  assert (Hn : n g <= MAX_VERTICES) by (by vm_compute).
  assert (Hw : weights_nonneg g).
  { intros u v Hu Hv. simpl in Hu, Hv.
    assert (Hu' : u = 0 \/ u = 1 \/ u = 2) by lia.
    assert (Hv' : v = 0 \/ v = 1 \/ v = 2) by lia.
    destruct Hu' as [->|[->| ->]], Hv' as [->|[->| ->]]; by vm_compute. }
  assert (Hs : 0 <= 0 < n g) by (simpl; lia).
  split; [done|].
  destruct (dijkstra_shortest_below_sentinel g 0 Hd Hn Hw Hs)
    as (dist & _ & Hrun & _ & H0 & _).
  exists dist. split; [exact Hrun|exact H0].
Defined.

(** C2, as stated, fails: an edge of weight 1000000 from vertex 0 to
    vertex 1 makes vertex 1 reachable with least path weight 1000000, and
    [dijkstra(0)] reports the sentinel 999999 for it. *)
Lemma dijkstra_sentinel_clash :
  let g := mkGraph 2 [[0; 1000000]; [0; 0]] true in
  (weights_nonneg g /\ 0 <= 0 < n g /\ reachable g 0 1) /\
  dijkstra g 0 = Ok (show_ints [0; 999999]) /\
  dijkstra_dist g 0 = Ok [0; 999999] /\
  shortest g 0 1 1000000 /\
  ¬ shortest g 0 1 999999.
Proof.
  intros g.
  assert (Hedge : edge g 0 1) by (by unfold edge; vm_compute).
  assert (Hp : path g 0 1 1000000).
  { change 1000000 with (0 + mget (adjMatrix g) 0 1).
    apply path_edge; [|done]. by constructor. }
  assert (Hall : forall v d, path g 0 v d -> (v = 0 /\ d = 0) \/ (v = 1 /\ d = 1000000)).
  { intros v d Hpath. induction Hpath as [?|x v d Hpath IH He]; [by left|].
    destruct He as (Hx & Hv & Hnz). simpl in Hx, Hv.
    assert (Hv' : v = 0 \/ v = 1) by lia.
    destruct IH as [[-> ->]|[-> ->]], Hv' as [->| ->];
      try (exfalso; by apply Hnz); by right. }
  split; [split; [|split]|split; [|split; [|split]]].
  - intros u v Hu Hv. simpl in Hu, Hv.
    assert (Hu' : u = 0 \/ u = 1) by lia. assert (Hv' : v = 0 \/ v = 1) by lia.
    destruct Hu' as [->| ->], Hv' as [->| ->]; by vm_compute.
  - simpl. lia.
  - by eapply path_reachable.
  - by vm_compute.
  - by vm_compute.
  - split; [done|]. intros d' Hp'. destruct (Hall _ _ Hp') as [[? _]|[_ ->]]; lia.
  - intros [Hp' _]. destruct (Hall _ _ Hp') as [[? _]|[_ ?]]; lia.
Qed.

(** ** Spanning edge sets *)

Lemma adj_sym E a b : adj E a b -> adj E b a.
Proof. unfold adj. tauto. Qed.

Lemma tconn_sym E a b : tconn E a b -> tconn E b a.
Proof.
  intros H. induction H as [|a c b Hac _ IH]; [apply rtc_refl|].
  eapply rtc_r; [exact IH|by apply adj_sym].
Qed.

Lemma tconn_trans E a b c : tconn E a b -> tconn E b c -> tconn E a c.
Proof. apply rtc_trans. Qed.

Lemma tconn_mono E E' a b :
  (forall e, e ∈ E -> e ∈ E') -> tconn E a b -> tconn E' a b.
Proof.
  intros Hsub H. induction H as [|a c b Hac _ IH]; [apply rtc_refl|].
  eapply rtc_l; [|exact IH]. destruct Hac as [?|?]; [left|right]; auto.
Qed.

Lemma elem_of_without E x y e :
  e ∈ without E x y <-> e ∈ E /\ e ≠ (x, y) /\ e ≠ (y, x).
Proof. unfold without. rewrite list_elem_of_filter. tauto. Qed.

Lemma adj_without E x y a b :
  adj E a b -> ¬ (a = x /\ b = y) -> ¬ (a = y /\ b = x) ->
  adj (without E x y) a b.
Proof.
  intros [H|H] H1 H2; [left|right]; apply elem_of_without;
    (split; [done|]); split; intros [= -> ->]; tauto.
Qed.

(** A walk to [b] either avoids the edge between [x] and [y], or passes
    [x] and goes on to [b] in no more steps. *)
Lemma avoid_or_visit E x y b (m : nat) c :
  nsteps (adj E) m c b ->
  tconn (without E x y) c b \/
  exists m' : nat, (m' <= m)%nat /\ nsteps (adj E) m' x b.
Proof.
  revert c. induction m as [|m IH]; intros c Hsteps.
  - inv Hsteps. left. apply rtc_refl.
  - inversion Hsteps as [|m0 c0 c1 b0 Hadj Hrest]; subst.
    destruct (IH _ Hrest) as [Hconn|(m' & Hm' & Hx)].
    + destruct (decide (c = x /\ c1 = y)) as [[-> ->]|Hn1].
      { right. exists (S m). split; [done|]. by eapply nsteps_l. }
      destruct (decide (c = y /\ c1 = x)) as [[-> ->]|Hn2].
      { right. exists m. split; [lia|done]. }
      left. eapply rtc_l; [|exact Hconn]. by apply adj_without.
    + right. exists m'. split; [lia|done].
Qed.

(** A walk that leaves the set [S] crosses its border along an edge whose
    removal keeps the start connected to the inner end and the outer end
    connected to the target. *)
Lemma crossing_exchange E (S : Z -> Prop) `{!forall v, Decision (S v)} (k : nat) :
  forall (k' : nat) a b, (k' < k)%nat -> S a -> ¬ S b ->
    nsteps (adj E) k' a b ->
    exists x y, adj E x y /\ S x /\ ¬ S y /\
      tconn (without E x y) a x /\ tconn (without E x y) y b.
Proof.
  induction k as [|k IH]; intros k' a b Hk Ha Hb Hsteps; [lia|].
  destruct k' as [|m]; [inversion Hsteps; subst; done|].
  inversion Hsteps as [|m0 c0 a1 b0 Hadj Hrest]; subst.
  destruct (decide (S a1)) as [Ha1|Hna1].
  - destruct (IH m a1 b) as (x & y & Hxy & Hx & Hy & Hax & Hyb); [lia|done..|].
    exists x, y. split; [done|]. split; [done|]. split; [done|]. split; [|done].
    eapply rtc_l; [|exact Hax]. apply adj_without; [done|..]; intros [-> ->]; done.
  - destruct (avoid_or_visit E a a1 b m a1 Hrest) as [Hconn|(m' & Hm' & Hx)].
    + exists a, a1. split; [done|]. split; [done|]. split; [done|].
      split; [apply rtc_refl|done].
    + apply (IH m' a b); [lia|done..].
Qed.

(** Exchanging the crossing edge for another edge across the border keeps
    everything connected. *)
Lemma exchange_connects E p u x y a b :
  tconn (without E x y) p x -> tconn (without E x y) y u ->
  tconn E a b -> tconn ((p, u) :: without E x y) a b.
Proof.
  intros Hpx Hyu Hab.
  assert (Hsub : forall c d, tconn (without E x y) c d ->
                   tconn ((p, u) :: without E x y) c d).
  { intros c d. apply tconn_mono. intros e He. by right. }
  assert (Hpu : tconn ((p, u) :: without E x y) p u).
  { apply rtc_once. left. by left. }
  assert (Hxy : tconn ((p, u) :: without E x y) x y).
  { eapply tconn_trans; [apply tconn_sym, Hsub, Hpx|].
    eapply tconn_trans; [exact Hpu|]. apply tconn_sym, Hsub, Hyu. }
  induction Hab as [|a c b Hac _ IH]; [apply rtc_refl|].
  eapply tconn_trans; [|exact IH].
  destruct (decide (a = x /\ c = y)) as [[-> ->]|Hn1]; [done|].
  destruct (decide (a = y /\ c = x)) as [[-> ->]|Hn2]; [by apply tconn_sym|].
  apply Hsub, rtc_once. by apply adj_without.
Qed.

Lemma weight_app g E1 E2 : weight g (E1 ++ E2) = weight g E1 + weight g E2.
Proof.
  unfold weight. induction E1 as [|e E1 IH]; simpl; [done|]. rewrite IH. lia.
Qed.

Lemma weight_nonneg g E :
  (forall a b, (a, b) ∈ E -> 0 <= mget (adjMatrix g) a b) -> 0 <= weight g E.
Proof.
  unfold weight. induction E as [|[a b] E IH]; intros Hw; simpl; [done|].
  pose proof (Hw a b ltac:(by left)). 
  assert (0 <= foldr (fun e acc => mget (adjMatrix g) e.1 e.2 + acc) 0 E).
  { apply IH. intros a' b' ?. apply Hw. by right. }
  lia.
Qed.

Lemma weight_without_le g E x y :
  (forall a b, (a, b) ∈ E -> 0 <= mget (adjMatrix g) a b) ->
  weight g (without E x y) <= weight g E.
Proof.
  unfold weight, without. induction E as [|[a b] E IH]; intros Hw; [done|].
  pose proof (Hw a b ltac:(by left)) as Hab.
  assert (IH' := IH ltac:(intros a' b' ?; apply Hw; by right)).
  destruct (decide ((a, b) ≠ (x, y) /\ (a, b) ≠ (y, x))).
  - rewrite filter_cons_True by done. simpl. lia.
  - rewrite filter_cons_False by done. simpl. lia.
Qed.

(** Removing the edge between [x] and [y] lowers the weight by at least
    the weight of that edge. *)
Lemma weight_without g E x y :
  (forall a b, (a, b) ∈ E -> 0 <= mget (adjMatrix g) a b) ->
  mget (adjMatrix g) x y = mget (adjMatrix g) y x ->
  adj E x y ->
  weight g (without E x y) + mget (adjMatrix g) x y <= weight g E.
Proof.
  intros Hw Hsym.
  induction E as [|[a b] E IH]; intros Hadj.
  { destruct Hadj as [H|H]; by apply elem_of_nil in H. }
  pose proof (Hw a b ltac:(by left)) as Hab.
  assert (Hw' : forall a' b', (a', b') ∈ E -> 0 <= mget (adjMatrix g) a' b')
    by (intros a' b' ?; apply Hw; by right).
  pose proof (weight_without_le g E x y Hw') as Hle.
  unfold weight, without in *.
  destruct (decide ((a, b) ≠ (x, y) /\ (a, b) ≠ (y, x))) as [Hkeep|Hdrop].
  - rewrite filter_cons_True by done. simpl.
    assert (Hadj' : adj E x y).
    { destruct Hkeep as [H1 H2].
      destruct Hadj as [[?|?]%elem_of_cons|[?|?]%elem_of_cons];
        try congruence; [by left|by right]. }
    specialize (IH Hw' Hadj'). lia.
  - rewrite filter_cons_False by done. simpl.
    assert (Hwe : mget (adjMatrix g) a b = mget (adjMatrix g) x y).
    { destruct (decide ((a, b) = (x, y))) as [[= -> ->]|Hne1]; [done|].
      destruct (decide ((a, b) = (y, x))) as [[= -> ->]|Hne2]; [done|].
      tauto. }
    lia.
Qed.

(** ** Prim *)

Lemma prim_inv_weaken g (R R' : Z -> Z -> Prop) keyA parentA inMST pq :
  (forall x v, R' x v -> edge g x v -> R x v) ->
  prim_inv g R keyA parentA inMST pq -> prim_inv g R' keyA parentA inMST pq.
Proof.
  intros Himp Hinv. destruct Hinv. split; try done.
  intros x v HR Hm Hnm He. apply pi_relaxed0; auto.
Qed.

Lemma prim_relax_step g u inMST keyA parentA pq (R : Z -> Z -> Prop) j :
  dims (adjMatrix g) (n g) ->
  0 <= u < n g -> 0 <= j < n g -> marked inMST u ->
  prim_inv g (fun x v => R x v \/ (x = u /\ v < j)) keyA parentA inMST pq ->
  size pq < capacity pq ->
  exists keyA' parentA' pq',
    (a ← rd2 (adjMatrix g) u j;
     if bool_decide (a ≠ 0) then
       inside ← rd inMST j;
       if negb inside then
         a ← rd2 (adjMatrix g) u j;
         kv ← rd keyA j;
         if bool_decide (a < kv) then
           a ← rd2 (adjMatrix g) u j;
           keyA ← wr keyA j a;
           parentA ← wr parentA j u;
           kv ← rd keyA j;
           pq ← push pq j kv;
           Ok (keyA, parentA, pq)
         else Ok (keyA, parentA, pq)
       else Ok (keyA, parentA, pq)
     else Ok (keyA, parentA, pq)) = Ok (keyA', parentA', pq') /\
    prim_inv g (fun x v => R x v \/ (x = u /\ v < j + 1)) keyA' parentA' inMST pq' /\
    capacity pq' = capacity pq /\
    size pq' <= size pq + (if decide (j = u) then 0 else 1).
Proof.
  intros Hd Hu Hj Hmu Hinv Hroom.
  pose proof (pi_len_key _ _ _ _ _ _ Hinv) as Hlk.
  pose proof (pi_len_parent _ _ _ _ _ _ Hinv) as Hlp.
  pose proof (pi_len_inMST _ _ _ _ _ _ Hinv) as Hli.
  rewrite !(rd2_Ok _ (n g)) by done. cbn [mbind result_bind].
  assert (Hkeep : (edge g u j -> ¬ marked inMST j ->
                   dv keyA j <= mget (adjMatrix g) u j) ->
    exists keyA' parentA' pq',
      Ok (keyA, parentA, pq) = Ok (keyA', parentA', pq') /\
      prim_inv g (fun x v => R x v \/ (x = u /\ v < j + 1)) keyA' parentA' inMST pq' /\
      capacity pq' = capacity pq /\
      size pq' <= size pq + (if decide (j = u) then 0 else 1)).
  { intros Hle. exists keyA, parentA, pq. split; [done|].
    split; [|split; [done|case_decide; lia]].
    destruct Hinv. split; try done.
    intros x v [HR|[-> Hv]] Hm Hnm He.
    - apply pi_relaxed0; auto.
    - destruct (decide (v = j)) as [->|Hne]; [by apply Hle|].
      apply pi_relaxed0; [right; split; [done|lia]|done..]. }
  case_bool_decide as Hnz.
  2:{ apply Hkeep. intros (_ & _ & ?). done. }
  assert (He : edge g u j) by (by unfold edge).
  destruct (rd_visited inMST j) as (b & Hrd & Hb); [lia|].
  rewrite Hrd. cbn [mbind result_bind]. destruct b; cbn [negb].
  { apply Hkeep. intros _ Hnm. exfalso. by apply Hnm, Hb. }
  assert (Hnm : ¬ marked inMST j) by (intros ?%Hb; done).
  assert (Hju : j ≠ u) by (intros ->; done).
  rewrite !rd_dv by lia. cbn [mbind result_bind].
  case_bool_decide as Hlt; [|apply Hkeep; intros _ _; lia].
  rewrite wr_Ok by lia. cbn [mbind result_bind].
  rewrite wr_Ok by lia. cbn [mbind result_bind].
  rewrite rd_dv by (rewrite length_insert; lia). cbn [mbind result_bind].
  rewrite dv_insert by lia. rewrite decide_True by done.
  set (a := mget (adjMatrix g) u j) in *.
  destruct (push_spec pq j a (pi_heap _ _ _ _ _ _ Hinv) Hroom)
    as (pq' & Hpush & Hok' & Hsz' & Hcap' & Hin').
  rewrite Hpush. cbn [mbind result_bind].
  exists (<[Z.to_nat j := a]> keyA), (<[Z.to_nat j := u]> parentA), pq'.
  split; [done|]. split; [|split; [done|rewrite decide_False by done; lia]].
  assert (Hkv : forall v, 0 <= v ->
    dv (<[Z.to_nat j := a]> keyA) v = if decide (v = j) then a else dv keyA v).
  { intros v Hv. apply dv_insert; lia. }
  assert (Hpv : forall v, 0 <= v ->
    dv (<[Z.to_nat j := u]> parentA) v = if decide (v = j) then u else dv parentA v).
  { intros v Hv. apply dv_insert; lia. }
  pose proof (pi_key_max _ _ _ _ _ _ Hinv j Hj) as Hwa.
  destruct Hinv. split.
  - by rewrite length_insert.
  - by rewrite length_insert.
  - done.
  - done.
  - intros v Hv. rewrite Hkv by lia.
    destruct (decide (v = j)) as [->|Hc]; [lia|]. by apply pi_key_max0.
  - intros v Hv Hnv. rewrite Hkv, Hpv by lia.
    destruct (decide (v = j)) as [->|Hc]; [done|]. by apply pi_parent0.
  - intros x v HR Hm Hnv He0.
    assert (Hv' : 0 <= v) by (destruct He0 as (_ & ? & _); lia).
    rewrite Hkv by done. destruct (decide (v = j)) as [->|Hc].
    + destruct HR as [HR|[-> _]]; [|subst a; lia].
      pose proof (pi_relaxed0 x j (or_introl HR) Hm Hnv He0). lia.
    + destruct HR as [HR|[-> Hv]].
      * apply pi_relaxed0; auto.
      * apply pi_relaxed0; [right; split; [done|lia]|done..].
  - intros v Hv Hnv. rewrite Hkv by lia. intros Hfin. apply Hin'.
    destruct (decide (v = j)) as [->|Hc]; [by left|].
    right. by apply pi_queued0.
  - intros x [->|Hx]%Hin'.
    + cbn [vertex key]. rewrite Hkv by lia. rewrite decide_True by done. lia.
    + destruct (pi_entries0 x Hx) as (Hvx & Hkx & Hfx).
      split; [done|]. split; [|done]. rewrite Hkv by lia.
      destruct (decide (vertex x = j)) as [Hc|Hc]; [|done].
      rewrite Hc in Hkx. lia.
Qed.

Lemma prim_relax_spec g u inMST keyA parentA pq :
  dims (adjMatrix g) (n g) ->
  0 <= u < n g -> marked inMST u ->
  prim_inv g (fun x _ => x ≠ u) keyA parentA inMST pq ->
  size pq + n g <= capacity pq ->
  exists keyA' parentA' pq',
    prim_relax g u inMST keyA parentA pq = Ok (keyA', parentA', pq') /\
    prim_inv g (fun _ _ => True) keyA' parentA' inMST pq' /\
    capacity pq' = capacity pq /\
    size pq' <= size pq + (n g - 1).
Proof.
  intros Hd Hu Hmu Hinv Hroom. unfold prim_relax.
  destruct (for_each_upto_inv
    (fun j (st : list Z * list Z * MinHeap) =>
       prim_inv g (fun x v => x ≠ u \/ (x = u /\ v < j)) st.1.1 st.1.2 inMST st.2 /\
       capacity st.2 = capacity pq /\
       size st.2 <= size pq + others_below u j)
    0 (n g)
    (fun v '(keyA, parentA, pq) =>
      a ← rd2 (adjMatrix g) u v;
      if bool_decide (a ≠ 0) then
        inside ← rd inMST v;
        if negb inside then
          a ← rd2 (adjMatrix g) u v;
          kv ← rd keyA v;
          if bool_decide (a < kv) then
            a ← rd2 (adjMatrix g) u v;
            keyA ← wr keyA v a;
            parentA ← wr parentA v u;
            kv ← rd keyA v;
            pq ← push pq v kv;
            Ok (keyA, parentA, pq)
          else Ok (keyA, parentA, pq)
        else Ok (keyA, parentA, pq)
      else Ok (keyA, parentA, pq))
    (keyA, parentA, pq)) as ([[keyA' parentA'] pq'] & Hrun & Hinv' & Hcap' & Hsz').
  - lia.
  - cbn [fst snd]. split; [|split; [done|unfold others_below; case_decide; lia]].
    eapply prim_inv_weaken; [|exact Hinv].
    intros x v [?|[_ Hv]] (_ & ? & _); [done|lia].
  - intros j [[key1 parent1] pq1] Hj (Hinv1 & Hcap1 & Hsz1). cbn [fst snd] in *.
    destruct (prim_relax_step g u inMST key1 parent1 pq1 (fun x _ => x ≠ u) j)
      as (key2 & parent2 & pq2 & Hstep & Hinv2 & Hcap2 & Hsz2); try done.
    { unfold others_below in Hsz1. case_decide; lia. }
    exists (key2, parent2, pq2). split; [done|]. cbn [fst snd].
    split; [done|]. split; [congruence|].
    unfold others_below in *. repeat case_decide; lia.
  - cbn [fst snd] in *. exists keyA', parentA', pq'. split; [done|].
    split; [|split; [done|unfold others_below in Hsz'; case_decide; lia]].
    eapply prim_inv_weaken; [|exact Hinv'].
    intros x v _ (_ & ? & _).
    destruct (decide (x = u)); [right; split; [done|lia]|by left].
Qed.

Lemma finalized_all F i v : finalized F i v -> v = 0 \/ v ∈ F.*2.
Proof.
  intros [?|Hv]; [by left|right].
  apply list_elem_of_fmap in Hv as (e & -> & He).
  apply list_elem_of_fmap. exists e. split; [done|].
  rewrite <- (take_drop i F). apply elem_of_app. by left.
Qed.

Lemma prim_tree_inside g inMST F p u :
  prim_tree g inMST F -> (p, u) ∈ F -> marked inMST p /\ marked inMST u.
Proof.
  intros Ht Hin. apply list_elem_of_lookup in Hin as [i Hi].
  destruct (pt_order _ _ _ Ht i p u Hi) as (Hp & _).
  split; apply (pt_marked _ _ _ Ht).
  - by eapply finalized_all.
  - right. apply list_elem_of_fmap. exists (p, u). split; [done|].
    by eapply list_elem_of_lookup_2.
Qed.

Lemma weight_snoc g F p u :
  weight g (F ++ [(p, u)]) = weight g F + mget (adjMatrix g) p u.
Proof. rewrite weight_app. unfold weight. simpl. lia. Qed.

Lemma prim_tree_extend g inMST F p u :
  weights_not_negative g -> symmetric g ->
  prim_tree g inMST F -> length inMST = Z.to_nat (n g) ->
  0 <= u < n g -> ¬ marked inMST u -> marked inMST p -> edge g p u ->
  (forall x y, marked inMST x -> ¬ marked inMST y -> edge g x y ->
     mget (adjMatrix g) p u <= mget (adjMatrix g) x y) ->
  prim_tree g (<[Z.to_nat u := true]> inMST) (F ++ [(p, u)]).
Proof.
  intros Hw Hsym Ht Hlen Hu Hnu Hp He Hmin.
  assert (Hm' : forall v, marked (<[Z.to_nat u := true]> inMST) v <->
                          marked inMST v \/ v = u).
  { intros v. apply marked_insert. lia. }
  assert (Hfin : forall v, finalized (F ++ [(p, u)]) (length F) v <-> marked inMST v).
  { intros v. unfold finalized. rewrite take_app_length.
    symmetry. apply (pt_marked _ _ _ Ht). }
  split.
  - intros v. rewrite Hm', (pt_marked _ _ _ Ht), fmap_app, elem_of_app.
    simpl. rewrite list_elem_of_singleton. tauto.
  - rewrite fmap_app. simpl.
    change (0 :: F.*2 ++ [u]) with ((0 :: F.*2) ++ [u]).
    apply NoDup_app. split; [apply (pt_nodup _ _ _ Ht)|].
    split; [|apply NoDup_singleton].
    intros x Hx ->%list_elem_of_singleton. apply Hnu, (pt_marked _ _ _ Ht).
    by apply elem_of_cons in Hx.
  - intros i p' u' Hi.
    destruct (decide (i < length F)%nat) as [Hlt|Hge].
    + rewrite lookup_app_l in Hi by done.
      assert (Htake : take i (F ++ [(p, u)]) = take i F)
        by (rewrite take_app_le by lia; done).
      unfold finalized. rewrite Htake. by apply (pt_order _ _ _ Ht).
    + rewrite lookup_app_r in Hi by lia.
      destruct (i - length F)%nat as [|k] eqn:Ek; [|done].
      injection Hi as <- <-. assert (i = length F) as -> by lia.
      split; [by apply Hfin|]. split; [done|].
      intros x y Hx Hy. apply Hmin; [by apply Hfin|]. by rewrite <- Hfin.
  - intros v [Hv| ->]%Hm'.
    + eapply tconn_mono; [|by apply (pt_conn _ _ _ Ht)].
      intros e ?. apply elem_of_app. by left.
    + eapply rtc_r.
      * eapply tconn_mono; [|by apply (pt_conn _ _ _ Ht p)].
        intros e ?. apply elem_of_app. by left.
      * left. apply elem_of_app. right. by left.
  - intros T HT.
    destruct (pt_opt _ _ _ Ht T HT) as (rest & Hedges & Hconn & Hwt).
    assert (Hpu : tconn (F ++ rest) p u).
    { eapply tconn_trans; [apply tconn_sym|]; apply Hconn; [|done].
      by destruct He as (? & _). }
    apply rtc_nsteps in Hpu as [k Hk].
    destruct (crossing_exchange (F ++ rest) (marked inMST) (S k) k p u)
      as (x & y & Hxy & Hx & Hy & Hpx & Hyu); [lia|done..|].
    (* the crossing edge is none of the tree edges *)
    assert (Hrest : adj rest x y).
    { destruct Hxy as [[Hin|Hin]%elem_of_app|[Hin|Hin]%elem_of_app].
      - destruct (prim_tree_inside g inMST F x y Ht Hin). done.
      - by left.
      - destruct (prim_tree_inside g inMST F y x Ht Hin). done.
      - by right. }
    assert (Hrange : 0 <= x < n g /\ 0 <= y < n g).
    { destruct Hrest as [Hin|Hin]; apply Hedges in Hin as (? & ? & _); done. }
    destruct Hrange as [Hxr Hyr].
    assert (Hexy : edge g x y).
    { destruct Hrest as [Hin|Hin]; [by apply Hedges|].
      apply Hedges in Hin as (_ & _ & Hnz). split; [done|]. split; [done|].
      by rewrite (Hsym x y). }
    assert (Hle : mget (adjMatrix g) p u <= mget (adjMatrix g) x y) by (by apply Hmin).
    assert (Hnn : forall a b, (a, b) ∈ rest -> 0 <= mget (adjMatrix g) a b).
    { intros a b Hin. apply Hedges in Hin as (? & ? & _). by apply Hw. }
    exists (without rest x y). split; [|split].
    + intros a b Hin. apply elem_of_without in Hin as [Hin _]. by apply Hedges.
    + intros v Hv.
      eapply tconn_mono; [|apply (exchange_connects (F ++ rest) p u x y); eauto].
      intros e [->|Hin]%elem_of_cons.
      * apply elem_of_app. left. apply elem_of_app. right. by left.
      * apply elem_of_without in Hin as ([Hin|Hin]%elem_of_app & Hn1 & Hn2).
        -- apply elem_of_app. left. apply elem_of_app. by left.
        -- apply elem_of_app. right. by apply elem_of_without.
    + rewrite weight_snoc.
      pose proof (weight_without g rest x y Hnn (Hsym x y Hxr Hyr) Hrest). lia.
Qed.

Lemma rtc_crossing (R : relation Z) (S : Z -> Prop)
    `{!forall v, Decision (S v)} a b :
  rtc R a b -> S a -> ¬ S b ->
  exists x y, S x /\ ¬ S y /\ R x y.
Proof.
  intros Hr. induction Hr as [|a c b Hac _ IH]; intros Ha Hb; [done|].
  destruct (decide (S c)) as [Hc|Hc]; [by apply IH|].
  by exists a, c.
Qed.

(** The record that [primMST] writes for a tree edge. *)
Lemma show_edge_rec g p u :
  0 <= p -> 0 <= u -> 0 <= mget (adjMatrix g) p u ->
  show_edge p u (mget (adjMatrix g) p u) = Ok (show_rec g (p, u)).
Proof.
  intros Hp Hu Hw. unfold show_edge, show_rec.
  rewrite !intToString_nonneg by done. done.
Qed.

Lemma emit_rec g F e :
  emit ("[" +:+ join (show_rec g <$> F)) (bool_decide (F = [])) (show_rec g e) =
  ("[" +:+ join (show_rec g <$> (F ++ [e]%list)), bool_decide (F ++ [e] = [])).
Proof.
  rewrite fmap_app.
  replace (bool_decide (F = [])) with (bool_decide (show_rec g <$> F = []))
    by (by destruct F).
  rewrite emit_join. f_equal. by destruct F.
Qed.

Lemma prim_loop_spec g fuel : forall keyA parentA inMST pq F,
  dims (adjMatrix g) (n g) -> weights_not_negative g -> symmetric g ->
  light_connected g -> 1 <= n g ->
  prim_inv g (fun _ _ => True) keyA parentA inMST pq ->
  prim_tree g inMST F ->
  capacity pq = n g * n g ->
  size pq <= 1 + marked_count inMST * (n g - 1) ->
  size pq + (n g - marked_count inMST) * n g < Z.of_nat fuel ->
  exists F' inMST',
    prim_loop fuel g keyA parentA inMST pq
      ("[" +:+ join (show_rec g <$> F)) (bool_decide (F = []))
    = Ok ("[" +:+ join (show_rec g <$> F')) /\
    prim_tree g inMST' F' /\
    forall v, 0 <= v < n g -> marked inMST' v.
Proof.
  induction fuel as [|fuel IH];
    intros keyA parentA inMST pq F Hd Hw Hsym Hconn Hn Hinv Ht Hcap Hroom Hfuel.
  { pose proof (marked_count_le inMST) as Hle.
    rewrite (pi_len_inMST _ _ _ _ _ _ Hinv) in Hle.
    destruct (pi_heap _ _ _ _ _ _ Hinv) as (Hsz & _). nia. }
  pose proof (pi_len_key _ _ _ _ _ _ Hinv) as Hlk.
  pose proof (pi_len_parent _ _ _ _ _ _ Hinv) as Hlp.
  pose proof (pi_len_inMST _ _ _ _ _ _ Hinv) as Hli.
  pose proof (pi_heap _ _ _ _ _ _ Hinv) as Hok.
  cbn [prim_loop]. unfold MinHeap_empty. case_bool_decide as Hempty; cbn [negb].
  - (* the heap is empty: every vertex is in the tree *)
    exists F, inMST. split; [done|]. split; [done|].
    intros v Hv. destruct (decide (marked inMST v)) as [|Hnv]; [done|exfalso].
    destruct (rtc_crossing (light g) (marked inMST) 0 v)
      as (x & y & Hx & Hy & He & Hwxy).
    + by apply Hconn.
    + apply (pt_marked _ _ _ Ht). by left.
    + done.
    + pose proof (pi_relaxed _ _ _ _ _ _ Hinv x y I Hx Hy He) as Hrel.
      destruct He as (Hxr & Hyr & Hnz).
      eapply in_heap_empty; [exact Hempty|].
      apply (pi_queued _ _ _ _ _ _ Hinv y); [done|done|lia].
  - destruct (pop_spec pq Hok) as
      (top & pq1 & Hpop & Hok1 & Hsz1 & Hcap1 & Htop & Hmin & Hsub & Hrest).
    { destruct Hok as (? & _). lia. }
    rewrite Hpop. cbn [mbind result_bind].
    destruct (pi_entries _ _ _ _ _ _ Hinv top Htop) as (Hu & Hku & Hkf).
    set (u := vertex top) in *.
    destruct (rd_visited inMST u) as (b & Hrd & Hb); [lia|].
    rewrite Hrd. cbn [mbind result_bind].
    pose proof (marked_count_le inMST) as HMle. rewrite Hli in HMle.
    pose proof (marked_count_nonneg inMST) as HM0.
    destruct b.
    + (* a stale entry *)
      assert (Hmu : marked inMST u) by (by apply Hb).
      apply IH; try done; try lia.
      destruct Hinv. split; try done.
      * intros v Hv Hnv Hfin.
        destruct (Hrest _ (pi_queued0 v Hv Hnv Hfin)) as [Heq|?]; [|done].
        exfalso. apply Hnv. subst u. rewrite <- Heq in Hmu. done.
      * intros x Hx. apply pi_entries0. by apply Hsub.
    + assert (Hnmu : ¬ marked inMST u) by (intros ?%Hb; done).
      rewrite wr_Ok by lia. cbn [mbind result_bind].
      set (inMST' := <[Z.to_nat u := true]> inMST).
      assert (Hm' : forall v, marked inMST' v <-> marked inMST v \/ v = u).
      { intros v. subst inMST'. apply marked_insert. lia. }
      assert (HM' : marked_count inMST' = marked_count inMST + 1).
      { subst inMST'. apply marked_count_insert. apply not_marked_lookup; [lia|done]. }
      assert (HMle' : marked_count inMST' <= n g).
      { pose proof (marked_count_le inMST') as Hle. subst inMST'.
        rewrite length_insert, Hli in Hle. lia. }
      (* the popped key is key[u] *)
      assert (Hkey : key top = dv keyA u).
      { assert (Hq : in_heap pq (mkPQNode u (dv keyA u))).
        { apply (pi_queued _ _ _ _ _ _ Hinv); [done|done|lia]. }
        specialize (Hmin _ Hq). simpl in Hmin. lia. }
      destruct (pi_parent _ _ _ _ _ _ Hinv u Hu Hnmu) as (Hmp & Hep & Hkp); [lia|].
      set (p := dv parentA u) in *.
      assert (Hpr : 0 <= p < n g) by (by destruct Hep as (? & _)).
      (* the edge from the parent is a lightest edge out of the tree *)
      assert (Hlight : forall x y, marked inMST x -> ¬ marked inMST y -> edge g x y ->
                         mget (adjMatrix g) p u <= mget (adjMatrix g) x y).
      { intros x y Hx Hy He.
        pose proof (pi_relaxed _ _ _ _ _ _ Hinv x y I Hx Hy He) as Hrel.
        destruct (decide (mget (adjMatrix g) x y < INF)) as [Hfin|]; [|lia].
        assert (Hq : in_heap pq (mkPQNode y (dv keyA y))).
        { apply (pi_queued _ _ _ _ _ _ Hinv); [by destruct He as (_ & ? & _)|done|lia]. }
        specialize (Hmin _ Hq). simpl in Hmin. lia. }
      rewrite !rd_dv by lia. cbn [mbind result_bind]. fold p.
      rewrite bool_decide_eq_true_2 by lia.
      rewrite (rd2_Ok _ (n g)) by done. cbn [mbind result_bind].
      rewrite show_edge_rec by (try apply Hw; lia). cbn [mbind result_bind].
      rewrite emit_rec.
      assert (Ht' : prim_tree g inMST' (F ++ [(p, u)])).
      { apply prim_tree_extend; done. }
      assert (Hinv1 : prim_inv g (fun x _ => x ≠ u) keyA parentA inMST' pq1).
      { destruct Hinv. split; try done.
        - subst inMST'. by rewrite length_insert.
        - intros v Hv Hnv Hfin.
          assert (Hnv0 : ¬ marked inMST v) by (intros ?; apply Hnv, Hm'; by left).
          destruct (pi_parent0 v Hv Hnv0 Hfin) as (? & ? & ?).
          split; [apply Hm'; by left|done].
        - intros x v Hne [Hm|?]%Hm' Hnv He; [|done].
          apply pi_relaxed0; [done|done| |done].
          intros ?. apply Hnv, Hm'. by left.
        - intros v Hv Hnv Hfin.
          assert (Hnv0 : ¬ marked inMST v) by (intros ?; apply Hnv, Hm'; by left).
          destruct (Hrest _ (pi_queued0 v Hv Hnv0 Hfin)) as [Heq|?]; [|done].
          exfalso. apply Hnv, Hm'. right. subst u. by rewrite <- Heq.
        - intros x Hx. apply pi_entries0. by apply Hsub. }
      destruct (prim_relax_spec g u inMST' keyA parentA pq1)
        as (key2 & parent2 & pq2 & Hrelax & Hinv2 & Hcap2 & Hsz2); try done.
      { apply Hm'. by right. }
      { rewrite Hsz1, Hcap1, Hcap. nia. }
      rewrite Hrelax. cbn [mbind result_bind].
      apply IH; try done.
      * congruence.
      * rewrite HM'. nia.
      * rewrite HM'. nia.
Qed.

Lemma prim_init_spec (k : Z) (keyA parentA : list Z) (inMST : list bool) :
  length keyA = Z.to_nat k -> length parentA = Z.to_nat k ->
  length inMST = Z.to_nat k ->
  for_each (upto 0 k) (fun i '(keyA, parentA, inMST) =>
      keyA ← wr keyA i 999999;
      parentA ← wr parentA i (-1);
      inMST ← wr inMST i false;
      Ok (keyA, parentA, inMST))
    (keyA, parentA, inMST)
  = Ok (replicate (Z.to_nat k) 999999, replicate (Z.to_nat k) (-1),
        replicate (Z.to_nat k) false).
Proof.
  intros Hlk Hlp Hli.
  destruct (decide (0 <= k)) as [Hk|Hk].
  2:{ rewrite for_each_upto_empty by lia.
      replace (Z.to_nat k) with 0%nat in * by lia.
      destruct keyA, parentA, inMST; done. }
  destruct (for_each_upto_inv
    (fun i (st : list Z * list Z * list bool) =>
       length st.1.1 = Z.to_nat k /\ length st.1.2 = Z.to_nat k /\
       length st.2 = Z.to_nat k /\
       forall j : nat, (j < Z.to_nat i)%nat ->
         st.1.1 !! j = Some 999999 /\ st.1.2 !! j = Some (-1) /\
         st.2 !! j = Some false)
    0 k
    (fun i '(keyA, parentA, inMST) =>
      keyA ← wr keyA i 999999;
      parentA ← wr parentA i (-1);
      inMST ← wr inMST i false;
      Ok (keyA, parentA, inMST))
    (keyA, parentA, inMST)) as ([[k' p'] i'] & Hrun & Hlk' & Hlp' & Hli' & Hall).
  - done.
  - cbn [fst snd]. split_and!; try done. intros j Hj. lia.
  - intros i [[k1 p1] i1] Hi (Hl1 & Hl2 & Hl3 & Hall). cbn [fst snd] in *.
    rewrite !wr_Ok by lia. cbn [mbind result_bind].
    eexists. split; [done|]. cbn [fst snd].
    rewrite !length_insert. split_and!; try done.
    intros j Hj.
    destruct (decide (j = Z.to_nat i)) as [->|Hne].
    + rewrite !list_lookup_insert_eq by lia. done.
    + rewrite !list_lookup_insert_ne by lia. apply Hall. lia.
  - cbn [fst snd] in *. rewrite Hrun.
    rewrite (replicate_all k' (Z.to_nat k) 999999), (replicate_all p' (Z.to_nat k) (-1)),
      (replicate_all i' (Z.to_nat k) false); try done; intros j Hj; by apply Hall.
Qed.

Lemma primMST_spec g :
  dims (adjMatrix g) (n g) -> isDirected g = false -> symmetric g ->
  1 <= n g <= MAX_VERTICES -> weights_not_negative g -> light_connected g ->
  exists F inMST,
    primMST g = Ok (show_edges g F) /\ prim_tree g inMST F /\
    forall v, 0 <= v < n g -> marked inMST v.
Proof.
  intros Hd Hdir Hsym Hn Hw Hconn. unfold primMST, MAX_VERTICES in *.
  rewrite Hdir.
  rewrite !new_array_spec by lia. cbn [mbind result_bind].
  rewrite prim_init_spec by (by rewrite length_replicate).
  cbn [mbind result_bind].
  rewrite wr_Ok by (rewrite length_replicate; lia). cbn [mbind result_bind].
  unfold primMST_main.
  assert (Hsq : 0 <= n g * n g < 2 ^ 30) by (change (2 ^ 30) with 1073741824; nia).
  unfold mul32. rewrite wrap32_id
    by (unfold is_int, INT_MIN, INT_MAX; change (2 ^ 30) with 1073741824 in Hsq; lia).
  destruct (MinHeap_new_spec (n g * n g) Hsq) as (pq0 & Hnew & Hok0 & Hsz0 & Hcap0).
  rewrite Hnew. cbn [mbind result_bind].
  destruct (push_spec pq0 0 0 Hok0) as (pq & Hpush & Hok & Hsz & Hcap & Hin).
  { rewrite Hsz0, Hcap0. nia. }
  rewrite Hpush. cbn [mbind result_bind].
  set (keyA := <[Z.to_nat 0 := 0]> (replicate (Z.to_nat (n g)) 999999)).
  set (parentA := replicate (Z.to_nat (n g)) (-1)).
  set (inMST0 := replicate (Z.to_nat (n g)) false).
  assert (Hdk : forall v, 0 <= v < n g ->
            dv keyA v = if decide (v = 0) then 0 else INF).
  { intros v Hv. subst keyA. rewrite dv_insert by (rewrite ?length_replicate; lia).
    case_decide; [done|]. unfold dv.
    rewrite list_lookup_total_alt, lookup_replicate_2 by lia. done. }
  (* the first turn of the loop finalizes vertex 0 and emits nothing *)
  replace (Z.to_nat (n g * n g + 2)) with (S (Z.to_nat (n g * n g + 1))) by lia.
  cbn [prim_loop]. unfold MinHeap_empty.
  rewrite bool_decide_eq_false_2 by lia. cbn [negb].
  destruct (pop_spec pq Hok) as
    (top & pq1 & Hpop & Hok1 & Hsz1 & Hcap1 & Htop & Hmin & Hsub & Hrest); [lia|].
  rewrite Hpop. cbn [mbind result_bind].
  assert (Hempty0 : forall x, ¬ in_heap pq0 x)
    by (intros x; by apply in_heap_empty).
  assert (Hempty1 : forall x, ¬ in_heap pq1 x)
    by (intros x; apply in_heap_empty; lia).
  apply Hin in Htop as [->|Htop]; [|by apply Hempty0 in Htop].
  cbn [vertex].
  destruct (rd_visited inMST0 0) as (b & Hrd & Hb).
  { subst inMST0. rewrite length_replicate. lia. }
  rewrite Hrd. cbn [mbind result_bind].
  destruct b.
  { exfalso. eapply marked_replicate_false. by apply Hb. }
  rewrite wr_Ok by (subst inMST0; rewrite length_replicate; lia).
  cbn [mbind result_bind].
  set (inMST1 := <[Z.to_nat 0 := true]> inMST0).
  assert (Hm1 : forall v, marked inMST1 v <-> v = 0).
  { intros v. subst inMST1. rewrite marked_insert
      by (subst inMST0; rewrite length_replicate; lia).
    split; [intros [Hm|?]; [by apply marked_replicate_false in Hm|done]|by right]. }
  rewrite rd_dv by (subst parentA; rewrite length_replicate; lia).
  assert (Hp0 : dv parentA 0 = -1).
  { unfold dv. subst parentA.
    rewrite list_lookup_total_alt, lookup_replicate_2 by lia. done. }
  rewrite Hp0. cbn [mbind result_bind].
  rewrite bool_decide_eq_false_2 by lia. cbn [mbind result_bind].
  destruct (prim_relax_spec g 0 inMST1 keyA parentA pq1)
    as (key2 & parent2 & pq2 & Hrelax & Hinv2 & Hcap2 & Hsz2); try done.
  { lia. }
  { by apply Hm1. }
  { split.
    - subst keyA. by rewrite length_insert, length_replicate.
    - subst parentA. by rewrite length_replicate.
    - subst inMST1 inMST0. by rewrite length_insert, length_replicate.
    - done.
    - intros v Hv. rewrite Hdk by done. unfold INF. case_decide; lia.
    - intros v Hv Hnv. rewrite Hdk by done. case_decide as Hc; [|lia].
      exfalso. by apply Hnv, Hm1.
    - intros x v Hne ->%Hm1. done.
    - intros v Hv Hnv. rewrite Hdk by done. case_decide as Hc; [|lia].
      exfalso. by apply Hnv, Hm1.
    - intros x Hx. by apply Hempty1 in Hx. }
  { rewrite Hsz1, Hcap1, Hcap, Hsz, Hsz0, Hcap0. nia. }
  rewrite Hrelax. cbn [mbind result_bind].
  assert (Hcount : marked_count inMST1 = 1).
  { subst inMST1. rewrite marked_count_insert.
    - subst inMST0. rewrite marked_count_replicate. lia.
    - subst inMST0. apply lookup_replicate_2. lia. }
  destruct (prim_loop_spec g (Z.to_nat (n g * n g + 1)) key2 parent2 inMST1 pq2 [])
    as (F & inMST' & Hrun & Ht & Hall); try done.
  { lia. }
  { split.
    - intros v. rewrite Hm1. simpl. rewrite elem_of_nil. tauto.
    - simpl. apply NoDup_singleton.
    - intros i p u Hi. done.
    - intros v ->%Hm1. apply rtc_refl.
    - intros T (Hedges & HconnT). exists T. split; [done|]. split; [done|].
      unfold weight at 1. simpl. lia. }
  { lia. }
  { rewrite Hcount. lia. }
  { rewrite Hcount. nia. }
  change ("[" +:+ join (show_rec g <$> []))%string with "["%string in Hrun.
  change (bool_decide ([] = [])) with true in Hrun.
  rewrite Hrun. cbn [mbind result_bind].
  exists F, inMST'. done.
Qed.

Lemma prim_tree_length g inMST F :
  prim_tree g inMST F -> 1 <= n g ->
  (forall v, 0 <= v < n g -> marked inMST v) ->
  Z.of_nat (length F) = n g - 1.
Proof.
  intros Ht Hn Hall.
  assert (Hperm : 0 :: F.*2 ≡ₚ seqZ 0 (n g)).
  { apply NoDup_Permutation.
    - apply (pt_nodup _ _ _ Ht).
    - apply NoDup_seqZ.
    - intros v. rewrite elem_of_seqZ. split.
      + intros [->|Hv]%elem_of_cons; [lia|].
        apply list_elem_of_fmap in Hv as ([p u] & -> & Hin).
        apply list_elem_of_lookup in Hin as [i Hi].
        destruct (pt_order _ _ _ Ht i p u Hi) as (_ & (_ & Hu & _) & _).
        simpl. lia.
      + intros Hv. apply elem_of_cons.
        apply (pt_marked _ _ _ Ht). apply Hall. lia. }
  apply Permutation_length in Hperm.
  rewrite length_seqZ in Hperm. simpl in Hperm. rewrite length_fmap in Hperm. lia.
Qed.

Lemma prim_tree_fresh g inMST F (i : nat) p u :
  prim_tree g inMST F -> F !! i = Some (p, u) -> ¬ finalized F i u.
Proof.
  intros Ht Hi Hfin.
  pose proof (pt_nodup _ _ _ Ht) as Hnd. apply NoDup_cons in Hnd as [H0 Hnd].
  assert (Hiu : F.*2 !! i = Some u) by (by rewrite list_lookup_fmap, Hi).
  destruct Hfin as [->|Hin].
  - apply H0. by eapply list_elem_of_lookup_2.
  - rewrite fmap_take in Hin. apply list_elem_of_lookup in Hin as [j Hj].
    assert (Hji : (j < i)%nat).
    { apply lookup_lt_Some in Hj. rewrite length_take in Hj. lia. }
    rewrite lookup_take_lt in Hj by done.
    pose proof (NoDup_lookup _ _ _ _ Hnd Hiu Hj). lia.
Qed.

(** C3, as the code has it. On an undirected graph of 1 to
    [MAX_VERTICES] vertices with positive edge weights (no cell is
    negative) in which every vertex can be reached from vertex 0 along
    edges lighter than the sentinel 999999, [primMST] returns the rendering
    of a sequence of [vertexCount - 1] records (parent, child, weight of
    the edge between them). The record edges connect every vertex to
    vertex 0, and their total weight is at most the total weight of any
    set of edges of the graph, light or not, that connects every vertex to
    vertex 0: it is the weight of a minimum spanning tree. The records come
    in the order in which the children are finalized, seeded at vertex 0:
    the children are pairwise distinct and none is 0; the parent of a
    record is vertex 0 or the child of an earlier record, its child is
    not, and its edge is a lightest edge from the vertices finalized before
    it to the others. *)
Theorem primMST_minimum_spanning_tree (g : Graph) :
  Graph_inv g -> isDirected g = false -> 1 <= n g <= MAX_VERTICES ->
  weights_not_negative g -> light_connected g ->
  exists F,
    primMST g = Ok (show_edges g F) /\
    Z.of_nat (length F) = n g - 1 /\
    spanning g F /\
    (forall T, spanning g T -> weight g F <= weight g T) /\
    NoDup (0 :: F.*2) /\
    forall (i : nat) p u, F !! i = Some (p, u) ->
      finalized F i p /\ ¬ finalized F i u /\ edge g p u /\
      forall x y, finalized F i x -> ¬ finalized F i y -> edge g x y ->
        mget (adjMatrix g) p u <= mget (adjMatrix g) x y.
Proof.
  intros [Hd Hsym] Hdir Hn Hw Hconn.
  destruct (primMST_spec g Hd Hdir (Hsym Hdir) Hn Hw Hconn)
    as (F & inMST & Hrun & Ht & Hall).
  exists F. split; [exact Hrun|].
  split; [apply (prim_tree_length g inMST); [done|lia|done]|].
  split; [|split; [|split]].
  - split.
    + intros a b Hin. apply list_elem_of_lookup in Hin as [i Hi].
      by destruct (pt_order _ _ _ Ht i a b Hi) as (_ & He & _).
    + intros v Hv. apply (pt_conn _ _ _ Ht), Hall, Hv.
  - intros T HT. destruct (pt_opt _ _ _ Ht T HT) as (rest & Hedges & _ & Hle).
    assert (0 <= weight g rest); [|lia].
    apply weight_nonneg. intros a b Hin.
    apply Hedges in Hin as (? & ? & _). by apply Hw.
  - apply (pt_nodup _ _ _ Ht).
  - intros i p u Hi.
    destruct (pt_order _ _ _ Ht i p u Hi) as (Hp & He & Hmin).
    split; [done|]. split; [by eapply prim_tree_fresh|]. done.
Qed.

Lemma primMST_minimum_spanning_tree_witness :
  let g := mkGraph 3 [[0; 1; 1000000]; [1; 0; 1]; [1000000; 1; 0]] false in
  (Graph_inv g /\ isDirected g = false /\ 1 <= n g <= MAX_VERTICES /\
   weights_not_negative g /\ light_connected g) /\
  (exists F,
     primMST g = Ok (show_edges g F) /\
     Z.of_nat (length F) = n g - 1 /\
     forall T, spanning g T -> weight g F <= weight g T) /\
  primMST g = Ok "[0-1:1,1-2:1]"%string.
Proof.
  intros g.
  assert (Hcell : forall u v, 0 <= u < n g -> 0 <= v < n g ->
            (u = 0 \/ u = 1 \/ u = 2) /\ (v = 0 \/ v = 1 \/ v = 2)).
  { intros u v Hu Hv. simpl in Hu, Hv. lia. }
  assert (Hinv : Graph_inv g).
  { split.
    - split; [done|]. split; [done|]. by repeat constructor.
    - intros _ i j Hi Hj.
      destruct (Hcell i j Hi Hj) as [[->|[->| ->]] [->|[->| ->]]]; reflexivity. }
  assert (Hdir : isDirected g = false) by reflexivity.
  assert (Hn : 1 <= n g <= MAX_VERTICES) by (unfold MAX_VERTICES; simpl; lia).
  assert (Hw : weights_not_negative g).
  { intros u v Hu Hv.
    destruct (Hcell u v Hu Hv) as [[->|[->| ->]] [->|[->| ->]]];
      by vm_compute. }
  assert (H01 : light g 0 1).
  { split; [|by vm_compute].
    split; [simpl; lia|]. split; [simpl; lia|]. vm_compute. discriminate. }
  assert (H12 : light g 1 2).
  { split; [|by vm_compute].
    split; [simpl; lia|]. split; [simpl; lia|]. vm_compute. discriminate. }
  assert (Hconn : light_connected g).
  { intros v Hv. simpl in Hv.
    assert (Hv' : v = 0 \/ v = 1 \/ v = 2) by lia.
    destruct Hv' as [->|[->| ->]].
    - apply rtc_refl.
    - apply rtc_once. exact H01.
    - eapply rtc_l; [exact H01|]. apply rtc_once. exact H12. }
  split; [split; [exact Hinv|split; [exact Hdir|split; [exact Hn|split;
    [exact Hw|exact Hconn]]]]|].
  split; [|reflexivity].
  destruct (primMST_minimum_spanning_tree g Hinv Hdir Hn Hw Hconn)
    as (F & Hrun & Hlen & _ & Hmin & _).
  exists F. split; [exact Hrun|]. split; [exact Hlen|exact Hmin].
Defined.

(** C3, as stated, fails: on the undirected graph of two vertices joined
    by an edge of weight 1000000, which is connected and has a positive
    weight, [primMST] returns the rendering of no record at all, not of
    [vertexCount - 1 = 1] record. *)
Lemma primMST_sentinel_clash :
  let g := mkGraph 2 [[0; 1000000]; [1000000; 0]] false in
  (Graph_inv g /\ isDirected g = false /\ 1 <= n g /\ connected g /\
   forall u v, edge g u v -> 0 < mget (adjMatrix g) u v) /\
  primMST g = Ok "[]"%string /\
  forall F, primMST g = Ok (show_edges g F) -> Z.of_nat (length F) ≠ n g - 1.
Proof.
  intros g.
  assert (Hcell : forall u v, 0 <= u < n g -> 0 <= v < n g ->
            (u = 0 \/ u = 1) /\ (v = 0 \/ v = 1)).
  { intros u v Hu Hv. simpl in Hu, Hv. lia. }
  assert (Hrun : primMST g = Ok "[]"%string) by (by vm_compute).
  split; [split; [|split; [|split; [|split]]]|split].
  - split.
    + split; [done|]. split; [done|]. by repeat constructor.
    + intros _ i j Hi Hj.
      destruct (Hcell i j Hi Hj) as [[->| ->] [->| ->]]; reflexivity.
  - reflexivity.
  - simpl. lia.
  - intros v Hv. simpl in Hv. assert (Hv' : v = 0 \/ v = 1) by lia.
    destruct Hv' as [->| ->]; [apply rtc_refl|].
    apply rtc_once. split; [simpl; lia|]. split; [simpl; lia|].
    vm_compute. discriminate.
  - intros u v (Hu & Hv & Hnz).
    destruct (Hcell u v Hu Hv) as [[->| ->] [->| ->]];
      try (exfalso; by apply Hnz); by vm_compute.
  - exact Hrun.
  - intros F HF Hlen. simpl in Hlen.
    destruct F as [|[p u] [|e F]]; simpl in Hlen; try lia.
    rewrite Hrun in HF. injection HF as HF.
    unfold show_edges, show_rec in HF. simpl in HF.
    destruct (numeral p) as [|c s]; simpl in HF; [discriminate|].
    injection HF as _ HF. destruct s; simpl in HF; discriminate.
Qed.

(** ** Graph: cells, mutators and the rendering of the matrix *)

Lemma mget_lookup m k i j :
  dims m k -> 0 <= i < k -> 0 <= j < k ->
  exists row, m !! Z.to_nat i = Some row /\ row !! Z.to_nat j = Some (mget m i j).
Proof.
  intros (Hk & Hlen & Hrows) Hi Hj.
  destruct (lookup_lt_is_Some_2 m (Z.to_nat i)) as [row Hrow]; [lia|].
  rewrite Forall_forall in Hrows.
  pose proof (Hrows row (list_elem_of_lookup_2 _ _ _ Hrow)) as Hlr.
  destruct (lookup_lt_is_Some_2 row (Z.to_nat j)) as [x Hx]; [lia|].
  exists row. split; [done|]. unfold mget. rewrite Hrow. simpl. by rewrite Hx.
Qed.

(** Two [k] by [k] matrices with the same cells are equal. *)
Lemma matrix_ext m m' k :
  dims m k -> dims m' k ->
  (forall a b, 0 <= a < k -> 0 <= b < k -> mget m a b = mget m' a b) ->
  m = m'.
Proof.
  intros Hd Hd' Hcells.
  pose proof Hd as (Hk & Hlen & Hrows). pose proof Hd' as (_ & Hlen' & Hrows').
  apply list_eq_same_length with (Z.to_nat k); [done|done|].
  intros i row row' Hi Hrow Hrow'.
  rewrite Forall_forall in Hrows, Hrows'.
  pose proof (Hrows row (list_elem_of_lookup_2 _ _ _ Hrow)) as Hlr.
  pose proof (Hrows' row' (list_elem_of_lookup_2 _ _ _ Hrow')) as Hlr'.
  apply list_eq_same_length with (Z.to_nat k); [done|done|].
  intros j x x' Hj Hx Hx'.
  specialize (Hcells (Z.of_nat i) (Z.of_nat j) ltac:(lia) ltac:(lia)).
  unfold mget in Hcells. rewrite !Nat2Z.id, Hrow, Hrow' in Hcells. simpl in Hcells.
  by rewrite Hx, Hx' in Hcells.
Qed.

Lemma in_range_false g u : ¬ (0 <= u < n g) -> in_range g u = false.
Proof.
  intros H. unfold in_range.
  destruct (decide (u >= 0)).
  - rewrite (bool_decide_eq_false_2 (u < n g)) by lia. apply andb_false_r.
  - by rewrite bool_decide_eq_false_2.
Qed.

Lemma removeEdge_spec g u v :
  dims (adjMatrix g) (n g) -> 0 <= u < n g -> 0 <= v < n g ->
  exists m',
    removeEdge g u v = Ok (mkGraph (n g) m' (isDirected g)) /\
    dims m' (n g) /\
    forall a b, 0 <= a -> 0 <= b ->
      mget m' a b =
        if decide ((a = u /\ b = v) \/ (isDirected g = false /\ a = v /\ b = u))
        then 0 else mget (adjMatrix g) a b.
Proof.
  intros Hd Hu Hv. unfold removeEdge.
  rewrite !in_range_true by done. simpl.
  rewrite (wr2_Ok _ (n g)) by done. simpl.
  destruct (isDirected g) eqn:Hdir; simpl.
  - eexists. split; [done|]. split; [by apply dims_mset|].
    intros a b Ha Hb. rewrite (mget_mset _ (n g)) by done.
    repeat case_decide; try done; intuition (congruence || lia).
  - rewrite (wr2_Ok _ (n g)) by (try apply dims_mset; done). simpl.
    eexists. split; [done|]. split; [by do 2 apply dims_mset|].
    intros a b Ha Hb.
    rewrite (mget_mset _ (n g)), (mget_mset _ (n g))
      by (try apply dims_mset; done || lia).
    repeat case_decide; try done; intuition (congruence || lia).
Qed.

Lemma clear_spec g :
  dims (adjMatrix g) (n g) ->
  exists m',
    clear g = Ok (mkGraph (n g) m' (isDirected g)) /\ dims m' (n g) /\
    forall a b, 0 <= a < n g -> 0 <= b < n g -> mget m' a b = 0.
Proof.
  intros Hd. unfold clear.
  destruct (for_each_upto_inv
    (fun i (m : list (list Z)) =>
       dims m (n g) /\
       forall a b, 0 <= a < i -> 0 <= b < n g -> mget m a b = 0)
    0 (n g)
    (fun i m => for_each (upto 0 (n g)) (fun j m => wr2 m i j 0) m)
    (adjMatrix g)) as (m' & Hrun & Hd' & Hm').
  - by destruct Hd.
  - split; [done|]. intros a b Ha. lia.
  - intros i m Hi (Hdm & Hm).
    destruct (for_each_upto_inv
      (fun j (m1 : list (list Z)) =>
         dims m1 (n g) /\
         (forall a b, 0 <= a < i -> 0 <= b < n g -> mget m1 a b = 0) /\
         forall b, 0 <= b < j -> mget m1 i b = 0)
      0 (n g) (fun j m => wr2 m i j 0) m) as (m1 & Hrun1 & Hd1 & Hm1 & Hrow).
    + by destruct Hd.
    + split; [done|]. split; [done|]. intros b Hb. lia.
    + intros j m1 Hj (Hd1 & Hm1 & Hrow).
      rewrite (wr2_Ok _ (n g)) by done. eexists. split; [done|].
      split; [by apply dims_mset|]. split.
      * intros a b Ha Hb. rewrite (mget_mset _ (n g)) by (done || lia).
        case_decide; [done|]. by apply Hm1.
      * intros b Hb. rewrite (mget_mset _ (n g)) by (done || lia).
        case_decide; [done|]. apply Hrow. lia.
    + exists m1. split; [done|]. split; [done|].
      intros a b Ha Hb. destruct (decide (a = i)) as [->|]; [by apply Hrow|].
      apply Hm1; lia.
  - rewrite Hrun. cbn [mbind result_bind]. exists m'. split; [done|].
    split; [done|]. intros a b Ha Hb. by apply Hm'.
Qed.

Lemma merged_sym m a b : merged m a b = merged m b a.
Proof. unfold merged. by rewrite (Z.min_comm a b), (Z.max_comm a b). Qed.

Lemma Graph_step_inv g c :
  Graph_inv g ->
  exists g', Graph_step g c = Ok g' /\ Graph_inv g' /\ n g' = n g.
Proof.
  intros [Hd Hsym]. destruct c as [u v w|u v|directed|]; cbn [Graph_step].
  - destruct (decide (0 <= u < n g /\ 0 <= v < n g)) as [[Hu Hv]|Hout].
    + destruct (addEdge_spec g u v w Hd Hu Hv) as (m' & Hrun & Hd' & Hm').
      eexists. split; [exact Hrun|]. split; [|done]. split; [done|].
      cbn [adjMatrix n isDirected]. intros Hdir i j Hi Hj.
      rewrite !Hm' by lia. specialize (Hsym Hdir i j Hi Hj).
      repeat case_decide; try done; intuition (congruence || lia).
    + exists g. split; [|done]. unfold addEdge.
      destruct (decide (0 <= u < n g)).
      * rewrite (in_range_false g v) by tauto. by rewrite andb_false_r.
      * by rewrite (in_range_false g u).
  - destruct (decide (0 <= u < n g /\ 0 <= v < n g)) as [[Hu Hv]|Hout].
    + destruct (removeEdge_spec g u v Hd Hu Hv) as (m' & Hrun & Hd' & Hm').
      eexists. split; [exact Hrun|]. split; [|done]. split; [done|].
      cbn [adjMatrix n isDirected]. intros Hdir i j Hi Hj.
      rewrite !Hm' by lia. specialize (Hsym Hdir i j Hi Hj).
      repeat case_decide; try done; intuition (congruence || lia).
    + exists g. split; [|done]. unfold removeEdge.
      destruct (decide (0 <= u < n g)).
      * rewrite (in_range_false g v) by tauto. by rewrite andb_false_r.
      * by rewrite (in_range_false g u).
  - destruct directed.
    + eexists. split; [reflexivity|]. split; [|done]. split; [done|].
      cbn [isDirected]. done.
    + destruct (setDirected_false_spec g Hd) as (m' & Hrun & Hd' & Hm').
      eexists. split; [exact Hrun|]. split; [|done]. split; [done|].
      cbn [adjMatrix n isDirected]. intros _ i j Hi Hj.
      rewrite !Hm' by done. apply merged_sym.
  - destruct (clear_spec g Hd) as (m' & Hrun & Hd' & Hm').
    eexists. split; [exact Hrun|]. split; [|done]. split; [done|].
    cbn [adjMatrix n isDirected]. intros _ i j Hi Hj. by rewrite !Hm'.
Qed.

(** X1. The class invariant of [Graph]. Every sequence of calls of
    [addEdge], [removeEdge], [setDirected] and [clear], with any arguments,
    on a graph built by the constructor with a vertex count that is not
    negative runs without undefined behaviour; the object keeps its vertex
    count, its matrix stays [n] by [n] and, whenever the graph is
    undirected, symmetric. *)
Theorem Graph_class_invariant (vertices : Z) (directed : bool)
    (calls : list Graph_call) :
  0 <= vertices ->
  exists g0 g,
    Graph_new vertices directed = Ok g0 /\ Graph_run g0 calls = Ok g /\
    Graph_inv g /\ getVertexCount g = vertices.
Proof.
  intros Hk.
  destruct (Graph_new_inv vertices directed Hk) as (g0 & Hnew & Hinv0 & Hn0 & _).
  exists g0.
  assert (Hrun : forall g, Graph_inv g ->
            exists g', Graph_run g calls = Ok g' /\ Graph_inv g' /\ n g' = n g).
  { induction calls as [|c calls IH]; intros g Hinv.
    - by exists g.
    - destruct (Graph_step_inv g c Hinv) as (g1 & Hstep & Hinv1 & Hn1).
      destruct (IH g1 Hinv1) as (g' & Hrun & Hinv' & Hn').
      exists g'. cbn [Graph_run]. rewrite Hstep. cbn [mbind result_bind].
      split; [done|]. split; [done|]. congruence. }
  destruct (Hrun g0 Hinv0) as (g & Hg & Hinv & Hn).
  exists g. split; [done|]. split; [done|]. split; [done|].
  unfold getVertexCount. congruence.
Qed.

Lemma Graph_class_invariant_witness :
  0 <= 3 /\
  exists g0 g,
    Graph_new 3 false = Ok g0 /\
    Graph_run g0 [call_addEdge 0 1 5; call_setDirected true; call_addEdge 2 1 7;
                  call_removeEdge 9 9; call_setDirected false] = Ok g /\
    Graph_inv g /\ getVertexCount g = 3.
Proof.
  split; [lia|]. apply (Graph_class_invariant 3 false). lia.
Defined.

Lemma addEdge_out_of_range g u v w :
  ¬ (0 <= u < n g /\ 0 <= v < n g) -> addEdge g u v w = Ok g.
Proof.
  intros Hout. unfold addEdge.
  destruct (decide (0 <= u < n g)).
  - rewrite (in_range_false g v) by tauto. by rewrite andb_false_r.
  - by rewrite (in_range_false g u).
Qed.

Lemma removeEdge_out_of_range g u v :
  ¬ (0 <= u < n g /\ 0 <= v < n g) -> removeEdge g u v = Ok g.
Proof.
  intros Hout. unfold removeEdge.
  destruct (decide (0 <= u < n g)).
  - rewrite (in_range_false g v) by tauto. by rewrite andb_false_r.
  - by rewrite (in_range_false g u).
Qed.

(** X2. [addEdge(u, v, w)] with both indices in range writes [w] to the
    cell [u][v] and, on an undirected graph, to the mirror cell [v][u]; every
    other cell, the vertex count and the direction flag stay as they are.
    With an index out of range the call changes nothing. *)
Theorem addEdge_cells (g : Graph) (u v w : Z) :
  dims (adjMatrix g) (n g) ->
  exists g',
    addEdge g u v w = Ok g' /\
    n g' = n g /\ isDirected g' = isDirected g /\ dims (adjMatrix g') (n g) /\
    (¬ (0 <= u < n g /\ 0 <= v < n g) -> g' = g) /\
    (0 <= u < n g -> 0 <= v < n g ->
     forall a b, 0 <= a < n g -> 0 <= b < n g ->
       mget (adjMatrix g') a b =
         if decide ((a = u /\ b = v) \/ (isDirected g = false /\ a = v /\ b = u))
         then w else mget (adjMatrix g) a b).
Proof.
  intros Hd.
  destruct (decide (0 <= u < n g /\ 0 <= v < n g)) as [[Hu Hv]|Hout].
  - destruct (addEdge_spec g u v w Hd Hu Hv) as (m' & Hrun & Hd' & Hm').
    eexists. split; [exact Hrun|]. cbn [n isDirected adjMatrix].
    do 3 (split; [done|]). split; [tauto|].
    intros _ _ a b Ha Hb. apply Hm'; lia.
  - exists g. split; [by apply addEdge_out_of_range|].
    do 3 (split; [done|]). split; [done|]. tauto.
Qed.

Lemma addEdge_cells_witness :
  let g := mkGraph 2 [[0; 0]; [0; 0]] false in
  dims (adjMatrix g) (n g) /\
  exists g', addEdge g 0 1 5 = Ok g' /\ mget (adjMatrix g') 1 0 = 5.
Proof.
  intros g.
  assert (Hd : dims (adjMatrix g) (n g)).
  { split; [done|]. split; [done|]. by repeat constructor. }
  split; [exact Hd|].
  destruct (addEdge_cells g 0 1 5 Hd) as (g' & Hrun & _ & _ & _ & _ & Hcells).
  exists g'. split; [exact Hrun|].
  rewrite (Hcells ltac:(simpl; lia) ltac:(simpl; lia) 1 0 ltac:(simpl; lia)
             ltac:(simpl; lia)).
  reflexivity.
Defined.

Lemma Graph_eta g : mkGraph (n g) (adjMatrix g) (isDirected g) = g.
Proof. by destruct g. Qed.

(** X3. Adding an edge of weight 0 is removing the edge: [addEdge(u, v, 0)]
    and [removeEdge(u, v)] leave the same graph, for all indices. *)
Theorem addEdge_zero_removeEdge (g : Graph) (u v : Z) :
  dims (adjMatrix g) (n g) ->
  exists g', addEdge g u v 0 = Ok g' /\ removeEdge g u v = Ok g'.
Proof.
  intros Hd.
  destruct (decide (0 <= u < n g /\ 0 <= v < n g)) as [[Hu Hv]|Hout].
  - destruct (addEdge_spec g u v 0 Hd Hu Hv) as (m1 & Hadd & Hd1 & Hm1).
    destruct (removeEdge_spec g u v Hd Hu Hv) as (m2 & Hrem & Hd2 & Hm2).
    eexists. split; [exact Hadd|]. rewrite Hrem. do 2 f_equal.
    apply (matrix_ext _ _ (n g)); [done|done|].
    intros a b Ha Hb. rewrite Hm1, Hm2 by lia. done.
  - exists g. split; [by apply addEdge_out_of_range|by apply removeEdge_out_of_range].
Qed.

Lemma addEdge_zero_removeEdge_witness :
  let g := mkGraph 2 [[0; 4]; [4; 0]] false in
  dims (adjMatrix g) (n g) /\
  exists g', addEdge g 0 1 0 = Ok g' /\ removeEdge g 0 1 = Ok g'.
Proof.
  intros g.
  assert (Hd : dims (adjMatrix g) (n g)).
  { split; [done|]. split; [done|]. by repeat constructor. }
  split; [exact Hd|]. exact (addEdge_zero_removeEdge g 0 1 Hd).
Defined.

(** X4. Removing an edge that was just added, between two vertices that
    had no edge, gives back the graph as it was. *)
Theorem addEdge_removeEdge_round_trip (g : Graph) (u v w : Z) :
  Graph_inv g -> 0 <= u < n g -> 0 <= v < n g ->
  mget (adjMatrix g) u v = 0 ->
  exists g1, addEdge g u v w = Ok g1 /\ removeEdge g1 u v = Ok g.
Proof.
  intros [Hd Hsym] Hu Hv Hzero.
  destruct (addEdge_spec g u v w Hd Hu Hv) as (m1 & Hadd & Hd1 & Hm1).
  eexists. split; [exact Hadd|].
  destruct (removeEdge_spec (mkGraph (n g) m1 (isDirected g)) u v)
    as (m2 & Hrem & Hd2 & Hm2); [done..|].
  cbn [n adjMatrix isDirected] in *. rewrite Hrem.
  transitivity (Ok (mkGraph (n g) (adjMatrix g) (isDirected g)));
    [|by rewrite Graph_eta].
  do 2 f_equal.
  apply (matrix_ext _ _ (n g)); [done|done|].
  intros a b Ha Hb. rewrite Hm2, Hm1 by lia.
  destruct (decide (a = u /\ b = v \/ isDirected g = false /\ a = v /\ b = u))
    as [Hc|Hc]; [|done].
  destruct Hc as [[-> ->]|(Hdir & -> & ->)]; [done|].
  by rewrite (Hsym Hdir v u).
Qed.

Lemma addEdge_removeEdge_round_trip_witness :
  let g := mkGraph 2 [[0; 0]; [0; 3]] false in
  (Graph_inv g /\ 0 <= 0 < n g /\ 0 <= 1 < n g /\ mget (adjMatrix g) 0 1 = 0) /\
  exists g1, addEdge g 0 1 8 = Ok g1 /\ removeEdge g1 0 1 = Ok g.
Proof.
  intros g.
  assert (Hinv : Graph_inv g).
  { split.
    - split; [done|]. split; [done|]. by repeat constructor.
    - intros _ i j Hi Hj. simpl in Hi, Hj.
      assert (Hi' : i = 0 \/ i = 1) by lia. assert (Hj' : j = 0 \/ j = 1) by lia.
      destruct Hi' as [->| ->], Hj' as [->| ->]; reflexivity. }
  assert (H0 : 0 <= 0 < n g) by (simpl; lia).
  assert (H1 : 0 <= 1 < n g) by (simpl; lia).
  assert (Hz : mget (adjMatrix g) 0 1 = 0) by reflexivity.
  split; [split; [exact Hinv|split; [exact H0|split; [exact H1|exact Hz]]]|].
  exact (addEdge_removeEdge_round_trip g 0 1 8 Hinv H0 H1 Hz).
Defined.

Lemma merged_symmetric m a b :
  mget m a b = mget m b a -> merged m a b = mget m a b.
Proof.
  intros Hs. unfold merged.
  destruct (Z.le_ge_cases a b).
  - rewrite Z.min_l, Z.max_r by done. case_decide; [done|]. by rewrite <- Hs.
  - rewrite Z.min_r, Z.max_l by lia. rewrite <- Hs. case_decide; [done|]. congruence.
Qed.

Lemma setDirected_false_symmetric g :
  dims (adjMatrix g) (n g) ->
  (forall a b, 0 <= a < n g -> 0 <= b < n g ->
     mget (adjMatrix g) a b = mget (adjMatrix g) b a) ->
  setDirected g false = Ok (mkGraph (n g) (adjMatrix g) false).
Proof.
  intros Hd Hsym.
  destruct (setDirected_false_spec g Hd) as (m' & Hrun & Hd' & Hm').
  rewrite Hrun. do 2 f_equal.
  apply (matrix_ext _ _ (n g)); [done|done|].
  intros a b Ha Hb. rewrite Hm' by done. apply merged_symmetric. by apply Hsym.
Qed.

(** X5. [setDirected(false)] is idempotent: a second call changes
    nothing. *)
Theorem setDirected_false_idempotent (g : Graph) :
  dims (adjMatrix g) (n g) ->
  exists g1, setDirected g false = Ok g1 /\ setDirected g1 false = Ok g1.
Proof.
  intros Hd.
  destruct (setDirected_false_spec g Hd) as (m' & Hrun & Hd' & Hm').
  eexists. split; [exact Hrun|].
  apply (setDirected_false_symmetric (mkGraph (n g) m' false)); [done|].
  cbn [n adjMatrix]. intros a b Ha Hb. rewrite !Hm' by done. apply merged_sym.
Qed.

Lemma setDirected_false_idempotent_witness :
  let g := mkGraph 2 [[0; 0]; [7; 0]] true in
  dims (adjMatrix g) (n g) /\
  exists g1, setDirected g false = Ok g1 /\ setDirected g1 false = Ok g1.
Proof.
  intros g.
  assert (Hd : dims (adjMatrix g) (n g)).
  { split; [done|]. split; [done|]. by repeat constructor. }
  split; [exact Hd|]. exact (setDirected_false_idempotent g Hd).
Defined.

(** X6. Switching an undirected graph to directed and back gives the
    graph as it was: no weight is lost or moved. *)
Theorem setDirected_round_trip (g : Graph) :
  Graph_inv g -> isDirected g = false ->
  exists g1, setDirected g true = Ok g1 /\ setDirected g1 false = Ok g.
Proof.
  intros [Hd Hsym] Hdir.
  eexists. split; [reflexivity|].
  rewrite (setDirected_false_symmetric (mkGraph (n g) (adjMatrix g) true)).
  - cbn [n adjMatrix]. rewrite <- Hdir. by rewrite Graph_eta.
  - done.
  - cbn [n adjMatrix]. by apply Hsym.
Qed.

Lemma setDirected_round_trip_witness :
  let g := mkGraph 2 [[0; 4]; [4; 0]] false in
  (Graph_inv g /\ isDirected g = false) /\
  exists g1, setDirected g true = Ok g1 /\ setDirected g1 false = Ok g.
Proof.
  intros g.
  assert (Hinv : Graph_inv g).
  { split.
    - split; [done|]. split; [done|]. by repeat constructor.
    - intros _ i j Hi Hj. simpl in Hi, Hj.
      assert (Hi' : i = 0 \/ i = 1) by lia. assert (Hj' : j = 0 \/ j = 1) by lia.
      destruct Hi' as [->| ->], Hj' as [->| ->]; reflexivity. }
  assert (Hdir : isDirected g = false) by reflexivity.
  split; [split; [exact Hinv|exact Hdir]|].
  exact (setDirected_round_trip g Hinv Hdir).
Defined.

(** X7. [clear()] keeps the vertex count and the direction flag and
    zeroes every cell: no edge is left, and a traversal from any vertex
    visits that vertex only. *)
Theorem clear_no_edges (g : Graph) :
  dims (adjMatrix g) (n g) ->
  exists g',
    clear g = Ok g' /\
    n g' = n g /\ isDirected g' = isDirected g /\ Graph_inv g' /\
    (forall u v, ¬ edge g' u v) /\
    forall start, 0 <= start < n g ->
      bfs g' start = Ok (show_ints [start]) /\
      dfs g' start = Ok (show_ints [start]).
Proof.
  intros Hd. destruct (clear_spec g Hd) as (m' & Hrun & Hd' & Hm').
  eexists. split; [exact Hrun|]. cbn [n isDirected adjMatrix].
  split; [done|]. split; [done|].
  set (g' := mkGraph (n g) m' (isDirected g)).
  assert (Hno : forall u v, ¬ edge g' u v).
  { intros u v (Hu & Hv & Hnz). apply Hnz. by apply Hm'. }
  split; [|split; [done|]].
  - split; [done|]. intros _ i j Hi Hj. cbn [n adjMatrix g'] in *. by rewrite !Hm'.
  - intros start Hs. split.
    + by apply bfs_alone.
    + by apply dfs_alone.
Qed.

Lemma clear_no_edges_witness :
  let g := mkGraph 2 [[0; 4]; [4; 0]] false in
  dims (adjMatrix g) (n g) /\
  exists g', clear g = Ok g' /\ bfs g' 1 = Ok "[1]"%string.
Proof.
  intros g.
  assert (Hd : dims (adjMatrix g) (n g)).
  { split; [done|]. split; [done|]. by repeat constructor. }
  split; [exact Hd|].
  destruct (clear_no_edges g Hd) as (g' & Hrun & _ & _ & _ & _ & Htrav).
  exists g'. split; [exact Hrun|].
  destruct (Htrav 1 ltac:(simpl; lia)) as [Hbfs _]. exact Hbfs.
Defined.

Lemma join_cons x l :
  join (x :: l) = (x +:+ (if decide (l = []) then "" else "," +:+ join l))%string.
Proof.
  destruct l as [|y l].
  - rewrite decide_True by done. simpl. by rewrite string_app_nil_r.
  - by rewrite decide_False by done.
Qed.

(** A loop that appends one item per index, with commas between the
    items, appends the joined items. *)
Lemma for_each_join (lo hi : Z) (body : Z -> string -> result string)
    (items : list string) (res0 : string) :
  length items = Z.to_nat (hi - lo) ->
  (forall i x res, lo <= i < hi -> items !! Z.to_nat (i - lo) = Some x ->
     body i res =
     Ok (res +:+ x +:+ (if bool_decide (i < hi - 1) then "," else ""))%string) ->
  for_each (upto lo hi) body res0 = Ok (res0 +:+ join items)%string.
Proof.
  intros Hlen Hbody.
  destruct (decide (lo <= hi)) as [Hk|Hk].
  2:{ rewrite for_each_upto_empty by lia.
      replace (Z.to_nat (hi - lo)) with 0%nat in * by lia. destruct items; [|done].
      simpl. by rewrite string_app_nil_r. }
  destruct (for_each_upto_inv
    (fun i (res : string) =>
       (res +:+ join (drop (Z.to_nat (i - lo)) items) = res0 +:+ join items)%string)
    lo hi body res0) as (res & Hrun & Hres).
  - done.
  - by replace (lo - lo) with 0 by lia.
  - intros i res Hi Hres.
    destruct (lookup_lt_is_Some_2 items (Z.to_nat (i - lo))) as [x Hx]; [lia|].
    rewrite (Hbody i x res Hi Hx). eexists. split; [done|].
    rewrite <- Hres. rewrite (drop_S _ x (Z.to_nat (i - lo))) by done.
    replace (Z.to_nat (i + 1 - lo)) with (S (Z.to_nat (i - lo))) by lia.
    rewrite join_cons.
    case_bool_decide as Hlast.
    + rewrite decide_False.
      * by rewrite !string_app_assoc.
      * intros Hnil. apply (f_equal length) in Hnil.
        rewrite length_drop in Hnil. simpl in Hnil. lia.
    + assert (Hdrop : drop (S (Z.to_nat (i - lo))) items = [])
        by (apply drop_ge; lia).
      rewrite Hdrop. rewrite decide_True by done.
      by rewrite !string_app_assoc, !string_app_nil_r.
  - rewrite Hrun. f_equal.
    rewrite drop_ge in Hres by lia. simpl in Hres.
    by rewrite string_app_nil_r in Hres.
Qed.

(** X8. [getMatrix()] returns the rendering of the matrix: the rows in
    brackets, joined by commas, each row the decimal numerals of its cells
    joined by commas, the whole in brackets. No cell is [INT_MIN], which
    [intToString] cannot negate. *)
Theorem getMatrix_spec (g : Graph) :
  dims (adjMatrix g) (n g) -> Forall (Forall printable) (adjMatrix g) ->
  getMatrix g = Ok (show_matrix (adjMatrix g)).
Proof.
  intros Hd Hcells. pose proof Hd as (Hk & Hlen & Hrows). unfold getMatrix.
  rewrite (for_each_join 0 (n g) _ (show_ints <$> adjMatrix g)).
  - cbn [mbind result_bind]. unfold show_matrix. by rewrite string_app_assoc.
  - rewrite length_fmap. by replace (n g - 0) with (n g) by lia.
  - intros i x res Hi Hx. cbv zeta.
    replace (i - 0) with i in Hx by lia.
    rewrite list_lookup_fmap in Hx.
    destruct (adjMatrix g !! Z.to_nat i) as [row|] eqn:Hrow; [|done].
    injection Hx as <-.
    rewrite Forall_forall in Hrows.
    pose proof (Hrows row (list_elem_of_lookup_2 _ _ _ Hrow)) as Hlr.
    pose proof (Forall_lookup_1 _ _ _ _ Hcells Hrow) as Hprint.
    rewrite (for_each_join 0 (n g) _ (numeral <$> row)).
    + cbn [mbind result_bind]. unfold show_ints, join_ints.
      case_bool_decide; by rewrite ?string_app_assoc, ?string_app_nil_r.
    + rewrite length_fmap. by replace (n g - 0) with (n g) by lia.
    + intros j y res' Hj Hy. cbv zeta.
      replace (j - 0) with j in Hy by lia.
      rewrite list_lookup_fmap in Hy.
      destruct (row !! Z.to_nat j) as [a|] eqn:Ha; [|done].
      injection Hy as <-.
      assert (Hrd : rd2 (adjMatrix g) i j = Ok a).
      { unfold rd2. rewrite (rd_Ok _ _ row) by (done || lia).
        cbn [mbind result_bind]. apply rd_Ok; [lia|done]. }
      rewrite Hrd. cbn [mbind result_bind].
      rewrite intToString_numeral
        by (by destruct (Forall_lookup_1 _ _ _ _ Hprint Ha)).
      cbn [mbind result_bind].
      case_bool_decide; by rewrite ?string_app_assoc, ?string_app_nil_r.
Qed.

Lemma getMatrix_spec_witness :
  let g := mkGraph 2 [[0; -45]; [120; 0]] true in
  (dims (adjMatrix g) (n g) /\ Forall (Forall printable) (adjMatrix g)) /\
  getMatrix g = Ok (show_matrix (adjMatrix g)) /\
  show_matrix (adjMatrix g) = "[[0,-45],[120,0]]"%string.
Proof.
  intros g.
  assert (Hd : dims (adjMatrix g) (n g)).
  { split; [done|]. split; [done|]. by repeat constructor. }
  assert (Hp : Forall (Forall printable) (adjMatrix g)).
  { repeat constructor; by vm_compute. }
  split; [done|]. split; [exact (getMatrix_spec g Hd Hp)|reflexivity].
Defined.

(** X9. The guards of the traversals: for a start index that is not a
    vertex, [bfs] and [dfs] return the rendering of the empty sequence,
    whatever the graph; on a directed graph [primMST] returns it too. *)
Theorem traversal_guards (g : Graph) (start : Z) :
  (¬ (0 <= start < n g) ->
   bfs g start = Ok (show_ints []) /\ dfs g start = Ok (show_ints [])) /\
  (isDirected g = true -> primMST g = Ok (show_ints [])).
Proof.
  split.
  - intros H. unfold bfs, dfs. by rewrite start_guard.
  - intros H. unfold primMST. by rewrite H.
Qed.

Lemma traversal_guards_witness :
  let g := mkGraph 2 [[0; 3]; [0; 0]] true in
  (¬ (0 <= 2 < n g) /\ isDirected g = true) /\
  bfs g 2 = Ok "[]"%string /\ dfs g 2 = Ok "[]"%string /\
  primMST g = Ok "[]"%string.
Proof.
  intros g.
  assert (Hout : ¬ (0 <= 2 < n g)) by (simpl; lia).
  assert (Hdir : isDirected g = true) by reflexivity.
  split; [split; [exact Hout|exact Hdir]|].
  destruct (traversal_guards g 2) as [Htrav Hprim].
  destruct (Htrav Hout) as [Hbfs Hdfs].
  split; [exact Hbfs|]. split; [exact Hdfs|exact (Hprim Hdir)].
Defined.

(** ** intToString *)

Lemma digit_value_char d : 0 <= d <= 9 -> digit_value (digit_char d) = d.
Proof.
  intros Hd. unfold digit_value, digit_char.
  rewrite Ascii.nat_ascii_embedding by lia. lia.
Qed.

Lemma digits_value_app acc s1 s2 :
  digits_value acc (s1 +:+ s2) = digits_value (digits_value acc s1) s2.
Proof.
  revert acc. induction s1 as [|c s1 IH]; intros acc; [done|].
  change (String c s1 +:+ s2)%string with (String c (s1 +:+ s2)).
  cbn [digits_value]. apply IH.
Qed.

Lemma all_digits_app (s1 s2 : string) :
  all_digits s1 -> all_digits s2 -> all_digits (s1 +:+ s2).
Proof.
  induction s1 as [|c s1 IH]; [done|].
  change (String c s1 +:+ s2)%string with (String c (s1 +:+ s2)).
  cbn [all_digits]. intros [Hc H1] H2. split; [done|]. by apply IH.
Qed.

Lemma string_length_app (s1 s2 : string) :
  String.length (s1 +:+ s2) = (String.length s1 + String.length s2)%nat.
Proof.
  induction s1 as [|c s1 IH]; [done|].
  change (String c s1 +:+ s2)%string with (String c (s1 +:+ s2)).
  cbn [String.length]. by rewrite IH.
Qed.

(** The loop of [intToString] puts the digits of [num] in front of [res]. *)
Lemma intToString_loop_spec (fuel : nat) : forall num res,
  0 <= num < 10 ^ Z.of_nat fuel ->
  exists s,
    intToString_loop (S fuel) num res = Ok (s +:+ res)%string /\
    (forall acc, digits_value acc s = acc * 10 ^ Z.of_nat (String.length s) + num) /\
    all_digits s /\
    (num = 0 -> s = ""%string) /\
    (0 < num -> exists d s', 1 <= d <= 9 /\ s = String (digit_char d) s').
Proof.
  induction fuel as [|fuel IH]; intros num res Hnum.
  - change (10 ^ Z.of_nat 0) with 1 in Hnum.
    assert (num = 0) as -> by lia.
    exists ""%string. split; [done|]. split; [intros; simpl; lia|].
    split; [done|]. split; [done|lia].
  - change (intToString_loop (S (S fuel)) num res)
      with (if decide (num > 0)
            then intToString_loop (S fuel) (num ÷ 10)
                   (String (digit_char (Z.rem num 10)) res)
            else Ok res).
    case_decide as Hpos.
    + assert (Hq : 0 <= num ÷ 10 < 10 ^ Z.of_nat fuel).
      { rewrite Nat2Z.inj_succ, Z.pow_succ_r in Hnum by lia.
        rewrite Z.quot_div_nonneg by lia.
        split; [apply Z.div_pos; lia|apply Z.div_lt_upper_bound; lia]. }
      assert (Hr : 0 <= Z.rem num 10 <= 9).
      { rewrite Z.rem_mod_nonneg by lia. pose proof (Z.mod_pos_bound num 10). lia. }
      assert (Hsplit : num = 10 * (num ÷ 10) + Z.rem num 10)
        by (apply Z.quot_rem'; lia).
      destruct (IH (num ÷ 10) (String (digit_char (Z.rem num 10)) res) Hq)
        as (s & Hrun & Hval & Hdig & Hzero & Hfirst).
      exists (s +:+ String (digit_char (Z.rem num 10)) "")%string.
      split; [|split; [|split; [|split]]].
      * rewrite Hrun. by rewrite string_app_assoc.
      * intros acc. rewrite digits_value_app, Hval. cbn [digits_value].
        rewrite digit_value_char by done.
        rewrite string_length_app. cbn [String.length].
        rewrite Nat2Z.inj_add, Z.pow_add_r by lia. change (10 ^ Z.of_nat 1) with 10.
        lia.
      * apply all_digits_app; [done|]. cbn [all_digits].
        by rewrite digit_value_char.
      * lia.
      * intros _. destruct (decide (0 < num ÷ 10)) as [Hq0|Hq0].
        -- destruct (Hfirst Hq0) as (d & s' & Hd & ->).
           exists d, (s' +:+ String (digit_char (Z.rem num 10)) "")%string. done.
        -- rewrite Hzero by lia. exists (Z.rem num 10), ""%string.
           split; [lia|done].
    + assert (num = 0) as -> by lia.
      exists ""%string. split; [done|]. split; [intros; simpl; lia|].
      split; [done|]. split; [done|lia].
Qed.

(** The digits that [intToString] writes for a positive number. *)
Lemma intToString_digits (num : Z) :
  0 < num ->
  exists ds,
    intToString_loop (S (S (Z.to_nat (Z.log2 num)))) num "" = Ok ds /\
    ds ≠ ""%string /\ all_digits ds /\ digits_value 0 ds = num /\
    (forall c ds', ds = String c ds' -> digit_value c = 0 -> ds' = ""%string).
Proof.
  intros Hpos.
  destruct (intToString_loop_spec (S (Z.to_nat (Z.log2 num))) num "")
    as (ds & Hrun & Hval & Hdig & _ & Hfirst).
  { split; [lia|by apply log2_digits]. }
  exists ds. rewrite string_app_nil_r in Hrun. split; [done|].
  destruct (Hfirst Hpos) as (d & s' & Hd & ->).
  split; [done|]. split; [done|]. split; [rewrite Hval; lia|].
  intros c ds' [= <- <-] Hc. rewrite digit_value_char in Hc by lia. lia.
Qed.

Lemma intToString_decimal_numeral (num : Z) :
  INT_MIN < num -> decimal (numeral num) num.
Proof.
  intros Hnum.
  destruct (decide (num = 0)) as [->|Hz].
  { exists "0"%string. split; [done|]. split; [done|].
    split; [by vm_compute|]. split; [done|]. by intros c ds' [= <- <-]. }
  pose proof (intToString_numeral num Hnum) as Hrun.
  unfold intToString in Hrun. rewrite decide_False in Hrun by done.
  case_bool_decide as Hneg.
  - unfold neg_int in Hrun.
    rewrite decide_True in Hrun by (unfold is_int, INT_MIN, INT_MAX in *; lia).
    cbn [mbind result_bind] in Hrun.
    destruct (intToString_digits (- num)) as (ds & Hds & Hne & Hdig & Hval & Hlead);
      [lia|].
    rewrite Hds in Hrun. cbn [mbind result_bind] in Hrun. injection Hrun as <-.
    exists ds. rewrite bool_decide_eq_true_2 by done.
    split; [done|]. split; [done|]. split; [done|]. split; [lia|done].
  - cbn [mbind result_bind] in Hrun.
    destruct (intToString_digits num) as (ds & Hds & Hne & Hdig & Hval & Hlead);
      [lia|].
    rewrite Hds in Hrun. cbn [mbind result_bind] in Hrun. injection Hrun as <-.
    exists ds. rewrite bool_decide_eq_false_2 by done.
    split; [done|]. split; [done|]. split; [done|]. split; [lia|done].
Qed.

(** X10. [intToString] writes the decimal numeral of its argument, for
    every 32-bit value but [INT_MIN]: the digits of the absolute value,
    most significant first and without a leading zero, after a minus sign
    when the argument is negative; it is the string that the printer of
    stdpp gives. For [INT_MIN] the negation overflows: the behaviour is
    undefined. *)
Theorem intToString_decimal (num : Z) :
  (INT_MIN < num <= INT_MAX ->
   exists s, intToString num = Ok s /\ decimal s num /\ s = pretty num) /\
  intToString INT_MIN = Undefined.
Proof.
  split; [|reflexivity].
  intros [Hnum _]. exists (numeral num).
  split; [by apply intToString_numeral|].
  split; [by apply intToString_decimal_numeral|done].
Qed.

Lemma intToString_decimal_witness :
  INT_MIN < -120 <= INT_MAX /\
  intToString (-120) = Ok "-120"%string /\ decimal "-120" (-120).
Proof.
  assert (H : INT_MIN < -120 <= INT_MAX) by (unfold INT_MIN, INT_MAX; lia).
  split; [exact H|].
  destruct (proj1 (intToString_decimal (-120)) H) as (s & Hrun & Hdec & ->).
  split; [exact Hrun|exact Hdec].
Defined.

(** ** BinaryHeap *)

(** The list [l] without the element at the index [i]. *)
Lemma insert_Permutation {A} (l : list A) (i : nat) (y : A) :
  (i < length l)%nat -> <[i := y]> l ≡ₚ y :: (take i l ++ drop (S i) l).
Proof.
  intros Hi. rewrite insert_take_drop by done.
  by rewrite <- Permutation_middle.
Qed.

Lemma lookup_Permutation {A} (l : list A) (i : nat) (x : A) :
  l !! i = Some x -> l ≡ₚ x :: (take i l ++ drop (S i) l).
Proof.
  intros Hx. rewrite <- (take_drop_middle l i x Hx) at 1.
  by rewrite <- Permutation_middle.
Qed.

(** Exchanging two elements of a list permutes it. *)
Lemma exchange_Permutation {A} (l : list A) (i j : nat) (x y : A) :
  l !! i = Some x -> l !! j = Some y ->
  <[j := x]> (<[i := y]> l) ≡ₚ l.
Proof.
  intros Hx Hy.
  pose proof (lookup_lt_Some _ _ _ Hx) as Hi.
  pose proof (lookup_lt_Some _ _ _ Hy) as Hj.
  destruct (decide (i = j)) as [->|Hne].
  - rewrite list_insert_insert_eq. assert (x = y) as -> by congruence.
    by rewrite list_insert_id.
  - set (l1 := <[i := y]> l).
    assert (H1 : <[j := x]> l1 ≡ₚ x :: (take j l1 ++ drop (S j) l1)).
    { apply insert_Permutation. subst l1. by rewrite length_insert. }
    assert (H2 : l1 ≡ₚ y :: (take j l1 ++ drop (S j) l1)).
    { apply lookup_Permutation. subst l1. by rewrite list_lookup_insert_ne. }
    assert (H3 : l1 ≡ₚ y :: (take i l ++ drop (S i) l)).
    { subst l1. by apply insert_Permutation. }
    rewrite H2 in H3. apply Permutation_cons_inv in H3.
    rewrite H1, H3. symmetry. by apply lookup_Permutation.
Qed.

Lemma dv_lookup (a : list Z) i :
  0 <= i < Z.of_nat (length a) -> a !! Z.to_nat i = Some (dv a i).
Proof.
  intros Hi. unfold dv. apply list_lookup_lookup_total_lt. lia.
Qed.

Lemma bh_swap_Ok (a : list Z) i j :
  0 <= i < Z.of_nat (length a) -> 0 <= j < Z.of_nat (length a) ->
  swap a i j = Ok (bh_swapped a i j).
Proof.
  intros Hi Hj. unfold swap. rewrite !rd_dv by done. cbn [mbind result_bind].
  rewrite wr_Ok by done. cbn [mbind result_bind].
  rewrite wr_Ok by (by rewrite length_insert). done.
Qed.

Lemma length_bh_swapped a i j : length (bh_swapped a i j) = length a.
Proof. unfold bh_swapped. by rewrite !length_insert. Qed.

Lemma dv_bh_swapped a i j k :
  0 <= i < Z.of_nat (length a) -> 0 <= j < Z.of_nat (length a) -> 0 <= k ->
  dv (bh_swapped a i j) k =
    if decide (k = j) then dv a i
    else if decide (k = i) then dv a j
    else dv a k.
Proof.
  intros Hi Hj Hk. unfold bh_swapped.
  rewrite dv_insert by (rewrite ?length_insert; lia).
  case_decide; [done|]. by rewrite dv_insert by lia.
Qed.

(** The values in the cells [1 .. sz] of the array [a]. *)
Lemma cells_lookup (a : list Z) (sz i : Z) :
  1 <= i <= sz -> sz < Z.of_nat (length a) ->
  take (Z.to_nat sz) (drop 1 a) !! Z.to_nat (i - 1) = Some (dv a i).
Proof.
  intros Hi Hsz. rewrite lookup_take_lt by lia. rewrite lookup_drop.
  replace (1 + Z.to_nat (i - 1))%nat with (Z.to_nat i) by lia.
  apply dv_lookup. lia.
Qed.

Lemma cells_insert (a : list Z) (sz i x : Z) :
  1 <= i <= sz ->
  take (Z.to_nat sz) (drop 1 (<[Z.to_nat i := x]> a)) =
  <[Z.to_nat (i - 1) := x]> (take (Z.to_nat sz) (drop 1 a)).
Proof.
  intros Hi. rewrite drop_insert_ge by lia. rewrite take_insert_lt by lia.
  by replace (Z.to_nat i - 1)%nat with (Z.to_nat (i - 1)) by lia.
Qed.

Lemma cells_swapped (a : list Z) (sz i j : Z) :
  1 <= i <= sz -> 1 <= j <= sz -> sz < Z.of_nat (length a) ->
  take (Z.to_nat sz) (drop 1 (bh_swapped a i j)) ≡ₚ take (Z.to_nat sz) (drop 1 a).
Proof.
  intros Hi Hj Hsz. unfold bh_swapped. rewrite !cells_insert by done.
  apply exchange_Permutation; by apply cells_lookup.
Qed.

Lemma elem_of_cells (a : list Z) (sz x : Z) :
  0 <= sz < Z.of_nat (length a) ->
  x ∈ take (Z.to_nat sz) (drop 1 a) <-> exists i, 1 <= i <= sz /\ dv a i = x.
Proof.
  intros Hsz. rewrite list_elem_of_lookup. split.
  - intros [k Hk].
    assert (Hlt : (k < Z.to_nat sz)%nat).
    { apply lookup_lt_Some in Hk. rewrite length_take in Hk. lia. }
    exists (Z.of_nat k + 1). split; [lia|].
    pose proof (cells_lookup a sz (Z.of_nat k + 1) ltac:(lia) ltac:(lia)) as Hc.
    replace (Z.to_nat (Z.of_nat k + 1 - 1)) with k in Hc by lia.
    congruence.
  - intros (i & Hi & <-). exists (Z.to_nat (i - 1)). apply cells_lookup; lia.
Qed.

Lemma before_refl isMin a : before isMin a a.
Proof. destruct isMin; simpl; lia. Qed.

Lemma before_trans isMin a b c :
  before isMin a b -> before isMin b c -> before isMin a c.
Proof. destruct isMin; simpl; lia. Qed.

Lemma before_total isMin a b : ¬ before isMin a b -> before isMin b a.
Proof. destruct isMin; simpl; lia. Qed.

Lemma out_of_order_spec isMin (a : list Z) p i :
  0 <= p < Z.of_nat (length a) -> 0 <= i < Z.of_nat (length a) ->
  BinaryHeap.out_of_order isMin a p i =
  Ok (bool_decide (¬ before isMin (dv a p) (dv a i))).
Proof.
  intros Hp Hi. unfold BinaryHeap.out_of_order.
  destruct isMin; cbn [negb before]; rewrite ?rd_dv by done;
    cbn [mbind result_bind].
  - case_bool_decide.
    + by rewrite bool_decide_eq_true_2 by lia.
    + by rewrite bool_decide_eq_false_2 by lia.
  - f_equal. apply bool_decide_ext. lia.
Qed.

Lemma choose_spec isMin (a : list Z) c t :
  0 <= c < Z.of_nat (length a) -> 0 <= t < Z.of_nat (length a) ->
  BinaryHeap.choose isMin a c t =
  Ok (if bool_decide (before isMin (dv a t) (dv a c)) then t else c).
Proof.
  intros Hc Ht. unfold BinaryHeap.choose.
  destruct isMin; cbn [negb before]; rewrite ?rd_dv by done;
    cbn [mbind result_bind].
  - case_bool_decide.
    + by rewrite bool_decide_eq_false_2 by lia.
    + by rewrite bool_decide_eq_true_2 by lia.
  - f_equal. case_bool_decide.
    + by rewrite bool_decide_eq_false_2 by lia.
    + by rewrite bool_decide_eq_true_2 by lia.
Qed.

Ltac halves j :=
  let H := fresh "Hdm" in
  let H' := fresh "Hmb" in
  pose proof (Z.div_mod j 2 ltac:(lia)) as H;
  pose proof (Z.mod_pos_bound j 2 ltac:(lia)) as H'.

Lemma before_eq isMin (a : list Z) x y x' y' :
  before isMin (dv a x) (dv a y) -> x = x' -> y = y' ->
  before isMin (dv a x') (dv a y').
Proof. by intros H <- <-. Qed.

Ltac bh_cells :=
  rewrite !dv_bh_swapped by lia; repeat case_decide; try (exfalso; lia).
Ltac bh_by H := eapply before_eq; [apply H; lia|lia|lia].

(** *** heapifyUp *)

Lemma bh_up_step isMin a sz i :
  Z.of_nat (length a) > sz -> 2 <= i <= sz ->
  bh_up isMin a sz i -> ¬ before isMin (dv a (i / 2)) (dv a i) ->
  bh_up isMin (bh_swapped a i (i / 2)) sz (i / 2).
Proof.
  intros Hlen Hi [Hup1 Hup2] Hout. halves i.
  apply before_total in Hout.
  split.
  - intros j Hj Hjp. halves j. bh_cells.
    + exact Hout.
    + eapply before_trans; [exact Hout|]. bh_by (Hup1 j).
    + bh_by (Hup2 j).
    + bh_by (Hup1 j).
  - intros j Hj Hjp Hp. halves j. halves (i / 2).
    assert (Hpp : before isMin (dv a (i / 2 / 2)) (dv a (i / 2)))
      by (apply Hup1; lia).
    bh_cells.
    + exact Hpp.
    + eapply before_trans; [exact Hpp|]. bh_by (Hup1 j).
Qed.

Lemma bh_up_done isMin a sz i :
  bh_up isMin a sz i -> (i <= 1 \/ before isMin (dv a (i / 2)) (dv a i)) ->
  bh_ordered_from isMin a sz 1.
Proof.
  intros [Hup1 _] Hdone j Hj _.
  destruct (decide (j = i)) as [->|Hne]; [|by apply Hup1].
  destruct Hdone; [lia|done].
Qed.

Lemma bh_heapifyUp_loop_spec isMin fuel : forall a sz i,
  Z.of_nat (length a) > sz -> 1 <= i <= sz -> i < 2 ^ Z.of_nat fuel ->
  bh_up isMin a sz i ->
  exists a',
    BinaryHeap.heapifyUp_loop fuel isMin a i = Ok a' /\ length a' = length a /\
    bh_ordered_from isMin a' sz 1 /\
    take (Z.to_nat sz) (drop 1 a') ≡ₚ take (Z.to_nat sz) (drop 1 a).
Proof.
  induction fuel as [|fuel IH]; intros a sz i Hlen Hi Hfuel Hup.
  - simpl in Hfuel. lia.
  - cbn [BinaryHeap.heapifyUp_loop]. case_bool_decide as Hi1.
    + assert (Hq : i ÷ 2 = i / 2) by (apply Z.quot_div_nonneg; lia).
      rewrite Hq. halves i.
      rewrite out_of_order_spec by lia. cbn [mbind result_bind].
      case_bool_decide as Hout.
      * rewrite bh_swap_Ok by lia. cbn [mbind result_bind].
        destruct (IH (bh_swapped a i (i / 2)) sz (i / 2))
          as (a' & Hrun & Hlen' & Hord & Hperm).
        -- by rewrite length_bh_swapped.
        -- lia.
        -- rewrite Nat2Z.inj_succ, Z.pow_succ_r in Hfuel by lia. lia.
        -- apply bh_up_step; (done || lia).
        -- exists a'. split; [done|]. split; [by rewrite Hlen', length_bh_swapped|].
           split; [done|]. rewrite Hperm. apply cells_swapped; lia.
      * exists a. split; [done|]. split; [done|]. split; [|done].
        eapply bh_up_done; [done|]. right.
        destruct (decide (before isMin (dv a (i / 2)) (dv a i))); [done|].
        by exfalso.
    + exists a. split; [done|]. split; [done|]. split; [|done].
      eapply bh_up_done; [done|]. left. lia.
Qed.

(** *** heapifyDown *)

Lemma bh_down_step isMin a sz lo i c :
  Z.of_nat (length a) > sz -> 1 <= lo <= i -> 2 <= c <= sz -> c / 2 = i ->
  bh_down isMin a sz lo i ->
  (forall j, 2 <= j <= sz -> j / 2 = i -> before isMin (dv a c) (dv a j)) ->
  before isMin (dv a c) (dv a i) ->
  bh_down isMin (bh_swapped a i c) sz lo c.
Proof.
  intros Hlen Hlo Hc Hci [Hd1 Hd2] Hbest Hci'. halves c.
  split.
  - intros j Hj Hjlo Hjc. halves j. bh_cells.
    + exact Hci'.
    + bh_by (Hbest j).
    + subst j. bh_by (Hd2 c).
    + bh_by (Hd1 j).
  - intros j Hj Hjc Hc2 Hclo. halves j. bh_cells. bh_by (Hd1 j).
Qed.

Lemma bh_down_done isMin a sz lo i :
  bh_down isMin a sz lo i ->
  (forall j, 2 <= j <= sz -> j / 2 = i -> before isMin (dv a i) (dv a j)) ->
  bh_ordered_from isMin a sz lo.
Proof.
  intros [Hd1 _] Hch j Hj Hjlo.
  destruct (decide (j / 2 = i)) as [Heq|Hne]; [|by apply Hd1].
  rewrite Heq. by apply Hch.
Qed.

(** The target that [heapifyDown] picks among the cell [i] and its
    children holds a value that comes before those of the three cells. *)
Lemma bh_select isMin (a : list Z) sz i {B} (k : Z -> result B) :
  Z.of_nat (length a) > sz -> 1 <= i <= sz ->
  exists t,
    (target ← (if bool_decide (2 * i <= sz) then BinaryHeap.choose isMin a (2 * i) i
               else Ok i);
     target ← (if bool_decide (2 * i + 1 <= sz)
               then BinaryHeap.choose isMin a (2 * i + 1) target
               else Ok target);
     k target) = k t /\
    (t = i \/ (t = 2 * i /\ 2 * i <= sz) \/ (t = 2 * i + 1 /\ 2 * i + 1 <= sz)) /\
    before isMin (dv a t) (dv a i) /\
    (2 * i <= sz -> before isMin (dv a t) (dv a (2 * i))) /\
    (2 * i + 1 <= sz -> before isMin (dv a t) (dv a (2 * i + 1))).
Proof.
  intros Hlen Hi.
  assert (Hstep : forall c t, 0 <= c -> 0 <= t < Z.of_nat (length a) ->
    exists t',
      (if bool_decide (c <= sz) then BinaryHeap.choose isMin a c t else Ok t) = Ok t' /\
      (t' = t \/ (t' = c /\ c <= sz)) /\
      before isMin (dv a t') (dv a t) /\
      (c <= sz -> before isMin (dv a t') (dv a c))).
  { intros c t Hc Ht. case_bool_decide as Hcs.
    - rewrite choose_spec by lia. case_bool_decide as Hb.
      + exists t. split; [done|]. split; [by left|].
        split; [apply before_refl|done].
      + exists c. split; [done|]. split; [by right|].
        split; [by apply before_total|intros; apply before_refl].
    - exists t. split; [done|]. split; [by left|].
      split; [apply before_refl|lia]. }
  destruct (Hstep (2 * i) i) as (t1 & Hrun1 & Ht1 & Hb1 & Hl1); [lia|lia|].
  destruct (Hstep (2 * i + 1) t1) as (t & Hrun & Ht & Hb & Hr); [lia|lia|].
  exists t. rewrite Hrun1. cbn [mbind result_bind].
  rewrite Hrun. cbn [mbind result_bind]. split; [done|].
  split; [lia|]. split; [by eapply before_trans|].
  split; [intros; eapply before_trans; eauto|done].
Qed.

Lemma bh_heapifyDown_rec_spec isMin fuel : forall a sz lo i,
  Z.of_nat (length a) > sz -> sz < 2 ^ 30 -> 1 <= lo <= i -> i <= sz ->
  sz < i * 2 ^ Z.of_nat fuel ->
  bh_down isMin a sz lo i ->
  exists a',
    BinaryHeap.heapifyDown_rec fuel isMin a sz i = Ok a' /\ length a' = length a /\
    bh_ordered_from isMin a' sz lo /\
    take (Z.to_nat sz) (drop 1 a') ≡ₚ take (Z.to_nat sz) (drop 1 a).
Proof.
  induction fuel as [|fuel IH]; intros a sz lo i Hlen Hsz Hlo Hi Hfuel Hdown.
  - simpl in Hfuel. lia.
  - cbn [BinaryHeap.heapifyDown_rec].
    rewrite mul32_2 by lia.
    rewrite add32_exact by (unfold is_int, INT_MIN, INT_MAX; lia).
    cbv zeta.
    destruct (bh_select isMin a sz i
      (fun target =>
         if bool_decide (target ≠ i)
         then arr ← swap a i target;
              BinaryHeap.heapifyDown_rec fuel isMin arr sz target
         else Ok a))
      as (t & Hsel & Htr & Hbi & Hbl & Hbr); [done|lia|].
    rewrite Hsel. clear Hsel.
    assert (Hkids : forall j, 2 <= j <= sz -> j / 2 = i ->
              before isMin (dv a t) (dv a j)).
    { intros j Hj Hji. halves j.
      assert (j = 2 * i \/ j = 2 * i + 1) as [->| ->] by lia;
        [apply Hbl|apply Hbr]; lia. }
    case_bool_decide as Hne.
    + assert (Htc : 2 <= t <= sz /\ t / 2 = i).
      { halves t. lia. }
      destruct Htc as [Htc Hti].
      rewrite bh_swap_Ok by lia. cbn [mbind result_bind].
      destruct (IH (bh_swapped a i t) sz lo t) as (a' & Hrun & Hlen' & Hord & Hperm).
      * by rewrite length_bh_swapped.
      * done.
      * lia.
      * lia.
      * rewrite Nat2Z.inj_succ, Z.pow_succ_r in Hfuel by lia. nia.
      * apply bh_down_step; (done || lia).
      * exists a'. split; [done|]. split; [by rewrite Hlen', length_bh_swapped|].
        split; [done|]. rewrite Hperm. apply cells_swapped; lia.
    + assert (t = i) as -> by (destruct (decide (t = i)); [done|by exfalso]).
      exists a. split; [done|]. split; [done|]. split; [|done].
      by eapply bh_down_done.
Qed.

(** *** The loop of buildHeap *)

Lemma downto_cons hi lo : lo < hi -> downto hi lo = (hi - 1) :: downto (hi - 1) lo.
Proof.
  intros Hlt. unfold downto.
  replace (hi - lo) with ((hi - 1 - lo) + 1) by lia.
  rewrite seqZ_app by lia. rewrite reverse_app.
  by replace (lo + (hi - 1 - lo)) with (hi - 1) by lia.
Qed.

Lemma downto_nil hi lo : hi <= lo -> downto hi lo = [].
Proof.
  intros Hle. unfold downto. destruct (hi - lo) eqn:E; try lia; reflexivity.
Qed.

Lemma for_each_downto_inv {St} (P : Z -> St -> Prop) (hi lo : Z)
    (body : Z -> St -> result St) (s : St) :
  lo <= hi ->
  P hi s ->
  (forall i s, lo <= i < hi -> P (i + 1) s -> exists s', body i s = Ok s' /\ P i s') ->
  exists s', for_each (downto hi lo) body s = Ok s' /\ P lo s'.
Proof.
  intros Hle.
  assert (Hk : exists k : nat, hi = lo + Z.of_nat k) by (exists (Z.to_nat (hi - lo)); lia).
  destruct Hk as [k ->]. clear Hle.
  revert s. induction k as [|k IH]; intros s HP Hstep.
  - rewrite downto_nil by lia. exists s. split; [done|].
    by replace (lo + Z.of_nat 0) with lo in HP by lia.
  - rewrite downto_cons by lia.
    replace (lo + Z.of_nat (S k) - 1) with (lo + Z.of_nat k) by lia.
    cbn [for_each].
    destruct (Hstep (lo + Z.of_nat k) s) as (s1 & Hb & HP1); [lia| |].
    { by replace (lo + Z.of_nat k + 1) with (lo + Z.of_nat (S k)) by lia. }
    rewrite Hb. cbn [mbind result_bind].
    apply IH; [done|]. intros i s' Hi. apply Hstep. lia.
Qed.

(** *** The public methods *)

Lemma bh_root_first isMin a sz i :
  bh_ordered_from isMin a sz 1 -> 1 <= i <= sz ->
  before isMin (dv a 1) (dv a i).
Proof.
  intros Hord Hi.
  assert (Hgen : forall k : nat, forall j, 1 <= j <= sz -> j <= Z.of_nat k ->
                   before isMin (dv a 1) (dv a j)).
  { induction k as [|k IH]; intros j Hj Hk; [lia|].
    destruct (decide (j = 1)) as [->|Hne]; [apply before_refl|].
    halves j.
    eapply before_trans; [apply (IH (j / 2)); lia|].
    apply Hord; lia. }
  apply (Hgen (Z.to_nat i)); lia.
Qed.

Lemma cells_push (a : list Z) (sz x : Z) :
  0 <= sz -> sz + 1 < Z.of_nat (length a) ->
  take (Z.to_nat (sz + 1)) (drop 1 (<[Z.to_nat (sz + 1) := x]> a)) =
  take (Z.to_nat sz) (drop 1 a) ++ [x].
Proof.
  intros Hsz Hlen. rewrite cells_insert by lia.
  replace (Z.to_nat (sz + 1)) with (S (Z.to_nat sz)) by lia.
  replace (Z.to_nat (sz + 1 - 1)) with (Z.to_nat sz) by lia.
  destruct (lookup_lt_is_Some_2 (drop 1 a) (Z.to_nat sz)) as [y Hy].
  { rewrite length_drop. lia. }
  rewrite (take_S_r _ _ y Hy).
  rewrite insert_app_r_alt by (rewrite length_take, length_drop; lia).
  rewrite length_take, length_drop.
  replace (Z.to_nat sz - Z.to_nat sz `min` (length a - 1))%nat with 0%nat by lia.
  done.
Qed.

Lemma cells_pop (a : list Z) (sz : Z) :
  1 <= sz < Z.of_nat (length a) ->
  take (Z.to_nat sz) (drop 1 a) ≡ₚ
  dv a 1 :: take (Z.to_nat (sz - 1)) (drop 1 (<[Z.to_nat 1 := dv a sz]> a)).
Proof.
  intros Hsz.
  destruct (decide (sz = 1)) as [->|Hne].
  - change (Z.to_nat (1 - 1)) with 0%nat. rewrite take_0.
    pose proof (cells_lookup a 1 1 ltac:(lia) ltac:(lia)) as H1.
    change (Z.to_nat (1 - 1)) with 0%nat in H1.
    destruct (take (Z.to_nat 1) (drop 1 a)) as [|y [|z l]] eqn:E.
    + done.
    + injection H1 as ->. done.
    + apply (f_equal length) in E. rewrite length_take in E.
      cbn [length] in E. lia.
  - rewrite cells_insert by lia. change (Z.to_nat (1 - 1)) with 0%nat.
    pose proof (cells_lookup a sz sz ltac:(lia) ltac:(lia)) as Hlast.
    pose proof (cells_lookup a sz 1 ltac:(lia) ltac:(lia)) as Hfirst.
    change (Z.to_nat (1 - 1)) with 0%nat in Hfirst.
    replace (Z.to_nat sz) with (S (Z.to_nat (sz - 1))) in * by lia.
    rewrite lookup_take_lt in Hlast by lia.
    rewrite (take_S_r _ _ _ Hlast).
    rewrite lookup_take_lt in Hfirst by lia.
    destruct (take (Z.to_nat (sz - 1)) (drop 1 a)) as [|y f] eqn:E.
    + apply (f_equal length) in E. rewrite length_take, length_drop in E.
      cbn [length] in E. lia.
    + assert (y = dv a 1) as ->.
      { apply (f_equal (fun l => l !! 0%nat)) in E.
        rewrite lookup_take_lt in E by lia. simpl in E. congruence. }
      simpl. constructor. by rewrite <- Permutation_cons_append.
Qed.

Lemma bh_insert_spec (h : BinaryHeap.t) (val : Z) :
  bh_ok h -> BinaryHeap.size h < BinaryHeap.cap h ->
  exists h',
    BinaryHeap.insert h val = Ok h' /\ bh_ok h' /\
    BinaryHeap.isMin h' = BinaryHeap.isMin h /\
    BinaryHeap.cap h' = BinaryHeap.cap h /\
    BinaryHeap.size h' = BinaryHeap.size h + 1 /\
    bh_elems h' ≡ₚ val :: bh_elems h.
Proof.
  intros [(Hsz & Hcap & Hlen) Hord] Hroom. unfold BinaryHeap.insert.
  rewrite bool_decide_eq_false_2 by lia.
  rewrite add32_exact by (unfold is_int, INT_MIN, INT_MAX; lia).
  rewrite wr_Ok by lia. cbn [mbind result_bind].
  unfold BinaryHeap.heapifyUp.
  cbn [BinaryHeap.arr BinaryHeap.size BinaryHeap.cap BinaryHeap.isMin].
  set (sz := BinaryHeap.size h) in *. set (a := BinaryHeap.arr h) in *.
  set (a1 := <[Z.to_nat (sz + 1) := val]> a).
  assert (Hcell : forall i, 0 <= i ->
    dv a1 i = if decide (i = sz + 1) then val else dv a i).
  { intros i Hi. subst a1. apply dv_insert; lia. }
  destruct (bh_heapifyUp_loop_spec (BinaryHeap.isMin h) heapify_fuel a1 (sz + 1) (sz + 1))
    as (a' & Hrun & Hlen' & Hord' & Hperm).
  - subst a1. rewrite length_insert. lia.
  - lia.
  - change (2 ^ Z.of_nat heapify_fuel) with 4294967296.
    change (2 ^ 30) with 1073741824 in Hcap. lia.
  - split.
    + intros j Hj Hne. halves j. rewrite !Hcell by lia.
      rewrite !decide_False by lia. apply Hord; lia.
    + intros j Hj Hjp. halves j. lia.
  - rewrite Hrun. cbn [mbind result_bind]. eexists. split; [done|].
    split; [|split; [done|split; [done|split; [done|]]]].
    + split; [|done]. unfold bh_shape.
      cbn [BinaryHeap.arr BinaryHeap.size BinaryHeap.cap].
      split; [lia|]. split; [done|]. rewrite Hlen'. subst a1.
      rewrite length_insert. done.
    + unfold bh_elems. cbn [BinaryHeap.arr BinaryHeap.size].
      rewrite Hperm. subst a1. rewrite cells_push by lia.
      by rewrite <- Permutation_cons_append.
Qed.

Lemma bh_extractTop_spec (h : BinaryHeap.t) :
  bh_ok h -> 0 < BinaryHeap.size h ->
  exists top h',
    BinaryHeap.extractTop h = Ok (top, h') /\ bh_ok h' /\
    BinaryHeap.isMin h' = BinaryHeap.isMin h /\
    BinaryHeap.cap h' = BinaryHeap.cap h /\
    BinaryHeap.size h' = BinaryHeap.size h - 1 /\
    bh_elems h ≡ₚ top :: bh_elems h' /\
    (forall x, x ∈ bh_elems h -> before (BinaryHeap.isMin h) top x).
Proof.
  intros [(Hsz & Hcap & Hlen) Hord] Hpos. unfold BinaryHeap.extractTop.
  rewrite bool_decide_eq_false_2 by lia.
  rewrite !rd_dv by lia. cbn [mbind result_bind].
  rewrite wr_Ok by lia. cbn [mbind result_bind].
  rewrite sub32_exact by (unfold is_int, INT_MIN, INT_MAX; lia).
  cbn [BinaryHeap.arr BinaryHeap.size BinaryHeap.cap BinaryHeap.isMin].
  set (sz := BinaryHeap.size h) in *. set (a := BinaryHeap.arr h) in *.
  set (a1 := <[Z.to_nat 1 := dv a sz]> a).
  assert (Hcell : forall i, 0 <= i ->
    dv a1 i = if decide (i = 1) then dv a sz else dv a i).
  { intros i Hi. subst a1. apply dv_insert; lia. }
  assert (Hmin : forall x, x ∈ bh_elems h -> before (BinaryHeap.isMin h) (dv a 1) x).
  { intros x Hx. unfold bh_elems in Hx. fold sz a in Hx.
    apply elem_of_cells in Hx as (i & Hi & <-); [|lia].
    by apply (bh_root_first _ _ sz). }
  assert (Hlen1 : length a1 = length a) by (subst a1; by rewrite length_insert).
  case_bool_decide as Hrest.
  - unfold BinaryHeap.heapifyDown.
    cbn [BinaryHeap.arr BinaryHeap.size BinaryHeap.cap BinaryHeap.isMin].
    destruct (bh_heapifyDown_rec_spec (BinaryHeap.isMin h) heapify_fuel a1 (sz - 1) 1 1)
      as (a' & Hrun & Hlen' & Hord' & Hperm).
    + lia.
    + lia.
    + lia.
    + lia.
    + change (2 ^ Z.of_nat heapify_fuel) with 4294967296.
      change (2 ^ 30) with 1073741824 in Hcap. lia.
    + split.
      * intros j Hj _ Hne. halves j. rewrite !Hcell by lia.
        rewrite !decide_False by lia. apply Hord; lia.
      * intros j Hj Hjp Hbad. lia.
    + rewrite Hrun. cbn [mbind result_bind]. eexists _, _. split; [done|].
      split; [|split; [done|split; [done|split; [done|split; [|done]]]]].
      * split; [|done]. unfold bh_shape.
      cbn [BinaryHeap.arr BinaryHeap.size BinaryHeap.cap].
        split; [lia|]. split; [done|]. lia.
      * unfold bh_elems. cbn [BinaryHeap.arr BinaryHeap.size]. fold sz a.
        rewrite Hperm. apply cells_pop. lia.
  - eexists _, _. split; [done|].
    split; [|split; [done|split; [done|split; [done|split; [|done]]]]].
    + split.
      * unfold bh_shape. cbn [BinaryHeap.arr BinaryHeap.size BinaryHeap.cap].
        split; [lia|]. split; [done|]. lia.
      * cbn [BinaryHeap.arr BinaryHeap.size BinaryHeap.isMin].
        intros j Hj. lia.
    + unfold bh_elems. cbn [BinaryHeap.arr BinaryHeap.size]. fold sz a.
      apply cells_pop. lia.
Qed.

Lemma bh_buildHeap_spec (h : BinaryHeap.t) :
  bh_shape h ->
  exists h',
    BinaryHeap.buildHeap h = Ok h' /\ bh_ok h' /\
    BinaryHeap.isMin h' = BinaryHeap.isMin h /\
    BinaryHeap.cap h' = BinaryHeap.cap h /\
    BinaryHeap.size h' = BinaryHeap.size h /\
    bh_elems h' ≡ₚ bh_elems h.
Proof.
  intros (Hsz & Hcap & Hlen). unfold BinaryHeap.buildHeap.
  assert (Hq : BinaryHeap.size h ÷ 2 = BinaryHeap.size h / 2)
    by (apply Z.quot_div_nonneg; lia).
  rewrite Hq. halves (BinaryHeap.size h).
  destruct (for_each_downto_inv
    (fun i (h1 : BinaryHeap.t) =>
       BinaryHeap.isMin h1 = BinaryHeap.isMin h /\
       BinaryHeap.cap h1 = BinaryHeap.cap h /\
       BinaryHeap.size h1 = BinaryHeap.size h /\
       length (BinaryHeap.arr h1) = length (BinaryHeap.arr h) /\
       bh_ordered_from (BinaryHeap.isMin h) (BinaryHeap.arr h1) (BinaryHeap.size h) i /\
       bh_elems h1 ≡ₚ bh_elems h)
    (BinaryHeap.size h / 2 + 1) 1
    (fun i h => BinaryHeap.heapifyDown h i) h)
    as (h' & Hrun & Hmin' & Hcap' & Hsz' & Hlen' & Hord' & Hperm').
  - lia.
  - do 4 (split; [done|]). split; [|done].
    intros j Hj Hjlo. halves j. lia.
  - intros i h1 Hi (Hmin1 & Hcap1 & Hsz1 & Hlen1 & Hord1 & Hperm1).
    unfold BinaryHeap.heapifyDown. rewrite Hmin1, Hsz1.
    destruct (bh_heapifyDown_rec_spec (BinaryHeap.isMin h) heapify_fuel
                (BinaryHeap.arr h1) (BinaryHeap.size h) i i)
      as (a' & Hrun & Hlen' & Hord' & Hperm').
    + lia.
    + lia.
    + lia.
    + lia.
    + change (2 ^ Z.of_nat heapify_fuel) with 4294967296.
      change (2 ^ 30) with 1073741824 in Hcap. nia.
    + split.
      * intros j Hj Hjlo Hne. apply Hord1; lia.
      * intros j Hj Hjp Hi2 Hbad. halves i. lia.
    + rewrite Hrun. cbn [mbind result_bind]. eexists. split; [done|].
      cbn [BinaryHeap.arr BinaryHeap.size BinaryHeap.cap BinaryHeap.isMin].
      split; [done|]. split; [done|]. split; [done|].
      split; [congruence|]. split; [done|].
      rewrite <- Hperm1. unfold bh_elems.
      cbn [BinaryHeap.arr BinaryHeap.size]. by rewrite Hsz1.
  - exists h'. split; [done|]. split; [|done].
    split; [split; [lia|split; [lia|lia]]|].
    by rewrite Hmin', Hsz'.
Qed.

Lemma bh_ok_new minHeap : bh_ok (BinaryHeap.new minHeap).
Proof.
  split.
  - unfold bh_shape. simpl. lia.
  - intros j Hj. simpl in Hj. lia.
Qed.

(** X14. [insert] keeps the invariant of the heap (min-heap or max-heap
    order). With room left, the values of the heap are the old ones and the
    new one; a full heap (100 values) stays as it is and the value is
    dropped. *)
Theorem BinaryHeap_insert_keeps (h : BinaryHeap.t) (val : Z) :
  bh_ok h ->
  exists h',
    BinaryHeap.insert h val = Ok h' /\ bh_ok h' /\
    BinaryHeap.isMin h' = BinaryHeap.isMin h /\
    (BinaryHeap.size h < BinaryHeap.cap h -> bh_elems h' ≡ₚ val :: bh_elems h) /\
    (BinaryHeap.size h = BinaryHeap.cap h -> h' = h).
Proof.
  intros Hok.
  destruct (decide (BinaryHeap.size h < BinaryHeap.cap h)) as [Hroom|Hfull].
  - destruct (bh_insert_spec h val Hok Hroom)
      as (h' & Hrun & Hok' & Hmin & _ & _ & Hperm).
    exists h'. split; [done|]. split; [done|]. split; [done|].
    split; [done|lia].
  - assert (Heq : BinaryHeap.size h = BinaryHeap.cap h)
      by (destruct Hok as [(? & _) _]; lia).
    exists h. split.
    + unfold BinaryHeap.insert. by rewrite bool_decide_eq_true_2.
    + split; [done|]. split; [done|]. split; [lia|done].
Qed.

Lemma BinaryHeap_insert_keeps_witness :
  let h := BinaryHeap.new true in
  bh_ok h /\
  exists h', BinaryHeap.insert h 5 = Ok h' /\ bh_ok h' /\ bh_elems h' ≡ₚ [5].
Proof.
  intros h.
  assert (Hok : bh_ok h) by apply bh_ok_new.
  split; [exact Hok|].
  destruct (BinaryHeap_insert_keeps h 5 Hok) as (h' & Hrun & Hok' & _ & Hperm & _).
  exists h'. split; [exact Hrun|]. split; [exact Hok'|].
  apply Hperm. simpl. lia.
Defined.

(** X15. [extractTop] on a heap that holds values returns a value that
    comes first in the order of the heap (a least value of a min-heap, a
    greatest value of a max-heap), takes one occurrence of it out and keeps
    the invariant; on an empty heap it returns -999999 and leaves the heap
    as it is. *)
Theorem BinaryHeap_extractTop_first (h : BinaryHeap.t) :
  bh_ok h ->
  exists top h',
    BinaryHeap.extractTop h = Ok (top, h') /\ bh_ok h' /\
    BinaryHeap.isMin h' = BinaryHeap.isMin h /\
    (0 < BinaryHeap.size h ->
     bh_elems h ≡ₚ top :: bh_elems h' /\
     forall x, x ∈ bh_elems h -> before (BinaryHeap.isMin h) top x) /\
    (BinaryHeap.size h = 0 -> top = -999999 /\ h' = h).
Proof.
  intros Hok.
  destruct (decide (0 < BinaryHeap.size h)) as [Hpos|Hempty].
  - destruct (bh_extractTop_spec h Hok Hpos)
      as (top & h' & Hrun & Hok' & Hmin & _ & _ & Hperm & Hfirst).
    exists top, h'. split; [done|]. split; [done|]. split; [done|].
    split; [done|lia].
  - assert (Hz : BinaryHeap.size h = 0) by (destruct Hok as [(? & _) _]; lia).
    exists (-999999), h. split.
    + unfold BinaryHeap.extractTop. by rewrite bool_decide_eq_true_2.
    + split; [done|]. split; [done|]. split; [lia|done].
Qed.

Lemma BinaryHeap_extractTop_first_witness :
  let h := BinaryHeap.mk [0; 3; 3; 4; 5] 4 4 true in
  (bh_ok h /\ 0 < BinaryHeap.size h) /\
  (exists top h',
     BinaryHeap.extractTop h = Ok (top, h') /\ bh_ok h' /\
     bh_elems h ≡ₚ top :: bh_elems h' /\
     forall x, x ∈ bh_elems h -> before (BinaryHeap.isMin h) top x) /\
  BinaryHeap.extractTop h = Ok (3, BinaryHeap.mk [0; 3; 5; 4; 5] 3 4 true).
Proof.
  intros h.
  assert (Hok : bh_ok h).
  { split; [unfold bh_shape; simpl; lia|].
    intros j Hj _. simpl in Hj.
    assert (j = 2 \/ j = 3 \/ j = 4) as [->|[->| ->]] by lia; by vm_compute. }
  assert (Hpos : 0 < BinaryHeap.size h) by (simpl; lia).
  split; [done|]. split; [|reflexivity].
  destruct (BinaryHeap_extractTop_first h Hok) as (top & h' & Hrun & Hok' & _ & Htake & _).
  destruct (Htake Hpos) as [Hperm Hfirst].
  exists top, h'. split; [exact Hrun|]. split; [exact Hok'|].
  split; [exact Hperm|exact Hfirst].
Defined.

(** X16. [convertToMaxHeap] and [convertToMinHeap] turn any array of
    values into a heap of the asked kind: the object then satisfies the
    invariant for the new order and holds the same values as before, each
    as often as before. *)
Theorem BinaryHeap_convert (h : BinaryHeap.t) :
  bh_shape h ->
  (exists h',
     BinaryHeap.convertToMaxHeap h = Ok h' /\ bh_ok h' /\
     BinaryHeap.getIsMinHeap h' = false /\ bh_elems h' ≡ₚ bh_elems h) /\
  (exists h',
     BinaryHeap.convertToMinHeap h = Ok h' /\ bh_ok h' /\
     BinaryHeap.getIsMinHeap h' = true /\ bh_elems h' ≡ₚ bh_elems h).
Proof.
  intros Hshape. split.
  - destruct (bh_buildHeap_spec
      (BinaryHeap.mk (BinaryHeap.arr h) (BinaryHeap.size h) (BinaryHeap.cap h) false))
      as (h' & Hrun & Hok' & Hmin & _ & _ & Hperm); [done|].
    exists h'. done.
  - destruct (bh_buildHeap_spec
      (BinaryHeap.mk (BinaryHeap.arr h) (BinaryHeap.size h) (BinaryHeap.cap h) true))
      as (h' & Hrun & Hok' & Hmin & _ & _ & Hperm); [done|].
    exists h'. done.
Qed.

Lemma BinaryHeap_convert_witness :
  let h := BinaryHeap.mk [0; 1; 2; 3] 3 3 true in
  bh_shape h /\
  exists h', BinaryHeap.convertToMaxHeap h = Ok h' /\ bh_ok h' /\
             BinaryHeap.getIsMinHeap h' = false.
Proof.
  intros h.
  assert (Hshape : bh_shape h).
  { unfold bh_shape. simpl. lia. }
  split; [exact Hshape|].
  destruct (BinaryHeap_convert h Hshape) as [(h' & Hrun & Hok' & Hflag & _) _].
  exists h'. split; [exact Hrun|]. split; [exact Hok'|exact Hflag].
Defined.

(** X17. [getArray] returns the rendering of the values of the heap, in
    the order of the cells [1 .. size]: their decimal numerals, joined by
    commas, in brackets; no value is [INT_MIN], which [intToString] cannot
    negate. After [clear] it is the rendering of the empty sequence. *)
Theorem BinaryHeap_getArray_spec (h : BinaryHeap.t) :
  bh_shape h ->
  (Forall printable (bh_elems h) ->
   BinaryHeap.getArray h = Ok (show_ints (bh_elems h))) /\
  BinaryHeap.getArray (BinaryHeap.clear h) = Ok (show_ints []).
Proof.
  intros (Hsz & Hcap & Hlen).
  assert (Hgen : forall h1 : BinaryHeap.t,
    0 <= BinaryHeap.size h1 < Z.of_nat (length (BinaryHeap.arr h1)) ->
    Forall printable (bh_elems h1) ->
    BinaryHeap.getArray h1 = Ok (show_ints (bh_elems h1))).
  { intros h1 Hs Hprint. unfold BinaryHeap.getArray.
    rewrite (for_each_join 1 (BinaryHeap.size h1 + 1) _ (numeral <$> bh_elems h1)).
    - cbn [mbind result_bind]. unfold show_ints, join_ints.
      by rewrite string_app_assoc.
    - rewrite length_fmap. unfold bh_elems. rewrite length_take, length_drop. lia.
    - intros i x res Hi Hx. cbv zeta.
      rewrite list_lookup_fmap in Hx.
      destruct (bh_elems h1 !! Z.to_nat (i - 1)) as [a|] eqn:Ha; [|done].
      injection Hx as <-.
      pose proof (Forall_lookup_1 _ _ _ _ Hprint Ha) as [Hmin _].
      unfold bh_elems in Ha.
      rewrite cells_lookup in Ha by lia. injection Ha as <-.
      rewrite rd_dv by lia. cbn [mbind result_bind].
      rewrite intToString_numeral by done. cbn [mbind result_bind].
      replace (bool_decide (i < BinaryHeap.size h1 + 1 - 1))
        with (bool_decide (i < BinaryHeap.size h1)) by (apply bool_decide_ext; lia).
      case_bool_decide; by rewrite ?string_app_assoc, ?string_app_nil_r. }
  split.
  - apply Hgen. lia.
  - rewrite Hgen; [done|simpl; lia|]. unfold bh_elems. simpl. constructor.
Qed.

Lemma BinaryHeap_getArray_spec_witness :
  let h := BinaryHeap.mk [0; -7; 20; 3] 3 3 true in
  (bh_shape h /\ Forall printable (bh_elems h)) /\
  BinaryHeap.getArray h = Ok (show_ints (bh_elems h)) /\
  show_ints (bh_elems h) = "[-7,20,3]"%string.
Proof.
  intros h.
  assert (Hshape : bh_shape h).
  { unfold bh_shape. simpl. lia. }
  assert (Hp : Forall printable (bh_elems h)).
  { repeat constructor; by vm_compute. }
  split; [done|].
  destruct (BinaryHeap_getArray_spec h Hshape) as [Hrun _].
  split; [exact (Hrun Hp)|reflexivity].
Defined.

Lemma bh_extract_spec (k : nat) : forall h,
  bh_ok h -> BinaryHeap.size h = Z.of_nat k ->
  exists l h',
    BinaryHeap.extract k h = Ok (l, h') /\ bh_ok h' /\ BinaryHeap.size h' = 0 /\
    l ≡ₚ bh_elems h /\
    Sorted (before (BinaryHeap.isMin h)) l.
Proof.
  induction k as [|k IH]; intros h Hok Hsize.
  - exists [], h. split; [done|]. split; [done|]. split; [done|].
    split; [|constructor]. unfold bh_elems. by rewrite Hsize.
  - cbn [BinaryHeap.extract].
    destruct (bh_extractTop_spec h Hok)
      as (top & h1 & Hrun & Hok1 & Hmin1 & _ & Hsz1 & Hperm1 & Hfirst); [lia|].
    rewrite Hrun. cbn [mbind result_bind].
    destruct (IH h1 Hok1) as (l & h' & Hrest & Hok' & Hsz' & Hperm & Hsorted); [lia|].
    rewrite Hrest. cbn [mbind result_bind].
    exists (top :: l), h'. split; [done|]. split; [done|]. split; [done|].
    split; [by rewrite Hperm1, Hperm|].
    rewrite Hmin1 in Hsorted. constructor; [done|].
    destruct l as [|b l]; constructor.
    apply Hfirst. rewrite Hperm1. right. rewrite <- Hperm. by left.
Qed.

(** X18. Heap sort: calling [extractTop] once per value of the heap
    returns the values of the heap, each as often as the heap holds it, in
    ascending order for a min-heap and in descending order for a max-heap,
    and leaves the heap empty. *)
Theorem BinaryHeap_extract_sorted (h : BinaryHeap.t) :
  bh_ok h ->
  exists l h',
    BinaryHeap.extract (Z.to_nat (BinaryHeap.size h)) h = Ok (l, h') /\
    BinaryHeap.size h' = 0 /\
    l ≡ₚ bh_elems h /\
    Sorted (before (BinaryHeap.isMin h)) l.
Proof.
  intros Hok.
  destruct (bh_extract_spec (Z.to_nat (BinaryHeap.size h)) h Hok)
    as (l & h' & Hrun & _ & Hsz & Hperm & Hsorted).
  { destruct Hok as [(? & _) _]. lia. }
  exists l, h'. done.
Qed.

Lemma BinaryHeap_extract_sorted_witness :
  let h := BinaryHeap.mk [0; 1; 3; 2] 3 3 true in
  bh_ok h /\
  exists l h', BinaryHeap.extract (Z.to_nat (BinaryHeap.size h)) h = Ok (l, h') /\
               BinaryHeap.size h' = 0.
Proof.
  intros h.
  assert (Hok : bh_ok h).
  { split.
    - unfold bh_shape. simpl. lia.
    - intros j Hj _. simpl in Hj.
      assert (Hj' : j = 2 \/ j = 3) by lia.
      destruct Hj' as [->| ->]; by vm_compute. }
  split; [exact Hok|].
  destruct (BinaryHeap_extract_sorted h Hok) as (l & h' & Hrun & Hsz & _).
  exists l, h'. split; [exact Hrun|exact Hsz].
Defined.

Lemma bh_step_ok h c :
  bh_ok h ->
  exists h', BinaryHeap.step h c = Ok h' /\ bh_ok h' /\
             BinaryHeap.cap h' = BinaryHeap.cap h.
Proof.
  intros Hok. pose proof Hok as [Hshape Hord].
  destruct c as [val| | | |]; cbn [BinaryHeap.step].
  - destruct (decide (BinaryHeap.size h < BinaryHeap.cap h)) as [Hroom|Hfull].
    + destruct (bh_insert_spec h val Hok Hroom) as (h' & Hrun & Hok' & _ & Hcap & _).
      by exists h'.
    + exists h. split; [|done]. unfold BinaryHeap.insert.
      rewrite bool_decide_eq_true_2; [done|]. destruct Hshape as (? & _). lia.
  - destruct (decide (0 < BinaryHeap.size h)) as [Hpos|Hempty].
    + destruct (bh_extractTop_spec h Hok Hpos)
        as (top & h' & Hrun & Hok' & _ & Hcap & _).
      rewrite Hrun. cbn [mbind result_bind]. by exists h'.
    + exists h. split; [|done]. unfold BinaryHeap.extractTop.
      rewrite bool_decide_eq_true_2; [done|]. destruct Hshape as (? & _). lia.
  - destruct (bh_buildHeap_spec
      (BinaryHeap.mk (BinaryHeap.arr h) (BinaryHeap.size h) (BinaryHeap.cap h) true))
      as (h' & Hrun & Hok' & _ & Hcap & _); [done|].
    by exists h'.
  - destruct (bh_buildHeap_spec
      (BinaryHeap.mk (BinaryHeap.arr h) (BinaryHeap.size h) (BinaryHeap.cap h) false))
      as (h' & Hrun & Hok' & _ & Hcap & _); [done|].
    by exists h'.
  - eexists. split; [done|]. split; [|done]. split.
    + destruct Hshape as (Hsz & Hcap & Hlen). unfold bh_shape. simpl. lia.
    + intros j Hj. simpl in Hj. lia.
Qed.

(** X19. The class invariant of [BinaryHeap]. Every sequence of calls of
    [insert], [extractTop], [convertToMinHeap], [convertToMaxHeap] and
    [clear] on a new heap runs without undefined behaviour, and leaves a
    heap in the order of its kind that holds at most 100 values. *)
Theorem BinaryHeap_class_invariant (minHeap : bool) (calls : list BinaryHeap.call) :
  exists h,
    BinaryHeap.run (BinaryHeap.new minHeap) calls = Ok h /\ bh_ok h /\
    (length (bh_elems h) <= 100)%nat.
Proof.
  assert (Hrun : forall h, bh_ok h ->
    exists h', BinaryHeap.run h calls = Ok h' /\ bh_ok h' /\
               BinaryHeap.cap h' = BinaryHeap.cap h).
  { induction calls as [|c calls IH]; intros h Hok.
    - by exists h.
    - destruct (bh_step_ok h c Hok) as (h1 & Hstep & Hok1 & Hcap1).
      destruct (IH h1 Hok1) as (h' & Hrun & Hok' & Hcap').
      exists h'. cbn [BinaryHeap.run]. rewrite Hstep. cbn [mbind result_bind].
      split; [done|]. split; [done|]. congruence. }
  destruct (Hrun (BinaryHeap.new minHeap) (bh_ok_new minHeap)) as (h & Hh & Hok & Hcap).
  exists h. split; [done|]. split; [done|].
  unfold bh_elems. rewrite length_take. destruct Hok as [(Hsz & _) _].
  simpl in Hcap. lia.
Qed.

(** ** MinHeap: what a user of the class sees *)

(** The cells [1 .. sz] of an array, for any type of cells. *)
Lemma cells_lookup_total {A} `{Inhabited A} (a : list A) (sz i : Z) :
  1 <= i <= sz -> sz < Z.of_nat (length a) ->
  take (Z.to_nat sz) (drop 1 a) !! Z.to_nat (i - 1) = Some (a !!! Z.to_nat i).
Proof.
  intros Hi Hsz. rewrite lookup_take_lt by lia. rewrite lookup_drop.
  replace (1 + Z.to_nat (i - 1))%nat with (Z.to_nat i) by lia.
  apply list_lookup_lookup_total_lt. lia.
Qed.

Lemma cells_insert_total {A} (a : list A) (sz i : Z) (x : A) :
  1 <= i <= sz ->
  take (Z.to_nat sz) (drop 1 (<[Z.to_nat i := x]> a)) =
  <[Z.to_nat (i - 1) := x]> (take (Z.to_nat sz) (drop 1 a)).
Proof.
  intros Hi. rewrite drop_insert_ge by lia. rewrite take_insert_lt by lia.
  by replace (Z.to_nat i - 1)%nat with (Z.to_nat (i - 1)) by lia.
Qed.

Lemma cells_exchange (a : list PQNode) (sz i j : Z) :
  1 <= i <= sz -> 1 <= j <= sz -> sz < Z.of_nat (length a) ->
  take (Z.to_nat sz) (drop 1 (swapped a i j)) ≡ₚ take (Z.to_nat sz) (drop 1 a).
Proof.
  intros Hi Hj Hsz. unfold swapped, cell. rewrite !cells_insert_total by done.
  apply exchange_Permutation; by apply cells_lookup_total.
Qed.

Lemma cells_snoc {A} (a : list A) (sz : Z) (x : A) :
  0 <= sz -> sz + 1 < Z.of_nat (length a) ->
  take (Z.to_nat (sz + 1)) (drop 1 (<[Z.to_nat (sz + 1) := x]> a)) =
  take (Z.to_nat sz) (drop 1 a) ++ [x].
Proof.
  intros Hsz Hlen. rewrite cells_insert_total by lia.
  replace (Z.to_nat (sz + 1)) with (S (Z.to_nat sz)) by lia.
  replace (Z.to_nat (sz + 1 - 1)) with (Z.to_nat sz) by lia.
  destruct (lookup_lt_is_Some_2 (drop 1 a) (Z.to_nat sz)) as [y Hy].
  { rewrite length_drop. lia. }
  rewrite (take_S_r _ _ y Hy).
  rewrite insert_app_r_alt by (rewrite length_take, length_drop; lia).
  rewrite length_take, length_drop.
  replace (Z.to_nat sz - Z.to_nat sz `min` (length a - 1))%nat with 0%nat by lia.
  done.
Qed.

Lemma cells_uncons (a : list PQNode) (sz : Z) :
  1 <= sz < Z.of_nat (length a) ->
  take (Z.to_nat sz) (drop 1 a) ≡ₚ
  cell a 1 :: take (Z.to_nat (sz - 1)) (drop 1 (<[Z.to_nat 1 := cell a sz]> a)).
Proof.
  intros Hsz. unfold cell.
  destruct (decide (sz = 1)) as [->|Hne].
  - change (Z.to_nat (1 - 1)) with 0%nat. rewrite take_0.
    pose proof (cells_lookup_total a 1 1 ltac:(lia) ltac:(lia)) as H1.
    change (Z.to_nat (1 - 1)) with 0%nat in H1.
    destruct (take (Z.to_nat 1) (drop 1 a)) as [|y [|z l]] eqn:E.
    + done.
    + injection H1 as ->. done.
    + apply (f_equal length) in E. rewrite length_take in E.
      cbn [length] in E. lia.
  - rewrite cells_insert_total by lia. change (Z.to_nat (1 - 1)) with 0%nat.
    pose proof (cells_lookup_total a sz sz ltac:(lia) ltac:(lia)) as Hlast.
    pose proof (cells_lookup_total a sz 1 ltac:(lia) ltac:(lia)) as Hfirst.
    change (Z.to_nat (1 - 1)) with 0%nat in Hfirst.
    replace (Z.to_nat sz) with (S (Z.to_nat (sz - 1))) in * by lia.
    rewrite lookup_take_lt in Hlast by lia.
    rewrite (take_S_r _ _ _ Hlast).
    rewrite lookup_take_lt in Hfirst by lia.
    destruct (take (Z.to_nat (sz - 1)) (drop 1 a)) as [|y f] eqn:E.
    + apply (f_equal length) in E. rewrite length_take, length_drop in E.
      cbn [length] in E. lia.
    + assert (y = a !!! Z.to_nat 1) as ->.
      { apply (f_equal (fun l => l !! 0%nat)) in E.
        rewrite lookup_take_lt in E by lia. simpl in E. congruence. }
      simpl. constructor. by rewrite <- Permutation_cons_append.
Qed.

Lemma elem_of_heap_entries h x :
  heap_ok h -> x ∈ heap_entries h <-> in_heap h x.
Proof.
  intros (Hsz & _ & Hlen & _). unfold heap_entries, in_heap. split.
  - intros (i & Hi)%list_elem_of_lookup.
    pose proof (lookup_lt_Some _ _ _ Hi) as Hlt.
    rewrite length_take, length_drop in Hlt.
    exists (Z.of_nat i + 1). split; [lia|].
    pose proof (cells_lookup_total (heap h) (size h) (Z.of_nat i + 1)
                  ltac:(lia) ltac:(lia)) as Hc.
    replace (Z.to_nat (Z.of_nat i + 1 - 1)) with i in Hc by lia.
    unfold cell. congruence.
  - intros (i & Hi & <-). apply list_elem_of_lookup.
    exists (Z.to_nat (i - 1)). apply cells_lookup_total; lia.
Qed.

(** [heapifyUp] and [heapifyDown] only exchange cells. *)
Lemma heapifyUp_loop_perm fuel : forall a sz i a',
  Z.of_nat (length a) > sz -> 1 <= i <= sz ->
  heapifyUp_loop fuel a i = Ok a' ->
  take (Z.to_nat sz) (drop 1 a') ≡ₚ take (Z.to_nat sz) (drop 1 a).
Proof.
  induction fuel as [|fuel IH]; intros a sz i a' Hlen Hi Hrun; [done|].
  cbn [heapifyUp_loop] in Hrun. case_bool_decide as Hi1.
  - assert (Hq : i ÷ 2 = i / 2) by (apply Z.quot_div_nonneg; lia).
    rewrite Hq in Hrun.
    assert (Hp : 1 <= i / 2 < i)
      by (split; [apply Z.div_le_lower_bound|apply Z.div_lt_upper_bound]; lia).
    rewrite !rd_cell in Hrun by lia. cbn [mbind result_bind] in Hrun.
    case_bool_decide as Hlt.
    + rewrite swap_Ok in Hrun by lia. cbn [mbind result_bind] in Hrun.
      transitivity (take (Z.to_nat sz) (drop 1 (swapped a i (i / 2))));
        [|apply cells_exchange; lia].
      apply (IH _ sz (i / 2)); [rewrite length_swapped; lia|lia|done].
    + by injection Hrun as <-.
  - by injection Hrun as <-.
Qed.

Lemma heapifyDown_rec_perm fuel : forall a sz i a',
  Z.of_nat (length a) > sz -> sz < 2 ^ 30 -> 1 <= i <= sz ->
  heapifyDown_rec fuel a sz i = Ok a' ->
  take (Z.to_nat sz) (drop 1 a') ≡ₚ take (Z.to_nat sz) (drop 1 a).
Proof.
  induction fuel as [|fuel IH]; intros a sz i a' Hlen Hsz Hi Hrun; [done|].
  cbn [heapifyDown_rec] in Hrun.
  rewrite mul32_2 in Hrun by lia.
  rewrite add32_exact in Hrun by (unfold is_int, INT_MIN, INT_MAX; lia).
  set (s1 := if decide (2 * i <= sz /\ key (cell a (2 * i)) < key (cell a i))
             then 2 * i else i).
  assert (Hs1 : (if bool_decide (2 * i <= sz) then
                   a0 ← rd a (2 * i); b ← rd a i;
                   Ok (if bool_decide (key a0 < key b) then 2 * i else i)
                 else Ok i) = Ok s1).
  { clear Hrun. subst s1. case_bool_decide.
    - rewrite !rd_cell by lia. cbn [mbind result_bind].
      case_bool_decide; [by rewrite decide_True|by rewrite decide_False by tauto].
    - by rewrite decide_False by tauto. }
  rewrite Hs1 in Hrun. cbn [mbind result_bind] in Hrun. clear Hs1.
  assert (Hs1r : 1 <= s1 <= sz) by (subst s1; case_decide; lia).
  set (s2 := if decide (2 * i + 1 <= sz /\ key (cell a (2 * i + 1)) < key (cell a s1))
             then 2 * i + 1 else s1).
  assert (Hs2 : (if bool_decide (2 * i + 1 <= sz) then
                   a0 ← rd a (2 * i + 1); b ← rd a s1;
                   Ok (if bool_decide (key a0 < key b) then 2 * i + 1 else s1)
                 else Ok s1) = Ok s2).
  { clear Hrun. subst s2. case_bool_decide.
    - rewrite !rd_cell by lia. cbn [mbind result_bind].
      case_bool_decide; [by rewrite decide_True|by rewrite decide_False by tauto].
    - by rewrite decide_False by tauto. }
  rewrite Hs2 in Hrun. cbn [mbind result_bind] in Hrun. clear Hs2.
  assert (Hs2r : 1 <= s2 <= sz) by (subst s2; case_decide; lia).
  case_bool_decide as Hne.
  - rewrite swap_Ok in Hrun by lia. cbn [mbind result_bind] in Hrun.
    transitivity (take (Z.to_nat sz) (drop 1 (swapped a i s2)));
      [|apply cells_exchange; lia].
    apply (IH _ sz s2); [rewrite length_swapped; lia|done|done|done].
  - by injection Hrun as <-.
Qed.

Lemma push_perm h v k h' :
  heap_ok h -> size h < capacity h -> push h v k = Ok h' ->
  heap_entries h' ≡ₚ mkPQNode v k :: heap_entries h.
Proof.
  intros (Hsz & Hcap & Hlen & Hord) Hfree Hrun. unfold push in Hrun.
  rewrite bool_decide_eq_false_2 in Hrun by lia.
  rewrite add32_exact in Hrun by (unfold is_int, INT_MIN, INT_MAX; lia).
  rewrite wr_Ok in Hrun by lia. cbn [mbind result_bind] in Hrun.
  unfold heapifyUp in Hrun. cbn [heap size capacity] in Hrun.
  destruct (heapifyUp_loop heapify_fuel
              (<[Z.to_nat (size h + 1) := mkPQNode v k]> (heap h)) (size h + 1))
    as [a'| |] eqn:Hup; cbn [mbind result_bind] in Hrun; try discriminate.
  injection Hrun as <-. unfold heap_entries. cbn [heap size].
  transitivity (take (Z.to_nat (size h + 1))
                  (drop 1 (<[Z.to_nat (size h + 1) := mkPQNode v k]> (heap h)))).
  { eapply heapifyUp_loop_perm; [|
      |exact Hup]; [rewrite length_insert; lia|lia]. }
  rewrite cells_snoc by lia. by rewrite <- Permutation_cons_append.
Qed.

Lemma pop_perm h top h' :
  heap_ok h -> 0 < size h -> pop h = Ok (top, h') ->
  heap_entries h ≡ₚ top :: heap_entries h'.
Proof.
  intros (Hsz & Hcap & Hlen & Hord) Hpos Hrun. unfold pop in Hrun.
  rewrite bool_decide_eq_false_2 in Hrun by lia.
  rewrite !rd_cell in Hrun by lia. cbn [mbind result_bind] in Hrun.
  rewrite wr_Ok in Hrun by lia. cbn [mbind result_bind] in Hrun.
  rewrite sub32_exact in Hrun by (unfold is_int, INT_MIN, INT_MAX; lia).
  cbn [size heap capacity] in Hrun.
  pose proof (cells_uncons (heap h) (size h) ltac:(lia)) as Hcells.
  case_bool_decide as Hrest.
  - unfold heapifyDown in Hrun. cbn [heap size capacity] in Hrun.
    destruct (heapifyDown_rec heapify_fuel
                (<[Z.to_nat 1 := cell (heap h) (size h)]> (heap h)) (size h - 1) 1)
      as [a'| |] eqn:Hdown; cbn [mbind result_bind] in Hrun; try discriminate.
    injection Hrun as <- <-. unfold heap_entries. cbn [heap size].
    rewrite Hcells. constructor. symmetry.
    eapply heapifyDown_rec_perm; [| | |exact Hdown];
      [rewrite length_insert; lia|lia|lia].
  - cbn [mbind result_bind] in Hrun. injection Hrun as <- <-.
    unfold heap_entries. cbn [heap size]. done.
Qed.

(** X11. [push] keeps the heap invariant. With room left it adds the
    entry to the entries of the heap, which stay as often as they were; on
    a full heap the entry is dropped and the heap stays as it is. *)
Theorem MinHeap_push_keeps (h : MinHeap) (v k : Z) :
  heap_ok h ->
  exists h',
    push h v k = Ok h' /\ heap_ok h' /\ capacity h' = capacity h /\
    (size h < capacity h ->
     size h' = size h + 1 /\
     heap_entries h' ≡ₚ mkPQNode v k :: heap_entries h) /\
    (size h >= capacity h -> h' = h).
Proof.
  intros Hok. destruct (decide (size h < capacity h)) as [Hroom|Hfull].
  - destruct (push_spec h v k Hok Hroom) as (h' & Hrun & Hok' & Hsz & Hcap & Hin).
    exists h'. split; [done|]. split; [done|]. split; [done|].
    split; [|lia]. intros _. split; [done|]. by eapply push_perm.
  - exists h. split; [apply push_full; lia|]. split; [done|]. split; [done|].
    split; [lia|done].
Qed.

Lemma MinHeap_push_keeps_witness :
  let h := mkMinHeap [mkPQNode 0 0; mkPQNode 7 3; mkPQNode 0 0] 1 2 in
  (heap_ok h /\ size h < capacity h) /\
  (exists h', push h 8 1 = Ok h' /\ heap_ok h' /\ size h' = size h + 1 /\
     heap_entries h' ≡ₚ mkPQNode 8 1 :: heap_entries h) /\
  push h 8 1 = Ok (mkMinHeap [mkPQNode 0 0; mkPQNode 8 1; mkPQNode 7 3] 2 2) /\
  heap_entries h = [mkPQNode 7 3].
Proof.
  intros h.
  assert (Hok : heap_ok h).
  { split; [simpl; lia|]. split; [simpl; lia|]. split; [reflexivity|].
    intros j Hj. simpl in Hj. lia. }
  assert (Hroom : size h < capacity h) by (simpl; lia).
  split; [done|]. split; [|split; reflexivity].
  destruct (MinHeap_push_keeps h 8 1 Hok) as (h' & Hrun & Hok' & _ & Hadd & _).
  destruct (Hadd Hroom) as [Hsz Hperm].
  exists h'. split; [exact Hrun|]. split; [exact Hok'|].
  split; [exact Hsz|exact Hperm].
Defined.

(** X12. [pop] on a heap that holds entries returns an entry of least key,
    takes that one entry out, leaves the others as often as they were and
    keeps the heap invariant; on an empty heap it returns the entry
    [{-1, 999999}] and leaves the heap as it is. *)
Theorem MinHeap_pop_least (h : MinHeap) :
  heap_ok h ->
  exists top h',
    pop h = Ok (top, h') /\ heap_ok h' /\ capacity h' = capacity h /\
    (0 < size h ->
     size h' = size h - 1 /\
     heap_entries h ≡ₚ top :: heap_entries h' /\
     Forall (fun x => key top <= key x) (heap_entries h)) /\
    (size h = 0 -> top = mkPQNode (-1) 999999 /\ h' = h).
Proof.
  intros Hok. destruct (decide (0 < size h)) as [Hpos|Hempty].
  - destruct (pop_spec h Hok Hpos) as
      (top & h' & Hrun & Hok' & Hsz & Hcap & Htop & Hmin & Hsub & Hrest).
    exists top, h'. split; [done|]. split; [done|]. split; [done|].
    split; [|lia]. intros _. split; [done|]. split; [by eapply pop_perm|].
    apply Forall_forall. intros x Hx. by apply Hmin, elem_of_heap_entries.
  - assert (Hz : size h = 0) by (destruct Hok as (? & _); lia).
    exists (mkPQNode (-1) 999999), h. split.
    + unfold pop. by rewrite bool_decide_eq_true_2.
    + split; [done|]. split; [done|]. split; [lia|done].
Qed.

Lemma MinHeap_pop_least_witness :
  let h := mkMinHeap [mkPQNode 0 0; mkPQNode 7 3; mkPQNode 8 5; mkPQNode 9 3] 3 3 in
  (heap_ok h /\ 0 < size h) /\
  (exists top h', pop h = Ok (top, h') /\ heap_ok h' /\
     heap_entries h ≡ₚ top :: heap_entries h' /\
     Forall (fun x => key top <= key x) (heap_entries h)) /\
  pop h = Ok (mkPQNode 7 3,
              mkMinHeap [mkPQNode 0 0; mkPQNode 9 3; mkPQNode 8 5; mkPQNode 9 3] 2 3).
Proof.
  intros h.
  assert (Hok : heap_ok h).
  { split; [simpl; lia|]. split; [simpl; lia|]. split; [reflexivity|].
    intros j Hj. simpl in Hj.
    assert (j = 2 \/ j = 3) as [-> | ->] by lia; by vm_compute. }
  assert (Hpos : 0 < size h) by (simpl; lia).
  split; [done|]. split; [|reflexivity].
  destruct (MinHeap_pop_least h Hok) as (top & h' & Hrun & Hok' & _ & Htake & _).
  destruct (Htake Hpos) as (_ & Hperm & Hmin).
  exists top, h'. split; [exact Hrun|]. split; [exact Hok'|].
  split; [exact Hperm|exact Hmin].
Defined.

Lemma MinHeap_drain_spec (fuel : nat) : forall h,
  heap_ok h -> size h < Z.of_nat fuel ->
  exists l,
    MinHeap_drain fuel h = Ok l /\
    l ≡ₚ heap_entries h /\
    Sorted (fun a b => key a <= key b) l.
Proof.
  induction fuel as [|fuel IH]; intros h Hok Hfuel.
  { destruct Hok as (? & _). lia. }
  cbn [MinHeap_drain]. unfold MinHeap_empty. case_bool_decide as Hempty; cbn [negb].
  - exists []. split; [done|]. split; [|constructor].
    unfold heap_entries. by rewrite Hempty.
  - destruct (pop_spec h Hok) as
      (top & h' & Hrun & Hok' & Hsz & Hcap & Htop & Hmin & Hsub & Hrest).
    { destruct Hok as (? & _). lia. }
    pose proof (pop_perm h top h' Hok ltac:(destruct Hok as (? & _); lia) Hrun) as Hperm.
    rewrite Hrun. cbn [mbind result_bind].
    destruct (IH h' Hok') as (l & Hdrain & Hl & Hsorted); [lia|].
    rewrite Hdrain. cbn [mbind result_bind].
    exists (top :: l). split; [done|]. split; [by rewrite Hperm, Hl|].
    constructor; [done|].
    destruct l as [|b l]; constructor.
    apply Hmin, Hsub, elem_of_heap_entries; [done|]. rewrite <- Hl. by left.
Qed.

(** X13. Popping a heap until it is empty returns the entries of the
    heap, each as often as the heap holds it, in ascending order of their
    keys. *)
Theorem MinHeap_drain_sorted (h : MinHeap) :
  heap_ok h ->
  exists l,
    MinHeap_drain (S (Z.to_nat (size h))) h = Ok l /\
    l ≡ₚ heap_entries h /\
    Sorted (fun a b => key a <= key b) l.
Proof.
  intros Hok.
  destruct (MinHeap_drain_spec (S (Z.to_nat (size h))) h Hok)
    as (l & Hrun & Hperm & Hsorted).
  { destruct Hok as (? & _). lia. }
  exists l. done.
Qed.

Lemma MinHeap_drain_sorted_witness :
  let h := mkMinHeap [mkPQNode 0 0; mkPQNode 7 3; mkPQNode 8 5; mkPQNode 9 3] 3 3 in
  heap_ok h /\
  (exists l, MinHeap_drain (S (Z.to_nat (size h))) h = Ok l /\
             l ≡ₚ heap_entries h /\
             Sorted (fun a b => key a <= key b) l) /\
  MinHeap_drain (S (Z.to_nat (size h))) h
    = Ok [mkPQNode 7 3; mkPQNode 9 3; mkPQNode 8 5].
Proof.
  intros h.
  assert (Hok : heap_ok h).
  { split; [simpl; lia|]. split; [simpl; lia|]. split; [reflexivity|].
    intros j Hj. simpl in Hj.
    assert (j = 2 \/ j = 3) as [-> | ->] by lia; by vm_compute. }
  split; [exact Hok|]. split; [|reflexivity].
  exact (MinHeap_drain_sorted h Hok).
Defined.

(** ** HashTable *)

Lemma ht_hash_range k : ht_key k -> 0 <= HashTable.hashFunction k < 10.
Proof.
  unfold ht_key, INT_MIN, INT_MAX. intros Hk.
  unfold HashTable.hashFunction, HashTable.abs, HashTable.TABLE_SIZE.
  case_bool_decide.
  - assert (Hn : neg32 k = - k).
    { apply wrap32_id. unfold is_int, INT_MIN, INT_MAX. lia. }
    rewrite Hn. rewrite Z.rem_mod_nonneg by lia.
    pose proof (Z.mod_pos_bound (- k) 10). lia.
  - rewrite Z.rem_mod_nonneg by lia. pose proof (Z.mod_pos_bound k 10). lia.
Qed.

Lemma ht_new_spec : HashTable.new = Ok (replicate 10 []).
Proof. reflexivity. Qed.

Lemma ht_clear_spec (table : HashTable.t) :
  length table = 10%nat -> HashTable.clear table = Ok (replicate 10 []).
Proof.
  intros Hlen. unfold HashTable.clear, HashTable.TABLE_SIZE.
  destruct (for_each_upto_inv
    (fun i (tb : HashTable.t) =>
       length tb = 10%nat /\
       forall j : nat, (j < Z.to_nat i)%nat -> tb !! j = Some [])
    0 10
    (fun i table => _ ← rd table i; wr table i [])
    table) as (tb & Hrun & Hlen' & Hall).
  - lia.
  - split; [done|]. intros j Hj. lia.
  - intros i tb Hi (Hl & Hall).
    destruct (rd_in_range tb i) as (x & Hrd & _); [lia|].
    rewrite Hrd. cbn [mbind result_bind].
    rewrite wr_Ok by lia. eexists. split; [done|].
    rewrite length_insert. split; [done|]. intros j Hj.
    destruct (decide (j = Z.to_nat i)) as [->|Hne].
    + rewrite list_lookup_insert_eq by lia. done.
    + rewrite list_lookup_insert_ne by lia. apply Hall. lia.
  - rewrite Hrun. f_equal. apply replicate_all; [done|].
    intros j Hj. apply Hall. lia.
Qed.

Lemma rd_insert_ne {A} (l : list A) (i j : Z) (x : A) :
  0 <= i -> i ≠ j -> rd (<[Z.to_nat i := x]> l) j = rd l j.
Proof.
  intros Hi Hne. unfold rd. case_decide; [|done].
  by rewrite list_lookup_insert_ne by lia.
Qed.

Lemma rd_insert_eq {A} (l : list A) (i : Z) (x : A) :
  0 <= i < Z.of_nat (length l) -> rd (<[Z.to_nat i := x]> l) i = Ok x.
Proof.
  intros Hi. apply rd_Ok; [lia|]. apply list_lookup_insert_eq. lia.
Qed.

(** What the loop of [insert] does to the searches in a chain. *)
Lemma ht_insert_loop_search chain k v :
  match HashTable.insert_loop chain k v with
  | Some chain' =>
      HashTable.search_loop chain' k = v /\
      forall k', k' ≠ k ->
        HashTable.search_loop chain' k' = HashTable.search_loop chain k'
  | None => HashTable.search_loop chain k = -1
  end.
Proof.
  induction chain as [|nd chain IH]; [done|].
  cbn [HashTable.insert_loop]. case_bool_decide as Hk.
  - split.
    + cbn [HashTable.search_loop HashTable.key HashTable.value].
      by rewrite bool_decide_eq_true_2.
    + intros k' Hne. cbn [HashTable.search_loop HashTable.key].
      rewrite !bool_decide_eq_false_2 by congruence. done.
  - destruct (HashTable.insert_loop chain k v) as [chain'|]; cbn.
    + destruct IH as [IH1 IH2]. rewrite bool_decide_eq_false_2 by done.
      split; [done|]. intros k' Hne. case_bool_decide; [done|]. by apply IH2.
    + by rewrite bool_decide_eq_false_2.
Qed.

(** X20. A value that was stored is found: after [insert(key, value)],
    [search(key)] returns [value], and the search of any other key
    returns what it returned before. *)
Theorem HashTable_insert_search (table : HashTable.t) (key value : Z) :
  length table = 10%nat -> ht_key key ->
  exists table',
    HashTable.insert table key value = Ok table' /\
    length table' = 10%nat /\
    HashTable.search table' key = Ok value /\
    forall key', key' ≠ key ->
      HashTable.search table' key' = HashTable.search table key'.
Proof.
  intros Hlen Hkey. pose proof (ht_hash_range key Hkey) as Hidx.
  unfold HashTable.insert, HashTable.search. cbv zeta.
  set (index := HashTable.hashFunction key) in *.
  destruct (rd_in_range table index) as (chain & Hrd & Hchain); [lia|].
  rewrite Hrd. cbn [mbind result_bind].
  pose proof (ht_insert_loop_search chain key value) as Hloop.
  assert (Hgen : forall chain',
    HashTable.search_loop chain' key = value ->
    (forall k', k' ≠ key ->
       HashTable.search_loop chain' k' = HashTable.search_loop chain k') ->
    length (<[Z.to_nat index := chain']> table) = 10%nat /\
    (current ← rd (<[Z.to_nat index := chain']> table) index;
     Ok (HashTable.search_loop current key)) = Ok value /\
    forall key', key' ≠ key ->
      (current ← rd (<[Z.to_nat index := chain']> table) (HashTable.hashFunction key');
       Ok (HashTable.search_loop current key')) =
      (current ← rd table (HashTable.hashFunction key');
       Ok (HashTable.search_loop current key'))).
  { intros chain' H1 H2. split; [by rewrite length_insert|]. split.
    - rewrite rd_insert_eq by lia. cbn [mbind result_bind]. by rewrite H1.
    - intros key' Hne.
      destruct (decide (HashTable.hashFunction key' = index)) as [Heq|Hneq].
      + rewrite Heq, rd_insert_eq, Hrd by lia. cbn [mbind result_bind].
        by rewrite H2.
      + by rewrite rd_insert_ne by lia. }
  destruct (HashTable.insert_loop chain key value) as [chain'|].
  - rewrite wr_Ok by lia. eexists. split; [done|].
    destruct Hloop as [H1 H2]. by apply Hgen.
  - rewrite wr_Ok by lia. eexists. split; [done|]. apply Hgen.
    + cbn [HashTable.search_loop HashTable.key HashTable.value].
      by rewrite bool_decide_eq_true_2.
    + intros k' Hne. cbn [HashTable.search_loop HashTable.key].
      by rewrite bool_decide_eq_false_2 by congruence.
Qed.

Lemma HashTable_insert_search_witness :
  let table := replicate 10 [] in
  (length table = 10%nat /\ ht_key (-25)) /\
  exists table',
    HashTable.insert table (-25) 7 = Ok table' /\
    HashTable.search table' (-25) = Ok 7.
Proof.
  intros table.
  assert (Hlen : length table = 10%nat) by reflexivity.
  assert (Hkey : ht_key (-25)) by (unfold ht_key, INT_MIN, INT_MAX; lia).
  split; [split; [exact Hlen|exact Hkey]|].
  destruct (HashTable_insert_search table (-25) 7 Hlen Hkey)
    as (table' & Hrun & _ & Hfound & _).
  exists table'. split; [exact Hrun|exact Hfound].
Defined.



Lemma ht_node_eta nd :
  HashTable.mkNode (HashTable.key nd) (HashTable.value nd) = nd.
Proof. by destruct nd. Qed.

Lemma ht_elem_of_keys chain k :
  k ∈ ht_keys chain <-> exists v, HashTable.mkNode k v ∈ chain.
Proof.
  unfold ht_keys. rewrite list_elem_of_fmap. split.
  - intros ([k' v] & -> & Hin). by exists v.
  - intros [v Hin]. by exists (HashTable.mkNode k v).
Qed.

(** What the loop of [insert] does to the nodes of a chain that holds no
    key twice. *)
Lemma ht_insert_loop_nodes chain k v :
  NoDup (ht_keys chain) ->
  match HashTable.insert_loop chain k v with
  | Some chain' =>
      ht_keys chain' = ht_keys chain /\
      forall nd, nd ∈ chain' <->
        nd = HashTable.mkNode k v \/ (nd ∈ chain /\ HashTable.key nd ≠ k)
  | None => k ∉ ht_keys chain
  end.
Proof.
  induction chain as [|nd chain IH]; intros Hnd.
  - cbn. by intros ?%elem_of_nil.
  - cbn [ht_keys fmap list_fmap] in Hnd. apply NoDup_cons in Hnd as [Hnotin Hnd].
    cbn [HashTable.insert_loop]. case_bool_decide as Hk.
    + split; [cbn; by rewrite Hk|].
      intros nd'. rewrite !elem_of_cons. split.
      * intros [->|Hin]; [by left|right]. split; [by right|].
        intros Hk'. apply Hnotin. rewrite Hk, <- Hk'.
        unfold ht_keys. apply list_elem_of_fmap. by exists nd'.
      * intros [->|[[->|Hin] Hne]]; [by left|done|by right].
    + specialize (IH Hnd).
      destruct (HashTable.insert_loop chain k v) as [chain'|]; cbn.
      * destruct IH as [Hkeys Hnodes]. split; [cbn; f_equal; exact Hkeys|].
        intros nd'. rewrite !elem_of_cons, Hnodes. split.
        -- intros [->|[->|[Hin Hne]]]; [right; split; [by left|done]|by left|].
           right. split; [by right|done].
        -- intros [->|[[->|Hin] Hne]]; [right; by left|by left|].
           right. right. done.
      * intros [Heq|Hin]%elem_of_cons; [congruence|by apply IH].
Qed.

Lemma ht_search_loop_found chain k v :
  NoDup (ht_keys chain) -> HashTable.mkNode k v ∈ chain ->
  HashTable.search_loop chain k = v.
Proof.
  induction chain as [|nd chain IH]; intros Hnd Hin; [by apply elem_of_nil in Hin|].
  cbn [ht_keys fmap list_fmap] in Hnd. apply NoDup_cons in Hnd as [Hnotin Hnd].
  cbn [HashTable.search_loop]. apply elem_of_cons in Hin as [<-|Hin].
  - cbn. by rewrite bool_decide_eq_true_2.
  - rewrite bool_decide_eq_false_2; [by apply IH|].
    intros Hk. apply Hnotin. rewrite Hk. apply ht_elem_of_keys. by exists v.
Qed.

Lemma ht_search_loop_missing chain k :
  k ∉ ht_keys chain -> HashTable.search_loop chain k = -1.
Proof.
  induction chain as [|nd chain IH]; intros Hnotin; [done|].
  cbn [HashTable.search_loop]. cbn [ht_keys fmap list_fmap] in Hnotin.
  apply not_elem_of_cons in Hnotin as [Hne Hnotin].
  rewrite bool_decide_eq_false_2 by congruence. by apply IH.
Qed.

Lemma ht_rep_search table m k :
  ht_rep table m -> ht_key k ->
  HashTable.search table k = Ok (default (-1) (m !! k)).
Proof.
  intros [[Hlen Hok] Hrep] Hk. pose proof (ht_hash_range k Hk) as Hidx.
  unfold HashTable.search. cbv zeta.
  destruct (rd_in_range table (HashTable.hashFunction k)) as (chain & Hrd & Hchain);
    [lia|].
  rewrite Hrd. cbn [mbind result_bind]. f_equal.
  destruct (Hok _ _ Hchain) as [Hnd Hnodes].
  destruct (m !! k) as [v|] eqn:Hm; cbn [default].
  - apply Hrep in Hm as (i & chain' & Hi & Hin).
    destruct (Hok _ _ Hi) as [_ Hnodes'].
    destruct (Hnodes' _ Hin) as [_ Hhash]. cbn [HashTable.key] in Hhash.
    assert (i = Z.to_nat (HashTable.hashFunction k)) as -> by lia.
    assert (chain' = chain) as -> by congruence.
    by apply ht_search_loop_found.
  - apply ht_search_loop_missing. intros [v Hin]%ht_elem_of_keys.
    assert (Hsome : m !! k = Some v) by (apply Hrep; eauto).
    congruence.
Qed.

Lemma ht_rep_empty : ht_rep (replicate 10 []) ∅.
Proof.
  split; [split; [done|]|].
  - intros i chain Hi. apply lookup_replicate in Hi as [-> _].
    split; [constructor|]. by intros nd ?%elem_of_nil.
  - intros k v. rewrite lookup_empty. split; [done|].
    intros (i & chain & Hi & Hin). apply lookup_replicate in Hi as [-> _].
    by apply elem_of_nil in Hin.
Qed.

Lemma ht_rep_insert table m k v :
  ht_rep table m -> ht_key k ->
  exists table',
    HashTable.insert table k v = Ok table' /\ ht_rep table' (<[k := v]> m).
Proof.
  intros [[Hlen Hok] Hrep] Hk. pose proof (ht_hash_range k Hk) as Hidx.
  unfold HashTable.insert. cbv zeta.
  set (index := HashTable.hashFunction k) in *.
  destruct (rd_in_range table index) as (chain & Hrd & Hchain); [lia|].
  rewrite Hrd. cbn [mbind result_bind].
  destruct (Hok _ _ Hchain) as [Hnd Hnodes].
  (* the new chain of the bucket *)
  assert (Hgen : forall chain',
    NoDup (ht_keys chain') ->
    (forall nd, nd ∈ chain' <->
       nd = HashTable.mkNode k v \/ (nd ∈ chain /\ HashTable.key nd ≠ k)) ->
    ht_rep (<[Z.to_nat index := chain']> table) (<[k := v]> m)).
  { intros chain' Hnd' Hin'. split; [split|].
    - by rewrite length_insert.
    - intros i c Hi.
      destruct (decide (i = Z.to_nat index)) as [->|Hne].
      + rewrite list_lookup_insert_eq in Hi by lia. injection Hi as <-.
        split; [done|]. intros nd [->|[Hin _]]%Hin'.
        * cbn [HashTable.key]. split; [done|]. fold index. lia.
        * by apply Hnodes.
      + rewrite list_lookup_insert_ne in Hi by done. by apply Hok.
    - intros k' v'. split.
      + destruct (decide (k' = k)) as [->|Hne].
        * rewrite lookup_insert_eq. intros [= <-].
          exists (Z.to_nat index), chain'. split.
          -- apply list_lookup_insert_eq. lia.
          -- apply Hin'. by left.
        * rewrite lookup_insert_ne by done.
          intros (i & c & Hi & Hin)%Hrep.
          destruct (decide (i = Z.to_nat index)) as [->|Hnei].
          -- assert (c = chain) as -> by congruence.
             exists (Z.to_nat index), chain'. split.
             ++ apply list_lookup_insert_eq. lia.
             ++ apply Hin'. right. done.
          -- exists i, c. split; [|done]. by rewrite list_lookup_insert_ne.
      + intros (i & c & Hi & Hin).
        destruct (decide (i = Z.to_nat index)) as [->|Hnei].
        * rewrite list_lookup_insert_eq in Hi by lia. injection Hi as <-.
          apply Hin' in Hin as [[= -> ->]|[Hin Hne]].
          -- by rewrite lookup_insert_eq.
          -- cbn [HashTable.key] in Hne. rewrite lookup_insert_ne by done.
             apply Hrep. eauto.
        * rewrite list_lookup_insert_ne in Hi by done.
          destruct (Hok _ _ Hi) as [_ Hnodes'].
          destruct (Hnodes' _ Hin) as [_ Hhash]. cbn [HashTable.key] in Hhash.
          assert (k' ≠ k).
          { intros ->. fold index in Hhash. lia. }
          rewrite lookup_insert_ne by done. apply Hrep. eauto. }
  pose proof (ht_insert_loop_nodes chain k v Hnd) as Hloop.
  destruct (HashTable.insert_loop chain k v) as [chain'|].
  - rewrite wr_Ok by lia. eexists. split; [done|].
    destruct Hloop as [Hkeys Hin']. apply Hgen; [by rewrite Hkeys|done].
  - rewrite wr_Ok by lia. eexists. split; [done|]. apply Hgen.
    + cbn. by constructor.
    + intros nd. rewrite elem_of_cons. split.
      * intros [->|Hin]; [by left|right]. split; [done|].
        intros Hk'. apply Hloop. rewrite <- Hk'.
        unfold ht_keys. apply list_elem_of_fmap. by exists nd.
      * intros [->|[Hin _]]; [by left|by right].
Qed.

Lemma ht_run_spec calls : forall table m,
  ht_rep table m ->
  (forall k v, HashTable.call_insert k v ∈ calls -> ht_key k) ->
  exists table',
    HashTable.run table calls = Ok table' /\
    ht_rep table' (foldl ht_model_step m calls).
Proof.
  induction calls as [|c calls IH]; intros table m Hrep Hkeys.
  - by exists table.
  - cbn [HashTable.run foldl]. destruct c as [k v|]; cbn [HashTable.step ht_model_step].
    + destruct (ht_rep_insert table m k v Hrep) as (table1 & Hrun & Hrep1).
      { apply (Hkeys k v). by left. }
      rewrite Hrun. cbn [mbind result_bind]. apply IH; [done|].
      intros k' v' Hin. apply (Hkeys k' v'). by right.
    + rewrite ht_clear_spec by (by destruct Hrep as [[? _] _]).
      cbn [mbind result_bind]. apply IH; [apply ht_rep_empty|].
      intros k' v' Hin. apply (Hkeys k' v'). by right.
Qed.

(** X22. The table is a finite map. After any sequence of [insert] and
    [clear] calls on a new table, with keys other than [INT_MIN],
    [search(key)] returns the value of the last [insert] of the key since
    the last [clear], and -1 when there is none. *)
Theorem HashTable_finite_map (calls : list HashTable.call) :
  (forall k v, HashTable.call_insert k v ∈ calls -> ht_key k) ->
  exists table0 table,
    HashTable.new = Ok table0 /\ HashTable.run table0 calls = Ok table /\
    forall key, ht_key key ->
      HashTable.search table key = Ok (default (-1) (ht_model calls !! key)).
Proof.
  intros Hkeys.
  destruct (ht_run_spec calls (replicate 10 []) ∅ ht_rep_empty Hkeys)
    as (table & Hrun & Hrep).
  exists (replicate 10 []), table. split; [apply ht_new_spec|]. split; [done|].
  intros key Hkey. by apply ht_rep_search.
Qed.

Lemma HashTable_finite_map_witness :
  let calls := [HashTable.call_insert 3 30; HashTable.call_insert 13 31;
                HashTable.call_insert 3 32] in
  (forall k v, HashTable.call_insert k v ∈ calls -> ht_key k) /\
  exists table0 table,
    HashTable.new = Ok table0 /\ HashTable.run table0 calls = Ok table /\
    HashTable.search table 3 = Ok 32.
Proof.
  intros calls.
  assert (Hkeys : forall k v, HashTable.call_insert k v ∈ calls -> ht_key k).
  { intros k v Hin. unfold ht_key, INT_MIN, INT_MAX.
    apply elem_of_cons in Hin as [[= -> _]|Hin]; [lia|].
    apply elem_of_cons in Hin as [[= -> _]|Hin]; [lia|].
    apply elem_of_cons in Hin as [[= -> _]|Hin]; [lia|].
    by apply elem_of_nil in Hin. }
  split; [exact Hkeys|].
  destruct (HashTable_finite_map calls Hkeys) as (table0 & table & Hnew & Hrun & Hsearch).
  exists table0, table. split; [exact Hnew|]. split; [exact Hrun|].
  rewrite (Hsearch 3 ltac:(unfold ht_key, INT_MIN, INT_MAX; lia)).
  reflexivity.
Defined.

(** X23. The class invariant of [HashTable]. After any sequence of
    [insert] and [clear] calls on a new table, with keys other than
    [INT_MIN], the table has its ten chains, no chain holds a key twice,
    every node is in the chain of the hash value of its key, and the nodes
    are the entries of the map that the calls build. *)
Theorem HashTable_class_invariant (calls : list HashTable.call) :
  (forall k v, HashTable.call_insert k v ∈ calls -> ht_key k) ->
  exists table0 table,
    HashTable.new = Ok table0 /\ HashTable.run table0 calls = Ok table /\
    ht_ok table /\
    forall k v, ht_model calls !! k = Some v <->
      exists (i : nat) chain, table !! i = Some chain /\ HashTable.mkNode k v ∈ chain.
Proof.
  intros Hkeys.
  destruct (ht_run_spec calls (replicate 10 []) ∅ ht_rep_empty Hkeys)
    as (table & Hrun & Hok & Hrep).
  exists (replicate 10 []), table. split; [apply ht_new_spec|]. done.
Qed.

Lemma HashTable_class_invariant_witness :
  let calls := [HashTable.call_insert 3 30; HashTable.call_clear;
                HashTable.call_insert 13 31] in
  (forall k v, HashTable.call_insert k v ∈ calls -> ht_key k) /\
  exists table0 table,
    HashTable.new = Ok table0 /\ HashTable.run table0 calls = Ok table /\
    ht_ok table.
Proof.
  intros calls.
  assert (Hkeys : forall k v, HashTable.call_insert k v ∈ calls -> ht_key k).
  { intros k v Hin. unfold ht_key, INT_MIN, INT_MAX.
    apply elem_of_cons in Hin as [[= -> _]|Hin]; [lia|].
    apply elem_of_cons in Hin as [[=]|Hin].
    apply elem_of_cons in Hin as [[= -> _]|Hin]; [lia|].
    by apply elem_of_nil in Hin. }
  split; [exact Hkeys|].
  destruct (HashTable_class_invariant calls Hkeys)
    as (table0 & table & Hnew & Hrun & Hok & _).
  exists table0, table. split; [exact Hnew|]. split; [exact Hrun|exact Hok].
Defined.

Lemma emit_join_prefix (p : string) (l : list string) (x : string) :
  emit (p +:+ join l) (bool_decide (l = [])) x =
  ((p +:+ join (l ++ [x]))%string, bool_decide (l ++ [x] = [])).
Proof.
  unfold emit. rewrite join_snoc.
  rewrite (bool_decide_eq_false_2 (l ++ [x] = [])) by (by destruct l).
  destruct l as [|a l].
  - rewrite bool_decide_eq_true_2 by done. cbn [negb join].
    by rewrite string_app_nil_r.
  - rewrite bool_decide_eq_false_2 by done. cbn [negb].
    by rewrite !string_app_assoc.
Qed.

Lemma ht_getTable_loop_spec chain : forall (p : string) (l : list string),
  Forall ht_printable chain ->
  HashTable.getTable_loop chain (p +:+ join l) (bool_decide (l = [])) =
  Ok (p +:+ join (l ++ (show_node <$> chain)))%string.
Proof.
  induction chain as [|nd chain IH]; intros p l Hprint.
  - cbn. by rewrite app_nil_r.
  - apply Forall_cons in Hprint as [[[Hk _] [Hv _]] Hprint].
    cbn [HashTable.getTable_loop].
    rewrite !intToString_numeral by done. cbn [mbind result_bind].
    change (numeral (HashTable.key nd) +:+ ":" +:+ numeral (HashTable.value nd))%string
      with (show_node nd).
    rewrite emit_join_prefix. rewrite IH by done. cbn [fmap list_fmap].
    by rewrite <- app_assoc.
Qed.

(** X24. [getTable()] returns the rendering of the table: the ten chains
    in the order of their indices, each chain in brackets with its nodes
    from the head on as [key:value] in decimal numerals, joined by commas.
    No key and no value is [INT_MIN], which [intToString] cannot negate. *)
Theorem HashTable_getTable_spec (table : HashTable.t) :
  length table = 10%nat -> Forall (Forall ht_printable) table ->
  HashTable.getTable table = Ok (show_table table).
Proof.
  intros Hlen Hprint. unfold HashTable.getTable, HashTable.TABLE_SIZE.
  rewrite (for_each_join 0 10 _ (show_chain <$> table)).
  - cbn [mbind result_bind]. unfold show_table. by rewrite string_app_assoc.
  - by rewrite length_fmap, Hlen.
  - intros i x res Hi Hx. cbv zeta.
    replace (i - 0) with i in Hx by lia.
    rewrite list_lookup_fmap in Hx.
    destruct (table !! Z.to_nat i) as [chain|] eqn:Hchain; [|done].
    injection Hx as <-.
    rewrite (rd_Ok _ _ chain) by (done || lia). cbn [mbind result_bind].
    pose proof (ht_getTable_loop_spec chain (res +:+ "[") []
                  (Forall_lookup_1 _ _ _ _ Hprint Hchain)) as Hloop.
    cbn [join app] in Hloop. rewrite string_app_nil_r in Hloop.
    change (bool_decide (@nil string = [])) with true in Hloop.
    rewrite Hloop. cbn [mbind result_bind]. unfold show_chain.
    case_bool_decide; by rewrite ?string_app_assoc, ?string_app_nil_r.
Qed.

Lemma HashTable_getTable_spec_witness :
  let table := <[3%nat := [HashTable.mkNode 13 (-31); HashTable.mkNode 3 30]]>
                 (replicate 10 []) in
  (length table = 10%nat /\ Forall (Forall ht_printable) table) /\
  HashTable.getTable table = Ok (show_table table) /\
  show_table table = "[[],[],[],[13:-31,3:30],[],[],[],[],[],[]]"%string.
Proof.
  intros table.
  assert (Hlen : length table = 10%nat) by reflexivity.
  assert (Hp : Forall (Forall ht_printable) table).
  { repeat constructor; by vm_compute. }
  split; [done|].
  split; [exact (HashTable_getTable_spec table Hlen Hp)|reflexivity].
Defined.

(** ** AVL tree: what a user of the class sees *)

(** X25. The height of the tree is logarithmic in the number of its keys:
    after any sequence of [insert] and [remove] calls with 32-bit keys on an
    empty tree, the tree is balanced, and when its height, counted on the
    tree itself, is [h], it holds at least [2 ^ (h / 2) - 1] keys; the root
    stores that height. *)
Theorem AVL_height_logarithmic (calls : list AVL_call) :
  Forall (fun c => is_int (call_key c)) calls ->
  exists root,
    AVL_run AVL_new calls = Ok root /\
    balanced root /\ height root = depth root /\
    2 ^ (depth root / 2) - 1 <= Z.of_nat (length (inorder root)).
Proof.
  intros Hcalls.
  destruct (AVL_run_spec calls AVL_new ∅) as (root & Hrun & Havl & _);
    try done.
  - constructor.
  - intros x. simpl. rewrite elem_of_nil, elem_of_empty. tauto.
  - exists root. split; [done|]. split; [by apply avl_balanced|].
    split; [by apply avl_depth|].
    rewrite <- (avl_depth root Havl).
    pose proof (avl_height_nonneg root Havl) as Hh.
    pose proof (Z.div_mod (height root) 2 ltac:(lia)) as Hdm.
    pose proof (Z.mod_pos_bound (height root) 2 ltac:(lia)) as Hmb.
    pose proof (avl_size (Z.to_nat (height root / 2)) root Havl) as Hsize.
    rewrite Z2Nat.id in Hsize by lia. apply Hsize. lia.
Qed.

Lemma AVL_height_logarithmic_witness :
  let calls := [call_insert 1; call_insert 2; call_insert 3; call_insert 4] in
  Forall (fun c => is_int (call_key c)) calls /\
  exists root,
    AVL_run AVL_new calls = Ok root /\
    balanced root /\ depth root = 3 /\
    2 ^ (depth root / 2) - 1 <= Z.of_nat (length (inorder root)).
Proof.
  intros calls.
  assert (Hcalls : Forall (fun c => is_int (call_key c)) calls).
  { repeat constructor; unfold INT_MIN, INT_MAX; simpl; lia. }
  split; [exact Hcalls|].
  destruct (AVL_height_logarithmic calls Hcalls) as (root & Hrun & Hbal & _ & Hlog).
  exists root. split; [exact Hrun|]. split; [exact Hbal|]. split; [|exact Hlog].
  assert (Hroot : Ok root = AVL_run AVL_new calls) by (by rewrite Hrun).
  vm_compute in Hroot. injection Hroot as ->. reflexivity.
Defined.




(** ** Queue and Stack as linked lists in memory *)

Lemma ll_chain_length mem p addrs xs :
  ll_chain mem p addrs xs -> length addrs = length xs.
Proof.
  revert p xs. induction addrs as [|a addrs IH]; intros p [|x xs] H; try done.
  destruct H as (_ & nxt & _ & H). simpl. f_equal. by eapply IH.
Qed.

Lemma ll_chain_frame mem mem' p addrs xs :
  ll_chain mem p addrs xs ->
  (forall a, a ∈ addrs -> mem' !! a = mem !! a) ->
  ll_chain mem' p addrs xs.
Proof.
  revert p xs. induction addrs as [|a addrs IH]; intros p [|x xs] H Hsame; try done.
  destruct H as (-> & nxt & Ha & H). split; [done|]. exists nxt. split.
  - rewrite Hsame; [done|by left].
  - apply IH; [done|]. intros b Hb. apply Hsame. by right.
Qed.

Lemma ll_chain_allocated mem p addrs xs a :
  ll_chain mem p addrs xs -> a ∈ addrs -> is_Some (mem !! a).
Proof.
  revert p xs. induction addrs as [|b addrs IH]; intros p [|x xs] H Hin; try done.
  - by apply elem_of_nil in Hin.
  - destruct H as (_ & nxt & Hb & H).
    apply elem_of_cons in Hin as [->|Hin]; [eauto|by eapply IH].
Qed.

Lemma ll_fresh_not_in mem p addrs xs :
  ll_chain mem p addrs xs -> fresh (dom mem) ∉ addrs.
Proof.
  intros H Hin. apply (ll_chain_allocated _ _ _ _ _ H) in Hin.
  apply elem_of_dom in Hin. by apply is_fresh in Hin.
Qed.

Lemma ll_fresh_lookup (mem : LinkedList.memory) : mem !! fresh (dom mem) = None.
Proof. apply not_elem_of_dom. apply is_fresh. Qed.

(** Linking a new node behind the last node of a chain. *)
Lemma ll_chain_snoc mem p addrs xs r n x :
  ll_chain mem p addrs xs -> NoDup addrs -> last addrs = Some r ->
  n ∉ addrs ->
  exists d,
    mem !! r = Some (LinkedList.mkNode d None) /\
    ll_chain (<[r := LinkedList.mkNode d (Some n)]>
                (<[n := LinkedList.mkNode x None]> mem))
      p (addrs ++ [n]) (xs ++ [x]).
Proof.
  revert p xs. induction addrs as [|a addrs IH]; intros p [|x0 xs] H Hnd Hlast Hn;
    try done.
  destruct H as (-> & nxt & Ha & H).
  apply NoDup_cons in Hnd as [Hnotin Hnd].
  apply not_elem_of_cons in Hn as [Hna Hn].
  destruct addrs as [|b addrs].
  - destruct xs as [|? ?]; [|done]. simpl in H. subst nxt.
    injection Hlast as <-. exists x0. split; [done|].
    simpl. split; [done|]. exists (Some n). split; [by rewrite lookup_insert_eq|].
    split; [done|]. exists None. split; [|done].
    rewrite lookup_insert_ne by done. by rewrite lookup_insert_eq.
  - assert (Hlast' : last (b :: addrs) = Some r) by done.
    destruct (IH nxt xs H Hnd Hlast' Hn) as (d & Hr & Hchain).
    exists d. split; [done|].
    change ((a :: b :: addrs) ++ [n]) with (a :: ((b :: addrs) ++ [n])).
    change ((x0 :: xs) ++ [x]) with (x0 :: (xs ++ [x])).
    split; [done|]. exists nxt. split; [|done].
    assert (a ≠ r).
    { intros ->. apply Hnotin. by apply last_Some_elem_of. }
    rewrite !lookup_insert_ne by done. done.
Qed.

Lemma queue_at_empty mem q addrs xs :
  queue_at mem q addrs xs ->
  LinkedQueue.empty q = bool_decide (xs = []).
Proof.
  intros (_ & _ & _ & Hsize & _). unfold LinkedQueue.empty. rewrite Hsize.
  destruct xs; [done|]. rewrite (bool_decide_eq_false_2 (_ :: _ = [])) by done.
  apply bool_decide_eq_false_2. simpl. lia.
Qed.

Lemma queue_dequeue_spec mem q a addrs x xs :
  queue_at mem q (a :: addrs) (x :: xs) ->
  exists q', LinkedQueue.dequeue mem q = Ok (delete a mem, q') /\
             queue_at (delete a mem) q' addrs xs.
Proof.
  intros Hq. pose proof (queue_at_empty _ _ _ _ Hq) as Hempty.
  destruct Hq as (Hchain & Hnd & Hrear & Hsize & Hmax).
  unfold LinkedQueue.dequeue. rewrite Hempty, bool_decide_eq_false_2 by done.
  destruct Hchain as (Hfront & nxt & Ha & Hchain).
  rewrite Hfront. cbn [LinkedList.deref]. rewrite Ha.
  cbn [mbind result_bind LinkedList.next].
  eexists. split; [done|].
  apply NoDup_cons in Hnd as [Hnotin Hnd].
  split; [|split; [done|split; [|split]]].
  - cbn [LinkedQueue.front]. eapply ll_chain_frame; [done|].
    intros b Hb. apply lookup_delete_ne. by intros ->.
  - cbn [LinkedQueue.rear].
    destruct addrs as [|b addrs].
    + destruct xs; [|done]. simpl in Hchain. by subst nxt.
    + destruct xs as [|x' xs]; [done|].
      destruct Hchain as (-> & _). rewrite Hrear. done.
  - cbn [LinkedQueue.size]. rewrite Hsize. cbn [length] in *.
    rewrite sub32_exact by (unfold is_int, INT_MIN, INT_MAX in *; lia). lia.
  - cbn [length] in Hmax. lia.
Qed.

(** X27. The linked [Queue] does what the [Queue] of the traversals does:
    for a queue object that holds the values [xs] in its chain of nodes,
    [empty] and [Front] give what they give on the values (-1 on an empty
    queue); [enqueue] allocates one node and leaves a queue that holds [xs]
    followed by the new value; [dequeue] frees the front node and leaves a
    queue that holds the rest, and changes nothing on an empty queue. No
    other node of the memory is touched. *)
Theorem LinkedQueue_refines (mem : LinkedList.memory) (q : LinkedQueue.t)
    (addrs : list addr) (xs : list Z) :
  queue_at mem q addrs xs ->
  LinkedQueue.empty q = Queue_empty (queue_of xs) /\
  LinkedQueue.Front mem q = Front (queue_of xs) /\
  (Z.of_nat (length xs) < INT_MAX ->
   forall x, exists mem' q' a,
     LinkedQueue.enqueue mem q x = Ok (mem', q') /\
     enqueue (queue_of xs) x = Ok (queue_of (xs ++ [x])) /\
     queue_at mem' q' (addrs ++ [a]) (xs ++ [x]) /\
     mem !! a = None /\
     forall p, p ∉ addrs -> p ≠ a -> mem' !! p = mem !! p) /\
  (exists mem' q',
     LinkedQueue.dequeue mem q = Ok (mem', q') /\
     dequeue (queue_of xs) = Ok (queue_of (tail xs)) /\
     queue_at mem' q' (tail addrs) (tail xs) /\
     mem' = match addrs with [] => mem | a :: _ => delete a mem end).
Proof.
  intros Hq. pose proof (queue_at_empty _ _ _ _ Hq) as Hempty.
  pose proof Hq as (Hchain & Hnd & Hrear & Hsize & Hmax).
  pose proof (ll_chain_length _ _ _ _ Hchain) as Hlen.
  split; [by rewrite Queue_empty_of|]. split; [|split].
  - unfold LinkedQueue.Front. rewrite Hempty.
    destruct addrs as [|a addrs], xs as [|x xs]; try done.
    destruct Hchain as (Hfront & nxt & Ha & _).
    rewrite bool_decide_eq_false_2 by done. rewrite Front_of.
    rewrite Hfront. cbn [LinkedList.deref]. rewrite Ha. done.
  - intros Hroom x. rewrite enqueue_of by done.
    unfold LinkedQueue.enqueue, LinkedList.alloc.
    set (n := fresh (dom mem)).
    assert (Hn : n ∉ addrs) by (by eapply ll_fresh_not_in).
    assert (Hfresh : mem !! n = None) by apply ll_fresh_lookup.
    assert (Hsz : add32 (LinkedQueue.size q) 1 = Z.of_nat (length (xs ++ [x]))).
    { rewrite Hsize, length_app. simpl.
      rewrite add32_exact by (unfold is_int, INT_MIN, INT_MAX in *; lia). lia. }
    destruct (last addrs) as [r|] eqn:Hlast; rewrite Hrear.
    + destruct (ll_chain_snoc mem _ addrs xs r n x Hchain Hnd Hlast Hn)
        as (d & Hr & Hchain').
      assert (Hrn : r ≠ n) by (intros ->; congruence).
      cbn [LinkedList.deref]. rewrite lookup_insert_ne by done. rewrite Hr.
      cbn [mbind result_bind LinkedList.data].
      eexists _, _, n. split; [done|]. split; [done|]. split; [|split; [done|]].
      * split; [done|]. cbn [LinkedQueue.front LinkedQueue.rear LinkedQueue.size].
        split; [|split; [by rewrite last_snoc|split; [done|]]].
        2:{ rewrite length_app. simpl. lia. }
        apply NoDup_app. split; [done|]. split; [|apply NoDup_singleton].
        intros a Ha ->%list_elem_of_singleton. done.
      * intros p Hp Hpn.
        assert (p ≠ r) by (intros ->; apply Hp; by apply last_Some_elem_of).
        by rewrite !lookup_insert_ne.
    + apply last_None in Hlast. subst addrs. destruct xs; [|done].
      eexists _, _, n. split; [done|]. split; [done|]. split; [|split; [done|]].
      * split; [|split; [apply NoDup_singleton|split; [done|split; [done|]]]].
        2:{ unfold INT_MAX. simpl. lia. }
        cbn. split; [done|]. exists None. by rewrite lookup_insert_eq.
      * intros p _ Hpn. by rewrite lookup_insert_ne.
  - destruct addrs as [|a addrs], xs as [|x xs]; try done.
    + exists mem, q. unfold LinkedQueue.dequeue. rewrite Hempty.
      split; [done|]. split; [done|]. done.
    + destruct (queue_dequeue_spec _ _ _ _ _ _ Hq) as (q' & Hdeq & Hq').
      exists (delete a mem), q'. split; [done|].
      split; [by apply dequeue_of|]. done.
Qed.

Lemma LinkedQueue_refines_witness :
  let mem : LinkedList.memory := {[ 5%positive := LinkedList.mkNode 42 None ]} in
  let q := LinkedQueue.mk (Some 5%positive) (Some 5%positive) 1 in
  queue_at mem q [5%positive] [42] /\
  LinkedQueue.empty q = false /\
  LinkedQueue.Front mem q = Ok 42 /\
  (exists mem' q' a,
     LinkedQueue.enqueue mem q 7 = Ok (mem', q') /\
     queue_at mem' q' [5%positive; a] [42; 7] /\ mem !! a = None) /\
  (exists mem' q',
     LinkedQueue.dequeue mem q = Ok (mem', q') /\
     queue_at mem' q' [] [] /\ mem' = delete 5%positive mem).
Proof.
  intros mem q.
  assert (Hq : queue_at mem q [5%positive] [42]).
  { split.
    - simpl. split; [done|]. exists None. split; [|done].
      subst mem. apply lookup_singleton_eq.
    - split; [apply NoDup_singleton|]. split; [done|]. split; [done|].
      unfold INT_MAX. simpl. lia. }
  assert (Hroom : Z.of_nat (length [42]) < INT_MAX) by (by vm_compute).
  split; [exact Hq|].
  destruct (LinkedQueue_refines mem q [5%positive] [42] Hq)
    as (Hempty & Hfront & Henq & mem2 & q2 & Hdeq & _ & Hq2 & Hmem2).
  split; [exact Hempty|]. split; [exact Hfront|]. split.
  - destruct (Henq Hroom 7) as (mem1 & q1 & a & Hrun & _ & Hq1 & Hfresh & _).
    exists mem1, q1, a. split; [exact Hrun|]. split; [exact Hq1|exact Hfresh].
  - exists mem2, q2. split; [exact Hdeq|]. split; [exact Hq2|exact Hmem2].
Defined.

Lemma stack_at_empty mem s addrs xs :
  stack_at mem s addrs xs ->
  LinkedStack.empty s = bool_decide (xs = []).
Proof.
  intros (_ & _ & Hsize & _). unfold LinkedStack.empty. rewrite Hsize.
  destruct xs; [done|]. rewrite (bool_decide_eq_false_2 (_ :: _ = [])) by done.
  apply bool_decide_eq_false_2. simpl. lia.
Qed.

Lemma stack_pop_spec mem s a addrs x xs :
  stack_at mem s (a :: addrs) (x :: xs) ->
  exists s', LinkedStack.pop mem s = Ok (delete a mem, s') /\
             stack_at (delete a mem) s' addrs xs.
Proof.
  intros Hs. pose proof (stack_at_empty _ _ _ _ Hs) as Hempty.
  destruct Hs as (Hchain & Hnd & Hsize & Hmax).
  unfold LinkedStack.pop. rewrite Hempty, bool_decide_eq_false_2 by done.
  destruct Hchain as (Htop & nxt & Ha & Hchain).
  rewrite Htop. cbn [LinkedList.deref]. rewrite Ha.
  cbn [mbind result_bind LinkedList.next].
  eexists. split; [done|].
  apply NoDup_cons in Hnd as [Hnotin Hnd].
  split; [|split; [done|split]].
  - cbn [LinkedStack.top]. eapply ll_chain_frame; [done|].
    intros b Hb. apply lookup_delete_ne. by intros ->.
  - cbn [LinkedStack.size]. rewrite Hsize. cbn [length] in *.
    rewrite sub32_exact by (unfold is_int, INT_MIN, INT_MAX in *; lia). lia.
  - cbn [length] in Hmax. lia.
Qed.

(** X28. The linked [Stack] does what the [Stack] of [dfs] does: for a
    stack object that holds the values [xs] in its chain of nodes, [empty]
    and [Top] give what they give on the values (-1 on an empty stack);
    [push] allocates one node and leaves a stack that holds the new value
    on top of [xs]; [pop] frees the top node and leaves a stack that holds
    the rest, and changes nothing on an empty stack. No other node of the
    memory is touched. *)
Theorem LinkedStack_refines (mem : LinkedList.memory) (s : LinkedStack.t)
    (addrs : list addr) (xs : list Z) :
  stack_at mem s addrs xs ->
  LinkedStack.empty s = Stack_empty (stack_of xs) /\
  LinkedStack.Top mem s = Top (stack_of xs) /\
  (Z.of_nat (length xs) < INT_MAX ->
   forall x, exists a,
     Stack_push (stack_of xs) x = Ok (stack_of (x :: xs)) /\
     stack_at (LinkedStack.push mem s x).1 (LinkedStack.push mem s x).2
       (a :: addrs) (x :: xs) /\
     mem !! a = None /\
     forall p, p ≠ a -> (LinkedStack.push mem s x).1 !! p = mem !! p) /\
  (exists mem' s',
     LinkedStack.pop mem s = Ok (mem', s') /\
     Stack_pop (stack_of xs) = Ok (stack_of (tail xs)) /\
     stack_at mem' s' (tail addrs) (tail xs) /\
     mem' = match addrs with [] => mem | a :: _ => delete a mem end).
Proof.
  intros Hs. pose proof (stack_at_empty _ _ _ _ Hs) as Hempty.
  pose proof Hs as (Hchain & Hnd & Hsize & Hmax).
  split; [by rewrite Stack_empty_of|]. split; [|split].
  - unfold LinkedStack.Top. rewrite Hempty.
    destruct addrs as [|a addrs], xs as [|x xs]; try done.
    destruct Hchain as (Htop & nxt & Ha & _).
    rewrite bool_decide_eq_false_2 by done. rewrite Top_of.
    rewrite Htop. cbn [LinkedList.deref]. rewrite Ha. done.
  - intros Hroom x. unfold LinkedStack.push, LinkedList.alloc.
    set (n := fresh (dom mem)). cbn [fst snd].
    assert (Hn : n ∉ addrs) by (by eapply ll_fresh_not_in).
    assert (Hfresh : mem !! n = None) by apply ll_fresh_lookup.
    exists n. split; [by apply Stack_push_of|]. split; [|split; [done|]].
    + split; [|split; [by constructor|split]].
      * cbn [LinkedStack.top ll_chain]. split; [done|].
        exists (LinkedStack.top s). split; [by rewrite lookup_insert_eq|].
        eapply ll_chain_frame; [done|].
        intros b Hb. rewrite !lookup_insert_ne; [done|by intros ->..].
      * cbn [LinkedStack.size length]. rewrite Hsize.
        rewrite add32_exact by (unfold is_int, INT_MIN, INT_MAX in *; lia). lia.
      * cbn [length]. lia.
    + intros p Hp. by rewrite !lookup_insert_ne.
  - destruct addrs as [|a addrs], xs as [|x xs]; try done.
    + exists mem, s. unfold LinkedStack.pop. rewrite Hempty.
      split; [done|]. split; [done|]. done.
    + destruct (stack_pop_spec _ _ _ _ _ _ Hs) as (s' & Hpop & Hs').
      exists (delete a mem), s'. split; [done|].
      split; [by apply Stack_pop_of|]. done.
Qed.

Lemma LinkedStack_refines_witness :
  let mem : LinkedList.memory := {[ 5%positive := LinkedList.mkNode 42 None ]} in
  let s := LinkedStack.mk (Some 5%positive) 1 in
  stack_at mem s [5%positive] [42] /\
  LinkedStack.empty s = false /\
  LinkedStack.Top mem s = Ok 42 /\
  (exists a,
     stack_at (LinkedStack.push mem s 7).1 (LinkedStack.push mem s 7).2
       [a; 5%positive] [7; 42] /\ mem !! a = None) /\
  (exists mem' s',
     LinkedStack.pop mem s = Ok (mem', s') /\
     stack_at mem' s' [] [] /\ mem' = delete 5%positive mem).
Proof.
  intros mem s.
  assert (Hs : stack_at mem s [5%positive] [42]).
  { split.
    - simpl. split; [done|]. exists None. split; [|done].
      subst mem. apply lookup_singleton_eq.
    - split; [apply NoDup_singleton|]. split; [done|].
      unfold INT_MAX. simpl. lia. }
  assert (Hroom : Z.of_nat (length [42]) < INT_MAX) by (by vm_compute).
  split; [exact Hs|].
  destruct (LinkedStack_refines mem s [5%positive] [42] Hs)
    as (Hempty & Htop & Hpush & mem2 & s2 & Hpop & _ & Hs2 & Hmem2).
  split; [exact Hempty|]. split; [exact Htop|]. split.
  - destruct (Hpush Hroom 7) as (a & _ & Hs1 & Hfresh & _).
    exists a. split; [exact Hs1|exact Hfresh].
  - exists mem2, s2. split; [exact Hpop|]. split; [exact Hs2|exact Hmem2].
Defined.

(** X29. The destructors free what the objects own: [~Queue()] and
    [~Stack()] end, free exactly the nodes of the object, and leave every
    other node of the memory as it is. *)
Theorem Linked_destructors (mem : LinkedList.memory) (addrs : list addr)
    (xs : list Z) :
  (forall q, queue_at mem q addrs xs ->
     LinkedQueue.destroy (S (length xs)) mem q = Ok (foldl (fun m a => delete a m) mem addrs)) /\
  (forall s, stack_at mem s addrs xs ->
     LinkedStack.destroy (S (length xs)) mem s = Ok (foldl (fun m a => delete a m) mem addrs)).
Proof.
  split.
  - revert mem xs. induction addrs as [|a addrs IH]; intros mem xs q Hq.
    + pose proof (queue_at_empty _ _ _ _ Hq) as Hempty.
      destruct Hq as (Hchain & _). destruct xs; [|done].
      cbn [LinkedQueue.destroy length]. by rewrite Hempty.
    + pose proof (queue_at_empty _ _ _ _ Hq) as Hempty.
      destruct xs as [|x xs]; [by destruct Hq as (? & _)|].
      destruct (queue_dequeue_spec _ _ _ _ _ _ Hq) as (q' & Hdeq & Hq').
      cbn [length]. cbn [LinkedQueue.destroy].
      rewrite Hempty, bool_decide_eq_false_2 by done. cbn [negb].
      rewrite Hdeq. cbn [mbind result_bind]. cbn [foldl]. by apply IH.
  - revert mem xs. induction addrs as [|a addrs IH]; intros mem xs s Hs.
    + pose proof (stack_at_empty _ _ _ _ Hs) as Hempty.
      destruct Hs as (Hchain & _). destruct xs; [|done].
      cbn [LinkedStack.destroy length]. by rewrite Hempty.
    + pose proof (stack_at_empty _ _ _ _ Hs) as Hempty.
      destruct xs as [|x xs]; [by destruct Hs as (? & _)|].
      destruct (stack_pop_spec _ _ _ _ _ _ Hs) as (s' & Hpop & Hs').
      cbn [length]. cbn [LinkedStack.destroy].
      rewrite Hempty, bool_decide_eq_false_2 by done. cbn [negb].
      rewrite Hpop. cbn [mbind result_bind]. cbn [foldl]. by apply IH.
Qed.

Lemma Linked_destructors_witness :
  let mem : LinkedList.memory := {[ 5%positive := LinkedList.mkNode 42 None ]} in
  let q := LinkedQueue.mk (Some 5%positive) (Some 5%positive) 1 in
  queue_at mem q [5%positive] [42] /\
  LinkedQueue.destroy 2 mem q = Ok (delete 5%positive mem).
Proof.
  intros mem q.
  assert (Hq : queue_at mem q [5%positive] [42]).
  { split.
    - simpl. split; [done|]. exists None. split; [|done].
      subst mem. apply lookup_singleton_eq.
    - split; [apply NoDup_singleton|]. split; [done|]. split; [done|].
      unfold INT_MAX. simpl. lia. }
  split; [exact Hq|].
  destruct (Linked_destructors mem [5%positive] [42]) as [Hqueue _].
  exact (Hqueue q Hq).
Defined.

(** ** bfs visits the vertices level by level *)

Lemma hops_unique g s v a b : hops g s v a -> hops g s v b -> a = b.
Proof. intros [Ha Hmina] [Hb Hminb]. apply Hmina in Hb. apply Hminb in Ha. lia. Qed.

Lemma hops_start g s : hops g s s 0.
Proof. split; [apply nsteps_O|intros; lia]. Qed.

Lemma hops_reachable g s v k : hops g s v k -> reachable g s v.
Proof. intros [Hk _]. by eapply rtc_nsteps_2. Qed.

Lemma bfs_loop_levels g start fuel : forall visited q out,
  dims (adjMatrix g) (n g) -> 0 <= start < n g -> n g <= INT_MAX ->
  length visited = Z.to_nat (n g) ->
  (forall v, marked visited v <-> v ∈ out ++ q) ->
  NoDup (out ++ q) ->
  (forall v, v ∈ out ++ q -> exists k, hops g start v k) ->
  (forall u v, u ∈ out -> edge g u v -> v ∈ out ++ q) ->
  start ∈ out ++ q ->
  by_levels g start (out ++ q) ->
  (forall x q' dx, q = x :: q' -> hops g start x dx ->
     (forall v b, v ∈ out ++ q -> hops g start v b -> (b <= dx + 1)%nat) /\
     (forall w k, nsteps (edge g) k start w -> (k <= dx)%nat -> w ∈ out ++ q)) ->
  (Z.to_nat (n g) - length out < fuel)%nat ->
  exists out',
    bfs_loop fuel g visited (queue_of q) ("[" +:+ join_ints out) (bool_decide (out = []))
      = Ok ("[" +:+ join_ints out')%string /\
    NoDup out' /\ (forall v, v ∈ out' <-> reachable g start v) /\
    (forall v, v ∈ out' -> exists k, hops g start v k) /\
    by_levels g start out'.
Proof.
  induction fuel as [|fuel IH];
    intros visited q out Hd Hstart Hmax Hlen Hm Hnd Hhops Hcl Hs Hlev Hfront Hfuel;
    [lia|].
  assert (Hreach : forall v, v ∈ out ++ q -> reachable g start v).
  { intros v Hv. destruct (Hhops v Hv) as [k Hk]. by eapply hops_reachable. }
  cbn [bfs_loop]. rewrite Queue_empty_of.
  destruct q as [|node q].
  - rewrite bool_decide_eq_true_2 by done. cbn [negb].
    rewrite app_nil_r in *. exists out. split; [done|]. split; [done|].
    split; [|done]. intros v. split; [by apply Hreach|].
    apply reachable_closed; [done|]. intros u w Hu He. by eapply Hcl.
  - rewrite bool_decide_eq_false_2 by done. cbn [negb].
    destruct (Hhops node) as [dx Hdx]; [apply elem_of_app; right; by left|].
    destruct (Hfront node q dx eq_refl Hdx) as [Hbound Hnear].
    assert (Hnode : 0 <= node < n g).
    { destruct Hdx as [Hsteps _].
      destruct dx as [|dx]; [by inversion Hsteps; subst|].
      apply nsteps_inv_r in Hsteps as (y & _ & (_ & Hv & _)). done. }
    pose proof (reachable_length g start _ Hstart Hnd Hreach) as Hall0.
    rewrite length_app in Hall0.
    rewrite Front_of. cbn [mbind result_bind].
    rewrite dequeue_of by lia. cbn [mbind result_bind].
    rewrite intToString_nonneg by lia. cbn [mbind result_bind].
    rewrite emit_snoc.
    assert (Happ : forall added,
              (out ++ [node]) ++ q ++ added = (out ++ node :: q) ++ added)
      by (intros; by rewrite <- !app_assoc).
    assert (Hnd0 : forall added, NoDup added ->
              (forall v, v ∈ added -> ¬ marked visited v /\ edge g node v) ->
              NoDup ((out ++ [node]) ++ q ++ added)).
    { intros added Hnda Hadd. rewrite Happ.
      apply NoDup_app. split; [done|]. split; [|done].
      intros v Hv Hv'. apply Hadd in Hv' as [Hnm _]. by apply Hnm, Hm. }
    assert (Hreach0 : forall added,
              (forall v, v ∈ added -> ¬ marked visited v /\ edge g node v) ->
              forall v, v ∈ (out ++ [node]) ++ q ++ added -> reachable g start v).
    { intros added Hadd v. rewrite Happ. intros [Hv|Hv]%elem_of_app; [by apply Hreach|].
      apply Hadd in Hv as [_ He]. eapply reachable_step; [|exact He].
      apply Hreach. apply elem_of_app. right. by left. }
    destruct (bfs_neighbors_spec g node visited q Hd Hnode Hlen)
      as (visited' & added & Hrun & Hlen' & Hm' & Hnda & Hadd & Hcl').
    { intros added Hnda Hadd.
      pose proof (reachable_length g start _ Hstart (Hnd0 added Hnda Hadd)
                    (Hreach0 added Hadd)) as Hl.
      rewrite !length_app in *. lia. }
    rewrite Hrun. cbn [mbind result_bind].
    specialize (Happ added).
    assert (Hin : forall v, v ∈ (out ++ [node]) ++ q ++ added <->
                            v ∈ out ++ node :: q \/ v ∈ added).
    { intros v. rewrite Happ, elem_of_app. done. }
    assert (Hnd' : NoDup ((out ++ [node]) ++ q ++ added)) by (by apply Hnd0).
    (* the added vertices are one level below the node *)
    assert (Hnew : forall v, v ∈ added -> hops g start v (S dx)).
    { intros v Hv. destruct (Hadd v Hv) as [Hnm He]. split.
      - eapply nsteps_r; [apply Hdx|done].
      - intros k' Hk'. destruct (decide (k' <= dx)%nat) as [Hle|]; [|lia].
        exfalso. apply Hnm, Hm. by eapply Hnear. }
    assert (Hhops' : forall v, v ∈ (out ++ [node]) ++ q ++ added ->
                       exists k, hops g start v k).
    { intros v [Hv|Hv]%Hin; [by apply Hhops|]. exists (S dx). by apply Hnew. }
    assert (Hlev' : by_levels g start ((out ++ [node]) ++ q ++ added)).
    { rewrite Happ. intros i j u v a b Hij Hu Hv Ha Hb.
      destruct (decide (j < length (out ++ node :: q))%nat) as [Hj|Hj].
      - rewrite lookup_app_l in Hu, Hv by lia. by apply (Hlev i j u v a b).
      - rewrite (lookup_app_r _ _ j) in Hv by lia.
        apply list_elem_of_lookup_2 in Hv.
        rewrite (hops_unique _ _ _ _ _ Hb (Hnew v Hv)).
        destruct (decide (i < length (out ++ node :: q))%nat) as [Hi|Hi].
        + rewrite lookup_app_l in Hu by lia.
          apply list_elem_of_lookup_2 in Hu.
          specialize (Hbound u a Hu Ha). lia.
        + rewrite lookup_app_r in Hu by lia.
          apply list_elem_of_lookup_2 in Hu.
          rewrite (hops_unique _ _ _ _ _ Ha (Hnew u Hu)). lia. }
    assert (Hcl2 : forall u v, u ∈ out ++ [node] -> edge g u v ->
                     v ∈ (out ++ [node]) ++ q ++ added).
    { intros u v [Hu| ->%list_elem_of_singleton]%elem_of_app He.
      - apply Hin. left. by eapply Hcl.
      - apply Hin. apply Hcl', Hm' in He as [He|He]; [left; by apply Hm|by right]. }
    apply IH; try done.
    + intros v. rewrite Hm', Hm, Hin. done.
    + apply Hin. by left.
    + (* the next vertex of the queue *)
      intros x q' dx' Hq Hdx'.
      assert (Hxpos : ((out ++ [node]) ++ q ++ added) !! length (out ++ [node]) = Some x).
      { rewrite lookup_app_r by lia. rewrite Nat.sub_diag, Hq. done. }
      assert (Hge : (dx <= dx')%nat).
      { apply (Hlev' (length out) (length (out ++ [node])) node x); try done.
        - rewrite length_app. simpl. lia.
        - rewrite <- app_assoc. rewrite lookup_app_r by lia.
          by rewrite Nat.sub_diag. }
      assert (Hall : forall v b, v ∈ (out ++ [node]) ++ q ++ added ->
                       hops g start v b -> (b <= dx + 1)%nat).
      { intros v b [Hv|Hv]%Hin Hb; [by eapply Hbound|].
        rewrite (hops_unique _ _ _ _ _ Hb (Hnew v Hv)). lia. }
      split.
      * intros v b Hv Hb. specialize (Hall v b Hv Hb). lia.
      * intros w k Hk Hle.
        destruct (decide (k <= dx)%nat) as [Hk'|Hk'].
        { apply Hin. left. by eapply Hnear. }
        assert (Hx : (dx' <= dx + 1)%nat).
        { apply (Hall x); [|done]. by eapply list_elem_of_lookup_2. }
        assert (k = S dx) as -> by lia.
        apply nsteps_inv_r in Hk as (u & Hu & He).
        assert (Huin : u ∈ out ++ node :: q) by (eapply Hnear; [done|lia]).
        destruct (Hhops u Huin) as [du Hdu].
        assert (Hdule : (du <= dx)%nat) by (by apply Hdu).
        apply (Hcl2 u); [|done].
        (* [u] is not in the queue: the queue starts at the level of [x] *)
        assert (Hu' : u ∈ (out ++ [node]) ++ q ++ added) by (apply Hin; by left).
        apply elem_of_app in Hu' as [Hu'|Hu']; [done|exfalso].
        apply list_elem_of_lookup in Hu' as [j Hj].
        assert (Huj : ((out ++ [node]) ++ q ++ added) !! (length (out ++ [node]) + j)%nat
                      = Some u).
        { rewrite lookup_app_r by lia.
          by replace (length (out ++ [node]) + j - length (out ++ [node]))%nat
            with j by lia. }
        pose proof (Hlev' (length (out ++ [node])) (length (out ++ [node]) + j)%nat
                      x u dx' du ltac:(lia) Hxpos Huj Hdx' Hdu). lia.
    + assert (length (out ++ [node]) <= Z.to_nat (n g))%nat.
      { apply NoDup_vertices_length.
        - by apply NoDup_app in Hnd' as [? _].
        - intros x Hx.
          assert (Hx' : x ∈ out ++ node :: q).
          { rewrite elem_of_app in *. rewrite list_elem_of_singleton in Hx.
            destruct Hx as [?| ->]; [by left|right; by left]. }
          destruct (Hhops x Hx') as [k [Hsteps _]].
          destruct k as [|k]; [by inversion Hsteps; subst|].
          apply nsteps_inv_r in Hsteps as (y & _ & (_ & Hv & _)). done. }
      rewrite length_app in *. simpl in *. lia.
Qed.

(** X30. [bfs] visits the vertices level by level: the sequence it
    returns starts with the start vertex, holds every reachable vertex once
    and no other vertex, and a vertex that is fewer edges away from the
    start than another comes before it. *)
Theorem bfs_level_order (g : Graph) (start : Z) :
  dims (adjMatrix g) (n g) -> 0 <= start < n g -> n g <= INT_MAX ->
  exists order,
    bfs g start = Ok (show_ints order) /\
    head order = Some start /\
    NoDup order /\ (forall v, v ∈ order <-> reachable g start v) /\
    by_levels g start order /\
    forall u v a b, hops g start u a -> hops g start v b -> (a < b)%nat ->
      exists i j : nat, (i < j)%nat /\ order !! i = Some u /\ order !! j = Some v.
Proof.
  intros Hd Hstart Hmax. unfold bfs.
  rewrite !bool_decide_eq_false_2 by lia. cbn [orb].
  rewrite new_array_spec by lia. cbn [mbind result_bind].
  rewrite fill_spec by (by rewrite length_replicate). cbn [mbind result_bind].
  rewrite wr_Ok by (rewrite length_replicate; lia). cbn [mbind result_bind].
  change Queue_new with (queue_of []).
  rewrite enqueue_of by (by vm_compute). cbn [mbind result_bind app].
  destruct (bfs_loop_levels g start (S (Z.to_nat (n g)))
    (<[Z.to_nat start := true]> (replicate (Z.to_nat (n g)) false))
    [start] []) as (order & Hrun & Hnd & Hin & Hhops & Hlev); try done.
  - by rewrite length_insert, length_replicate.
  - intros v. rewrite marked_insert by (rewrite length_replicate; lia).
    simpl. rewrite list_elem_of_singleton.
    pose proof (marked_replicate_false (Z.to_nat (n g)) v). tauto.
  - simpl. apply NoDup_singleton.
  - simpl. intros v ->%list_elem_of_singleton. exists 0%nat. apply hops_start.
  - intros u v ?%elem_of_nil. done.
  - simpl. by apply list_elem_of_singleton.
  - simpl. intros i j u v a b Hij Hu Hv Ha Hb.
    apply list_elem_of_lookup_2, list_elem_of_singleton in Hu, Hv. subst.
    rewrite (hops_unique _ _ _ _ _ Ha Hb). lia.
  - intros x q' dx [= <- <-] Hdx.
    rewrite (hops_unique _ _ _ _ _ Hdx (hops_start g start)). split.
    + simpl. intros v b ->%list_elem_of_singleton Hb.
      rewrite (hops_unique _ _ _ _ _ Hb (hops_start g start)). lia.
    + simpl. intros w k Hk Hle. assert (k = 0%nat) as -> by lia.
      inversion Hk; subst. by apply list_elem_of_singleton.
  - simpl. lia.
  - change (bfs_loop (S (Z.to_nat (n g))) g
              (<[Z.to_nat start := true]> (replicate (Z.to_nat (n g)) false))
              (queue_of [start]) "[" true = Ok ("[" +:+ join_ints order)%string) in Hrun.
    rewrite Hrun. cbn [mbind result_bind].
    exists order. split; [unfold show_ints; by rewrite string_app_assoc|].
    assert (Hfind : forall v k, hops g start v k -> exists i : nat, order !! i = Some v).
    { intros v k Hk. apply list_elem_of_lookup, Hin. by eapply hops_reachable. }
    assert (Hbefore : forall u v a b, hops g start u a -> hops g start v b ->
              (a < b)%nat ->
              exists i j : nat, (i < j)%nat /\ order !! i = Some u /\ order !! j = Some v).
    { intros u v a b Ha Hb Hab.
      destruct (Hfind u a Ha) as [i Hi]. destruct (Hfind v b Hb) as [j Hj].
      exists i, j. split; [|done].
      destruct (decide (i < j)%nat) as [|Hge]; [done|exfalso].
      pose proof (Hlev j i v u b a ltac:(lia) Hj Hi Hb Ha). lia. }
    split; [|done].
    destruct (Hfind start 0%nat (hops_start g start)) as [j Hj].
    destruct order as [|u order]; [done|]. simpl. f_equal.
    destruct (Hhops u ltac:(by left)) as [a Ha].
    pose proof (Hlev 0%nat j u start a 0%nat ltac:(lia) eq_refl Hj Ha
                  (hops_start g start)) as Hle.
    assert (a = 0%nat) as -> by lia.
    destruct Ha as [Ha _]. by inversion Ha.
Qed.

Lemma bfs_level_order_witness :
  let g := mkGraph 4 [[0; 0; 1; 1]; [0; 0; 0; 0]; [0; 1; 0; 0]; [0; 0; 0; 0]] true in
  (dims (adjMatrix g) (n g) /\ 0 <= 0 < n g /\ n g <= INT_MAX) /\
  (exists order, bfs g 0 = Ok (show_ints order) /\ head order = Some 0 /\
     NoDup order /\ (forall v, v ∈ order <-> reachable g 0 v) /\
     by_levels g 0 order) /\
  bfs g 0 = Ok "[0,2,3,1]"%string.
Proof.
  intros g.
  assert (Hd : dims (adjMatrix g) (n g)).
  { split; [done|]. split; [done|]. by repeat constructor. }
  assert (Hs : 0 <= 0 < n g) by (simpl; lia).
  assert (Hm : n g <= INT_MAX) by (by vm_compute).
  split; [done|]. split; [|reflexivity].
  destruct (bfs_level_order g 0 Hd Hs Hm)
    as (order & Hrun & Hhead & Hnd & Hin & Hlev & _).
  exists order. done.
Defined.
